(** * Merklytic whitelist: shallow embedding and verification

    The development follows the repository's layout:
    - [Keccak], [Hex]: the byte-level primitives the libraries rest on;
    - [Ethers]: [getAddress], [parseEther] and the ABI coder of the
      [ethers] dependency, as far as the services call them;
    - [MerkleTreeLib]: [makeMerkleTree], [getProof], [processProof] and
      [StandardMerkleTree.of] of the [@openzeppelin/merkle-tree] dependency;
    - [MerkleTreeWhitelist]: the on-chain contract, and [Contract]: its
      storage and its transactions;
    - [DynamoDbService], [WhitelistDataService], [WhitelistCommandService],
      [WhitelistQueryService]: the off-chain services, and [ParsedGate]: the
      input gate on the records that the CSV parser returns;
    - [Handler]: the authorization of the routes of the handler.

    Hashes (bytes32) are 256-bit integers in [Z]; byte strings are [list Z]
    with entries in [0, 256); JavaScript strings are [string]. *)

From Stdlib Require Import ZArith List String Ascii Lia Bool.
From Stdlib Require Import DecimalString DecimalZ DecimalN DecimalPos.
From stdpp Require Import gmap strings list sorting.
From Equations Require Import Equations.

Local Open Scope Z_scope.

(** ** Byte strings *)

Definition bytes := list Z.

(** Big-endian rendering of [v] on [n] bytes (the high bytes are dropped
    when [v] does not fit, as a fixed-width write does). *)
Fixpoint be_bytes (n : nat) (v : Z) : bytes :=
  match n with
  | O => []
  | S k => (Z.shiftr v (8 * Z.of_nat k)) mod 256 :: be_bytes k v
  end.

Definition be_value (bs : bytes) : Z :=
  fold_left (fun acc b => acc * 256 + b) bs 0.

Fixpoint le_bytes (n : nat) (v : Z) : bytes :=
  match n with
  | O => []
  | S k => v mod 256 :: le_bytes k (Z.shiftr v 8)
  end.

Fixpoint le_value (bs : bytes) : Z :=
  match bs with
  | [] => 0
  | b :: r => b + 256 * le_value r
  end.

(** ** Keccak-256 (the original Keccak padding, as used by Ethereum) *)

Module Keccak.

Definition mask64 : Z := 18446744073709551615.

Definition rol64 (x n : Z) : Z :=
  Z.lor (Z.land (Z.shiftl x n) mask64) (Z.shiftr x (64 - n)).

Definition lane (A : list Z) (i : nat) : Z := nth i A 0.

Definition round_constants : list Z :=
  [ 0x0000000000000001; 0x0000000000008082; 0x800000000000808A;
    0x8000000080008000; 0x000000000000808B; 0x0000000080000001;
    0x8000000080008081; 0x8000000000008009; 0x000000000000008A;
    0x0000000000000088; 0x0000000080008009; 0x000000008000000A;
    0x000000008000808B; 0x800000000000008B; 0x8000000000008089;
    0x8000000000008003; 0x8000000000008002; 0x8000000000000080;
    0x000000000000800A; 0x800000008000000A; 0x8000000080008081;
    0x8000000000008080; 0x0000000080000001; 0x8000000080008008 ].

(** For the target lane [X + 5Y] of the rho and pi steps: the source
    lane and its rotation. *)
Definition rho_pi : list (nat * nat) :=
  [ (0, 0); (6, 44); (12, 43); (18, 21); (24, 14);
    (3, 28); (9, 20); (10, 3); (16, 45); (22, 61);
    (1, 1); (7, 6); (13, 25); (19, 8); (20, 18);
    (4, 27); (5, 36); (11, 10); (17, 15); (23, 56);
    (2, 62); (8, 55); (14, 39); (15, 41); (21, 2) ]%nat.

Definition indices25 : list nat := seq 0 25.

Definition theta (A : list Z) : list Z :=
  let C := map (fun x =>
                  Z.lxor (lane A x)
                    (Z.lxor (lane A (x + 5)%nat)
                       (Z.lxor (lane A (x + 10)%nat)
                          (Z.lxor (lane A (x + 15)%nat) (lane A (x + 20)%nat)))))
               (seq 0 5) in
  let D := map (fun x =>
                  Z.lxor (lane C ((x + 4) mod 5)%nat)
                         (rol64 (lane C ((x + 1) mod 5)%nat) 1))
               (seq 0 5) in
  map (fun i => Z.lxor (lane A i) (lane D (i mod 5)%nat)) indices25.

Definition rho_pi_step (A : list Z) : list Z :=
  map (fun sr : nat * nat => rol64 (lane A (fst sr)) (Z.of_nat (snd sr))) rho_pi.

Definition chi (B : list Z) : list Z :=
  map (fun i =>
         let x := (i mod 5)%nat in
         let y := (i / 5)%nat in
         Z.lxor (lane B i)
           (Z.land (Z.lxor (lane B ((x + 1) mod 5 + 5 * y)%nat) mask64)
                   (lane B ((x + 2) mod 5 + 5 * y)%nat)))
      indices25.

Definition iota (rc : Z) (A : list Z) : list Z :=
  match A with
  | [] => []
  | a :: r => Z.lxor a rc :: r
  end.

Definition round (A : list Z) (rc : Z) : list Z :=
  iota rc (chi (rho_pi_step (theta A))).

Definition keccak_f (A : list Z) : list Z :=
  fold_left round round_constants A.

Definition rate : nat := 136.

(** pad10*1 with the Keccak domain byte 0x01. *)
Definition pad (msg : bytes) : bytes :=
  let q := (rate - (List.length msg) mod rate)%nat in
  if (q =? 1)%nat then msg ++ [0x81]
  else msg ++ [0x01] ++ repeat 0 (q - 2) ++ [0x80].

Fixpoint lanes_of_block (n : nat) (blk : bytes) : list Z :=
  match n with
  | O => []
  | S k => le_value (firstn 8 blk) :: lanes_of_block k (skipn 8 blk)
  end.

Definition absorb_block (A : list Z) (blk : bytes) : list Z :=
  let ls := lanes_of_block 17 blk in
  keccak_f (map (fun i => Z.lxor (lane A i) (lane ls i)) indices25).

Fixpoint absorb (nblocks : nat) (A : list Z) (p : bytes) : list Z :=
  match nblocks with
  | O => A
  | S k => absorb k (absorb_block A (firstn rate p)) (skipn rate p)
  end.

Definition squeeze32 (A : list Z) : bytes :=
  flat_map (fun i => le_bytes 8 (lane A i)) (seq 0 4).

Definition hash (msg : bytes) : bytes :=
  let p := pad msg in
  squeeze32 (absorb (List.length p / rate) (repeat 0 25) p).

(** The digest as a bytes32 value.  The final reduction is the identity
    on a 32-byte digest; it records the width of the result. *)
Definition keccak256 (msg : bytes) : Z :=
  be_value (hash msg) mod 2 ^ 256.

End Keccak.

#[global] Arguments be_bytes : simpl never.

(** The services and libraries below take the hash function as a
    parameter [keccak256 : bytes -> Z]; the program is their instance at
    [Keccak.keccak256].  Proofs are carried out for the parameter, so that
    no proof step ever evaluates the hash. *)

(** ** Characters and hexadecimal strings *)

Definition chars (s : string) : list ascii := list_ascii_of_string s.
Definition str (cs : list ascii) : string := string_of_list_ascii cs.

Definition code (c : ascii) : Z := Z.of_N (N_of_ascii c).
Definition ascii_of_code (z : Z) : ascii := ascii_of_N (Z.to_N z).

Definition in_range (lo hi : Z) (c : ascii) : bool :=
  (lo <=? code c) && (code c <=? hi).

Definition is_digit : ascii -> bool := in_range 48 57.         (* [0-9] *)
Definition is_lower_af : ascii -> bool := in_range 97 102.     (* [a-f] *)
Definition is_upper_AF : ascii -> bool := in_range 65 70.      (* [A-F] *)
Definition is_lower : ascii -> bool := in_range 97 122.        (* [a-z] *)
Definition is_upper : ascii -> bool := in_range 65 90.         (* [A-Z] *)

Definition is_hex_digit (c : ascii) : bool :=
  is_digit c || is_lower_af c || is_upper_AF c.                (* [0-9a-fA-F] *)

Definition toLowerCase_char (c : ascii) : ascii :=
  if is_upper c then ascii_of_code (code c + 32) else c.

Definition toUpperCase_char (c : ascii) : ascii :=
  if is_lower c then ascii_of_code (code c - 32) else c.

Definition toLowerCase (s : string) : string := str (map toLowerCase_char (chars s)).

Fixpoint takeWhile {A} (f : A -> bool) (l : list A) : list A :=
  match l with
  | x :: r => if f x then x :: takeWhile f r else []
  | [] => []
  end.

Fixpoint dropWhile {A} (f : A -> bool) (l : list A) : list A :=
  match l with
  | x :: r => if f x then dropWhile f r else l
  | [] => []
  end.

Definition startsWith (s p : string) : bool :=
  bool_decide (take (List.length (chars p)) (chars s) = chars p).

Module Hex.

Definition digit_value (c : ascii) : Z :=
  if is_digit c then code c - 48
  else if is_lower_af c then code c - 87
  else if is_upper_AF c then code c - 55
  else 0.

Definition value (cs : list ascii) : Z :=
  fold_left (fun acc c => acc * 16 + digit_value c) cs 0.

Definition digit (v : Z) : ascii :=
  if v <? 10 then ascii_of_code (48 + v) else ascii_of_code (87 + v).

(** The [n] low nibbles of [v], most significant first, lowercase. *)
Fixpoint digits (n : nat) (v : Z) : list ascii :=
  match n with
  | O => []
  | S k => digit (Z.land (Z.shiftr v (4 * Z.of_nat k)) 15) :: digits k v
  end.

(** A bytes32 as a [HexString]: "0x" and 64 lowercase digits. *)
Definition hexlify32 (h : Z) : string := str (chars "0x" ++ digits 64 h).

(** The inverse reading, for a consumer of the stored strings. *)
Definition parse32 (s : string) : option Z :=
  let cs := chars s in
  if startsWith s "0x" && (List.length cs =? 66)%nat && forallb is_hex_digit (drop 2 cs)
  then Some (value (drop 2 cs)) else None.

End Hex.

(** ** The [ethers] dependency

    [getAddress], [parseEther] and the ABI coder are library code outside
    the repository; they are transcribed from ethers v6 (the version
    range of package.json).  A thrown exception is [None]. *)

Module Ethers.

Section WithHash.
Context (keccak256 : bytes -> Z).

Definition ZeroAddress : string := "0x0000000000000000000000000000000000000000".

(** Nibble [i] (0 = most significant) of a bytes32: for even [i] this is
  [hashed[i >> 1] >> 4], for odd [i] it is [hashed[i >> 1] & 0x0f]. *)
Definition nibble (h : Z) (i : nat) : Z :=
Z.land (Z.shiftr h (4 * (63 - Z.of_nat i))) 15.

Definition getChecksumAddress (address : string) : string :=
let cs := drop 2 (chars (toLowerCase address)) in
let hashed := keccak256 (map code cs) in
str (chars "0x" ++
     imap (fun i c => if 8 <=? nibble hashed i then toUpperCase_char c else c) cs).

(** Specification helper: the checksummed rendering of the 40 hex
  digits [body]; [getChecksumAddress] of "0x" followed by [body]. *)
Definition checksummed (body : list ascii) : string :=
let lb := map toLowerCase_char body in
str (chars "0x" ++
     imap (fun i c => if 8 <=? nibble (keccak256 (map code lb)) i
                      then toUpperCase_char c else c) lb).

(** /^(0x)?[0-9a-fA-F]{40}$/ *)
Definition matches_address (address : string) : bool :=
let cs := chars address in
let body := if startsWith address "0x" then drop 2 cs else cs in
(List.length body =? 40)%nat && forallb is_hex_digit body.

(** /([A-F].*[a-f])|([a-f].*[A-F])/ : an upper-case and a lower-case
  hex letter both occur (in either order). *)
Definition matches_mixed_case (address : string) : bool :=
existsb is_upper_AF (chars address) && existsb is_lower_af (chars address).

(** [getAddress].  The ICAP branch (/^XE[0-9]{2}[0-9A-Za-z]{30,31}$/,
  34 or 35 characters) is outside the model: every caller in the
  services passes a string of 42 characters, on which the model is
  exact. *)
Definition getAddress (address : string) : option string :=
if matches_address address then
  let address' := if startsWith address "0x" then address
                  else ("0x" +:+ address)%string in
  let result := getChecksumAddress address' in
  if negb (matches_mixed_case address') || String.eqb result address'
  then Some result
  else None
else None.

(** The match of [FixedNumber.fromString]: an optional minus sign, a
  greedy run of digits, an optional dot, a run of digits, end of
  input; the result is the sign, the whole and the decimal part. *)
(** An optional leading character [c]: whether it is there, and the rest. *)
Definition optional_char (c : ascii) (cs : list ascii) : bool * list ascii :=
match cs with
| x :: r => if bool_decide (x = c) then (true, r) else (false, cs)
| [] => (false, [])
end.

Definition fixed_match (value : string) : option (bool * list ascii * list ascii) :=
let (neg, r) := optional_char "-" (chars value) in
let whole := takeWhile is_digit r in
let r2 := snd (optional_char "." (dropWhile is_digit r)) in
let decimal := takeWhile is_digit r2 in
match dropWhile is_digit r2 with
| [] => Some (neg, whole, decimal)
| _ => None
end.

Definition decimal_value (ds : list ascii) : Z :=
fold_left (fun acc c => acc * 10 + (code c - 48)) ds 0.

(** [parseUnits(value, decimals)] through [FixedNumber.fromString] with
  width 512, signed. *)
Definition parseUnits (value : string) (decimals : nat) : option Z :=
match fixed_match value with
| Some (neg, whole, decimal) =>
    if (0 <? List.length whole + List.length decimal)%nat then
      let whole' := match whole with [] => chars "0" | _ => whole end in
      let padded := decimal ++ replicate (decimals - List.length decimal) "0"%char in
      if forallb (fun c => bool_decide (c = "0"%char)) (drop decimals padded) then
        let v := decimal_value (whole' ++ take decimals padded) in
        let v := if neg then - v else v in
        if (- 2 ^ 511 <=? v) && (v <? 2 ^ 511) then Some v else None
      else None
    else None
| None => None
end.

Definition parseEther (ether : string) : option Z := parseUnits ether 18.

(** [bigint.toString()]. *)
Definition toString (v : Z) : string := NilZero.string_of_int (Z.to_int v).

(** [getBigInt] on a decimal string (the only form the services
  produce; hexadecimal, octal and binary literals are outside the
  model). *)
Definition getBigInt (s : string) : option Z :=
match NilZero.int_of_string s with
| Some d => Some (Z.of_int d)
| None => None
end.

(** [AbiCoder.encode(["address", "uint256"], [address, amount])]:
  two 32-byte words; raises on an invalid address and on an amount
  outside uint256. *)
Definition abi_encode_address_uint256 (address amount : string) : option bytes :=
match getAddress address, getBigInt amount with
| Some a, Some v =>
    if (0 <=? v) && (v <? 2 ^ 256)
    then Some (be_bytes 32 (Hex.value (drop 2 (chars a))) ++ be_bytes 32 v)
    else None
| _, _ => None
end.

End WithHash.

End Ethers.

(** ** The [@openzeppelin/merkle-tree] dependency

    Library code outside the repository, transcribed from version 1.0.x
    (core.ts, hashes.ts, merkletree.ts, standard.ts).  The tree is the
    array of the library: node [i] has children [2i+1] and [2i+2], the
    root is node 0, and the leaves fill the array from its end. *)

Module MerkleTreeLib.

Inductive LibError :=
| InvalidArgumentError (msg : string)
| InvariantError (msg : string).

Definition compare (a b : Z) : Z :=
  let diff := a - b in
  if diff >? 0 then 1 else if diff <? 0 then - 1 else 0.

(** [[a, b].sort(compare)] *)
Definition sortPair (a b : Z) : list Z :=
  if compare a b >? 0 then [b; a] else [a; b].

Definition concat32 (l : list Z) : bytes := flat_map (be_bytes 32) l.

Section WithHash.
Context (keccak256 : bytes -> Z).

Definition standardNodeHash (a b : Z) : Z :=
keccak256 (concat32 (sortPair a b)).

(** [keccak256(keccak256(defaultAbiCoder.encode(types, value)))] for
  the encoding ["address", "uint256"]. *)
Definition standardLeafHash (value : string * string) : option Z :=
match Ethers.abi_encode_address_uint256 keccak256 (fst value) (snd value) with
| Some enc => Some (keccak256 (be_bytes 32 (keccak256 enc)))
| None => None
end.

Definition isValidMerkleNode (h : Z) : bool := (0 <=? h) && (h <? 2 ^ 256).

Definition leftChildIndex (i : nat) : nat := 2 * i + 1.
Definition rightChildIndex (i : nat) : nat := 2 * i + 2.
(** Both are called for [i > 0] only (they raise on the root). *)
Definition parentIndex (i : nat) : nat := (i - 1) / 2.
Definition siblingIndex (i : nat) : nat :=
if Nat.even i then i - 1 else i + 1.

Definition isTreeNode (tree : list Z) (i : nat) : bool :=
(i <? List.length tree)%nat.
Definition isInternalNode (tree : list Z) (i : nat) : bool :=
isTreeNode tree (leftChildIndex i).
Definition isLeafNode (tree : list Z) (i : nat) : bool :=
isTreeNode tree i && negb (isInternalNode tree i).

Section Core.

Variable nodeHash : Z -> Z -> Z.

(** [for (const [i, leaf] of leaves.entries()) tree[tree.length - 1 - i] = leaf] *)
Definition place_leaves (tree : list Z) (leaves : list Z) : list Z :=
foldl (fun t (il : nat * Z) =>
         <[(List.length tree - 1 - fst il)%nat := snd il]> t)
      tree (imap pair leaves).

(** [for (let i = k - 1; i >= 0; i--) tree[i] = nodeHash(tree[2i+1], tree[2i+2])] *)
Fixpoint fill_internal (k : nat) (tree : list Z) : list Z :=
match k with
| O => tree
| S i =>
    fill_internal i
      (<[i := nodeHash (tree !!! leftChildIndex i) (tree !!! rightChildIndex i)]> tree)
end.

Definition makeMerkleTree (leaves : list Z) : LibError + list Z :=
if negb (forallb isValidMerkleNode leaves) then
  inl (InvalidArgumentError "Merkle tree nodes must be Uint8Array of length 32")
else if (List.length leaves =? 0)%nat then
  inl (InvalidArgumentError "Expected non-zero number of leaves")
else
  let len := (2 * List.length leaves - 1)%nat in
  let tree := place_leaves (replicate len 0) leaves in
  inr (fill_internal (len - List.length leaves) tree).

(** [while (index > 0) { proof.push(tree[siblingIndex(index)]); index = parentIndex(index); }] *)
Equations getProof_loop (tree : list Z) (index : nat) : list Z by wf index lt :=
getProof_loop tree 0 := [];
getProof_loop tree (S k) :=
  tree !!! siblingIndex (S k) :: getProof_loop tree (parentIndex (S k)).
Next Obligation.
unfold parentIndex.
assert (H : ((S k - 1) / 2 <= S k - 1)%nat) by (apply Nat.Div0.div_le_upper_bound; lia).
lia.
Qed.

Definition getProof (tree : list Z) (index : nat) : LibError + list Z :=
if isLeafNode tree index then inr (getProof_loop tree index)
else inl (InvalidArgumentError "Index is not a leaf").

(** [proof.reduce(nodeHash, leaf)] *)
Definition processProof (leaf : Z) (proof : list Z) : Z :=
fold_left nodeHash proof leaf.

(** Specification helper: every internal node of the array tree is the
    hash of its two children. *)
Definition well_formed (t : list Z) : Prop :=
forall j : nat, (2 * j + 2 < List.length t)%nat ->
  t !!! j = nodeHash (t !!! leftChildIndex j) (t !!! rightChildIndex j).

End Core.

(** *** StandardMerkleTree *)

Record HashedValue := {
hv_value : string * string;
hv_valueIndex : nat;
hv_hash : Z;
}.

Record IndexedValue := {
iv_value : string * string;
treeIndex : nat;
}.

Record StandardMerkleTree := {
tree : list Z;
values : list IndexedValue;
}.

(** [hashedValues.sort((a, b) => compare(a.hash, b.hash))]: the sort is
  stable, an element goes after the elements that do not exceed it. *)
Fixpoint insert_sorted (x : HashedValue) (l : list HashedValue) : list HashedValue :=
match l with
| [] => [x]
| y :: r =>
    if compare (hv_hash x) (hv_hash y) <? 0 then x :: y :: r
    else y :: insert_sorted x r
end.

Definition sort (l : list HashedValue) : list HashedValue :=
foldl (fun acc x => insert_sorted x acc) [] l.

Fixpoint hashValues (i : nat) (vs : list (string * string)) : option (list HashedValue) :=
match vs with
| [] => Some []
| v :: r =>
    match standardLeafHash v, hashValues (S i) r with
    | Some h, Some hs =>
        Some ({| hv_value := v; hv_valueIndex := i; hv_hash := h |} :: hs)
    | _, _ => None
    end
end.

Definition set_treeIndex (t : nat) (v : IndexedValue) : IndexedValue :=
{| iv_value := iv_value v; treeIndex := t |}.

(** [indexedValues[valueIndex].treeIndex = tree.length - leafIndex - 1]
  for every [leafIndex, {valueIndex}] of [hashedValues.entries()]. *)
Definition index_values (len : nat) (vs : list (string * string))
  (sorted : list HashedValue) : list IndexedValue :=
foldl (fun acc (ih : nat * HashedValue) =>
         alter (set_treeIndex (len - fst ih - 1)%nat) (hv_valueIndex (snd ih)) acc)
      (map (fun v => {| iv_value := v; treeIndex := 0 |}) vs)
      (imap pair sorted).

Inductive OfError :=
| EncodeError                    (* the ABI coder raised *)
| TreeError (e : LibError).

(** [StandardMerkleTree.of(values, ["address", "uint256"])] with the
  default options (sorted leaves, standard node hash). *)
Definition StandardMerkleTree_of (vs : list (string * string)) : OfError + StandardMerkleTree :=
match hashValues 0 vs with
| None => inl EncodeError
| Some hashed =>
    let sorted := sort hashed in
    match makeMerkleTree standardNodeHash (map hv_hash sorted) with
    | inl e => inl (TreeError e)
    | inr t => inr {| tree := t; values := index_values (List.length t) vs sorted |}
    end
end.

Definition root (t : StandardMerkleTree) : Z := tree t !!! 0%nat.

(** [tree.entries()] *)
Definition entries (t : StandardMerkleTree) : list (nat * (string * string)) :=
imap (fun i v => (i, iv_value v)) (values t).

(** [tree.getProof(valueIndex)], with its two sanity checks. *)
Definition getProofAt (t : StandardMerkleTree) (valueIndex : nat) : OfError + list Z :=
match values t !! valueIndex with
| None => inl (TreeError (InvalidArgumentError "Index out of bounds"))
| Some v =>
    match standardLeafHash (iv_value v) with
    | None => inl EncodeError
    | Some h =>
        if negb (bool_decide (tree t !!! treeIndex v = h)) then
          inl (TreeError (InvariantError "Merkle tree does not contain the expected value"))
        else
          match getProof (tree t) (treeIndex v) with
          | inl e => inl (TreeError e)
          | inr proof =>
              if bool_decide
                   (root t = processProof standardNodeHash (tree t !!! treeIndex v) proof)
              then inr proof
              else inl (TreeError (InvariantError "Unable to prove value"))
          end
    end
end.

(** [StandardMerkleTree.verify(root, ["address", "uint256"], leaf, proof)] *)
Definition verify (root : Z) (leaf : string * string) (proof : list Z) : option bool :=
match standardLeafHash leaf with
| Some h => Some (root =? processProof standardNodeHash h proof)
| None => None
end.

End WithHash.

End MerkleTreeLib.

(** ** The on-chain verifier (contracts/MerkleTreeWhitelist.sol)

    with [MerkleProof.verify] of OpenZeppelin Contracts 5.x. *)

Module MerkleTreeWhitelist.

Section WithHash.
Context (keccak256 : bytes -> Z).

Definition efficientKeccak256 (a b : Z) : Z :=
keccak256 (be_bytes 32 a ++ be_bytes 32 b).

Definition commutativeKeccak256 (a b : Z) : Z :=
if a <? b then efficientKeccak256 a b else efficientKeccak256 b a.

Definition processProof (proof : list Z) (leaf : Z) : Z :=
fold_left commutativeKeccak256 proof leaf.

Definition verify (proof : list Z) (root leaf : Z) : bool :=
processProof proof leaf =? root.

(** [abi.encode(whitelistAddress, whitelistAmountWei)] *)
Definition abi_encode (whitelistAddress whitelistAmountWei : Z) : bytes :=
be_bytes 32 whitelistAddress ++ be_bytes 32 whitelistAmountWei.

(** [isWhitelistedFor]: a revert is [inl] with its reason. *)
Definition isWhitelistedFor (merkleRoot : Z)
  (whitelistAddress whitelistAmountWei : Z) (proof : list Z) : string + bool :=
if whitelistAddress =? 0 then inl "MTWL: zero address"%string
else
  let leaf := keccak256 (be_bytes 32 (keccak256 (abi_encode whitelistAddress whitelistAmountWei))) in
  if verify proof merkleRoot leaf then inr true
  else inl "MTWL: invalid proof"%string.

End WithHash.

End MerkleTreeWhitelist.

(** ** Shared declarations (iWhitelistApplicationService.mts,
    iDynamoDbService.mts, iWhitelistCommandService.mts, the error classes) *)

Definition ValidEvmAddressLen : nat := 42.
Definition ValidWhitelistAmountMaxLen : nat := 30.
Definition ValidWhitelistAmountMinLen : nat := 1.
Definition ValidateWhitelistEntriesMaxCount : Z := 100000.
Definition ValidPartitionKeyValueMaxLen : nat := 1024.
Definition ValidPartitionKeyValueMinLen : nat := 1.
Definition ValidWhitelistNameMaxLen : nat := ValidPartitionKeyValueMaxLen.
Definition ValidWhitelistNameMinLen : nat := ValidPartitionKeyValueMinLen.

(** /^(0x|0X)[0-9A-Fa-f]{40}$/ *)
Definition ValidEvmAddressRegex_test (s : string) : bool :=
  (startsWith s "0x" || startsWith s "0X")
  && (List.length (drop 2 (chars s)) =? 40)%nat
  && forallb is_hex_digit (drop 2 (chars s)).

Definition is_name_char (c : ascii) : bool :=
  is_digit c || is_upper c || is_lower c
  || bool_decide (c = "_"%char) || bool_decide (c = "-"%char).

(** /^[A-Za-z][0-9A-Za-z_-]*$/ *)
Definition ValidWhitelistNameRegex_test (s : string) : bool :=
  match chars s with
  | c :: r => (is_upper c || is_lower c) && forallb is_name_char r
  | [] => false
  end.

Inductive WhitelistStatus := Completed | Creating | Deleting | Failed.

Definition WhitelistStatus_toString (s : WhitelistStatus) : string :=
  match s with
  | Completed => "COMPLETED"
  | Creating => "CREATING"
  | Deleting => "DELETING"
  | Failed => "FAILED"
  end.

#[global] Instance WhitelistStatus_eq_dec : EqDecision WhitelistStatus.
Proof. solve_decision. Defined.

Module WhitelistEntry.
Record t := mk { WhitelistAddress : string; WhitelistAmount : string }.
End WhitelistEntry.

Module MerkleProofRecord.
Record t := mk {
  MerkleProof : string;
  WhitelistAddress : string;
  WhitelistAmountWei : string;
}.
End MerkleProofRecord.

Module MerkleRootRecord.
Record t := mk { MerkleRoot : string; WhitelistStatus : WhitelistStatus }.
End MerkleRootRecord.

#[global] Instance MerkleProofRecord_eq_dec : EqDecision MerkleProofRecord.t.
Proof. solve_decision. Defined.
#[global] Instance MerkleRootRecord_eq_dec : EqDecision MerkleRootRecord.t.
Proof. solve_decision. Defined.

(** The exceptions of the provider (subclasses of
    [DynamoDBServiceException]); [name] is the class name. *)
Inductive DynamoDBKind :=
| ConditionalCheckFailedException
| DuplicateItemException
| InternalServerError
| InvalidEndpointException
| ItemCollectionSizeLimitExceededException
| ProvisionedThroughputExceededException
| ReplicatedWriteConflictException
| RequestLimitExceeded
| ResourceNotFoundException
| TransactionConflictException
| OtherServiceException (name : string).

Definition DynamoDBKind_name (k : DynamoDBKind) : string :=
  match k with
  | ConditionalCheckFailedException => "ConditionalCheckFailedException"
  | DuplicateItemException => "DuplicateItemException"
  | InternalServerError => "InternalServerError"
  | InvalidEndpointException => "InvalidEndpointException"
  | ItemCollectionSizeLimitExceededException => "ItemCollectionSizeLimitExceededException"
  | ProvisionedThroughputExceededException => "ProvisionedThroughputExceededException"
  | ReplicatedWriteConflictException => "ReplicatedWriteConflictException"
  | RequestLimitExceeded => "RequestLimitExceeded"
  | ResourceNotFoundException => "ResourceNotFoundException"
  | TransactionConflictException => "TransactionConflictException"
  | OtherServiceException name => name
  end.

(** Thrown values. *)
Inductive Exception :=
| ValidationError (message : string)
| NoSqlError (name message : string)
| DynamoDBServiceException (kind : DynamoDBKind) (message : string)
| Error_ (name message : string).   (* any other Error: Error, TypeError, library errors *)

#[global] Instance DynamoDBKind_eq_dec : EqDecision DynamoDBKind.
Proof. solve_decision. Defined.
#[global] Instance Exception_eq_dec : EqDecision Exception.
Proof. solve_decision. Defined.

Definition nat_toString (n : nat) : string := Ethers.toString (Z.of_nat n).

(** [Array.prototype.join] *)
Fixpoint join (sep : string) (l : list string) : string :=
  match l with
  | [] => ""
  | [x] => x
  | x :: r => x +:+ sep +:+ join sep r
  end.

(** ** whitelistCommandService.mts: the input gate and the Merkle builder
    of [createMerkleTree] (lines 77 to 177), on the parsed CSV rows *)

Module CommandServiceBuilder.

Import WhitelistEntry.

Section WithHash.
Context (keccak256 : bytes -> Z).

(** The callback of [whitelistEntries.every]: [None] when the row is
  accepted, the logged message when it is refused. *)
Definition check_entry (index : nat) (element : WhitelistEntry.t) : option string :=
let address := WhitelistAddress element in
let amount := WhitelistAmount element in
if negb (String.length address =? ValidEvmAddressLen)%nat
   || negb (ValidEvmAddressRegex_test address) then
  Some ("[ERR] Invalid whitelist address at line " +:+ nat_toString index
        +:+ ": " +:+ address)
else if String.eqb address Ethers.ZeroAddress then
  Some ("[ERR] zero whitelist address at line " +:+ nat_toString index
        +:+ ": " +:+ address)
else
  match Ethers.getAddress keccak256 address with
  | None =>
      Some ("[ERR] Whitelist address invalid at line " +:+ nat_toString index
            +:+ ": " +:+ address)
  | Some _ =>
      if (String.length amount <? ValidWhitelistAmountMinLen)%nat
         || (ValidWhitelistAmountMaxLen <? String.length amount)%nat then
        Some ("[ERR] Invalid whitelist amount length at line " +:+ nat_toString index
              +:+ ": " +:+ amount)
      else
        match Ethers.parseEther amount with
        | Some whitelistAmountWei =>
            if whitelistAmountWei <? 0 then
              Some ("[ERR] Invalid whitelist amount value at line "
                    +:+ nat_toString index +:+ ": " +:+ amount)
            else None
        | None =>
            Some ("[ERR] Whitelist amount value invalid at line "
                  +:+ nat_toString index +:+ ": " +:+ amount)
        end
  end.

(** [whitelistEntries.every(...)]: stops at the first refused row. *)
Fixpoint every (index : nat) (es : list WhitelistEntry.t) : option string :=
match es with
| [] => None
| e :: r =>
    match check_entry index e with
    | Some msg => Some msg
    | None => every (S index) r
    end
end.

Fixpoint getAddresses (es : list WhitelistEntry.t) : option (list string) :=
match es with
| [] => Some []
| e :: r =>
    match Ethers.getAddress keccak256 (WhitelistAddress e), getAddresses r with
    | Some a, Some l => Some (a :: l)
    | _, _ => None
    end
end.

Definition invalid_address : Exception := Error_ "TypeError" "invalid address".

(** [new Set(array.map(getAddress)).size !== array.length] *)
Definition hasDuplicateAddresses (es : list WhitelistEntry.t) : Exception + bool :=
match getAddresses es with
| None => inl invalid_address
| Some l =>
    inr (negb (size (list_to_set l : gset string) =? List.length es)%nat)
end.

(** Lines 77 to 155: the gate. *)
Definition validateEntries (whitelistEntries : list WhitelistEntry.t) : Exception + unit :=
if Z.of_nat (List.length whitelistEntries) >? ValidateWhitelistEntriesMaxCount then
  inl (ValidationError
         ("[ERR] Number of whitelist entries exceed "
          +:+ Ethers.toString ValidateWhitelistEntriesMaxCount +:+ ": "
          +:+ nat_toString (List.length whitelistEntries)))
else
  match every 0 whitelistEntries with
  | Some msg => inl (ValidationError msg)
  | None =>
      match hasDuplicateAddresses whitelistEntries with
      | inl e => inl e
      | inr true => inl (ValidationError "[ERR] Duplicate whitelist address")
      | inr false => inr tt
      end
  end.

(** [[getAddress(e.WhitelistAddress), parseEther(e.WhitelistAmount).toString()]] *)
Fixpoint toValues (es : list WhitelistEntry.t) : option (list (string * string)) :=
match es with
| [] => Some []
| e :: r =>
    match Ethers.getAddress keccak256 (WhitelistAddress e),
          Ethers.parseEther (WhitelistAmount e), toValues r with
    | Some a, Some w, Some vs => Some ((a, Ethers.toString w) :: vs)
    | _, _, _ => None
    end
end.

Definition lib_exception (e : MerkleTreeLib.OfError) : Exception :=
match e with
| MerkleTreeLib.EncodeError => Error_ "TypeError" "invalid value for the ABI coder"
| MerkleTreeLib.TreeError (MerkleTreeLib.InvalidArgumentError m) =>
    Error_ "InvalidArgumentError" m
| MerkleTreeLib.TreeError (MerkleTreeLib.InvariantError m) =>
    Error_ "InvariantError" m
end.

(** The loop over [tree.entries()]. *)
Fixpoint collectProofs (t : MerkleTreeLib.StandardMerkleTree)
  (ents : list (nat * (string * string))) : Exception + list MerkleProofRecord.t :=
match ents with
| [] => inr []
| (index, value) :: r =>
    match MerkleTreeLib.getProofAt keccak256 t index with
    | inl e => inl (lib_exception e)
    | inr proof =>
        match collectProofs t r with
        | inl e => inl e
        | inr recs =>
            inr (MerkleProofRecord.mk (join "," (map Hex.hexlify32 proof))
                                      (fst value) (snd value) :: recs)
        end
    end
end.

(** Lines 157 to 177: root and proof records. *)
Definition buildMerkleTree (whitelistEntries : list WhitelistEntry.t)
  : Exception + (string * list MerkleProofRecord.t) :=
match toValues whitelistEntries with
| None => inl invalid_address
| Some vs =>
    match MerkleTreeLib.StandardMerkleTree_of keccak256 vs with
    | inl e => inl (lib_exception e)
    | inr t =>
        match collectProofs t (MerkleTreeLib.entries t) with
        | inl e => inl e
        | inr proofs => inr (Hex.hexlify32 (MerkleTreeLib.root t), proofs)
        end
    end
end.

(** Specification helper: the row [e] passes the callback of [every],
  with checksummed address [a] and amount [w] wei. *)
Definition accepted (e : WhitelistEntry.t) (a : string) (w : Z) : Prop :=
String.length (WhitelistAddress e) = ValidEvmAddressLen
/\ ValidEvmAddressRegex_test (WhitelistAddress e) = true
/\ WhitelistAddress e <> Ethers.ZeroAddress
/\ Ethers.getAddress keccak256 (WhitelistAddress e) = Some a
/\ (ValidWhitelistAmountMinLen <= String.length (WhitelistAmount e)
    <= ValidWhitelistAmountMaxLen)%nat
/\ Ethers.parseEther (WhitelistAmount e) = Some w
/\ 0 <= w.

End WithHash.

End CommandServiceBuilder.

(** Specification helper: the 20-byte account that an address string
    ("0x" and 40 hex digits) denotes, as the contract receives it. *)
Definition account (a : string) : Z := Hex.value (drop 2 (chars a)).

Definition fixture_entries : list WhitelistEntry.t :=
  [ WhitelistEntry.mk "0xd31FE45F219963F58A7B380dA710646858F48031" "6666.67";
    WhitelistEntry.mk "0x9F2e3fc83077d042f9CB8Ce8cd78f9eD031eBa16" "1250";
    WhitelistEntry.mk "0x9833B846628D174921D81255d6be016157447cAE" "53228.051486152399030389";
    WhitelistEntry.mk "0xE1F3Ef67355d81885A55C22f3ECfa2826a1C1B3d" "1250.00";
    WhitelistEntry.mk "0xbB08678DF8e0808ba17b880978C4Af6e6eEe6722" "16023.916666666666666667" ].

(** ** whitelistCommandService.mts: the gate on the records of the CSV parser

    [parse(content, { columns: true, ... })] returns one object per
    record, keyed by the names of the header line, with string values;
    the cast to [WhitelistEntry[]] (lines 69 to 73) checks nothing, so a
    column that the header does not name is [undefined] in the rows.  A
    field of a [ParsedEntry.t] is [None] when the object has no such
    property.  Reading [.length] of [undefined] (lines 90 and 118) raises
    a TypeError, with the message of Node.js, which nothing catches;
    [getAddress(undefined)] raises the TypeError of its argument check. *)

Module ParsedEntry.
Record t := mk { WhitelistAddress : option string; WhitelistAmount : option string }.

(** A row that has both columns. *)
Definition of_entry (e : WhitelistEntry.t) : t :=
  mk (Some (WhitelistEntry.WhitelistAddress e)) (Some (WhitelistEntry.WhitelistAmount e)).
End ParsedEntry.

Module ParsedGate.

Import ParsedEntry.

Section WithHash.
Context (keccak256 : bytes -> Z).

Definition undefined_length : Exception :=
  Error_ "TypeError" "Cannot read properties of undefined (reading 'length')".

(** The callback of [whitelistEntries.every]: [inr None] when the row is
    accepted, [inr] of the logged message when it is refused, [inl] when
    the callback throws. *)
Definition check_entry (index : nat) (element : ParsedEntry.t) : Exception + option string :=
  match WhitelistAddress element with
  | None => inl undefined_length
  | Some address =>
      if negb (String.length address =? ValidEvmAddressLen)%nat
         || negb (ValidEvmAddressRegex_test address) then
        inr (Some ("[ERR] Invalid whitelist address at line " +:+ nat_toString index
                   +:+ ": " +:+ address))
      else if String.eqb address Ethers.ZeroAddress then
        inr (Some ("[ERR] zero whitelist address at line " +:+ nat_toString index
                   +:+ ": " +:+ address))
      else
        match Ethers.getAddress keccak256 address with
        | None =>
            inr (Some ("[ERR] Whitelist address invalid at line " +:+ nat_toString index
                       +:+ ": " +:+ address))
        | Some _ =>
            match WhitelistAmount element with
            | None => inl undefined_length
            | Some amount =>
                if (String.length amount <? ValidWhitelistAmountMinLen)%nat
                   || (ValidWhitelistAmountMaxLen <? String.length amount)%nat then
                  inr (Some ("[ERR] Invalid whitelist amount length at line "
                             +:+ nat_toString index +:+ ": " +:+ amount))
                else
                  match Ethers.parseEther amount with
                  | Some whitelistAmountWei =>
                      if whitelistAmountWei <? 0 then
                        inr (Some ("[ERR] Invalid whitelist amount value at line "
                                   +:+ nat_toString index +:+ ": " +:+ amount))
                      else inr None
                  | None =>
                      inr (Some ("[ERR] Whitelist amount value invalid at line "
                                 +:+ nat_toString index +:+ ": " +:+ amount))
                  end
            end
        end
  end.

(** [whitelistEntries.every(...)]: stops at the first row that is refused
    or on which the callback throws. *)
Fixpoint every (index : nat) (es : list ParsedEntry.t) : Exception + option string :=
  match es with
  | [] => inr None
  | e :: r =>
      match check_entry index e with
      | inl err => inl err
      | inr (Some msg) => inr (Some msg)
      | inr None => every (S index) r
      end
  end.

Fixpoint getAddresses (es : list ParsedEntry.t) : option (list string) :=
  match es with
  | [] => Some []
  | e :: r =>
      match WhitelistAddress e with
      | None => None
      | Some address =>
          match Ethers.getAddress keccak256 address, getAddresses r with
          | Some a, Some l => Some (a :: l)
          | _, _ => None
          end
      end
  end.

(** [new Set(array.map(getAddress)).size !== array.length] *)
Definition hasDuplicateAddresses (es : list ParsedEntry.t) : Exception + bool :=
  match getAddresses es with
  | None => inl CommandServiceBuilder.invalid_address
  | Some l => inr (negb (size (list_to_set l : gset string) =? List.length es)%nat)
  end.

(** Lines 77 to 155: the gate. *)
Definition validateEntries (whitelistEntries : list ParsedEntry.t) : Exception + unit :=
  if Z.of_nat (List.length whitelistEntries) >? ValidateWhitelistEntriesMaxCount then
    inl (ValidationError
           ("[ERR] Number of whitelist entries exceed "
            +:+ Ethers.toString ValidateWhitelistEntriesMaxCount +:+ ": "
            +:+ nat_toString (List.length whitelistEntries)))
  else
    match every 0 whitelistEntries with
    | inl err => inl err
    | inr (Some msg) => inl (ValidationError msg)
    | inr None =>
        match hasDuplicateAddresses whitelistEntries with
        | inl e => inl e
        | inr true => inl (ValidationError "[ERR] Duplicate whitelist address")
        | inr false => inr tt
        end
    end.

End WithHash.

End ParsedGate.

(** ** The key-value store and its adapter (dynamoDbService.mts)

    The two tables are typed: a roots item is a [MerkleRootRecord.t] under
    its [WhitelistName], a proofs item is a [MerkleProofRecord.t] under
    ([WhitelistName], [WhitelistAddress]).  The table names and key names
    are deployment constants; their syntactic checks pass by configuration
    and are not repeated.  Every request to the provider is answered
    according to a schedule, so that a run of the services is a function
    of the initial tables and of what the provider does. *)

Record Db := mkDb {
  roots : gmap string MerkleRootRecord.t;
  proofs : gmap (string * string) MerkleProofRecord.t;
}.

(** Condition expressions over a roots item. *)
Inductive Condition :=
| MerkleRoot_eq (v : string)
| WhitelistStatus_eq (v : WhitelistStatus)
| CondAnd (c1 c2 : Condition)
| CondOr (c1 c2 : Condition).

(** A comparison with an attribute of an item that does not exist is false. *)
Fixpoint eval_condition (c : Condition) (item : option MerkleRootRecord.t) : bool :=
  match c with
  | MerkleRoot_eq v =>
      match item with
      | Some it => String.eqb (MerkleRootRecord.MerkleRoot it) v
      | None => false
      end
  | WhitelistStatus_eq v =>
      match item with
      | Some it => bool_decide (MerkleRootRecord.WhitelistStatus it = v)
      | None => false
      end
  | CondAnd c1 c2 => eval_condition c1 item && eval_condition c2 item
  | CondOr c1 c2 => eval_condition c1 item || eval_condition c2 item
  end.

(** The members of a BatchWrite request on the proofs table. *)
Inductive WriteRequest :=
| PutRequest (item : MerkleProofRecord.t)
| DeleteRequest (sortKeyValue : string).

Inductive Request :=
| ExecuteStatementInsert (name : string) (item : MerkleRootRecord.t)
| BatchExecuteStatementInsert (name : string) (items : list MerkleProofRecord.t)
| PutCommand (name : string) (item : MerkleRootRecord.t) (condition : option Condition)
| GetCommandRoot (name : string)
| GetCommandProof (name address : string)
| DeleteCommand (name : string)
| QueryCommand (name : string)
| BatchWriteCommand (name : string) (requests : list WriteRequest).

(** The [UnprocessedItems] field of a BatchWrite response: absent, a map
    without an entry for the table (the provider's answer when nothing is
    left), or the entry of the table, given by a mask over the request. *)
Inductive UnprocessedItems :=
| FieldAbsent
| NoTableEntry
| TableEntry (mask : list bool).

(** What the provider does with a request. *)
Inductive Outcome :=
| Served
| Raises (kind : DynamoDBKind) (message : string)
| ServedLeaving (u : UnprocessedItems).

Record LogEntry := mkLogEntry {
  request : Request;
  roots_before : gmap string MerkleRootRecord.t;
  roots_after : gmap string MerkleRootRecord.t;
}.

Record World := mkWorld {
  db : Db;
  schedule : list Outcome;     (* the provider's next answers; [Served] when exhausted *)
  log : list LogEntry;         (* the requests sent, oldest first *)
  slept : list Z;              (* the [waitMs] calls, oldest first *)
}.

(** Computations of the services: a result or a thrown value, and the
    world after. *)
Definition M (A : Type) : Type := World -> (Exception + A) * World.

Definition ret {A} (a : A) : M A := fun w => (inr a, w).

Definition throw {A} (e : Exception) : M A := fun w => (inl e, w).

Definition bind {A B} (m : M A) (k : A -> M B) : M B :=
  fun w =>
    match m w with
    | (inr a, w') => k a w'
    | (inl e, w') => (inl e, w')
    end.

(** [try { m } catch (err) { handler }] *)
Definition try_catch {A} (m : M A) (handler : Exception -> M A) : M A :=
  fun w =>
    match m w with
    | (inr a, w') => (inr a, w')
    | (inl e, w') => handler e w'
    end.

Notation "x <- c1 ;; c2" := (bind c1 (fun x => c2))
  (at level 100, c1 at next level, right associativity).
Notation "c1 ;; c2" := (bind c1 (fun _ => c2))
  (at level 100, right associativity).

Definition waitMs (ms : Z) : M unit :=
  fun w => (inr tt, mkWorld (db w) (schedule w) (log w) (slept w ++ [ms])).

Definition next_outcome (w : World) : Outcome * list Outcome :=
  match schedule w with
  | [] => (Served, [])
  | o :: r => (o, r)
  end.

(** One request: the provider raises when the schedule says so, and
    otherwise serves the request with [serve], which may itself raise. *)
Definition send {A} (req : Request)
    (serve : Outcome -> Db -> (DynamoDBKind * string) + (A * Db)) : M A :=
  fun w =>
    let (o, rest) := next_outcome w in
    let unchanged :=
      mkWorld (db w) rest
        (log w ++ [mkLogEntry req (roots (db w)) (roots (db w))]) (slept w) in
    match o with
    | Raises k msg => (inl (DynamoDBServiceException k msg), unchanged)
    | _ =>
        match serve o (db w) with
        | inl (k, msg) => (inl (DynamoDBServiceException k msg), unchanged)
        | inr (a, d) =>
            (inr a,
             mkWorld d rest
               (log w ++ [mkLogEntry req (roots (db w)) (roots d)]) (slept w))
        end
    end.

Definition select {A} (mask : list bool) (l : list A) : list A :=
  (fun xb : A * bool => fst xb) <$>
    filter (fun xb : A * bool => snd xb = true) (zip l (mask ++ replicate (List.length l) false)).

Definition apply_write (name : string) (d : Db) (r : WriteRequest) : Db :=
  match r with
  | PutRequest item =>
      mkDb (roots d) (<[(name, MerkleProofRecord.WhitelistAddress item) := item]> (proofs d))
  | DeleteRequest sk => mkDb (roots d) (delete (name, sk) (proofs d))
  end.

Module DynamoDbClient.

(** INSERT of one roots item (PartiQL): an item with the same primary key
    makes the statement fail with [DuplicateItemException]. *)
Definition ExecuteStatementInsert_serve (name : string) (item : MerkleRootRecord.t)
    (_ : Outcome) (d : Db) : (DynamoDBKind * string) + (unit * Db) :=
  match roots d !! name with
  | Some _ => inl (DuplicateItemException, "Duplicate primary key exists in table"%string)
  | None => inr (tt, mkDb (<[name := item]> (roots d)) (proofs d))
  end.

(** A batch of INSERT statements on the proofs table: each statement is
    executed on its own, in order; the answer has one response per
    statement, with the message of its [Error] when the statement failed
    (here: on an existing key). *)
Fixpoint BatchExecuteStatementInsert_run (name : string)
    (items : list MerkleProofRecord.t) (d : Db) : list (option string) * Db :=
  match items with
  | [] => ([], d)
  | item :: r =>
      let key := (name, MerkleProofRecord.WhitelistAddress item) in
      match proofs d !! key with
      | Some _ =>
          let (responses, d') := BatchExecuteStatementInsert_run name r d in
          (Some "Duplicate primary key exists in table"%string :: responses, d')
      | None =>
          let (responses, d') :=
            BatchExecuteStatementInsert_run name r
              (mkDb (roots d) (<[key := item]> (proofs d))) in
          (None :: responses, d')
      end
  end.

Definition BatchExecuteStatementInsert_serve (name : string)
    (items : list MerkleProofRecord.t)
    (_ : Outcome) (d : Db) : (DynamoDBKind * string) + (list (option string) * Db) :=
  inr (BatchExecuteStatementInsert_run name items d).

(** PutItem on the roots table: a condition that fails raises
    [ConditionalCheckFailedException] and writes nothing. *)
Definition PutCommand_serve (name : string) (item : MerkleRootRecord.t)
    (condition : option Condition)
    (_ : Outcome) (d : Db) : (DynamoDBKind * string) + (unit * Db) :=
  let holds := match condition with
               | Some c => eval_condition c (roots d !! name)
               | None => true
               end in
  if holds then inr (tt, mkDb (<[name := item]> (roots d)) (proofs d))
  else inl (ConditionalCheckFailedException, "The conditional request failed"%string).

Definition GetCommandRoot_serve (name : string)
    (_ : Outcome) (d : Db) : (DynamoDBKind * string) + (option MerkleRootRecord.t * Db) :=
  inr (roots d !! name, d).

Definition GetCommandProof_serve (name address : string)
    (_ : Outcome) (d : Db) : (DynamoDBKind * string) + (option MerkleProofRecord.t * Db) :=
  inr (proofs d !! (name, address), d).

Definition DeleteCommand_serve (name : string)
    (_ : Outcome) (d : Db) : (DynamoDBKind * string) + (unit * Db) :=
  inr (tt, mkDb (delete name (roots d)) (proofs d)).

(** All the proofs items of the partition (the pages of the query,
    gathered). *)
Definition QueryCommand_serve (name : string)
    (_ : Outcome) (d : Db) : (DynamoDBKind * string) + (list MerkleProofRecord.t * Db) :=
  inr (snd <$> filter (fun kv => fst (fst kv) = name) (map_to_list (proofs d)), d).

(** BatchWrite: the requests that the answer does not return as
    unprocessed are applied. *)
Definition BatchWriteCommand_serve (name : string) (requests : list WriteRequest)
    (o : Outcome) (d : Db) : (DynamoDBKind * string) + (UnprocessedItems * Db) :=
  let u := match o with
           | ServedLeaving u => u
           | _ => NoTableEntry
           end in
  let mask := match u with
              | TableEntry mask => mask
              | _ => []
              end in
  let processed := select (negb <$> (mask ++ replicate (List.length requests) false)) requests in
  inr (u, foldl (apply_write name) d processed).

End DynamoDbClient.

Module DynamoDbService.

Definition BatchExecuteMaxItems : nat := 25.
Definition BatchWriteDefaultExponentialFactor : Z := 2.
Definition BatchWriteDefaultMaxRetries : Z := 3.
Definition BatchWriteDefaultMinTimeoutMs : Z := 10.
Definition BatchWriteMaxItems : nat := 25.
Definition ValidSortKeyValueMaxLen : nat := 1024.
Definition ValidSortKeyValueMinLen : nat := 1.

(** [chunkArray]: the slices [array.slice(i, min(i + stride, length))] for
    [i = 0, stride, 2 stride, ...] below the length.  The fuel is the
    length, which a positive stride never exhausts. *)
Fixpoint chunkArray_from {A} (fuel : nat) (array : list A) (stride : nat) : list (list A) :=
  match fuel with
  | O => []
  | S f =>
      match array with
      | [] => []
      | _ => take stride array :: chunkArray_from f (drop stride array) stride
      end
  end.

Definition chunkArray {A} (array : list A) (stride : nat) : list (list A) :=
  chunkArray_from (List.length array) array stride.

(** [for (const x of xs) { body }] *)
Fixpoint for_of {A} (xs : list A) (body : A -> M unit) : M unit :=
  match xs with
  | [] => ret tt
  | x :: r => body x ;; for_of r body
  end.

Definition invalid_length (lo hi : nat) (s : string) : bool :=
  (String.length s <? lo)%nat || (hi <? String.length s)%nat.

Definition check_partitionKeyValue {A} (partitionKeyValue : string) (k : M A) : M A :=
  if invalid_length ValidPartitionKeyValueMinLen ValidPartitionKeyValueMaxLen partitionKeyValue
  then throw (ValidationError ("[ERR] Invalid partition key value: " +:+ partitionKeyValue))
  else k.

Definition executeInsertStatement (partitionKeyValue : string)
    (record : MerkleRootRecord.t) : M unit :=
  check_partitionKeyValue partitionKeyValue
    (send (ExecuteStatementInsert partitionKeyValue record)
          (DynamoDbClient.ExecuteStatementInsert_serve partitionKeyValue record)).

Definition batchInsertExecuteStatement (partitionKeyValue : string)
    (records : list MerkleProofRecord.t) : M unit :=
  check_partitionKeyValue partitionKeyValue
    (for_of (chunkArray records BatchExecuteMaxItems) (fun chunk =>
       responses <- send (BatchExecuteStatementInsert partitionKeyValue chunk)
                         (DynamoDbClient.BatchExecuteStatementInsert_serve partitionKeyValue chunk) ;;
       let hasNoError := forallb (fun response : option string =>
                                    match response with
                                    | Some _ => false
                                    | None => true
                                    end) responses in
       if negb hasNoError
       then throw (Error_ "Error"
                     ("[ERR] batch execute statement command error: "
                      +:+ join ", " ((fun response : option string =>
                                        default ""%string response) <$> responses)))
       else ret tt)).

Definition putItem (partitionKeyValue : string) (record : MerkleRootRecord.t)
    (conditionExpression : option Condition) : M unit :=
  check_partitionKeyValue partitionKeyValue
    (send (PutCommand partitionKeyValue record conditionExpression)
          (DynamoDbClient.PutCommand_serve partitionKeyValue record conditionExpression)).

(** [getItem] without a sort key (roots table). *)
Definition getItem (partitionKeyValue : string) : M (option MerkleRootRecord.t) :=
  check_partitionKeyValue partitionKeyValue
    (send (GetCommandRoot partitionKeyValue)
          (DynamoDbClient.GetCommandRoot_serve partitionKeyValue)).

(** [getItem] with the sort key [WhitelistAddress] (proofs table). *)
Definition getItem_sortKey (partitionKeyValue sortKeyValue : string)
    : M (option MerkleProofRecord.t) :=
  check_partitionKeyValue partitionKeyValue
    (if String.eqb sortKeyValue "" then
       throw (ValidationError "[ERR] Missing sort key value")
     else if invalid_length ValidSortKeyValueMinLen ValidSortKeyValueMaxLen sortKeyValue then
       throw (ValidationError ("[ERR] Invalid sort key value: " +:+ sortKeyValue))
     else
       send (GetCommandProof partitionKeyValue sortKeyValue)
            (DynamoDbClient.GetCommandProof_serve partitionKeyValue sortKeyValue)).

Definition deleteItem (partitionKeyValue : string) : M unit :=
  check_partitionKeyValue partitionKeyValue
    (send (DeleteCommand partitionKeyValue)
          (DynamoDbClient.DeleteCommand_serve partitionKeyValue)).

Definition paginatedQuery (partitionKeyValue : string) : M (list MerkleProofRecord.t) :=
  check_partitionKeyValue partitionKeyValue
    (send (QueryCommand partitionKeyValue)
          (DynamoDbClient.QueryCommand_serve partitionKeyValue)).

(** How [batchDeleteWrite] reads the answer:
    [response.UnprocessedItems?.[tableName] ? response.UnprocessedItems[tableName] : []] *)
Definition unprocessed_of_delete (u : UnprocessedItems) (command : list WriteRequest)
    : Exception + list WriteRequest :=
  match u with
  | FieldAbsent => inr []
  | NoTableEntry => inr []
  | TableEntry mask => inr (select mask command)
  end.

(** How [batchPutWrite] reads the answer:
    [response.UnprocessedItems ? response.UnprocessedItems[tableName] : []];
    without an entry for the table the value is [undefined], and reading
    its [length] raises a [TypeError]. *)
Definition unprocessed_of_put (u : UnprocessedItems) (command : list WriteRequest)
    : Exception + list WriteRequest :=
  match u with
  | FieldAbsent => inr []
  | NoTableEntry =>
      inl (Error_ "TypeError" "Cannot read properties of undefined (reading 'length')")
  | TableEntry mask => inr (select mask command)
  end.

(** The do-while loop of one chunk.  [retriesLeft] is
    [maxRetries - retryCount]: the test [retryCount <= maxRetries] after
    the increment is [retriesLeft >= 1]. *)
Fixpoint unprocessed_loop
    (read : UnprocessedItems -> list WriteRequest -> Exception + list WriteRequest)
    (partitionKeyValue : string) (retriesLeft : nat) (retryCount : Z)
    (command : list WriteRequest) : M unit :=
  response <- send (BatchWriteCommand partitionKeyValue command)
                   (DynamoDbClient.BatchWriteCommand_serve partitionKeyValue command) ;;
  match read response command with
  | inl e => throw e
  | inr unprocessedItems =>
      let hasUnprocessedItems := (0 <? List.length unprocessedItems)%nat in
      let command' := if hasUnprocessedItems then unprocessedItems else command in
      waitMs (BatchWriteDefaultMinTimeoutMs * BatchWriteDefaultExponentialFactor ^ retryCount) ;;
      if hasUnprocessedItems then
        match retriesLeft with
        | S k => unprocessed_loop read partitionKeyValue k (retryCount + 1) command'
        | O => ret tt
        end
      else ret tt
  end.

(** [sortKeyValues.every(...)]: the message of the first refused key. *)
Fixpoint every_sortKeyValue (index : nat) (sortKeyValues : list string) : option string :=
  match sortKeyValues with
  | [] => None
  | element :: r =>
      if invalid_length ValidSortKeyValueMinLen ValidSortKeyValueMaxLen element
      then Some ("[ERR] Invalid sort key value at " +:+ nat_toString index +:+ ": " +:+ element)
      else every_sortKeyValue (S index) r
  end.

Definition invalid_maxRetries (maxRetries : Z) : Exception :=
  ValidationError ("[ERR] Max retries must be greater or equal to zero: "
                   +:+ Ethers.toString maxRetries).

Definition batchDeleteWrite (partitionKeyValue : string) (sortKeyValues : list string)
    (maxRetries : Z) : M unit :=
  check_partitionKeyValue partitionKeyValue
    (if maxRetries <? 0 then throw (invalid_maxRetries maxRetries)
     else
       match every_sortKeyValue 0 sortKeyValues with
       | Some msg => throw (ValidationError msg)
       | None =>
           for_of (chunkArray sortKeyValues BatchWriteMaxItems) (fun chunk =>
             unprocessed_loop unprocessed_of_delete partitionKeyValue
               (Z.to_nat maxRetries) 0 (DeleteRequest <$> chunk))
       end).

Definition batchPutWrite (partitionKeyValue : string) (records : list MerkleProofRecord.t)
    (maxRetries : Z) : M unit :=
  check_partitionKeyValue partitionKeyValue
    (if maxRetries <? 0 then throw (invalid_maxRetries maxRetries)
     else
       for_of (chunkArray records BatchWriteMaxItems) (fun chunk =>
         unprocessed_loop unprocessed_of_put partitionKeyValue
           (Z.to_nat maxRetries) 0 (PutRequest <$> chunk))).

End DynamoDbService.

(** ** whitelistDataService.mts *)

Module WhitelistDataService.

(** The catch blocks: every [DynamoDBServiceException] (each listed
    subclass and the class itself) becomes a [NoSqlError] with the same
    name; the message of an [AccessDeniedException] becomes the constant
    "Access denied"; anything else is rethrown as it is. *)
Definition rethrow (err : Exception) : Exception :=
  match err with
  | DynamoDBServiceException kind message =>
      NoSqlError (DynamoDBKind_name kind)
        (match kind with
         | OtherServiceException name =>
             if String.eqb name "AccessDeniedException" then "Access denied" else message
         | _ => message
         end)
  | _ => err
  end.

Definition rethrowing {A} (m : M A) : M A :=
  try_catch m (fun err => throw (rethrow err)).

Definition invalid_name (whitelistName : string) : bool :=
  DynamoDbService.invalid_length ValidPartitionKeyValueMinLen ValidPartitionKeyValueMaxLen
    whitelistName.

(** [MerkleRoot = :merkleRoot AND WhitelistStatus = :whitelistStatus] *)
Definition root_and_status (merkleRoot : string) (s : WhitelistStatus) : Condition :=
  CondAnd (MerkleRoot_eq merkleRoot) (WhitelistStatus_eq s).

(** [MerkleRoot = :merkleRoot AND (WhitelistStatus = :whitelistStatusCompleted
    OR WhitelistStatus = :whitelistStatusFailed)] *)
Definition root_and_completed_or_failed (merkleRoot : string) : Condition :=
  CondAnd (MerkleRoot_eq merkleRoot)
          (CondOr (WhitelistStatus_eq Completed) (WhitelistStatus_eq Failed)).

Definition createMerkleTree (whitelistName merkleRoot : string)
    (merkleProofRecords : list MerkleProofRecord.t) : M unit :=
  if invalid_name whitelistName then
    throw (ValidationError ("[ERR] Invalid whitelist name: " +:+ whitelistName))
  else
    rethrowing
      (DynamoDbService.executeInsertStatement whitelistName (MerkleRootRecord.mk merkleRoot Creating)) ;;
    try_catch
      (DynamoDbService.batchInsertExecuteStatement whitelistName merkleProofRecords)
      (fun err =>
         DynamoDbService.putItem whitelistName (MerkleRootRecord.mk merkleRoot Failed)
           (Some (root_and_status merkleRoot Creating)) ;;
         throw (rethrow err)) ;;
    rethrowing
      (DynamoDbService.putItem whitelistName (MerkleRootRecord.mk merkleRoot Completed)
         (Some (root_and_status merkleRoot Creating))).

(** The body of the last [try] of [deleteMerkleTree] (lines 698 to 718):
    enumerate the proofs items, delete them in batches, delete the root. *)
Definition delete_proofs_then_root (whitelistName : string) : M unit :=
  merkleProofItems <- DynamoDbService.paginatedQuery whitelistName ;;
  DynamoDbService.batchDeleteWrite whitelistName
    (MerkleProofRecord.WhitelistAddress <$> merkleProofItems)
    DynamoDbService.BatchWriteDefaultMaxRetries ;;
  DynamoDbService.deleteItem whitelistName.

Definition deleteMerkleTree (whitelistName : string) : M unit :=
  if invalid_name whitelistName then
    throw (ValidationError ("[ERR] Invalid partition key value: " +:+ whitelistName))
  else
    merkleRootItem <- rethrowing (DynamoDbService.getItem whitelistName) ;;
    match merkleRootItem with
    | None => throw (ValidationError ("[ERR] Merkle tree not found: " +:+ whitelistName))
    | Some item =>
        if negb (bool_decide (MerkleRootRecord.WhitelistStatus item = Completed))
           && negb (bool_decide (MerkleRootRecord.WhitelistStatus item = Failed)) then
          throw (ValidationError
                   ("[ERR] Merkle tree pending: " +:+ WhitelistStatus_toString (MerkleRootRecord.WhitelistStatus item)))
        else
          rethrowing
            (DynamoDbService.putItem whitelistName (MerkleRootRecord.mk (MerkleRootRecord.MerkleRoot item) Deleting)
               (Some (root_and_completed_or_failed (MerkleRootRecord.MerkleRoot item)))) ;;
          try_catch
            (delete_proofs_then_root whitelistName)
            (fun err =>
               DynamoDbService.putItem whitelistName (MerkleRootRecord.mk (MerkleRootRecord.MerkleRoot item) Failed)
                 (Some (root_and_status (MerkleRootRecord.MerkleRoot item) Deleting)) ;;
               throw (rethrow err))
    end.

Definition getMerkleRoot (whitelistName : string) : M (option MerkleRootRecord.t) :=
  if invalid_name whitelistName then
    throw (ValidationError ("[ERR] Invalid whitelist name: " +:+ whitelistName))
  else rethrowing (DynamoDbService.getItem whitelistName).

Definition getMerkleProof (whitelistName whitelistAddress : string)
    : M (option MerkleProofRecord.t) :=
  if invalid_name whitelistName then
    throw (ValidationError ("[ERR] Invalid whitelist name: " +:+ whitelistName))
  else if negb (String.length whitelistAddress =? ValidEvmAddressLen)%nat
          || negb (ValidEvmAddressRegex_test whitelistAddress) then
    throw (ValidationError ("[ERR] Invalid whitelist address: " +:+ whitelistAddress))
  else if String.eqb whitelistAddress Ethers.ZeroAddress then
    throw (ValidationError ("[ERR] zero whitelist address: " +:+ whitelistAddress))
  else
    merkleRootItem <- rethrowing (DynamoDbService.getItem whitelistName) ;;
    match merkleRootItem with
    | None => throw (ValidationError ("[ERR] Merkle tree not found: " +:+ whitelistName))
    | Some item =>
        if negb (bool_decide (MerkleRootRecord.WhitelistStatus item = Completed)) then
          throw (ValidationError
                   ("[ERR] Merkle tree not completed: "
                    +:+ WhitelistStatus_toString (MerkleRootRecord.WhitelistStatus item)))
        else
          rethrowing (DynamoDbService.getItem_sortKey whitelistName whitelistAddress)
    end.

(** [getMerkleProofs]: every proofs item of a completed tree. *)
Definition getMerkleProofs (whitelistName : string) : M (list MerkleProofRecord.t) :=
  if invalid_name whitelistName then
    throw (ValidationError ("[ERR] Invalid partition key value: " +:+ whitelistName))
  else
    merkleRootItem <- rethrowing (DynamoDbService.getItem whitelistName) ;;
    match merkleRootItem with
    | None => throw (ValidationError ("[ERR] Merkle tree not found: " +:+ whitelistName))
    | Some item =>
        if negb (bool_decide (MerkleRootRecord.WhitelistStatus item = Completed)) then
          throw (ValidationError
                   ("[ERR] Merkle tree not completed: "
                    +:+ WhitelistStatus_toString (MerkleRootRecord.WhitelistStatus item)))
        else rethrowing (DynamoDbService.paginatedQuery whitelistName)
    end.

End WhitelistDataService.

(** ** whitelistQueryService.mts and whitelistCommandService.mts *)

Definition invalid_whitelistName (whitelistName : string) : bool :=
  (String.length whitelistName <? ValidWhitelistNameMinLen)%nat
  || (ValidWhitelistNameMaxLen <? String.length whitelistName)%nat
  || negb (ValidWhitelistNameRegex_test whitelistName).

Module WhitelistQueryService.

Section WithHash.
Context (keccak256 : bytes -> Z).

Definition getMerkleProof (whitelistName whitelistAddress : string)
    : M (option MerkleProofRecord.t) :=
  if invalid_whitelistName whitelistName then
    throw (ValidationError ("[ERR] Invalid whitelist name: " +:+ whitelistName))
  else if negb (String.length whitelistAddress =? ValidEvmAddressLen)%nat
          || negb (ValidEvmAddressRegex_test whitelistAddress) then
    throw (ValidationError ("[ERR] Invalid whitelist address: " +:+ whitelistAddress))
  else if String.eqb whitelistAddress Ethers.ZeroAddress then
    throw (ValidationError ("[ERR] zero whitelist address: " +:+ whitelistAddress))
  else
    match Ethers.getAddress keccak256 whitelistAddress with
    | None =>
        throw (ValidationError ("[ERR] Whitelist address invalid: " +:+ whitelistAddress))
    | Some normalizedAddress =>
        merkleRootRecord <- WhitelistDataService.getMerkleRoot whitelistName ;;
        match merkleRootRecord with
        | None =>
            throw (ValidationError ("[ERR] Merkle tree not found: " +:+ whitelistName))
        | Some record =>
            if negb (bool_decide (MerkleRootRecord.WhitelistStatus record = Completed)) then
              throw (ValidationError
                       ("[ERR] Merkle tree not ready: "
                        +:+ WhitelistStatus_toString (MerkleRootRecord.WhitelistStatus record)))
            else WhitelistDataService.getMerkleProof whitelistName normalizedAddress
        end
    end.

End WithHash.

Definition getMerkleProofs (whitelistName : string) : M (list MerkleProofRecord.t) :=
  if invalid_whitelistName whitelistName then
    throw (ValidationError ("[ERR] Invalid whitelist name: " +:+ whitelistName))
  else WhitelistDataService.getMerkleProofs whitelistName.

Definition getMerkleRoot (whitelistName : string) : M (option MerkleRootRecord.t) :=
  if invalid_whitelistName whitelistName then
    throw (ValidationError ("[ERR] Invalid whitelist name: " +:+ whitelistName))
  else WhitelistDataService.getMerkleRoot whitelistName.

End WhitelistQueryService.

Module WhitelistCommandService.

Section WithHash.
Context (keccak256 : bytes -> Z).

(** [createMerkleTree] from the parsed rows: the read of the CSV from the
    object store and the CSV parser (lines 58 to 73) are outside. *)
Definition createMerkleTree (whitelistName : string)
    (whitelistEntries : list WhitelistEntry.t) : M unit :=
  if invalid_whitelistName whitelistName then
    throw (ValidationError ("[ERR] Invalid whitelist name: " +:+ whitelistName))
  else
    match CommandServiceBuilder.validateEntries keccak256 whitelistEntries with
    | inl e => throw e
    | inr _ =>
        match CommandServiceBuilder.buildMerkleTree keccak256 whitelistEntries with
        | inl e => throw e
        | inr (root, proofs) =>
            WhitelistDataService.createMerkleTree whitelistName root proofs
        end
    end.

Definition deleteMerkleTree (whitelistName : string) : M unit :=
  if invalid_whitelistName whitelistName then
    throw (ValidationError ("[ERR] Invalid whitelist name: " +:+ whitelistName))
  else WhitelistDataService.deleteMerkleTree whitelistName.

End WithHash.

End WhitelistCommandService.

(** ** Specification helpers for the roots table

    The transitions of one roots row that the state machine allows:
    absent to CREATING, CREATING to COMPLETED or FAILED, COMPLETED or
    FAILED to DELETING, DELETING to FAILED or absent; the [MerkleRoot]
    of a row that stays is the same before and after. *)

Definition transition (before after : WhitelistStatus) : bool :=
  match before, after with
  | Creating, Completed | Creating, Failed
  | Completed, Deleting | Failed, Deleting
  | Deleting, Failed => true
  | _, _ => false
  end.

(** A request leaves the row as it is or moves it along one transition. *)
Definition legal (before after : option MerkleRootRecord.t) : bool :=
  bool_decide (before = after)
  || match before, after with
     | None, Some a => bool_decide (MerkleRootRecord.WhitelistStatus a = Creating)
     | Some b, Some a =>
         String.eqb (MerkleRootRecord.MerkleRoot b) (MerkleRootRecord.MerkleRoot a)
         && transition (MerkleRootRecord.WhitelistStatus b) (MerkleRootRecord.WhitelistStatus a)
     | Some b, None => bool_decide (MerkleRootRecord.WhitelistStatus b = Deleting)
     | None, None => true
     end.

Definition RootsTable : Type := gmap string MerkleRootRecord.t.

(** A write of a roots row over an existing one is conditioned on
    [MerkleRoot = r], where [r] is the root that it writes. *)
Definition pins_root (req : Request) : bool :=
  match req with
  | PutCommand _ item (Some (CondAnd (MerkleRoot_eq v) _)) =>
      String.eqb v (MerkleRootRecord.MerkleRoot item)
  | PutCommand _ _ _ => false
  | _ => true
  end.

(** The logged requests [l] lead the roots table from [start] to
    [finish], one after the other; each of them moves every row legally,
    and pins the root when it is a put. *)
Fixpoint legal_trace (start : RootsTable) (l : list LogEntry) (finish : RootsTable) : Prop :=
  match l with
  | [] => start = finish
  | e :: r =>
      roots_before e = start
      /\ pins_root (request e) = true
      /\ (forall name, legal (start !! name) (roots_after e !! name) = true)
      /\ legal_trace (roots_after e) r finish
  end.

(** [triple P m Q]: from a roots table that satisfies [P], the requests
    that [m] sends form a legal trace, and the result and the final roots
    table satisfy [Q]. *)
Definition triple {A} (P : RootsTable -> Prop) (m : M A)
    (Q : Exception + A -> RootsTable -> Prop) : Prop :=
  forall w, P (roots (db w)) ->
    exists l,
      log (snd (m w)) = log w ++ l
      /\ legal_trace (roots (db w)) l (roots (db (snd (m w))))
      /\ Q (fst (m w)) (roots (db (snd (m w)))).

(** [m] sends requests that leave the roots table as it is. *)
Definition frame {A} (m : M A) : Prop :=
  forall P : RootsTable -> Prop, triple P m (fun _ => P).

(** The provider raises nothing of its own accord. *)
Definition is_served (o : Outcome) : bool :=
  match o with
  | Raises _ _ => false
  | _ => true
  end.

Definition fault_free (w : World) : Prop := forallb is_served (schedule w) = true.

(** The operations of the orchestrator, and a sequence of them: each
    operation is one request to the service, whose failure does not
    prevent the next. *)
Inductive Operation :=
| CreateTree (whitelistName : string) (whitelistEntries : list WhitelistEntry.t)
| DeleteTree (whitelistName : string).

Definition run_operation (op : Operation) : M unit :=
  match op with
  | CreateTree whitelistName whitelistEntries =>
      WhitelistCommandService.createMerkleTree Keccak.keccak256 whitelistName whitelistEntries
  | DeleteTree whitelistName =>
      WhitelistCommandService.deleteMerkleTree whitelistName
  end.

Definition run_operations (ops : list Operation) (w : World) : World :=
  foldl (fun w op => snd (run_operation op w)) w ops.

(** Worlds of the examples. *)
Definition fresh_world (d : Db) (schedule : list Outcome) : World := mkWorld d schedule [] [].

Definition empty_db : Db := mkDb ∅ ∅.

Definition example_root : string :=
  "0x67063f96b1592f043a1e7998ffec6a4b984a6511566585f51bb418d9ead0578b".

Definition example_records : list MerkleProofRecord.t :=
  [ MerkleProofRecord.mk
      "0x44141ee35027f7b42644315ea4da336bf201261911260880fbe8eba6784a333a,0x17f2865fdf204ab017540cdd07d851c46fa0aa1618fe00b5ed8cebf31fa0fe0b"
      "0x9F2e3fc83077d042f9CB8Ce8cd78f9eD031eBa16" "1250000000000000000000";
    MerkleProofRecord.mk
      "0x8a39ecb656b1701d0e580b977ed99d7f5d218044f1d69703bbb107686dca535e,0x17f2865fdf204ab017540cdd07d851c46fa0aa1618fe00b5ed8cebf31fa0fe0b"
      "0x9833B846628D174921D81255d6be016157447cAE" "53228051486152399030389" ].

(** The tables after a successful [createMerkleTree] of the example. *)
Definition example_db (status : WhitelistStatus) : Db :=
  mkDb {[ "presale"%string := MerkleRootRecord.mk example_root status ]}
       (list_to_map
          ((fun r => (("presale"%string, MerkleProofRecord.WhitelistAddress r), r))
             <$> example_records)).

(** The provider raises on the second request ([bulk_fault]), and on
    the third as well ([compensation_fault]); in a DeleteTree the first
    two requests are the read and the flip, so the faults come one
    request later. *)
Definition bulk_fault : list Outcome := [Served; Raises InternalServerError "boom"].

Definition compensation_fault : list Outcome :=
  [Served; Raises InternalServerError "boom";
   Raises ProvisionedThroughputExceededException "throttled"].

(** The worlds of a CreateTree after the insert of the roots row and
    after the bulk insert, and of a DeleteTree after the read, after the
    flip to DELETING and after the deletes. *)
Definition after_insert (name root : string) (w : World) : World :=
  snd (WhitelistDataService.rethrowing
         (DynamoDbService.executeInsertStatement name (MerkleRootRecord.mk root Creating)) w).

Definition after_bulk_insert (name root : string) (records : list MerkleProofRecord.t)
    (w : World) : World :=
  snd (DynamoDbService.batchInsertExecuteStatement name records (after_insert name root w)).

Definition after_read (name : string) (w : World) : World :=
  snd (WhitelistDataService.rethrowing (DynamoDbService.getItem name) w).

Definition after_flip (name root : string) (w : World) : World :=
  snd (WhitelistDataService.rethrowing
         (DynamoDbService.putItem name (MerkleRootRecord.mk root Deleting)
            (Some (WhitelistDataService.root_and_completed_or_failed root)))
         (after_read name w)).

Definition after_deletes (name root : string) (w : World) : World :=
  snd (WhitelistDataService.delete_proofs_then_root name (after_flip name root w)).

(** Specification helper: the requests sent from [w] to [w']. *)
Definition requests_since (w w' : World) : list Request :=
  request <$> drop (List.length (log w)) (log w').

(** [m] sends only requests that satisfy [allowed]. *)
Definition sends {A} (allowed : Request -> Prop) (m : M A) : Prop :=
  forall w, exists l, log (snd (m w)) = log w ++ l /\ Forall allowed (request <$> l).

(** An address of the fixture, as the contract test writes it, in lower
    case and in upper case behind the upper-case prefix. *)
Definition example_address : string := "0x9F2e3fc83077d042f9CB8Ce8cd78f9eD031eBa16".

Definition example_address_lower : string := "0x9f2e3fc83077d042f9cb8ce8cd78f9ed031eba16".

(** The lower-case spelling behind the upper-case prefix, which the
    address pattern of the services admits. *)
Definition example_address_0X : string := "0X9f2e3fc83077d042f9cb8ce8cd78f9ed031eba16".

(** The proofs row of the example address. *)
Definition example_record : MerkleProofRecord.t :=
  MerkleProofRecord.mk
    "0x44141ee35027f7b42644315ea4da336bf201261911260880fbe8eba6784a333a,0x17f2865fdf204ab017540cdd07d851c46fa0aa1618fe00b5ed8cebf31fa0fe0b"
    "0x9F2e3fc83077d042f9CB8Ce8cd78f9eD031eBa16" "1250000000000000000000".

(** The provider returns every item of every batch write as unprocessed. *)
Definition nothing_processed : list Outcome :=
  replicate 5 (ServedLeaving (TableEntry (replicate 25 true))).

(** ** Specification helpers for runs of the services *)

(** The world after one request [req] that leaves the tables as [d]. *)
Definition step (w : World) (req : Request) (d : Db) : World :=
  mkWorld d (snd (next_outcome w))
    (log w ++ [mkLogEntry req (roots (db w)) (roots d)]) (slept w).

(** [hoare P m Q]: from a world that satisfies [P], the result and the
    world after [m] satisfy [Q]. *)
Definition hoare {A} (P : World -> Prop) (m : M A)
    (Q : Exception + A -> World -> Prop) : Prop :=
  forall w, P w -> Q (fst (m w)) (snd (m w)).

(** [m] keeps [I], whatever its result. *)
Definition keeps {A} (I : World -> Prop) (m : M A) : Prop := hoare I m (fun _ => I).

(** The provider serves the request and leaves nothing unprocessed. *)
Definition in_full (o : Outcome) : bool :=
  match o with
  | Served | ServedLeaving FieldAbsent | ServedLeaving NoTableEntry => true
  | _ => false
  end.

Definition serves_in_full (w : World) : Prop := forallb in_full (schedule w) = true.

(** With a provider that serves in full, [m] turns the tables [d] into
    [d'] and returns [a]. *)
Definition succeeds {A} (m : M A) (d : Db) (a : A) (d' : Db) : Prop :=
  forall w, serves_in_full w -> db w = d ->
    fst (m w) = inr a /\ serves_in_full (snd (m w)) /\ db (snd (m w)) = d'.

(** The rows of the other whitelist names are the same in [d] and [d']. *)
Definition same_elsewhere (name : string) (d d' : Db) : Prop :=
  (forall n, n <> name -> roots d' !! n = roots d !! n)
  /\ (forall n a, n <> name -> proofs d' !! (n, a) = proofs d !! (n, a)).

(** The proofs rows are keyed by their own [WhitelistAddress], a string
    of 1 to 1024 characters, as the sort key of the table is. *)
Definition well_keyed (d : Db) : Prop :=
  forall n a r, proofs d !! (n, a) = Some r ->
    MerkleProofRecord.WhitelistAddress r = a
    /\ DynamoDbService.invalid_length DynamoDbService.ValidSortKeyValueMinLen
         DynamoDbService.ValidSortKeyValueMaxLen a = false.

(** The proofs rows of [records] under [name]. *)
Definition insert_records (name : string) (records : list MerkleProofRecord.t)
    (m : gmap (string * string) MerkleProofRecord.t)
    : gmap (string * string) MerkleProofRecord.t :=
  foldl (fun m r => <[(name, MerkleProofRecord.WhitelistAddress r) := r]> m) m records.

Definition delete_keys (name : string) (sortKeyValues : list string)
    (m : gmap (string * string) MerkleProofRecord.t)
    : gmap (string * string) MerkleProofRecord.t :=
  foldl (fun m a => delete (name, a) m) m sortKeyValues.

(** A batch on the partition [name], of 1 to 25 members. *)
Definition bounded_batch (name : string) (req : Request) : Prop :=
  match req with
  | BatchWriteCommand n requests =>
      n = name /\ (1 <= List.length requests <= DynamoDbService.BatchWriteMaxItems)%nat
  | BatchExecuteStatementInsert n items =>
      n = name /\ (1 <= List.length items <= DynamoDbService.BatchExecuteMaxItems)%nat
  | _ => False
  end.

(** The provider returns every member of a batch write as unprocessed. *)
Definition leaves_all : Outcome :=
  ServedLeaving (TableEntry (replicate DynamoDbService.BatchWriteMaxItems true)).

(** The sleeps of [attempts] attempts in a row on one chunk. *)
Definition backoff (attempts : nat) : list Z :=
  (fun i : nat => DynamoDbService.BatchWriteDefaultMinTimeoutMs
                  * DynamoDbService.BatchWriteDefaultExponentialFactor ^ Z.of_nat i)
    <$> seq 0 attempts.

(** [m] sends at most [requests] requests and sleeps at most [sleeps]
    times, each time for one of the [attempts] first delays. *)
Definition bounded_effort {A} (requests sleeps attempts : nat) (m : M A) : Prop :=
  forall w, exists l sl,
    log (snd (m w)) = log w ++ l
    /\ slept (snd (m w)) = slept w ++ sl
    /\ (List.length l <= requests)%nat
    /\ (List.length sl <= sleeps)%nat
    /\ Forall (fun ms => ms ∈ backoff attempts) sl.

(** The whitelist name of an operation. *)
Definition Operation_name (op : Operation) : string :=
  match op with
  | CreateTree whitelistName _ => whitelistName
  | DeleteTree whitelistName => whitelistName
  end.

(** The rows of the partition [name] of the proofs table, as a query
    returns them. *)
Definition partition (name : string) (d : Db) : list MerkleProofRecord.t :=
  snd <$> filter (fun kv : string * string * MerkleProofRecord.t => fst (fst kv) = name)
            (map_to_list (proofs d)).

(** Two rows of the fixture under one spelling each of one account. *)
Definition same_account_entries : list WhitelistEntry.t :=
  [ WhitelistEntry.mk example_address "1250";
    WhitelistEntry.mk example_address_lower "1" ].

(** Every roots row holds the "0x" string of a bytes32. *)
Definition well_rooted (d : Db) : Prop :=
  forall n r, roots d !! n = Some r ->
    exists rootZ, 0 <= rootZ < 2 ^ 256 /\ MerkleRootRecord.MerkleRoot r = Hex.hexlify32 rootZ.

(** ** MerkleTreeWhitelist.sol: the storage and the transactions

    The contract inherits [Ownable] of OpenZeppelin Contracts 5 (the
    constructor [Ownable(initialOwner)] and the error
    [OwnableUnauthorizedAccount] of the test are of this version), which
    is transcribed here: the owner, the modifier [onlyOwner],
    [transferOwnership] and [renounceOwnership].  Addresses and bytes32
    values are integers; a revert is [inl] and leaves the storage as it
    was. *)

Module Contract.

Record State := mkState {
  owner : Z;
  merkleRoot : Z;
}.

Inductive Event :=
| OwnershipTransferred (previousOwner newOwner : Z)
| RootChange (oldRoot newRoot : Z).

Inductive Revert :=
| OwnableInvalidOwner (owner : Z)
| OwnableUnauthorizedAccount (account : Z).

Definition Receipt : Type := Revert + (list Event * State).

(** [constructor(address initialOwner, bytes32 root) Ownable(initialOwner)] *)
Definition constructor (initialOwner root : Z) : Receipt :=
  if initialOwner =? 0 then inl (OwnableInvalidOwner 0)
  else inr ([OwnershipTransferred 0 initialOwner], mkState initialOwner root).

(** [modifier onlyOwner]: [if (owner() != _msgSender()) revert ...] *)
Definition onlyOwner (msg_sender : Z) (st : State) (body : Receipt) : Receipt :=
  if negb (owner st =? msg_sender) then inl (OwnableUnauthorizedAccount msg_sender)
  else body.

Definition updateRoot (msg_sender newRoot : Z) (st : State) : Receipt :=
  onlyOwner msg_sender st
    (inr ([RootChange (merkleRoot st) newRoot], mkState (owner st) newRoot)).

Definition renounceOwnership (msg_sender : Z) (st : State) : Receipt :=
  onlyOwner msg_sender st
    (inr ([OwnershipTransferred (owner st) 0], mkState 0 (merkleRoot st))).

Definition transferOwnership (msg_sender newOwner : Z) (st : State) : Receipt :=
  onlyOwner msg_sender st
    (if newOwner =? 0 then inl (OwnableInvalidOwner 0)
     else inr ([OwnershipTransferred (owner st) newOwner], mkState newOwner (merkleRoot st))).

(** The view [isWhitelistedFor] on the stored root. *)
Definition isWhitelistedFor (keccak256 : bytes -> Z) (st : State)
    (whitelistAddress whitelistAmountWei : Z) (proof : list Z) : string + bool :=
  MerkleTreeWhitelist.isWhitelistedFor keccak256 (merkleRoot st)
    whitelistAddress whitelistAmountWei proof.

(** The transactions that change the storage, and a sequence of them. *)
Inductive Call :=
| UpdateRoot (newRoot : Z)
| TransferOwnership (newOwner : Z)
| RenounceOwnership.

Definition execute (msg_sender : Z) (c : Call) (st : State) : Receipt :=
  match c with
  | UpdateRoot newRoot => updateRoot msg_sender newRoot st
  | TransferOwnership newOwner => transferOwnership msg_sender newOwner st
  | RenounceOwnership => renounceOwnership msg_sender st
  end.

Definition after (st : State) (tx : Z * Call) : State :=
  match execute (fst tx) (snd tx) st with
  | inr (_, st') => st'
  | inl _ => st
  end.

Definition run (txs : list (Z * Call)) (st : State) : State := foldl after st txs.

End Contract.

(** ** index.mts: the authorization of a route *)

Module Handler.

Inductive RouteKey :=
| CreateMerkleTree
| DeleteMerkleTree
| DeleteWhitelist
| GetMerkleProof
| GetMerkleProofs
| GetMerkleRoot
| GetMerkleRoots
| GetMerkleTrees
| UploadWhitelist.

(** The group lists read from the environment when the module loads. *)
Record Configuration := mkConfiguration {
  createMerkleTreeAuthorizedGroups : list string;
  deleteMerkleTreeAuthorizedGroups : list string;
  deleteWhitelistAuthorizedGroups : list string;
  getMerkleProofsAuthorizedGroups : list string;
  getMerkleRootAuthorizedGroups : list string;
  getMerkleRootsAuthorizedGroups : list string;
  uploadWhitelistAuthorizedGroups : list string;
}.

Definition AuthorizedGroups (cfg : Configuration) (routeKey : RouteKey) : list string :=
  match routeKey with
  | CreateMerkleTree => createMerkleTreeAuthorizedGroups cfg
  | DeleteMerkleTree => deleteMerkleTreeAuthorizedGroups cfg
  | DeleteWhitelist => deleteWhitelistAuthorizedGroups cfg
  | GetMerkleProof => []
  | GetMerkleProofs => getMerkleProofsAuthorizedGroups cfg
  | GetMerkleRoot => getMerkleRootAuthorizedGroups cfg
  | GetMerkleRoots => getMerkleRootsAuthorizedGroups cfg
  | GetMerkleTrees => []
  | UploadWhitelist => uploadWhitelistAuthorizedGroups cfg
  end.

(** [array.includes(element)] on strings *)
Definition includes (array : list string) (element : string) : bool :=
  existsb (String.eqb element) array.

Definition isUserAuthorized (authorizedGroups groupMemberships : list string) : bool :=
  if (List.length authorizedGroups =? 0)%nat then true
  else if (List.length groupMemberships =? 0)%nat then false
  else existsb (fun element => includes groupMemberships element) authorizedGroups.

End Handler.

(** A contract that holds the root of the test fixture, the proof of
    the first row of the fixture, and the new root of the test. *)
Definition example_owner : Z := 1.

Definition example_state : Contract.State :=
  Contract.mkState example_owner
    0x67063f96b1592f043a1e7998ffec6a4b984a6511566585f51bb418d9ead0578b.

Definition fixture_proof : list Z :=
  [ 0x079f6dbc66bf225bbf74af970ec855b0bc1d0717b98f7ccc49429523230c0f3a;
    0x8fca9c4aa56f15a12b252f1bafbbb3b0f6f47c446f50afcd7821b7bd4a103054;
    0x49e29e71bc8db42b06dd633099c6caa1b492f8d53326ee5d625a14c9ef2d557c ].

Definition fixture_new_root : Z :=
  0x52ed22948e504f232f8ff26393b7e9a9291140d8928d22010606a1213c888fef.

(** * Theorems *)

(** ** The array tree of the library: structure and round trip *)

Section CoreFacts.
Import MerkleTreeLib.
Variable nodeHash : Z -> Z -> Z.
Hypothesis nodeHash_comm : forall a b, nodeHash a b = nodeHash b a.

Local Abbreviation well_formed := (MerkleTreeLib.well_formed nodeHash).

Lemma fill_internal_length k t :
  List.length (fill_internal nodeHash k t) = List.length t.
Proof.
  revert t. induction k as [|i IH]; intros t; simpl; [done|].
  rewrite IH. apply length_insert.
Qed.

Lemma fill_internal_frame k t j :
  (k <= j)%nat -> fill_internal nodeHash k t !!! j = t !!! j.
Proof.
  revert t. induction k as [|i IH]; intros t Hj; simpl; [done|].
  rewrite IH by lia. apply list_lookup_total_insert_ne. lia.
Qed.

Lemma fill_internal_nodes k t j :
  (j < k)%nat -> (k <= List.length t)%nat ->
  fill_internal nodeHash k t !!! j =
  nodeHash (fill_internal nodeHash k t !!! leftChildIndex j)
           (fill_internal nodeHash k t !!! rightChildIndex j).
Proof.
  revert t. induction k as [|i IH]; intros t Hj Hk; [lia|].
  simpl. destruct (decide (j = i)) as [->|Hne].
  - rewrite !fill_internal_frame by (unfold leftChildIndex, rightChildIndex; lia).
    rewrite list_lookup_total_insert_eq by lia.
    rewrite !list_lookup_total_insert_ne by (unfold leftChildIndex, rightChildIndex; lia).
    done.
  - apply IH; [lia|]. rewrite length_insert. lia.
Qed.

Lemma processProof_getProof_loop t index :
  well_formed t -> Nat.odd (List.length t) = true -> (index < List.length t)%nat ->
  processProof nodeHash (t !!! index) (getProof_loop t index) = t !!! 0%nat.
Proof.
  intros Hwf Hodd. induction index as [index IH] using lt_wf_ind. intros Hlt.
  destruct index as [|k].
  - by simp getProof_loop.
  - simp getProof_loop. unfold processProof. simpl.
    assert (Hp : (parentIndex (S k) < S k)%nat).
    { unfold parentIndex.
      assert (((S k - 1) / 2 <= S k - 1)%nat) by (apply Nat.Div0.div_le_upper_bound; lia).
      lia. }
    specialize (IH _ Hp). unfold processProof in IH.
    assert (Hnode : nodeHash (t !!! S k) (t !!! siblingIndex (S k)) = t !!! parentIndex (S k)).
    { unfold siblingIndex, parentIndex.
      destruct (Nat.even (S k)) eqn:He.
      - apply Nat.even_spec in He. destruct He as [m Hm].
        assert (Hm' : (m >= 1)%nat) by lia.
        replace ((S k - 1) / 2)%nat with (m - 1)%nat.
        2:{ replace (S k - 1)%nat with (1 + (m - 1) * 2)%nat by lia.
            rewrite Nat.div_add by lia. simpl. lia. }
        rewrite (Hwf (m - 1)%nat) by lia.
        unfold leftChildIndex, rightChildIndex.
        replace (2 * (m - 1) + 1)%nat with (S k - 1)%nat by lia.
        replace (2 * (m - 1) + 2)%nat with (S k) by lia.
        apply nodeHash_comm.
      - assert (Ho : Nat.odd (S k) = true) by (rewrite <- Nat.negb_even, He; done).
        apply Nat.odd_spec in Ho. destruct Ho as [m Hm].
        replace ((S k - 1) / 2)%nat with m.
        2:{ replace (S k - 1)%nat with (m * 2)%nat by lia.
            rewrite Nat.div_mul by lia. done. }
        rewrite (Hwf m).
        2:{ apply Nat.odd_spec in Hodd. destruct Hodd as [q Hq]. lia. }
        unfold leftChildIndex, rightChildIndex.
        replace (2 * m + 1)%nat with (S k) by lia.
        replace (2 * m + 2)%nat with (S k + 1)%nat by lia. done. }
    rewrite Hnode. apply IH. lia.
Qed.

Lemma place_leaves_aux (L : nat) (l : list Z) (k : nat) (t : list Z) :
  List.length t = L -> (k + List.length l <= L)%nat ->
  let r := foldl (fun t (il : nat * Z) => <[(L - 1 - fst il)%nat := snd il]> t) t
                 (imap (fun i x => ((k + i)%nat, x)) l) in
  List.length r = L
  /\ (forall i x, l !! i = Some x -> r !!! (L - 1 - (k + i))%nat = x)
  /\ (forall p, (p < L - k - List.length l \/ L - k <= p)%nat -> r !!! p = t !!! p).
Proof.
  revert k t. induction l as [|x l IH]; intros k t Ht Hk; simpl.
  - split; [done|]. split; [intros i y Hi; by rewrite lookup_nil in Hi|done].
  - rewrite (imap_ext _ (fun i x => ((S k + i)%nat, x))).
    2:{ intros i y _. simpl. f_equal. lia. }
    simpl in Hk.
    destruct (IH (S k) (<[(L - 1 - (k + 0))%nat := x]> t)) as (Hlen & Hget & Hframe).
    { by rewrite length_insert. }
    { lia. }
    split; [exact Hlen|]. split.
    + intros [|i] y Hi; simpl in Hi.
      * injection Hi as ->. rewrite Hframe by lia.
        apply list_lookup_total_insert_eq. lia.
      * replace (k + S i)%nat with (S k + i)%nat by lia. by apply Hget.
    + intros p Hp. rewrite Hframe by lia.
      apply list_lookup_total_insert_ne. lia.
Qed.

Lemma makeMerkleTree_spec (leaves : list Z) :
  forallb isValidMerkleNode leaves = true -> leaves <> [] ->
  exists t,
    makeMerkleTree nodeHash leaves = inr t
    /\ List.length t = (2 * List.length leaves - 1)%nat
    /\ well_formed t
    /\ (forall i x, leaves !! i = Some x -> t !!! (List.length t - 1 - i)%nat = x).
Proof.
  intros Hvalid Hne. unfold makeMerkleTree. rewrite Hvalid. simpl.
  assert (Hn : (1 <= List.length leaves)%nat) by (destruct leaves; [done|simpl; lia]).
  destruct (List.length leaves =? 0)%nat eqn:E0; [apply Nat.eqb_eq in E0; lia|].
  set (n := List.length leaves) in *.
  set (len := (2 * n - 1)%nat).
  destruct (place_leaves_aux len leaves 0 (replicate len 0)) as (Hlen & Hget & _).
  { apply length_replicate. }
  { unfold len; fold n; lia. }
  assert (Hplace : place_leaves (replicate len 0) leaves
                   = foldl (fun t (il : nat * Z) => <[(len - 1 - fst il)%nat := snd il]> t)
                       (replicate len 0) (imap (fun i x => ((0 + i)%nat, x)) leaves)).
  { unfold place_leaves. rewrite length_replicate. done. }
  exists (fill_internal nodeHash (len - n) (place_leaves (replicate len 0) leaves)).
  split; [reflexivity|].
  rewrite Hplace.
  set (t1 := foldl _ _ _) in *.
  split; [by rewrite fill_internal_length|].
  split.
  - intros j Hj. rewrite fill_internal_length in Hj.
    apply fill_internal_nodes; lia.
  - intros i x Hi. rewrite fill_internal_length, Hlen.
    pose proof (lookup_lt_Some _ _ _ Hi) as Hilt. fold n in Hilt.
    rewrite fill_internal_frame by (unfold len; lia).
    by apply (Hget i x).
Qed.
End CoreFacts.

(** ** StandardMerkleTree: hashing, sorting and indexing *)

Lemma Keccak_keccak256_range msg : 0 <= Keccak.keccak256 msg < 2 ^ 256.
Proof. unfold Keccak.keccak256. apply Z.mod_pos_bound. lia. Qed.

Section StandardFacts.
Import MerkleTreeLib.
Context (keccak256 : bytes -> Z).
Hypothesis keccak256_range : forall msg, 0 <= keccak256 msg < 2 ^ 256.

Local Abbreviation standardNodeHash := (MerkleTreeLib.standardNodeHash keccak256).
Local Abbreviation standardLeafHash := (MerkleTreeLib.standardLeafHash keccak256).
Local Abbreviation hashValues := (MerkleTreeLib.hashValues keccak256).

Lemma sortPair_cases a b :
  sortPair a b = if a <=? b then [a; b] else [b; a].
Proof.
  unfold sortPair, compare.
  destruct (Z.leb_spec a b) as [H|H].
  - destruct (Z.gtb_spec (a - b) 0) as [H1|H1]; [lia|].
    destruct (Z.ltb_spec (a - b) 0); by rewrite ?Z.gtb_ltb, ?Z.ltb_irrefl.
  - destruct (Z.gtb_spec (a - b) 0) as [H1|H1]; [|lia].
    by rewrite Z.gtb_ltb.
Qed.

Lemma concat32_pair a b : concat32 [a; b] = be_bytes 32 a ++ be_bytes 32 b.
Proof. unfold concat32. cbn [flat_map]. by rewrite app_nil_r. Qed.

Lemma standardNodeHash_comm a b : standardNodeHash a b = standardNodeHash b a.
Proof.
  unfold MerkleTreeLib.standardNodeHash. rewrite !sortPair_cases.
  destruct (Z.leb_spec a b) as [H|H]; destruct (Z.leb_spec b a) as [H'|H'].
  - assert (a = b) as -> by lia. reflexivity.
  - reflexivity.
  - reflexivity.
  - lia.
Qed.

Lemma standardNodeHash_onchain a b :
  standardNodeHash a b = MerkleTreeWhitelist.commutativeKeccak256 keccak256 a b.
Proof.
  unfold MerkleTreeLib.standardNodeHash, MerkleTreeWhitelist.commutativeKeccak256,
    MerkleTreeWhitelist.efficientKeccak256.
  rewrite sortPair_cases.
  destruct (Z.leb_spec a b) as [H|H]; destruct (Z.ltb_spec a b) as [H'|H'];
    rewrite concat32_pair.
  - reflexivity.
  - assert (a = b) as -> by lia. reflexivity.
  - lia.
  - reflexivity.
Qed.

Lemma processProof_onchain leaf proof :
  processProof standardNodeHash leaf proof
  = MerkleTreeWhitelist.processProof keccak256 proof leaf.
Proof.
  unfold processProof, MerkleTreeWhitelist.processProof.
  revert leaf. induction proof as [|p r IH]; intros leaf; simpl; [reflexivity|].
  rewrite standardNodeHash_onchain. rewrite IH. reflexivity.
Qed.

Lemma insert_sorted_perm x l : insert_sorted x l ≡ₚ x :: l.
Proof.
  induction l as [|y r IH]; simpl; [done|].
  destruct (compare (hv_hash x) (hv_hash y) <? 0); [done|].
  rewrite IH. apply Permutation_swap.
Qed.

Lemma sort_perm l : sort l ≡ₚ l.
Proof.
  unfold sort.
  assert (H : forall acc, foldl (fun acc x => insert_sorted x acc) acc l ≡ₚ acc ++ l).
  { induction l as [|x r IH]; intros acc; simpl.
    - by rewrite app_nil_r.
    - etrans; [apply IH|]. rewrite insert_sorted_perm. simpl.
      apply Permutation_middle. }
  apply (H []).
Qed.

Lemma hashValues_spec vs k hs :
  hashValues k vs = Some hs ->
  List.length hs = List.length vs
  /\ forall i hv, hs !! i = Some hv ->
       hv_valueIndex hv = (k + i)%nat
       /\ vs !! i = Some (hv_value hv)
       /\ standardLeafHash (hv_value hv) = Some (hv_hash hv).
Proof.
  revert k hs. induction vs as [|v r IH]; intros k hs H; simpl in H.
  - injection H as <-. split; [done|]. intros i hv Hi. by rewrite lookup_nil in Hi.
  - destruct (standardLeafHash v) as [h|] eqn:Eh; [|done].
    destruct (hashValues (S k) r) as [hs'|] eqn:Er; [|done].
    injection H as <-. destruct (IH _ _ Er) as [Hlen Hall].
    split; [simpl; by rewrite Hlen|].
    intros [|i] hv Hi; simpl in Hi.
    + injection Hi as <-. simpl. split; [lia|]. split; done.
    + destruct (Hall i hv Hi) as (H1 & H2 & H3).
      split; [lia|]. split; done.
Qed.

Lemma hashValues_total vs k :
  Forall (fun v => is_Some (standardLeafHash v)) vs ->
  is_Some (hashValues k vs).
Proof.
  revert k. induction vs as [|v r IH]; intros k H; simpl; [done|].
  inversion H as [|? ? [h Hh] Hr]; subst. rewrite Hh.
  destruct (IH (S k) Hr) as [hs Hhs]. rewrite Hhs. done.
Qed.

Lemma hashValues_indices vs k hs :
  hashValues k vs = Some hs -> map hv_valueIndex hs = seq k (List.length vs).
Proof.
  revert k hs. induction vs as [|v r IH]; intros k hs H; simpl in H.
  - by injection H as <-.
  - destruct (standardLeafHash v) as [h|] eqn:Eh; [|done].
    destruct (hashValues (S k) r) as [hs'|] eqn:Er; [|done].
    injection H as <-. simpl. f_equal. by apply IH.
Qed.

Lemma index_values_aux (len : nat) (l : list HashedValue) (k : nat) (acc : list IndexedValue) :
  NoDup (map hv_valueIndex l) ->
  let r := foldl (fun acc (ih : nat * HashedValue) =>
                    alter (set_treeIndex (len - fst ih - 1)%nat) (hv_valueIndex (snd ih)) acc)
                 acc (imap (fun i x => ((k + i)%nat, x)) l) in
  List.length r = List.length acc
  /\ (forall p, iv_value <$> r !! p = iv_value <$> acc !! p)
  /\ (forall j hv, l !! j = Some hv ->
        treeIndex <$> r !! hv_valueIndex hv
        = (fun _ => (len - (k + j) - 1)%nat) <$> acc !! hv_valueIndex hv)
  /\ (forall p, p ∉ map hv_valueIndex l -> r !! p = acc !! p).
Proof.
  revert k acc. induction l as [|x l IH]; intros k acc Hnd; simpl.
  - repeat split; try done.
  - rewrite (imap_ext _ (fun i x => ((S k + i)%nat, x))).
    2:{ intros i y _. simpl. f_equal. lia. }
    simpl in Hnd. apply NoDup_cons in Hnd as [Hx Hnd].
    destruct (IH (S k) (alter (set_treeIndex (len - (k + 0) - 1)%nat) (hv_valueIndex x) acc) Hnd)
      as (Hlen & Hval & Htree & Hframe).
    split; [by rewrite Hlen, length_alter|]. split; [|split].
    + intros p. rewrite Hval, list_lookup_alter.
      case_decide; [subst|done]. by destruct (acc !! hv_valueIndex x).
    + intros [|j] hv Hj; simpl in Hj.
      * injection Hj as <-. rewrite Hframe by done.
        rewrite list_lookup_alter_eq. by destruct (acc !! hv_valueIndex x).
      * rewrite (Htree j hv Hj). rewrite list_lookup_alter.
        replace (k + S j)%nat with (S k + j)%nat by lia.
        case_decide as E; [rewrite E|done].
        by destruct (acc !! hv_valueIndex hv).
    + intros p Hp. apply not_elem_of_cons in Hp as [Hp1 Hp2].
      rewrite Hframe by done. by apply list_lookup_alter_ne.
Qed.
End StandardFacts.

Section StandardTree.
Import MerkleTreeLib.
Context (keccak256 : bytes -> Z).
Hypothesis keccak256_range : forall msg, 0 <= keccak256 msg < 2 ^ 256.

Local Abbreviation standardNodeHash := (MerkleTreeLib.standardNodeHash keccak256).
Local Abbreviation standardLeafHash := (MerkleTreeLib.standardLeafHash keccak256).
Local Abbreviation hashValues := (MerkleTreeLib.hashValues keccak256).

Lemma standardLeafHash_valid v h :
  standardLeafHash v = Some h -> isValidMerkleNode h = true.
Proof.
  unfold MerkleTreeLib.standardLeafHash.
  destruct (Ethers.abi_encode_address_uint256 _ _ _); [|done].
  intros [= <-]. unfold isValidMerkleNode.
  pose proof (keccak256_range (be_bytes 32 (keccak256 b))). lia.
Qed.

(** What [StandardMerkleTree.of] builds, for values the ABI coder accepts. *)
Lemma StandardMerkleTree_of_spec (vs : list (string * string)) :
  Forall (fun v => is_Some (standardLeafHash v)) vs -> vs <> [] ->
  exists t,
    StandardMerkleTree_of keccak256 vs = inr t
    /\ List.length (values t) = List.length vs
    /\ forall i v, vs !! i = Some v ->
         exists iv h proof,
           values t !! i = Some iv
           /\ iv_value iv = v
           /\ standardLeafHash v = Some h
           /\ getProofAt keccak256 t i = inr proof
           /\ processProof standardNodeHash h proof = root t.
Proof.
  intros Hall Hne. unfold StandardMerkleTree_of.
  destruct (hashValues_total keccak256 vs 0%nat Hall) as [hs Hhs]. rewrite Hhs.
  destruct (hashValues_spec keccak256 _ _ _ Hhs) as [Hlen Hhv].
  pose proof (hashValues_indices keccak256 _ _ _ Hhs) as Hidx.
  pose proof (sort_perm hs) as Hperm.
  set (sorted := sort hs) in *.
  assert (Hslen : List.length sorted = List.length vs).
  { by rewrite (Permutation_length Hperm). }
  assert (Hvalid : forallb isValidMerkleNode (map hv_hash sorted) = true).
  { apply forallb_forall. intros x Hx. apply in_map_iff in Hx as (hv & <- & Hin).
    apply list_elem_of_In in Hin. rewrite Hperm in Hin.
    apply list_elem_of_lookup in Hin as [i Hi].
    destruct (Hhv i hv Hi) as (_ & _ & Hh). by eapply standardLeafHash_valid. }
  assert (Hnonempty : map hv_hash sorted <> []).
  { intros E. apply (f_equal List.length) in E. rewrite length_map, Hslen in E.
    destruct vs; [done|simpl in E; lia]. }
  destruct (makeMerkleTree_spec standardNodeHash _ Hvalid Hnonempty)
    as (t0 & Hmk & Ht0len & Hwf & Hleaf).
  rewrite Hmk. rewrite length_map, Hslen in Ht0len.
  eexists. split; [reflexivity|]. simpl.
  assert (Hnd : NoDup (map hv_valueIndex sorted)).
  { rewrite Hperm, Hidx. apply NoDup_seq. }
  unfold index_values.
  rewrite (imap_ext pair (fun i x => ((0 + i)%nat, x))) by done.
  destruct (index_values_aux (List.length t0) sorted 0
              (map (fun v => {| iv_value := v; treeIndex := 0 |}) vs) Hnd)
    as (Hrlen & Hrval & Hrtree & _).
  set (r := foldl _ _ _) in *.
  split; [by rewrite Hrlen, length_map|].
  intros i v Hi.
  assert (Hilt : (i < List.length vs)%nat) by (by eapply lookup_lt_Some).
  destruct (lookup_lt_is_Some_2 hs i) as [hv Hhvi]; [lia|].
  destruct (Hhv i hv Hhvi) as (Hvi & Hval & Hhash). simpl in Hvi.
  rewrite Hi in Hval. injection Hval as ->.
  assert (Hin : hv ∈ sorted).
  { rewrite Hperm. by eapply list_elem_of_lookup_2. }
  apply list_elem_of_lookup in Hin as [j Hj].
  assert (Hjlt : (j < List.length vs)%nat).
  { rewrite <- Hslen. by eapply lookup_lt_Some. }
  specialize (Hrval i). specialize (Hrtree j hv Hj). rewrite Hvi in Hrtree.
  rewrite list_lookup_fmap, Hi in Hrval, Hrtree. simpl in Hrval, Hrtree.
  destruct (r !! i) as [iv|] eqn:Eiv; [|done].
  simpl in Hrval, Hrtree. injection Hrval as Hiv. injection Hrtree as Hti.
  assert (Hleafj : t0 !!! treeIndex iv = hv_hash hv).
  { rewrite Hti, <- (Hleaf j (hv_hash hv)).
    - f_equal. lia.
    - by rewrite list_lookup_fmap, Hj. }
  exists iv, (hv_hash hv), (getProof_loop t0 (treeIndex iv)).
  split; [done|]. split; [done|]. split; [done|].
  assert (Hround : processProof standardNodeHash (hv_hash hv) (getProof_loop t0 (treeIndex iv))
                   = t0 !!! 0%nat).
  { rewrite <- Hleafj. apply processProof_getProof_loop.
    - apply standardNodeHash_comm.
    - exact Hwf.
    - rewrite Ht0len. rewrite Nat.odd_sub by lia. rewrite Nat.odd_mul. done.
    - lia. }
  split; [|exact Hround].
  unfold getProofAt. simpl. rewrite Eiv, Hiv, Hhash.
  rewrite bool_decide_eq_true_2 by exact Hleafj. simpl.
  unfold getProof, isLeafNode, isInternalNode, isTreeNode, leftChildIndex.
  assert (E1 : (treeIndex iv <? List.length t0)%nat = true) by (apply Nat.ltb_lt; lia).
  assert (E2 : (2 * treeIndex iv + 1 <? List.length t0)%nat = false) by (apply Nat.ltb_ge; lia).
  rewrite E1, E2. simpl.
  unfold root. simpl. rewrite Hleafj, Hround.
  rewrite bool_decide_eq_true_2 by done. done.
Qed.
End StandardTree.

(** ** Characters, strings and hexadecimal values *)

Lemma chars_str l : chars (str l) = l.
Proof. apply list_ascii_of_string_of_list_ascii. Qed.

Lemma str_chars s : str (chars s) = s.
Proof. apply string_of_list_ascii_of_string. Qed.

Lemma chars_inj s1 s2 : chars s1 = chars s2 -> s1 = s2.
Proof. intros H. rewrite <- (str_chars s1), <- (str_chars s2). by rewrite H. Qed.

Lemma length_chars s : List.length (chars s) = String.length s.
Proof. induction s as [|c s IH]; simpl; [done|by rewrite IH]. Qed.

Lemma chars_append s1 s2 : chars (s1 +:+ s2) = chars s1 ++ chars s2.
Proof. induction s1 as [|c s1 IH]; simpl; [done|by rewrite IH]. Qed.

Lemma startsWith_0x s :
  startsWith s "0x" = true <-> exists r, chars s = "0"%char :: "x"%char :: r.
Proof.
  unfold startsWith. rewrite bool_decide_eq_true. simpl.
  destruct (chars s) as [|c1 [|c2 r]]; simpl; split;
    try (intros H; discriminate H); try (intros [r' H]; discriminate H).
  - intros [= -> ->]. by exists r.
  - intros [r' [= -> -> ->]]. done.
Qed.

Ltac ascii_cases c :=
  destruct c as [[] [] [] [] [] [] [] []]; vm_compute; try tauto; try congruence; try lia.

Lemma toLowerCase_char_hex c :
  is_hex_digit c = true ->
  is_hex_digit (toLowerCase_char c) = true
  /\ Hex.digit_value (toLowerCase_char c) = Hex.digit_value c.
Proof. ascii_cases c; split; congruence. Qed.

Lemma toUpperCase_char_hex c :
  is_hex_digit c = true ->
  is_hex_digit (toUpperCase_char c) = true
  /\ Hex.digit_value (toUpperCase_char c) = Hex.digit_value c.
Proof. ascii_cases c; split; congruence. Qed.

Lemma toLowerCase_char_idem c :
  toLowerCase_char (toLowerCase_char c) = toLowerCase_char c.
Proof. ascii_cases c. Qed.

Lemma toLowerCase_toUpperCase_char c :
  toLowerCase_char (toUpperCase_char (toLowerCase_char c)) = toLowerCase_char c.
Proof. ascii_cases c. Qed.

Lemma digit_value_range c : 0 <= Hex.digit_value c < 16.
Proof. destruct c as [[] [] [] [] [] [] [] []]; cbv - [Z.le Z.lt]; lia. Qed.

Lemma digit_value_zero c :
  is_hex_digit c = true -> Hex.digit_value c = 0 -> c = "0"%char.
Proof. ascii_cases c. Qed.

Lemma toLowerCase_char_digit_value c1 c2 :
  is_hex_digit c1 = true -> is_hex_digit c2 = true ->
  Hex.digit_value c1 = Hex.digit_value c2 ->
  toLowerCase_char c1 = toLowerCase_char c2.
Proof.
  intros H1 H2 H.
  assert (forall c, is_hex_digit c = true ->
            toLowerCase_char c = Hex.digit (Hex.digit_value c)) as E.
  { intros c. ascii_cases c. }
  by rewrite (E c1), (E c2), H.
Qed.

Lemma Hex_value_acc cs acc :
  fold_left (fun acc c => acc * 16 + Hex.digit_value c) cs acc
  = acc * 16 ^ Z.of_nat (List.length cs) + Hex.value cs.
Proof.
  unfold Hex.value. revert acc. induction cs as [|c cs IH]; intros acc.
  - simpl. lia.
  - cbn [fold_left List.length]. rewrite IH, (IH (0 * 16 + _)).
    rewrite Nat2Z.inj_succ, Z.pow_succ_r by lia. lia.
Qed.

Lemma Hex_value_cons c cs :
  Hex.value (c :: cs) = Hex.digit_value c * 16 ^ Z.of_nat (List.length cs) + Hex.value cs.
Proof. unfold Hex.value at 1. cbn [fold_left]. rewrite Hex_value_acc. lia. Qed.

Lemma Hex_value_range cs : 0 <= Hex.value cs < 16 ^ Z.of_nat (List.length cs).
Proof.
  induction cs as [|c cs IH].
  - cbn. lia.
  - rewrite Hex_value_cons. cbn [List.length].
    rewrite Nat2Z.inj_succ, Z.pow_succ_r by lia.
    pose proof (digit_value_range c). nia.
Qed.

Lemma Hex_value_inj cs1 cs2 :
  List.length cs1 = List.length cs2 -> Hex.value cs1 = Hex.value cs2 ->
  map Hex.digit_value cs1 = map Hex.digit_value cs2.
Proof.
  revert cs2. induction cs1 as [|c1 cs1 IH]; intros [|c2 cs2] Hlen Hv; try done.
  injection Hlen as Hlen. rewrite !Hex_value_cons, Hlen in Hv.
  pose proof (Hex_value_range cs1) as R1. pose proof (Hex_value_range cs2) as R2.
  rewrite Hlen in R1.
  pose proof (digit_value_range c1). pose proof (digit_value_range c2).
  assert (Hex.digit_value c1 = Hex.digit_value c2) as Hd by nia.
  cbn [map]. rewrite Hd. f_equal. apply IH; [done|]. nia.
Qed.

Lemma Hex_value_ext cs1 cs2 :
  map Hex.digit_value cs1 = map Hex.digit_value cs2 -> Hex.value cs1 = Hex.value cs2.
Proof.
  revert cs2. induction cs1 as [|c1 cs1 IH]; intros [|c2 cs2] H; try done.
  injection H as Hd H. rewrite !Hex_value_cons, Hd, (IH _ H).
  apply (f_equal List.length) in H. rewrite !length_map in H. by rewrite H.
Qed.

Lemma Hex_value_zero cs :
  forallb is_hex_digit cs = true -> Hex.value cs = 0 ->
  cs = replicate (List.length cs) "0"%char.
Proof.
  induction cs as [|c cs IH]; intros Hhex Hv; [done|].
  cbn [forallb] in Hhex. apply andb_true_iff in Hhex as [Hc Hhex].
  rewrite Hex_value_cons in Hv.
  pose proof (Hex_value_range cs). pose proof (digit_value_range c).
  assert (Hex.digit_value c = 0) as Hd by nia.
  assert (Hex.value cs = 0) as Hv' by nia.
  cbn [List.length replicate]. rewrite <- (IH Hhex Hv').
  by rewrite (digit_value_zero c Hc Hd).
Qed.

(** ** Facts about [getAddress] *)

Section EthersFacts.
Context (keccak256 : bytes -> Z).
Local Abbreviation getAddress := (Ethers.getAddress keccak256).

Local Abbreviation checksummed := (Ethers.checksummed keccak256).

Lemma chars_toLowerCase s : chars (toLowerCase s) = map toLowerCase_char (chars s).
Proof. unfold toLowerCase. apply chars_str. Qed.

Lemma getChecksumAddress_0x body :
  Ethers.getChecksumAddress keccak256 (str ("0"%char :: "x"%char :: body)) = checksummed body.
Proof.
  unfold Ethers.getChecksumAddress, Ethers.checksummed.
  rewrite chars_toLowerCase, chars_str. reflexivity.
Qed.

Lemma getAddress_Some s a :
  getAddress s = Some a ->
  exists body,
    List.length body = 40%nat
    /\ forallb is_hex_digit body = true
    /\ (chars s = "0"%char :: "x"%char :: body
        \/ (startsWith s "0x" = false /\ chars s = body))
    /\ a = checksummed body.
Proof.
  unfold Ethers.getAddress, Ethers.matches_address.
  destruct (startsWith s "0x") eqn:E0.
  - apply startsWith_0x in E0 as [body Hb]. rewrite Hb. cbn [drop].
    destruct (_ && _) eqn:Em; [|done].
    apply andb_true_iff in Em as [Hl Hh]. apply Nat.eqb_eq in Hl.
    destruct (_ || _); [|done]. intros [= <-].
    exists body. repeat split; try done; [by left|].
    rewrite <- (str_chars s), Hb. apply getChecksumAddress_0x.
  - destruct (_ && _) eqn:Em; [|done].
    apply andb_true_iff in Em as [Hl Hh]. apply Nat.eqb_eq in Hl.
    destruct (_ || _); [|done]. intros [= <-].
    exists (chars s). repeat split; try done; [by right|].
    rewrite <- getChecksumAddress_0x. f_equal.
    apply chars_inj. by rewrite chars_append, chars_str.
Qed.

Lemma checksummed_chars body :
  exists ca, chars (checksummed body) = "0"%char :: "x"%char :: ca
    /\ List.length ca = List.length body
    /\ map toLowerCase_char ca = map toLowerCase_char body
    /\ (forallb is_hex_digit body = true ->
        forallb is_hex_digit ca = true
        /\ map Hex.digit_value ca = map Hex.digit_value body).
Proof.
  unfold Ethers.checksummed. eexists. rewrite chars_str. split; [reflexivity|].
  split; [by rewrite length_imap, length_map|]. split.
  - apply list_eq. intros i.
    rewrite !list_lookup_fmap, list_lookup_imap, list_lookup_fmap.
    destruct (body !! i) as [c|]; [|done]. cbn.
    destruct (8 <=? _); by rewrite ?toLowerCase_toUpperCase_char, ?toLowerCase_char_idem.
  - intros Hhex. rewrite forallb_forall in Hhex. split.
    + apply forallb_forall. intros x Hx. apply list_elem_of_In in Hx.
      apply elem_of_lookup_imap in Hx as (i & y & -> & Hy).
      apply list_lookup_fmap_Some in Hy as (c & -> & Hc).
      assert (is_hex_digit c = true) as Hch.
      { apply Hhex. apply list_elem_of_In. by eapply list_elem_of_lookup_2. }
      destruct (toLowerCase_char_hex c Hch) as [Hl _].
      destruct (8 <=? _); [|done]. by apply toUpperCase_char_hex.
    + apply list_eq. intros i.
      rewrite !list_lookup_fmap, list_lookup_imap, list_lookup_fmap.
      destruct (body !! i) as [c|] eqn:Ec; [|done]. cbn. f_equal.
      assert (is_hex_digit c = true) as Hch.
      { apply Hhex. apply list_elem_of_In. by eapply list_elem_of_lookup_2. }
      destruct (toLowerCase_char_hex c Hch) as [Hl Hv].
      destruct (8 <=? _); [|done].
      destruct (toUpperCase_char_hex _ Hl) as [_ Hu]. by rewrite Hu.
Qed.

Lemma checksummed_ext body1 body2 :
  map toLowerCase_char body1 = map toLowerCase_char body2 ->
  checksummed body1 = checksummed body2.
Proof. unfold Ethers.checksummed. by intros ->. Qed.

(** [getAddress] is idempotent: a checksummed address is accepted and
    returned unchanged. *)
Lemma getAddress_checksummed body :
  List.length body = 40%nat -> forallb is_hex_digit body = true ->
  getAddress (checksummed body) = Some (checksummed body).
Proof.
  intros Hlen Hhex.
  destruct (checksummed_chars body) as (ca & Hca & Hcal & Hlow & Hh).
  destruct (Hh Hhex) as [Hcahex _].
  unfold Ethers.getAddress, Ethers.matches_address.
  assert (startsWith (checksummed body) "0x" = true) as E0.
  { apply startsWith_0x. by exists ca. }
  rewrite E0, Hca. cbn [drop]. rewrite drop_0, Hcal, Hlen, Hcahex. cbn [Nat.eqb andb].
  assert (Ethers.getChecksumAddress keccak256 (checksummed body) = checksummed body) as E.
  { rewrite <- (str_chars (checksummed body)) at 1. rewrite Hca.
    rewrite getChecksumAddress_0x. by apply checksummed_ext. }
  rewrite E, String.eqb_refl, orb_true_r. done.
Qed.

Lemma getAddress_idem s a : getAddress s = Some a -> getAddress a = Some a.
Proof.
  intros H. destruct (getAddress_Some s a H) as (body & Hl & Hh & _ & ->).
  by apply getAddress_checksummed.
Qed.
End EthersFacts.

(** ** Decimal strings and [parseEther] *)

Lemma getBigInt_toString w : Ethers.getBigInt (Ethers.toString w) = Some w.
Proof.
  unfold Ethers.getBigInt, Ethers.toString.
  rewrite NilZero.isi.
  - by rewrite DecimalZ.of_to.
  - destruct w; simpl; try done. intros [= H]. by apply DecimalPos.Unsigned.to_uint_nonnil in H.
  - destruct w; simpl; try done. intros [= H]. by apply DecimalPos.Unsigned.to_uint_nonnil in H.
Qed.

Lemma takeWhile_forallb {A} (f : A -> bool) l : forallb f (takeWhile f l) = true.
Proof.
  induction l as [|x l IH]; simpl; [done|].
  destruct (f x) eqn:E; simpl; [by rewrite E|done].
Qed.

Lemma takeWhile_dropWhile {A} (f : A -> bool) l : takeWhile f l ++ dropWhile f l = l.
Proof.
  induction l as [|x l IH]; simpl; [done|].
  destruct (f x); simpl; [by rewrite IH|done].
Qed.

Lemma is_digit_value c : is_digit c = true -> 0 <= code c - 48 <= 9.
Proof. destruct c as [[] [] [] [] [] [] [] []]; cbv - [Z.le]; (lia || congruence). Qed.

Lemma decimal_value_acc ds acc :
  fold_left (fun acc c => acc * 10 + (code c - 48)) ds acc
  = acc * 10 ^ Z.of_nat (List.length ds) + Ethers.decimal_value ds.
Proof.
  unfold Ethers.decimal_value. revert acc. induction ds as [|c ds IH]; intros acc.
  - simpl. lia.
  - cbn [fold_left List.length]. rewrite IH, (IH (0 * 10 + _)).
    rewrite Nat2Z.inj_succ, Z.pow_succ_r by lia. lia.
Qed.

Lemma decimal_value_range ds :
  forallb is_digit ds = true ->
  0 <= Ethers.decimal_value ds < 10 ^ Z.of_nat (List.length ds).
Proof.
  induction ds as [|c ds IH]; intros H.
  - cbn. lia.
  - cbn [forallb] in H. apply andb_true_iff in H as [Hc H].
    unfold Ethers.decimal_value. cbn [fold_left List.length].
    rewrite decimal_value_acc, Nat2Z.inj_succ, Z.pow_succ_r by lia.
    pose proof (is_digit_value c Hc). specialize (IH H). nia.
Qed.

Lemma optional_char_length c cs :
  (List.length (snd (Ethers.optional_char c cs)) <= List.length cs)%nat.
Proof.
  unfold Ethers.optional_char. destruct cs as [|x r]; [done|].
  destruct (bool_decide (x = c)); simpl; lia.
Qed.

Lemma fixed_match_parts value neg whole decimal :
  Ethers.fixed_match value = Some (neg, whole, decimal) ->
  forallb is_digit whole = true /\ forallb is_digit decimal = true
  /\ (List.length whole <= String.length value)%nat.
Proof.
  unfold Ethers.fixed_match. rewrite <- length_chars.
  pose proof (optional_char_length "-" (chars value)) as Hs.
  destruct (Ethers.optional_char "-" (chars value)) as [neg0 r]. simpl in Hs.
  destruct (dropWhile is_digit (snd _)); [|done].
  intros [= <- <- <-]. rewrite !takeWhile_forallb. repeat split.
  rewrite <- (takeWhile_dropWhile is_digit r) in Hs. rewrite length_app in Hs. lia.
Qed.

Lemma parseEther_range amount w :
  Ethers.parseEther amount = Some w ->
  (String.length amount <= ValidWhitelistAmountMaxLen)%nat ->
  - 10 ^ 48 < w < 10 ^ 48.
Proof.
  unfold Ethers.parseEther, Ethers.parseUnits, ValidWhitelistAmountMaxLen.
  intros H Hmax. revert H.
  destruct (Ethers.fixed_match amount) as [[[neg whole] decimal]|] eqn:Em; [|done].
  destruct (fixed_match_parts _ _ _ _ Em) as (Hw & Hd & Hlen).
  destruct (0 <? _)%nat; [|done].
  destruct (forallb _ (drop 18 _)); [|done].
  set (padded := decimal ++ replicate (18 - List.length decimal) "0"%char).
  set (whole' := match whole with [] => chars "0" | _ => whole end).
  set (v := Ethers.decimal_value (whole' ++ take 18 padded)).
  assert (0 <= v < 10 ^ 48) as Hv.
  { assert (forallb is_digit (whole' ++ take 18 padded) = true) as Hdig.
    { rewrite forallb_app. apply andb_true_iff. split.
      - unfold whole'. by destruct whole.
      - apply forallb_forall. intros x Hx. apply list_elem_of_In in Hx.
        apply elem_of_take in Hx as (i & Hx & _). apply list_elem_of_lookup_2 in Hx.
        unfold padded in Hx. apply elem_of_app in Hx as [Hx|Hx].
        + rewrite forallb_forall in Hd. apply Hd. by apply list_elem_of_In.
        + apply elem_of_replicate in Hx as [-> _]. done. }
    pose proof (decimal_value_range _ Hdig) as R. fold v in R.
    assert ((List.length (whole' ++ take 18 padded) <= 48)%nat) as Hl.
    { rewrite length_app, length_take. unfold whole'.
      change (chars "0") with ["0"%char].
      destruct whole; cbn [List.length] in *; lia. }
    assert (10 ^ Z.of_nat (List.length (whole' ++ take 18 padded)) <= 10 ^ 48).
    { apply Z.pow_le_mono_r; lia. }
    lia. }
  intros H. destruct neg.
  - destruct (_ && _); [|done]. injection H as <-. lia.
  - destruct (_ && _); [|done]. injection H as <-. lia.
Qed.

(** ** The input gate and the builder of [createMerkleTree] *)

Section BuilderFacts.
Import CommandServiceBuilder.
Context (keccak256 : bytes -> Z).
Hypothesis keccak256_range : forall msg, 0 <= keccak256 msg < 2 ^ 256.

Local Abbreviation getAddress := (Ethers.getAddress keccak256).
Local Abbreviation check_entry := (CommandServiceBuilder.check_entry keccak256).
Local Abbreviation every := (CommandServiceBuilder.every keccak256).
Local Abbreviation validateEntries := (CommandServiceBuilder.validateEntries keccak256).
Local Abbreviation toValues := (CommandServiceBuilder.toValues keccak256).
Local Abbreviation buildMerkleTree := (CommandServiceBuilder.buildMerkleTree keccak256).
Local Abbreviation standardLeafHash := (MerkleTreeLib.standardLeafHash keccak256).
Local Abbreviation standardNodeHash := (MerkleTreeLib.standardNodeHash keccak256).

Local Abbreviation accepted := (CommandServiceBuilder.accepted keccak256).

Lemma check_entry_None index e :
  check_entry index e = None <-> exists a w, accepted e a w.
Proof.
  unfold CommandServiceBuilder.check_entry, CommandServiceBuilder.accepted.
  destruct e as [address amount]. cbn [WhitelistEntry.WhitelistAddress WhitelistEntry.WhitelistAmount].
  destruct (String.length address =? ValidEvmAddressLen)%nat eqn:El; cbn [negb orb].
  2:{ split; [done|]. intros (a & w & H & _). apply Nat.eqb_neq in El. tauto. }
  apply Nat.eqb_eq in El.
  destruct (ValidEvmAddressRegex_test address) eqn:Er; cbn [negb].
  2:{ split; [done|]. intros (a & w & _ & H & _). done. }
  destruct (String.eqb_spec address Ethers.ZeroAddress) as [Ez|Ez].
  { split; [done|]. intros (a & w & _ & _ & H & _). done. }
  destruct (getAddress address) as [a|] eqn:Ea.
  2:{ split; [done|]. intros (a & w & _ & _ & _ & H & _). done. }
  destruct (String.length amount <? ValidWhitelistAmountMinLen)%nat eqn:E1.
  { split; [done|]. intros (a' & w & _ & _ & _ & _ & H & _). apply Nat.ltb_lt in E1. lia. }
  destruct (ValidWhitelistAmountMaxLen <? String.length amount)%nat eqn:E2.
  { split; [done|]. intros (a' & w & _ & _ & _ & _ & H & _). apply Nat.ltb_lt in E2. lia. }
  apply Nat.ltb_ge in E1, E2. cbn [orb].
  destruct (Ethers.parseEther amount) as [w|] eqn:Ew.
  2:{ split; [done|]. intros (a' & w & _ & _ & _ & _ & _ & H & _). done. }
  destruct (w <? 0) eqn:E3.
  { split; [done|]. intros (a' & w' & _ & _ & _ & _ & _ & [= <-] & H). lia. }
  split; [|done]. intros _. exists a, w. repeat split; try done; lia.
Qed.

Lemma every_None index es :
  every index es = None <->
  forall i e, es !! i = Some e -> exists a w, accepted e a w.
Proof.
  revert index. induction es as [|e r IH]; intros index; cbn [CommandServiceBuilder.every].
  - split; [|done]. intros _ i e H. by rewrite lookup_nil in H.
  - destruct (check_entry index e) as [msg|] eqn:Ec.
    + split; [done|]. intros H. destruct (H 0%nat e eq_refl) as (a & w & Ha).
      assert (check_entry index e = None) as E by (apply check_entry_None; eauto).
      congruence.
    + rewrite IH. split.
      * intros H [|i] e' Hi; [|by apply (H i)].
        injection Hi as <-. by apply (check_entry_None index).
      * intros H i e' Hi. by apply (H (S i)).
Qed.

Lemma validateEntries_inr es :
  validateEntries es = inr tt ->
  Z.of_nat (List.length es) <= ValidateWhitelistEntriesMaxCount
  /\ forall i e, es !! i = Some e -> exists a w, accepted e a w.
Proof.
  unfold CommandServiceBuilder.validateEntries.
  destruct (_ >? _) eqn:Ec; [done|].
  destruct (every 0 es) as [msg|] eqn:Ee; [done|].
  intros _. split; [lia|]. by apply (every_None 0%nat).
Qed.

Lemma toValues_spec es :
  (forall i e, es !! i = Some e -> exists a w, accepted e a w) ->
  exists vs,
    toValues es = Some vs
    /\ List.length vs = List.length es
    /\ forall i e, es !! i = Some e ->
         exists a w, accepted e a w /\ vs !! i = Some (a, Ethers.toString w).
Proof.
  induction es as [|e r IH]; intros H; cbn [CommandServiceBuilder.toValues].
  - exists []. repeat split. intros i e Hi. by rewrite lookup_nil in Hi.
  - destruct (H 0%nat e eq_refl) as (a & w & Ha).
    destruct IH as (vs & Hvs & Hlen & Hall); [intros i e' Hi; by apply (H (S i))|].
    pose proof Ha as (_ & _ & _ & Hga & _ & Hpe & _).
    rewrite Hga, Hpe, Hvs. eexists. split; [reflexivity|].
    split; [simpl; by rewrite Hlen|].
    intros [|i] e' Hi.
    + injection Hi as <-. exists a, w. done.
    + by apply Hall.
Qed.

Lemma accepted_body e a w :
  accepted e a w ->
  exists body,
    chars (WhitelistEntry.WhitelistAddress e) = "0"%char :: "x"%char :: body
    /\ List.length body = 40%nat
    /\ forallb is_hex_digit body = true
    /\ a = Ethers.checksummed keccak256 body.
Proof.
  intros (Hlen & _ & _ & Hga & _).
  destruct (getAddress_Some _ _ _ Hga) as (body & Hbl & Hbh & Hcs & ->).
  exists body. repeat split; try done.
  destruct Hcs as [Hcs|[_ Hcs]]; [done|].
  rewrite <- length_chars, Hcs, Hbl in Hlen. done.
Qed.

Lemma accepted_account e a w :
  accepted e a w -> 0 < account a < 2 ^ 160.
Proof.
  intros Ha. destruct (accepted_body _ _ _ Ha) as (body & Hcs & Hbl & Hbh & ->).
  destruct Ha as (_ & _ & Hnz & _).
  destruct (checksummed_chars keccak256 body) as (ca & Hca & Hcal & _ & Hh).
  destruct (Hh Hbh) as [Hcah Hcav].
  unfold account. rewrite Hca. cbn [drop]. rewrite drop_0.
  rewrite (Hex_value_ext _ _ Hcav).
  pose proof (Hex_value_range body) as R. rewrite Hbl in R.
  change (16 ^ Z.of_nat 40) with (2 ^ 160) in R.
  split; [|lia].
  destruct (decide (Hex.value body = 0)) as [E|E]; [|lia].
  exfalso. apply Hnz. apply chars_inj. rewrite Hcs.
  rewrite (Hex_value_zero body Hbh E), Hbl. reflexivity.
Qed.

Lemma accepted_leafHash e a w :
  accepted e a w ->
  standardLeafHash (a, Ethers.toString w)
  = Some (keccak256 (be_bytes 32 (keccak256
            (MerkleTreeWhitelist.abi_encode (account a) w)))).
Proof.
  intros Ha. pose proof Ha as (_ & _ & _ & Hga & [_ Hmax] & Hpe & Hw).
  unfold MerkleTreeLib.standardLeafHash, Ethers.abi_encode_address_uint256.
  cbn [fst snd]. rewrite (getAddress_idem _ _ _ Hga), getBigInt_toString.
  pose proof (parseEther_range _ _ Hpe Hmax).
  assert ((0 <=? w) && (w <? 2 ^ 256) = true) as ->.
  { apply andb_true_iff. split; [lia|]. apply Z.ltb_lt.
    assert (10 ^ 48 < 2 ^ 256) by (vm_compute; done). lia. }
  reflexivity.
Qed.

Lemma processProof_valid h proof :
  MerkleTreeLib.isValidMerkleNode h = true ->
  MerkleTreeLib.isValidMerkleNode
    (MerkleTreeLib.processProof standardNodeHash h proof) = true.
Proof.
  unfold MerkleTreeLib.processProof. revert h.
  induction proof as [|p r IH]; intros h Hh; cbn [fold_left]; [done|].
  apply IH. unfold MerkleTreeLib.isValidMerkleNode, MerkleTreeLib.standardNodeHash.
  pose proof (keccak256_range (MerkleTreeLib.concat32 (MerkleTreeLib.sortPair h p))). lia.
Qed.

Lemma collectProofs_spec t ents :
  (forall k i v, ents !! k = Some (i, v) ->
     exists proof, MerkleTreeLib.getProofAt keccak256 t i = inr proof) ->
  exists recs,
    collectProofs keccak256 t ents = inr recs
    /\ List.length recs = List.length ents
    /\ forall k i v, ents !! k = Some (i, v) ->
         exists proof,
           MerkleTreeLib.getProofAt keccak256 t i = inr proof
           /\ recs !! k = Some (MerkleProofRecord.mk
                                  (join "," (map Hex.hexlify32 proof)) (fst v) (snd v)).
Proof.
  induction ents as [|[i v] r IH]; intros H; cbn [collectProofs].
  - exists []. repeat split. intros k i v Hk. by rewrite lookup_nil in Hk.
  - destruct (H 0%nat i v eq_refl) as [proof Hp]. rewrite Hp.
    destruct IH as (recs & Hrecs & Hlen & Hall); [intros k i' v' Hk; by apply (H (S k) i' v')|].
    rewrite Hrecs. eexists. split; [reflexivity|].
    split; [simpl; by rewrite Hlen|].
    intros [|k] i' v' Hk.
    + injection Hk as <- <-. exists proof. done.
    + by apply Hall.
Qed.

(** Round trip: for accepted rows, at least one, the builder emits a
    root and one record per row, and each record verifies. *)
Lemma buildMerkleTree_round_trip es :
  (forall i e, es !! i = Some e -> exists a w, accepted e a w) -> es <> [] ->
  exists rootZ proofs,
    buildMerkleTree es = inr (Hex.hexlify32 rootZ, proofs)
    /\ 0 <= rootZ < 2 ^ 256
    /\ List.length proofs = List.length es
    /\ forall i e, es !! i = Some e ->
         exists a w siblings,
           accepted e a w
           /\ proofs !! i = Some (MerkleProofRecord.mk
                                    (join "," (map Hex.hexlify32 siblings))
                                    a (Ethers.toString w))
           /\ MerkleTreeLib.verify keccak256 rootZ (a, Ethers.toString w) siblings
              = Some true
           /\ MerkleTreeWhitelist.isWhitelistedFor keccak256 rootZ (account a) w siblings
              = inr true.
Proof.
  intros Hacc Hne. unfold CommandServiceBuilder.buildMerkleTree.
  destruct (toValues_spec es Hacc) as (vs & Hvs & Hvlen & Hval). rewrite Hvs.
  assert (Forall (fun v => is_Some (standardLeafHash v)) vs) as Hleafs.
  { apply Forall_lookup. intros i v Hi.
    destruct (lookup_lt_is_Some_2 es i) as [e He].
    { rewrite <- Hvlen. by eapply lookup_lt_Some. }
    destruct (Hval i e He) as (a & w & Ha & Hv). rewrite Hi in Hv. injection Hv as ->.
    rewrite (accepted_leafHash _ _ _ Ha). done. }
  assert (vs <> []) as Hvne.
  { intros ->. destruct es; [done|simpl in Hvlen; lia]. }
  destruct (StandardMerkleTree_of_spec keccak256 keccak256_range vs Hleafs Hvne)
    as (t & Ht & Htlen & Hproofs).
  rewrite Ht.
  destruct (collectProofs_spec t (MerkleTreeLib.entries t)) as (recs & Hrecs & Hrlen & Hrall).
  { intros k i v Hk. unfold MerkleTreeLib.entries in Hk.
    rewrite list_lookup_imap in Hk.
    destruct (MerkleTreeLib.values t !! k) as [iv|] eqn:Eiv; [|done].
    injection Hk as <- <-.
    destruct (lookup_lt_is_Some_2 vs k) as [v Hv].
    { rewrite <- Htlen. by eapply lookup_lt_Some. }
    destruct (Hproofs k v Hv) as (iv' & h & proof & _ & _ & _ & Hp & _). eauto. }
  rewrite Hrecs.
  exists (MerkleTreeLib.root t), recs. split; [reflexivity|].
  assert (Hroot : 0 <= MerkleTreeLib.root t < 2 ^ 256).
  { destruct vs as [|v0 vs0] eqn:Evs; [done|]. rewrite <- Evs in *.
    assert (vs !! 0%nat = Some v0) as Hv0 by (by rewrite Evs).
    destruct (Hproofs 0%nat v0 Hv0) as (iv & h & proof & _ & _ & Hh & _ & Hround).
    pose proof (processProof_valid h proof (standardLeafHash_valid keccak256 keccak256_range _ _ Hh)) as Hv.
    rewrite Hround in Hv. unfold MerkleTreeLib.isValidMerkleNode in Hv. lia. }
  split; [exact Hroot|].
  split.
  { rewrite Hrlen. unfold MerkleTreeLib.entries. by rewrite length_imap, Htlen, Hvlen. }
  intros i e He.
  destruct (Hval i e He) as (a & w & Ha & Hv).
  destruct (Hproofs i _ Hv) as (iv & h & proof & Hiv & Hivv & Hh & Hp & Hround).
  destruct (Hrall i i (a, Ethers.toString w)) as (proof' & Hp' & Hrec).
  { unfold MerkleTreeLib.entries. rewrite list_lookup_imap, Hiv. cbn. by rewrite Hivv. }
  rewrite Hp in Hp'. injection Hp' as <-.
  exists a, w, proof. split; [exact Ha|]. split; [exact Hrec|].
  split.
  - unfold MerkleTreeLib.verify. rewrite Hh, Hround, Z.eqb_refl. reflexivity.
  - unfold MerkleTreeWhitelist.isWhitelistedFor.
    destruct (accepted_account _ _ _ Ha) as [Hpos _].
    assert ((account a =? 0) = false) as -> by lia.
    unfold MerkleTreeWhitelist.verify.
    rewrite <- (processProof_onchain keccak256).
    rewrite (accepted_leafHash _ _ _ Ha) in Hh. injection Hh as Hh.
    rewrite Hh, Hround, Z.eqb_refl. reflexivity.
Qed.
End BuilderFacts.

(** ** The Merkle builder behind its input gate *)

Section GateFacts.
Import CommandServiceBuilder.
Context (keccak256 : bytes -> Z).

Local Abbreviation validateEntries := (CommandServiceBuilder.validateEntries keccak256).
Local Abbreviation accepted := (CommandServiceBuilder.accepted keccak256).

Lemma getAddresses_spec es l :
  getAddresses keccak256 es = Some l ->
  List.length l = List.length es.
Proof.
  revert l. induction es as [|e r IH]; intros l; cbn [getAddresses].
  - by intros [= <-].
  - destruct (Ethers.getAddress keccak256 _); [|done].
    destruct (getAddresses keccak256 r) as [l'|]; [|done].
    intros [= <-]. simpl. by rewrite (IH l').
Qed.

Lemma getAddresses_total es :
  (forall i e, es !! i = Some e -> exists a w, accepted e a w) ->
  is_Some (getAddresses keccak256 es).
Proof.
  induction es as [|e r IH]; intros H; cbn [getAddresses]; [done|].
  destruct (H 0%nat e eq_refl) as (a & w & _ & _ & _ & -> & _).
  destruct IH as [l ->]; [intros i e' Hi; by apply (H (S i))|]. done.
Qed.

(** Above the bound the gate raises a validation error, whatever the rows. *)
Lemma validateEntries_too_many es :
  ValidateWhitelistEntriesMaxCount < Z.of_nat (List.length es) ->
  exists msg, validateEntries es = inl (ValidationError msg).
Proof.
  intros H. unfold CommandServiceBuilder.validateEntries.
  assert ((Z.of_nat (List.length es) >? ValidateWhitelistEntriesMaxCount) = true) as ->
    by lia.
  eauto.
Qed.

(** Up to the bound, accepted rows with distinct checksummed addresses
    pass the gate. *)
Lemma validateEntries_accepts es :
  Z.of_nat (List.length es) <= ValidateWhitelistEntriesMaxCount ->
  (forall i e, es !! i = Some e -> exists a w, accepted e a w) ->
  (forall l, getAddresses keccak256 es = Some l -> NoDup l) ->
  validateEntries es = inr tt.
Proof.
  intros Hn Hacc Hnd. unfold CommandServiceBuilder.validateEntries.
  assert ((Z.of_nat (List.length es) >? ValidateWhitelistEntriesMaxCount) = false) as ->
    by lia.
  assert (every keccak256 0 es = None) as -> by (by apply every_None).
  unfold hasDuplicateAddresses.
  destruct (getAddresses_total es Hacc) as [l Hl]. rewrite Hl.
  rewrite (size_list_to_set l (Hnd l Hl)), (getAddresses_spec _ _ Hl), Nat.eqb_refl.
  reflexivity.
Qed.

End GateFacts.

(** C1 (as amended: at least one row).  For every list of parsed rows
    that passes the input gate of [createMerkleTree] and has at least one
    row, the builder emits a root (the "0x" rendering of a bytes32
    [rootZ]) and exactly one proof record per row; the record of row [i]
    carries the checksummed address, the wei amount in base 10 and the
    comma-joined "0x" renderings of a sibling list, and that sibling list
    verifies against the root, both with the off-chain verifier
    (sorted-pair keccak over the double-keccak leaf) and with the
    contract's [isWhitelistedFor]. *)
Theorem C1_emitted_proofs_verify (es : list WhitelistEntry.t) :
  CommandServiceBuilder.validateEntries Keccak.keccak256 es = inr tt ->
  es <> [] ->
  exists rootZ proofs,
    CommandServiceBuilder.buildMerkleTree Keccak.keccak256 es
    = inr (Hex.hexlify32 rootZ, proofs)
    /\ 0 <= rootZ < 2 ^ 256
    /\ List.length proofs = List.length es
    /\ forall i e, es !! i = Some e ->
         exists a w siblings,
           CommandServiceBuilder.accepted Keccak.keccak256 e a w
           /\ proofs !! i = Some (MerkleProofRecord.mk
                                    (join "," (map Hex.hexlify32 siblings))
                                    a (Ethers.toString w))
           /\ MerkleTreeLib.verify Keccak.keccak256 rootZ (a, Ethers.toString w) siblings
              = Some true
           /\ MerkleTreeWhitelist.isWhitelistedFor Keccak.keccak256 rootZ (account a) w siblings
              = inr true.
Proof.
  intros Hgate Hne.
  destruct (validateEntries_inr Keccak.keccak256 es Hgate) as [_ Hacc].
  exact (buildMerkleTree_round_trip Keccak.keccak256 Keccak_keccak256_range es Hacc Hne).
Qed.

(** C1 at the five rows of the on-chain test fixture. *)
Lemma C1_emitted_proofs_verify_witness :
  CommandServiceBuilder.validateEntries Keccak.keccak256 fixture_entries = inr tt
  /\ fixture_entries <> []
  /\ exists rootZ proofs,
       CommandServiceBuilder.buildMerkleTree Keccak.keccak256 fixture_entries
       = inr (Hex.hexlify32 rootZ, proofs)
       /\ 0 <= rootZ < 2 ^ 256
       /\ List.length proofs = List.length fixture_entries
       /\ forall i e, fixture_entries !! i = Some e ->
            exists a w siblings,
              CommandServiceBuilder.accepted Keccak.keccak256 e a w
              /\ proofs !! i = Some (MerkleProofRecord.mk
                                       (join "," (map Hex.hexlify32 siblings))
                                       a (Ethers.toString w))
              /\ MerkleTreeLib.verify Keccak.keccak256 rootZ (a, Ethers.toString w) siblings
                 = Some true
              /\ MerkleTreeWhitelist.isWhitelistedFor Keccak.keccak256 rootZ (account a) w
                   siblings
                 = inr true.
Proof.
  split; [vm_compute; reflexivity|].
  split; [discriminate|].
  apply (C1_emitted_proofs_verify fixture_entries); [vm_compute; reflexivity|discriminate].
Defined.

(** C1 as stated fails at a CSV with a header and no row: the gate accepts
    the empty list of rows, and the builder emits no root, because the
    tree library rejects an empty list of leaves. *)
Lemma C1_counterexample :
  CommandServiceBuilder.validateEntries Keccak.keccak256 [] = inr tt
  /\ ~ exists root proofs,
         CommandServiceBuilder.buildMerkleTree Keccak.keccak256 [] = inr (root, proofs).
Proof.
  split; [reflexivity|]. intros (root & proofs & H). discriminate H.
Qed.

(** C4 (as amended for 0 rows).  The gate raises a validation error for
    100,001 rows; it passes exactly 100,000 rows that are each accepted
    and have pairwise distinct checksummed addresses, and more generally
    any such list of at most 100,000 rows; a parsed CSV of 0 rows passes
    the gate too, and the build then stops in the tree library with an
    error that is not a validation error. *)
Theorem C4_count_gate :
  (forall es, Z.of_nat (List.length es) = 100001 ->
     exists msg,
       CommandServiceBuilder.validateEntries Keccak.keccak256 es = inl (ValidationError msg))
  /\ (forall es,
        Z.of_nat (List.length es) <= 100000 ->
        (forall i e, es !! i = Some e ->
           exists a w, CommandServiceBuilder.accepted Keccak.keccak256 e a w) ->
        (forall l, CommandServiceBuilder.getAddresses Keccak.keccak256 es = Some l -> NoDup l) ->
        CommandServiceBuilder.validateEntries Keccak.keccak256 es = inr tt)
  /\ CommandServiceBuilder.validateEntries Keccak.keccak256 [] = inr tt
  /\ CommandServiceBuilder.buildMerkleTree Keccak.keccak256 []
     = inl (Error_ "InvalidArgumentError" "Expected non-zero number of leaves").
Proof.
  split; [|split; [|split]].
  - intros es H. apply validateEntries_too_many. unfold ValidateWhitelistEntriesMaxCount. lia.
  - intros es H. apply validateEntries_accepts. unfold ValidateWhitelistEntriesMaxCount. lia.
  - reflexivity.
  - reflexivity.
Qed.

(** C4 as stated fails at 0 rows: the gate does not raise a validation
    error, and the error that ends the build is not one either. *)
Lemma C4_counterexample :
  CommandServiceBuilder.validateEntries Keccak.keccak256 [] = inr tt
  /\ ~ exists msg,
         CommandServiceBuilder.buildMerkleTree Keccak.keccak256 [] = inl (ValidationError msg).
Proof.
  split; [reflexivity|]. intros (msg & H). discriminate H.
Qed.

(** C4 at the five rows of the on-chain test fixture (at most 100,000
    accepted rows with distinct addresses). *)
Lemma C4_count_gate_witness :
  Z.of_nat (List.length fixture_entries) <= 100000
  /\ CommandServiceBuilder.validateEntries Keccak.keccak256 fixture_entries = inr tt.
Proof.
  split; [vm_compute; discriminate|].
  apply (proj1 (proj2 C4_count_gate) fixture_entries).
  - vm_compute. discriminate.
  - apply (every_None Keccak.keccak256 0). vm_compute. reflexivity.
  - intros l Hl. vm_compute in Hl. injection Hl as <-.
    apply (bool_decide_unpack _). vm_compute. reflexivity.
Defined.

(** ** The key-value store: a small program logic over the roots table *)

Lemma legal_refl x : legal x x = true.
Proof. unfold legal. rewrite bool_decide_true; done. Qed.

Lemma legal_trace_app a l1 b l2 c :
  legal_trace a l1 b -> legal_trace b l2 c -> legal_trace a (l1 ++ l2) c.
Proof.
  revert a. induction l1 as [|e l1 IH]; intros a; cbn [legal_trace app].
  - intros -> H. exact H.
  - intros (Hb & Hp & Hl & Ht) H2. repeat split; [exact Hb|exact Hp|exact Hl|]. by apply IH.
Qed.

Lemma triple_consequence {A} (P P' : RootsTable -> Prop) (m : M A)
    (Q Q' : Exception + A -> RootsTable -> Prop) :
  triple P' m Q' ->
  (forall r, P r -> P' r) -> (forall x r, Q' x r -> Q x r) ->
  triple P m Q.
Proof.
  intros Hm HP HQ w Hw. destruct (Hm w (HP _ Hw)) as (l & Hl & Ht & Hq).
  exists l. repeat split; [exact Hl|exact Ht|by apply HQ].
Qed.

Lemma triple_ret {A} (P : RootsTable -> Prop) (a : A) : triple P (ret a) (fun x r => x = inr a /\ P r).
Proof. intros w Hw. exists []. cbn. rewrite app_nil_r. done. Qed.

Lemma triple_throw {A} (P : RootsTable -> Prop) (e : Exception) :
  triple P (throw (A:=A) e) (fun x r => x = inl e /\ P r).
Proof. intros w Hw. exists []. cbn. rewrite app_nil_r. done. Qed.

Lemma triple_bind {A B} (P : RootsTable -> Prop) (m : M A) (k : A -> M B)
    (R : Exception + A -> RootsTable -> Prop) (Q : Exception + B -> RootsTable -> Prop) :
  triple P m R ->
  (forall e r, R (inl e) r -> Q (inl e) r) ->
  (forall a, triple (R (inr a)) (k a) Q) ->
  triple P (bind m k) Q.
Proof.
  intros Hm He Hk w Hw. destruct (Hm w Hw) as (l & Hl & Ht & Hr).
  unfold bind. destruct (m w) as [[e|a] w1] eqn:E; cbn [fst snd] in *.
  - exists l. repeat split; [exact Hl|exact Ht|by apply He].
  - destruct (Hk a w1 Hr) as (l2 & Hl2 & Ht2 & Hq).
    exists (l ++ l2). rewrite Hl2, Hl, app_assoc.
    repeat split; [|exact Hq]. by apply (legal_trace_app _ _ (roots (db w1))).
Qed.

Lemma triple_try_catch {A} (P : RootsTable -> Prop) (m : M A) (h : Exception -> M A)
    (R Q : Exception + A -> RootsTable -> Prop) :
  triple P m R ->
  (forall a r, R (inr a) r -> Q (inr a) r) ->
  (forall e, triple (R (inl e)) (h e) Q) ->
  triple P (try_catch m h) Q.
Proof.
  intros Hm Ha Hh w Hw. destruct (Hm w Hw) as (l & Hl & Ht & Hr).
  unfold try_catch. destruct (m w) as [[e|a] w1] eqn:E; cbn [fst snd] in *.
  - destruct (Hh e w1 Hr) as (l2 & Hl2 & Ht2 & Hq).
    exists (l ++ l2). rewrite Hl2, Hl, app_assoc.
    repeat split; [|exact Hq]. by apply (legal_trace_app _ _ (roots (db w1))).
  - exists l. repeat split; [exact Hl|exact Ht|by apply Ha].
Qed.

(** One request: when the provider raises, nothing changes; when it
    serves, the change of the roots table is that of [serve]. *)
Lemma triple_send {A} (P : RootsTable -> Prop) (req : Request)
    (serve : Outcome -> Db -> (DynamoDBKind * string) + (A * Db))
    (Q : Exception + A -> RootsTable -> Prop) :
  pins_root req = true ->
  (forall r e, P r -> Q (inl e) r) ->
  (forall o d a d', P (roots d) -> serve o d = inr (a, d') ->
     (forall name, legal (roots d !! name) (roots d' !! name) = true)
     /\ Q (inr a) (roots d')) ->
  triple P (send req serve) Q.
Proof.
  intros Hpin He Hs w Hw. unfold send.
  destruct (next_outcome w) as [o rest].
  assert (forall e : Exception,
    exists l,
      log (mkWorld (db w) rest
             (log w ++ [mkLogEntry req (roots (db w)) (roots (db w))]) (slept w))
      = log w ++ l
      /\ legal_trace (roots (db w)) l (roots (db w))
      /\ Q (inl e) (roots (db w))) as Hunchanged.
  { intros e. eexists. split; [reflexivity|]. split; [|by apply He].
    cbn. repeat split; [exact Hpin|]. intros name. apply legal_refl. }
  assert (match serve o (db w) with
          | inl (k, msg) => True
          | inr (a, d) =>
              (forall name, legal (roots (db w) !! name) (roots d !! name) = true)
              /\ Q (inr a) (roots d)
          end) as Hserved.
  { destruct (serve o (db w)) as [[k msg]|[a d]] eqn:E; [done|]. by eapply Hs. }
  destruct o as [|k msg|u]; [|apply Hunchanged|];
    (destruct (serve _ (db w)) as [[k' msg']|[a d]]; [apply Hunchanged|];
     destruct Hserved as [Hlegal Hq];
     eexists; (split; [reflexivity|]); split; [|exact Hq];
     cbn; repeat split; [exact Hpin|exact Hlegal]).
Qed.

Lemma frame_ret {A} (a : A) : frame (ret a).
Proof. intros P. eapply triple_consequence; [apply (triple_ret P)|done|]. by intros x r [_ H]. Qed.

Lemma frame_throw {A} (e : Exception) : frame (throw (A:=A) e).
Proof. intros P. eapply triple_consequence; [apply (triple_throw P)|done|]. by intros x r [_ H]. Qed.

Lemma frame_bind {A B} (m : M A) (k : A -> M B) :
  frame m -> (forall a, frame (k a)) -> frame (bind m k).
Proof.
  intros Hm Hk P. eapply (triple_bind P m k (fun _ => P)); [apply Hm|done|].
  intros a. apply Hk.
Qed.

Lemma frame_send {A} (req : Request)
    (serve : Outcome -> Db -> (DynamoDBKind * string) + (A * Db)) :
  pins_root req = true ->
  (forall o d a d', serve o d = inr (a, d') -> roots d' = roots d) ->
  frame (send req serve).
Proof.
  intros Hpin Hs P. apply triple_send; [exact Hpin|done|].
  intros o d a d' HP E. rewrite (Hs _ _ _ _ E). split; [|done].
  intros name. apply legal_refl.
Qed.

Lemma frame_check_partitionKeyValue {A} name (k : M A) :
  frame k -> frame (DynamoDbService.check_partitionKeyValue name k).
Proof.
  intros Hk. unfold DynamoDbService.check_partitionKeyValue.
  destruct (DynamoDbService.invalid_length _ _ _); [apply frame_throw|exact Hk].
Qed.

Lemma frame_rethrowing {A} (m : M A) : frame m -> frame (WhitelistDataService.rethrowing m).
Proof.
  intros Hm P. unfold WhitelistDataService.rethrowing.
  eapply (triple_try_catch P m _ (fun _ => P)); [apply Hm|done|].
  intros e. apply frame_throw.
Qed.

Lemma frame_for_of {A} (xs : list A) (body : A -> M unit) :
  (forall x, frame (body x)) -> frame (DynamoDbService.for_of xs body).
Proof.
  intros Hb. induction xs as [|x r IH]; cbn [DynamoDbService.for_of].
  - apply frame_ret.
  - apply frame_bind; [apply Hb|]. intros _. exact IH.
Qed.

Lemma frame_waitMs ms : frame (waitMs ms).
Proof. intros P w Hw. exists []. cbn. rewrite app_nil_r. done. Qed.

Lemma foldl_apply_write_roots name d requests :
  roots (foldl (apply_write name) d requests) = roots d.
Proof.
  revert d. induction requests as [|r rs IH]; intros d; cbn [foldl]; [done|].
  rewrite IH. by destruct r.
Qed.

Lemma BatchExecuteStatementInsert_run_roots name items d :
  roots (snd (DynamoDbClient.BatchExecuteStatementInsert_run name items d)) = roots d.
Proof.
  revert d. induction items as [|item r IH]; intros d;
    cbn [DynamoDbClient.BatchExecuteStatementInsert_run]; [done|].
  destruct (proofs d !! _).
  - specialize (IH d). destruct (DynamoDbClient.BatchExecuteStatementInsert_run name r d).
    exact IH.
  - specialize (IH (mkDb (roots d)
        (<[(name, MerkleProofRecord.WhitelistAddress item) := item]> (proofs d)))).
    destruct (DynamoDbClient.BatchExecuteStatementInsert_run name r _). exact IH.
Qed.

Lemma frame_unprocessed_loop read name retriesLeft retryCount command :
  frame (DynamoDbService.unprocessed_loop read name retriesLeft retryCount command).
Proof.
  revert retryCount command.
  induction retriesLeft as [|k IH]; intros retryCount command;
    cbn [DynamoDbService.unprocessed_loop];
    (apply frame_bind;
     [apply frame_send; [reflexivity|]; intros o d a d' E;
      unfold DynamoDbClient.BatchWriteCommand_serve in E; injection E as _ <-;
      apply foldl_apply_write_roots|]);
    intros response; (destruct (read response command); [apply frame_throw|]);
    (apply frame_bind; [apply frame_waitMs|]); intros _;
    destruct (0 <? _)%nat; try apply frame_ret.
  apply IH.
Qed.

Lemma frame_batchInsertExecuteStatement partitionKeyValue records :
  frame (DynamoDbService.batchInsertExecuteStatement partitionKeyValue records).
Proof.
  apply frame_check_partitionKeyValue, frame_for_of. intros chunk.
  apply frame_bind.
  - apply frame_send; [reflexivity|]. intros o d a d' E.
    unfold DynamoDbClient.BatchExecuteStatementInsert_serve in E. injection E as E.
    rewrite <- (BatchExecuteStatementInsert_run_roots partitionKeyValue chunk d), E. reflexivity.
  - intros responses. cbv zeta. destruct (negb _); [apply frame_throw|apply frame_ret].
Qed.

Lemma frame_getItem name : frame (DynamoDbService.getItem name).
Proof.
  apply frame_check_partitionKeyValue, frame_send; [reflexivity|]. intros o d a d' E. by injection E as _ <-.
Qed.

Lemma frame_getItem_sortKey name address : frame (DynamoDbService.getItem_sortKey name address).
Proof.
  apply frame_check_partitionKeyValue.
  destruct (String.eqb _ _); [apply frame_throw|].
  destruct (DynamoDbService.invalid_length _ _ _); [apply frame_throw|].
  apply frame_send; [reflexivity|]. intros o d a d' E. by injection E as _ <-.
Qed.

Lemma frame_paginatedQuery name : frame (DynamoDbService.paginatedQuery name).
Proof.
  apply frame_check_partitionKeyValue, frame_send; [reflexivity|]. intros o d a d' E. by injection E as _ <-.
Qed.

Lemma frame_batchDeleteWrite name sortKeyValues maxRetries :
  frame (DynamoDbService.batchDeleteWrite name sortKeyValues maxRetries).
Proof.
  apply frame_check_partitionKeyValue.
  destruct (maxRetries <? 0); [apply frame_throw|].
  destruct (DynamoDbService.every_sortKeyValue _ _); [apply frame_throw|].
  apply frame_for_of. intros chunk. apply frame_unprocessed_loop.
Qed.

Lemma triple_ret_post {A} (P : RootsTable -> Prop) (a : A)
    (Q : Exception + A -> RootsTable -> Prop) :
  (forall r, P r -> Q (inr a) r) -> triple P (ret a) Q.
Proof.
  intros H. eapply triple_consequence; [apply (triple_ret P)|done|].
  intros x r [-> Hr]. by apply H.
Qed.

Lemma triple_throw_post {A} (P : RootsTable -> Prop) (e : Exception)
    (Q : Exception + A -> RootsTable -> Prop) :
  (forall r, P r -> Q (inl e) r) -> triple P (throw e) Q.
Proof.
  intros H. eapply triple_consequence; [apply (triple_throw P)|done|].
  intros x r [-> Hr]. by apply H.
Qed.

Lemma triple_frame {A} (P : RootsTable -> Prop) (m : M A)
    (Q : Exception + A -> RootsTable -> Prop) :
  frame m -> (forall x r, P r -> Q x r) -> triple P m Q.
Proof.
  intros Hm H. eapply triple_consequence; [apply (Hm P)|done|]. intros x r. apply H.
Qed.

Lemma triple_check_partitionKeyValue {A} (P : RootsTable -> Prop) name (k : M A)
    (Q : Exception + A -> RootsTable -> Prop) :
  triple P k Q -> (forall e r, P r -> Q (inl e) r) ->
  triple P (DynamoDbService.check_partitionKeyValue name k) Q.
Proof.
  intros Hk He. unfold DynamoDbService.check_partitionKeyValue.
  destruct (DynamoDbService.invalid_length _ _ _); [|exact Hk].
  apply triple_throw_post. intros r. apply He.
Qed.

Lemma triple_rethrowing {A} (P : RootsTable -> Prop) (m : M A)
    (R Q : Exception + A -> RootsTable -> Prop) :
  triple P m R ->
  (forall a r, R (inr a) r -> Q (inr a) r) ->
  (forall e r, R (inl e) r -> Q (inl (WhitelistDataService.rethrow e)) r) ->
  triple P (WhitelistDataService.rethrowing m) Q.
Proof.
  intros Hm Ha He. unfold WhitelistDataService.rethrowing.
  eapply triple_try_catch; [exact Hm|exact Ha|].
  intros e. apply triple_throw_post. intros r. apply He.
Qed.

Lemma eval_root_and_status root s item :
  eval_condition (WhitelistDataService.root_and_status root s) item = true ->
  item = Some (MerkleRootRecord.mk root s).
Proof.
  destruct item as [[r s0]|]; cbn; [|done].
  intros H. apply andb_true_iff in H as [Hr Hs].
  apply String.eqb_eq in Hr. apply bool_decide_eq_true in Hs. by subst.
Qed.

Lemma eval_root_and_completed_or_failed root item :
  eval_condition (WhitelistDataService.root_and_completed_or_failed root) item = true ->
  item = Some (MerkleRootRecord.mk root Completed)
  \/ item = Some (MerkleRootRecord.mk root Failed).
Proof.
  destruct item as [[r s0]|]; cbn; [|done].
  intros H. apply andb_true_iff in H as [Hr Hs].
  apply String.eqb_eq in Hr. apply orb_true_iff in Hs as [Hs|Hs];
    apply bool_decide_eq_true in Hs; subst; auto.
Qed.

Lemma legal_insert (r : gmap string MerkleRootRecord.t) name before after :
  r !! name = before -> legal before (Some after) = true ->
  forall name', legal (r !! name') (<[name := after]> r !! name') = true.
Proof.
  intros Hb Hl name'. destruct (decide (name = name')) as [<-|Hne].
  - by rewrite lookup_insert_eq, Hb.
  - rewrite lookup_insert_ne by done. apply legal_refl.
Qed.

Lemma legal_delete (r : gmap string MerkleRootRecord.t) name before :
  r !! name = before -> legal before None = true ->
  forall name', legal (r !! name') (delete name r !! name') = true.
Proof.
  intros Hb Hl name'. destruct (decide (name = name')) as [<-|Hne].
  - by rewrite lookup_delete_eq, Hb.
  - rewrite lookup_delete_ne by done. apply legal_refl.
Qed.

Lemma legal_status root s s' :
  transition s s' = true ->
  legal (Some (MerkleRootRecord.mk root s)) (Some (MerkleRootRecord.mk root s')) = true.
Proof.
  intros H. unfold legal. cbn. rewrite String.eqb_refl, H. apply orb_true_r.
Qed.

(** The conditional put of a status: served only on the row that its
    condition describes, which it moves along a transition. *)
Lemma triple_putItem_status name root s s' :
  transition s s' = true ->
  triple (fun _ => True)
    (DynamoDbService.putItem name (MerkleRootRecord.mk root s')
       (Some (WhitelistDataService.root_and_status root s)))
    (fun x r => x = inr tt -> r !! name = Some (MerkleRootRecord.mk root s')).
Proof.
  intros Ht. apply triple_check_partitionKeyValue; [|done].
  apply triple_send; [apply String.eqb_refl|done|].
  intros o d a d' _ E. unfold DynamoDbClient.PutCommand_serve in E.
  destruct (eval_condition _ _) eqn:Ec; [|done]. injection E as _ <-. cbn [roots].
  apply eval_root_and_status in Ec. split.
  - apply (legal_insert _ _ _ _ Ec). by apply legal_status.
  - intros _. apply lookup_insert_eq.
Qed.

Lemma triple_putItem_deleting name root :
  triple (fun _ => True)
    (DynamoDbService.putItem name (MerkleRootRecord.mk root Deleting)
       (Some (WhitelistDataService.root_and_completed_or_failed root)))
    (fun x r => x = inr tt -> r !! name = Some (MerkleRootRecord.mk root Deleting)).
Proof.
  apply triple_check_partitionKeyValue; [|done].
  apply triple_send; [apply String.eqb_refl|done|].
  intros o d a d' _ E. unfold DynamoDbClient.PutCommand_serve in E.
  destruct (eval_condition _ _) eqn:Ec; [|done]. injection E as _ <-. cbn [roots].
  split; [|intros _; apply lookup_insert_eq].
  destruct (eval_root_and_completed_or_failed _ _ Ec) as [Hc|Hc];
    apply (legal_insert _ _ _ _ Hc); by apply legal_status.
Qed.

(** The insert: served only when the row is absent. *)
Lemma triple_executeInsertStatement name root :
  triple (fun _ => True)
    (DynamoDbService.executeInsertStatement name (MerkleRootRecord.mk root Creating))
    (fun x r => x = inr tt -> r !! name = Some (MerkleRootRecord.mk root Creating)).
Proof.
  apply triple_check_partitionKeyValue; [|done].
  apply triple_send; [reflexivity|done|].
  intros o d a d' _ E. unfold DynamoDbClient.ExecuteStatementInsert_serve in E.
  destruct (roots d !! name) eqn:En; [done|]. injection E as _ <-. cbn [roots].
  split; [|intros _; apply lookup_insert_eq].
  by apply (legal_insert _ _ _ _ En).
Qed.

(** The delete of the roots row is unconditional: it is legal on a row
    that is DELETING. *)
Lemma triple_deleteItem name root :
  triple (fun r => r !! name = Some (MerkleRootRecord.mk root Deleting))
    (DynamoDbService.deleteItem name) (fun _ _ => True).
Proof.
  apply triple_check_partitionKeyValue; [|done].
  apply triple_send; [reflexivity|done|].
  intros o d a d' Hrow E. injection E as _ <-. cbn [roots].
  split; [|done]. by apply (legal_delete _ _ _ Hrow).
Qed.

Lemma triple_createMerkleTree name root records :
  triple (fun _ => True) (WhitelistDataService.createMerkleTree name root records)
    (fun _ _ => True).
Proof.
  unfold WhitelistDataService.createMerkleTree.
  destruct (WhitelistDataService.invalid_name name); [by apply triple_throw_post|].
  apply (triple_bind _ _ _ (fun _ _ => True)); [|done|intros _].
  { eapply triple_rethrowing; [apply triple_executeInsertStatement|done|done]. }
  apply (triple_bind _ _ _ (fun _ _ => True)); [|done|intros _].
  { apply (triple_try_catch _ _ _ (fun _ _ => True)); [|done|intros e].
    - by apply triple_frame; [apply frame_batchInsertExecuteStatement|].
    - apply (triple_bind _ _ _ (fun _ _ => True)); [|done|intros _].
      + eapply triple_consequence; [by apply (triple_putItem_status name root Creating Failed)|done|done].
      + by apply triple_throw_post. }
  eapply triple_rethrowing; [by apply (triple_putItem_status name root Creating Completed)|done|done].
Qed.

Lemma triple_delete_proofs_then_root name root :
  triple (fun r => r !! name = Some (MerkleRootRecord.mk root Deleting))
    (WhitelistDataService.delete_proofs_then_root name) (fun _ _ => True).
Proof.
  unfold WhitelistDataService.delete_proofs_then_root.
  eapply triple_bind; [apply frame_paginatedQuery|done|intros items].
  eapply triple_bind; [apply frame_batchDeleteWrite|done|intros ?].
  apply triple_deleteItem.
Qed.

Lemma triple_deleteMerkleTree name :
  triple (fun _ => True) (WhitelistDataService.deleteMerkleTree name) (fun _ _ => True).
Proof.
  unfold WhitelistDataService.deleteMerkleTree.
  destruct (WhitelistDataService.invalid_name name); [by apply triple_throw_post|].
  apply (triple_bind _ _ _ (fun _ _ => True)); [|done|intros [item|]].
  { by apply triple_frame; [apply frame_rethrowing, frame_getItem|]. }
  2: by apply triple_throw_post.
  destruct (_ && _); [by apply triple_throw_post|].
  apply (triple_bind _ _ _
           (fun x r => x = inr tt ->
              r !! name = Some (MerkleRootRecord.mk (MerkleRootRecord.MerkleRoot item) Deleting)));
    [|done|intros []].
  { eapply triple_rethrowing;
      [apply triple_putItem_deleting|intros a r H; exact H|done]. }
  apply (triple_try_catch _ _ _ (fun _ _ => True)); [|done|intros e].
  - eapply triple_consequence;
      [apply (triple_delete_proofs_then_root name (MerkleRootRecord.MerkleRoot item))| |done].
    intros r H. by apply H.
  - apply (triple_bind _ _ _ (fun _ _ => True)); [|done|intros _].
    + eapply triple_consequence;
        [by apply (triple_putItem_status name _ Deleting Failed)|done|done].
    + by apply triple_throw_post.
Qed.

Lemma triple_run_operation op : triple (fun _ => True) (run_operation op) (fun _ _ => True).
Proof.
  destruct op as [name entries|name]; cbn [run_operation].
  - unfold WhitelistCommandService.createMerkleTree.
    destruct (invalid_whitelistName name); [by apply triple_throw_post|].
    destruct (CommandServiceBuilder.validateEntries _ _); [by apply triple_throw_post|].
    destruct (CommandServiceBuilder.buildMerkleTree _ _) as [e|[root proofs]];
      [by apply triple_throw_post|].
    apply triple_createMerkleTree.
  - unfold WhitelistCommandService.deleteMerkleTree.
    destruct (invalid_whitelistName name); [by apply triple_throw_post|].
    apply triple_deleteMerkleTree.
Qed.

(** C9.  Every sequence of CreateTree and DeleteTree operations, on any
    names, from any tables and whatever the provider raises: the requests
    that the sequence sends lead the roots table from its first to its
    last state one after the other, and each request leaves every roots
    row as it is or moves it along one transition of the state machine
    (absent to CREATING; CREATING to COMPLETED or FAILED; COMPLETED or
    FAILED to DELETING; DELETING to FAILED or absent) without changing
    the [MerkleRoot] of a row that stays; every put of a roots row is
    conditioned on [MerkleRoot = r] for the root [r] that it writes. *)
Theorem C9_roots_rows_follow_the_state_machine (ops : list Operation) (w : World) :
  exists l,
    log (run_operations ops w) = log w ++ l
    /\ legal_trace (roots (db w)) l (roots (db (run_operations ops w))).
Proof.
  revert w. induction ops as [|op ops IH]; intros w.
  - exists []. cbn. by rewrite app_nil_r.
  - destruct (triple_run_operation op w I) as (l1 & Hl1 & Ht1 & _).
    destruct (IH (snd (run_operation op w))) as (l2 & Hl2 & Ht2).
    exists (l1 ++ l2). change (run_operations (op :: ops) w)
      with (run_operations ops (snd (run_operation op w))).
    rewrite Hl2, Hl1, app_assoc. split; [done|].
    by apply (legal_trace_app _ _ _ _ _ Ht1).
Qed.

(** ** Runs of the data service *)

Lemma bind_inr {A B} (m : M A) (k : A -> M B) w a w1 :
  m w = (inr a, w1) -> bind m k w = k a w1.
Proof. intros H. unfold bind. by rewrite H. Qed.

Lemma bind_inl {A B} (m : M A) (k : A -> M B) w e w1 :
  m w = (inl e, w1) -> bind m k w = (inl e, w1).
Proof. intros H. unfold bind. by rewrite H. Qed.

Lemma try_catch_inl {A} (m : M A) (h : Exception -> M A) w e w1 :
  m w = (inl e, w1) -> try_catch m h w = h e w1.
Proof. intros H. unfold try_catch. by rewrite H. Qed.

Lemma try_catch_inr {A} (m : M A) (h : Exception -> M A) w a w1 :
  m w = (inr a, w1) -> try_catch m h w = (inr a, w1).
Proof. intros H. unfold try_catch. by rewrite H. Qed.

Lemma check_partitionKeyValue_valid {A} name (k : M A) :
  WhitelistDataService.invalid_name name = false ->
  DynamoDbService.check_partitionKeyValue name k = k.
Proof.
  unfold WhitelistDataService.invalid_name, DynamoDbService.check_partitionKeyValue.
  by intros ->.
Qed.

Lemma run_eq {A} (m : M A) w x : fst (m w) = x -> m w = (x, snd (m w)).
Proof. intros <-. by destruct (m w). Qed.

(** What a triple says of one run. *)
Lemma triple_run {A} (P : RootsTable -> Prop) (m : M A)
    (Q : Exception + A -> RootsTable -> Prop) w x w1 :
  triple P m Q -> P (roots (db w)) -> m w = (x, w1) -> Q x (roots (db w1)).
Proof.
  intros Hm Hw E. destruct (Hm w Hw) as (l & _ & _ & Hq). by rewrite E in Hq.
Qed.

(** The compensating put of a status on the row that its condition
    describes: one request; served, it writes the status and the
    computation goes on; raised by the provider, the exception of the
    provider leaves as it is and the row stays. *)
Lemma putItem_status_run name root s s' w :
  WhitelistDataService.invalid_name name = false ->
  roots (db w) !! name = Some (MerkleRootRecord.mk root s) ->
  exists x w1,
    DynamoDbService.putItem name (MerkleRootRecord.mk root s')
      (Some (WhitelistDataService.root_and_status root s)) w = (x, w1)
    /\ log w1 = log w ++ [mkLogEntry
                            (PutCommand name (MerkleRootRecord.mk root s')
                               (Some (WhitelistDataService.root_and_status root s)))
                            (roots (db w)) (roots (db w1))]
    /\ (is_served (fst (next_outcome w)) = true ->
        x = inr tt
        /\ db w1 = mkDb (<[name := MerkleRootRecord.mk root s']> (roots (db w))) (proofs (db w)))
    /\ (forall kind message,
          fst (next_outcome w) = Raises kind message ->
          x = inl (DynamoDBServiceException kind message) /\ db w1 = db w).
Proof.
  intros Hv Hrow. unfold DynamoDbService.putItem.
  rewrite (check_partitionKeyValue_valid _ _ Hv). unfold send.
  destruct (next_outcome w) as [o rest]. cbn [fst].
  assert (DynamoDbClient.PutCommand_serve name (MerkleRootRecord.mk root s')
            (Some (WhitelistDataService.root_and_status root s)) o (db w)
          = inr (tt, mkDb (<[name := MerkleRootRecord.mk root s']> (roots (db w)))
                       (proofs (db w)))) as Hs.
  { unfold DynamoDbClient.PutCommand_serve. rewrite Hrow. cbn.
    rewrite String.eqb_refl, bool_decide_true by done. reflexivity. }
  destruct o as [|k msg|u]; rewrite ?Hs; eexists _, _; (split; [reflexivity|]);
    (split; [reflexivity|]); (split; [intros Ho|intros kind message Ho]);
    try discriminate Ho; try (injection Ho as <- <-); split; reflexivity.
Qed.

(** C2 (as amended: the kind of the failure).  When the roots table has
    a row under the whitelist name, [createMerkleTree] fails on its first
    request, the INSERT statement, and sends no other; the tables are as
    before.  The failure surfaced is the one the provider raises on the
    statement, as a [NoSqlError] of the same name: on an INSERT over an
    existing primary key that is DuplicateItemException. *)
Theorem C2_existing_row_refuses_the_insert
    (name root : string) (records : list MerkleProofRecord.t) (w : World)
    (item : MerkleRootRecord.t) :
  WhitelistDataService.invalid_name name = false ->
  roots (db w) !! name = Some item ->
  exists e w',
    WhitelistDataService.createMerkleTree name root records w = (inl e, w')
    /\ db w' = db w
    /\ log w' = log w ++ [mkLogEntry
                            (ExecuteStatementInsert name (MerkleRootRecord.mk root Creating))
                            (roots (db w)) (roots (db w))]
    /\ e = match fst (next_outcome w) with
           | Raises kind message =>
               WhitelistDataService.rethrow (DynamoDBServiceException kind message)
           | _ => NoSqlError "DuplicateItemException" "Duplicate primary key exists in table"
           end.
Proof.
  intros Hv Hrow. unfold WhitelistDataService.createMerkleTree. rewrite Hv.
  assert (exists e w',
    WhitelistDataService.rethrowing
      (DynamoDbService.executeInsertStatement name (MerkleRootRecord.mk root Creating)) w
    = (inl e, w')
    /\ db w' = db w
    /\ log w' = log w ++ [mkLogEntry
                            (ExecuteStatementInsert name (MerkleRootRecord.mk root Creating))
                            (roots (db w)) (roots (db w))]
    /\ e = match fst (next_outcome w) with
           | Raises kind message =>
               WhitelistDataService.rethrow (DynamoDBServiceException kind message)
           | _ => NoSqlError "DuplicateItemException" "Duplicate primary key exists in table"
           end) as (e & w' & E & H).
  { unfold WhitelistDataService.rethrowing, try_catch, DynamoDbService.executeInsertStatement.
    rewrite (check_partitionKeyValue_valid _ _ Hv). unfold send.
    destruct (next_outcome w) as [o rest]. cbn [fst].
    unfold DynamoDbClient.ExecuteStatementInsert_serve. rewrite Hrow.
    destruct o as [|k msg|u]; eexists _, _; (split; [reflexivity|]);
      repeat split; reflexivity. }
  exists e, w'. split; [|exact H]. by apply bind_inl.
Qed.

(** C2 on the example: a second [createMerkleTree] under the name of a
    completed tree. *)
Lemma C2_existing_row_refuses_the_insert_witness :
  WhitelistDataService.invalid_name "presale" = false
  /\ roots (db (fresh_world (example_db Completed) [])) !! "presale"
     = Some (MerkleRootRecord.mk example_root Completed)
  /\ exists e w',
       WhitelistDataService.createMerkleTree "presale" example_root example_records
         (fresh_world (example_db Completed) []) = (inl e, w')
       /\ db w' = db (fresh_world (example_db Completed) [])
       /\ log w' = log (fresh_world (example_db Completed) [])
                   ++ [mkLogEntry
                         (ExecuteStatementInsert "presale"
                            (MerkleRootRecord.mk example_root Creating))
                         (roots (db (fresh_world (example_db Completed) [])))
                         (roots (db (fresh_world (example_db Completed) [])))]
       /\ e = match fst (next_outcome (fresh_world (example_db Completed) [])) with
              | Raises kind message =>
                  WhitelistDataService.rethrow (DynamoDBServiceException kind message)
              | _ => NoSqlError "DuplicateItemException" "Duplicate primary key exists in table"
              end.
Proof.
  split; [reflexivity|]. split; [vm_compute; reflexivity|].
  apply (C2_existing_row_refuses_the_insert "presale" example_root example_records
           (fresh_world (example_db Completed) [])
           (MerkleRootRecord.mk example_root Completed)); vm_compute; reflexivity.
Defined.

(** C2 as stated fails on the example: the provider serves the requests,
    the row exists, and the failure surfaced is named
    DuplicateItemException, not ConditionalCheckFailedException. *)
Lemma C2_counterexample :
  roots (example_db Completed) !! "presale"
  = Some (MerkleRootRecord.mk example_root Completed)
  /\ fst (WhitelistDataService.createMerkleTree "presale" example_root example_records
            (fresh_world (example_db Completed) []))
     = inl (NoSqlError "DuplicateItemException" "Duplicate primary key exists in table")
  /\ forall message,
       fst (WhitelistDataService.createMerkleTree "presale" example_root example_records
              (fresh_world (example_db Completed) []))
       <> inl (NoSqlError "ConditionalCheckFailedException" message).
Proof.
  split; [vm_compute; reflexivity|].
  assert (fst (WhitelistDataService.createMerkleTree "presale" example_root example_records
            (fresh_world (example_db Completed) []))
     = inl (NoSqlError "DuplicateItemException" "Duplicate primary key exists in table")) as E
    by (vm_compute; reflexivity).
  split; [exact E|]. intros message. rewrite E. discriminate.
Qed.

(** C3 (as amended: when the compensating put itself fails).  After the
    roots row is inserted, any failure [e] of the bulk insert of the
    proofs rows leaves the row CREATING with its root, and the next and
    last request is the put of (root, FAILED) under the condition
    [MerkleRoot = root AND WhitelistStatus = CREATING].  When the
    provider serves that put, the row becomes (root, FAILED) and the
    failure surfaced is [e] (a provider exception as a [NoSqlError] of the
    same name).  When the provider raises on that put, the row stays
    (root, CREATING) and what is surfaced is the exception of the put, as
    the provider raised it, in place of [e]. *)
Theorem C3_bulk_insert_failure_is_compensated
    (name root : string) (records : list MerkleProofRecord.t)
    (w w1 w2 : World) (e : Exception) :
  WhitelistDataService.invalid_name name = false ->
  WhitelistDataService.rethrowing
    (DynamoDbService.executeInsertStatement name (MerkleRootRecord.mk root Creating)) w
  = (inr tt, w1) ->
  DynamoDbService.batchInsertExecuteStatement name records w1 = (inl e, w2) ->
  roots (db w2) !! name = Some (MerkleRootRecord.mk root Creating)
  /\ exists x w3,
       WhitelistDataService.createMerkleTree name root records w = (x, w3)
       /\ log w3 = log w2 ++ [mkLogEntry
                                (PutCommand name (MerkleRootRecord.mk root Failed)
                                   (Some (WhitelistDataService.root_and_status root Creating)))
                                (roots (db w2)) (roots (db w3))]
       /\ (is_served (fst (next_outcome w2)) = true ->
           x = inl (WhitelistDataService.rethrow e)
           /\ roots (db w3) !! name = Some (MerkleRootRecord.mk root Failed))
       /\ (forall kind message,
             fst (next_outcome w2) = Raises kind message ->
             x = inl (DynamoDBServiceException kind message)
             /\ roots (db w3) !! name = Some (MerkleRootRecord.mk root Creating)).
Proof.
  intros Hv H1 H2.
  assert (roots (db w1) !! name = Some (MerkleRootRecord.mk root Creating)) as Hrow1.
  { refine (triple_run (fun _ => True) _
              (fun x r => x = inr tt -> r !! name = Some (MerkleRootRecord.mk root Creating))
              w (inr tt) w1 _ I H1 eq_refl).
    eapply triple_rethrowing;
      [apply triple_executeInsertStatement|intros a r H; exact H|done]. }
  assert (roots (db w2) !! name = Some (MerkleRootRecord.mk root Creating)) as Hrow2.
  { exact (triple_run
             (fun r => r !! name = Some (MerkleRootRecord.mk root Creating)) _ _ w1 (inl e) w2
             (frame_batchInsertExecuteStatement name records _) Hrow1 H2). }
  split; [exact Hrow2|].
  destruct (putItem_status_run name root Creating Failed w2 Hv Hrow2)
    as (x & w3 & Hput & Hlog & Hserved & Hraised).
  unfold WhitelistDataService.createMerkleTree. rewrite Hv.
  rewrite (bind_inr _ _ _ _ _ H1).
  destruct x as [e'|[]].
  - exists (inl e'), w3. split.
    { apply bind_inl. rewrite (try_catch_inl _ _ _ _ _ H2).
      by rewrite (bind_inl _ _ _ _ _ Hput). }
    split; [exact Hlog|]. split.
    + intros Ho. by destruct (Hserved Ho).
    + intros kind message Ho. destruct (Hraised kind message Ho) as [-> Hdb].
      split; [reflexivity|]. by rewrite Hdb.
  - exists (inl (WhitelistDataService.rethrow e)), w3. split.
    { apply bind_inl. rewrite (try_catch_inl _ _ _ _ _ H2).
      by rewrite (bind_inr _ _ _ _ _ Hput). }
    split; [exact Hlog|]. split.
    + intros Ho. destruct (Hserved Ho) as [_ Hdb]. split; [reflexivity|].
      rewrite Hdb. apply lookup_insert_eq.
    + intros kind message Ho. by destruct (Hraised kind message Ho).
Qed.

(** C3 on the example: the provider raises on the bulk insert and
    serves the compensating put. *)
Lemma C3_bulk_insert_failure_is_compensated_witness :
  WhitelistDataService.invalid_name "presale" = false
  /\ WhitelistDataService.rethrowing
       (DynamoDbService.executeInsertStatement "presale"
          (MerkleRootRecord.mk example_root Creating))
       (fresh_world empty_db bulk_fault)
     = (inr tt, after_insert "presale" example_root (fresh_world empty_db bulk_fault))
  /\ DynamoDbService.batchInsertExecuteStatement "presale" example_records
       (after_insert "presale" example_root (fresh_world empty_db bulk_fault))
     = (inl (DynamoDBServiceException InternalServerError "boom"),
        after_bulk_insert "presale" example_root example_records
          (fresh_world empty_db bulk_fault))
  /\ exists w3,
       WhitelistDataService.createMerkleTree "presale" example_root example_records
         (fresh_world empty_db bulk_fault)
       = (inl (NoSqlError "InternalServerError" "boom"), w3)
       /\ roots (db w3) !! "presale" = Some (MerkleRootRecord.mk example_root Failed).
Proof.
  split; [reflexivity|].
  split; [apply run_eq; vm_compute; reflexivity|].
  split; [apply run_eq; vm_compute; reflexivity|].
  destruct (C3_bulk_insert_failure_is_compensated "presale" example_root example_records
              (fresh_world empty_db bulk_fault)
              (after_insert "presale" example_root (fresh_world empty_db bulk_fault))
              (after_bulk_insert "presale" example_root example_records
                 (fresh_world empty_db bulk_fault))
              (DynamoDBServiceException InternalServerError "boom"))
    as (_ & x & w3 & Hrun & _ & Hserved & _);
    [reflexivity|apply run_eq; vm_compute; reflexivity
    |apply run_eq; vm_compute; reflexivity|].
  destruct Hserved as [-> Hrow]; [vm_compute; reflexivity|].
  exists w3. split; [exact Hrun|exact Hrow].
Defined.

(** C3 as stated fails when the provider raises on the compensating put
    too: the bulk insert fails with InternalServerError, and the caller
    receives the ProvisionedThroughputExceededException of the
    compensating put; the row stays CREATING. *)
Lemma C3_counterexample :
  fst (DynamoDbService.batchInsertExecuteStatement "presale" example_records
         (after_insert "presale" example_root (fresh_world empty_db compensation_fault)))
  = inl (DynamoDBServiceException InternalServerError "boom")
  /\ fst (WhitelistDataService.createMerkleTree "presale" example_root example_records
            (fresh_world empty_db compensation_fault))
     = inl (DynamoDBServiceException ProvisionedThroughputExceededException "throttled")
  /\ roots (db (snd (WhitelistDataService.createMerkleTree "presale" example_root
                       example_records (fresh_world empty_db compensation_fault))))
       !! "presale"
     = Some (MerkleRootRecord.mk example_root Creating).
Proof. repeat split; vm_compute; reflexivity. Qed.

Lemma getItem_run name w :
  WhitelistDataService.invalid_name name = false ->
  is_served (fst (next_outcome w)) = true ->
  WhitelistDataService.rethrowing (DynamoDbService.getItem name) w
  = (inr (roots (db w) !! name),
     mkWorld (db w) (snd (next_outcome w))
       (log w ++ [mkLogEntry (GetCommandRoot name) (roots (db w)) (roots (db w))])
       (slept w)).
Proof.
  intros Hv Hs. unfold WhitelistDataService.rethrowing, try_catch, DynamoDbService.getItem.
  rewrite (check_partitionKeyValue_valid _ _ Hv). unfold send.
  destruct (next_outcome w) as [o rest]. cbn [fst snd] in *.
  by destruct o.
Qed.

(** A failure of the deletes leaves the roots row DELETING. *)
Lemma triple_delete_proofs_then_root_failure name root :
  triple (fun r => r !! name = Some (MerkleRootRecord.mk root Deleting))
    (WhitelistDataService.delete_proofs_then_root name)
    (fun x r => forall e, x = inl e -> r !! name = Some (MerkleRootRecord.mk root Deleting)).
Proof.
  unfold WhitelistDataService.delete_proofs_then_root.
  eapply triple_bind; [apply frame_paginatedQuery|by intros e r H e' _|intros items].
  eapply triple_bind; [apply frame_batchDeleteWrite|by intros e r H e' _|intros ?].
  apply triple_check_partitionKeyValue; [|by intros e r H e' _].
  apply triple_send; [reflexivity|by intros r e H e' _|].
  intros o d u d' Hrow E. injection E as _ <-. cbn [roots].
  split; [|done]. by apply (legal_delete _ _ _ Hrow).
Qed.

(** C8 (as amended: when the compensating put itself fails).
    [deleteMerkleTree] first reads the roots row.  When the row is
    absent, CREATING or DELETING, it fails with a validation error, and
    the tables are as before.  When the row is COMPLETED or FAILED with
    root [r], it puts (r, DELETING) under the condition that the row is
    COMPLETED or FAILED with root [r]; after that put, any failure [e] of
    the query of the proofs rows, of their bulk delete or of the delete of
    the roots row leaves the row (r, DELETING), and the next and last
    request is the put of (r, FAILED) under the condition
    [MerkleRoot = r AND WhitelistStatus = DELETING].  When the provider
    serves that put, the row becomes (r, FAILED) and the failure surfaced
    is [e] (a provider exception as a [NoSqlError] of the same name).
    When the provider raises on that put, the row stays (r, DELETING) and
    what is surfaced is the exception of the put, in place of [e]. *)
Theorem C8_deleteMerkleTree_refuses_or_compensates (name : string) :
  WhitelistDataService.invalid_name name = false ->
  (forall w,
     is_served (fst (next_outcome w)) = true ->
     roots (db w) !! name = None
     \/ (exists root, roots (db w) !! name = Some (MerkleRootRecord.mk root Creating))
     \/ (exists root, roots (db w) !! name = Some (MerkleRootRecord.mk root Deleting)) ->
     exists message w',
       WhitelistDataService.deleteMerkleTree name w = (inl (ValidationError message), w')
       /\ db w' = db w
       /\ log w' = log w ++ [mkLogEntry (GetCommandRoot name) (roots (db w)) (roots (db w))])
  /\ (forall w root status w1 e w2,
        is_served (fst (next_outcome w)) = true ->
        roots (db w) !! name = Some (MerkleRootRecord.mk root status) ->
        status = Completed \/ status = Failed ->
        WhitelistDataService.rethrowing
          (DynamoDbService.putItem name (MerkleRootRecord.mk root Deleting)
             (Some (WhitelistDataService.root_and_completed_or_failed root)))
          (after_read name w)
        = (inr tt, w1) ->
        WhitelistDataService.delete_proofs_then_root name w1 = (inl e, w2) ->
        roots (db w1) !! name = Some (MerkleRootRecord.mk root Deleting)
        /\ roots (db w2) !! name = Some (MerkleRootRecord.mk root Deleting)
        /\ exists x w3,
             WhitelistDataService.deleteMerkleTree name w = (x, w3)
             /\ log w3 = log w2 ++ [mkLogEntry
                                      (PutCommand name (MerkleRootRecord.mk root Failed)
                                         (Some (WhitelistDataService.root_and_status root
                                                  Deleting)))
                                      (roots (db w2)) (roots (db w3))]
             /\ (is_served (fst (next_outcome w2)) = true ->
                 x = inl (WhitelistDataService.rethrow e)
                 /\ roots (db w3) !! name = Some (MerkleRootRecord.mk root Failed))
             /\ (forall kind message,
                   fst (next_outcome w2) = Raises kind message ->
                   x = inl (DynamoDBServiceException kind message)
                   /\ roots (db w3) !! name = Some (MerkleRootRecord.mk root Deleting))).
Proof.
  intros Hv. split.
  - intros w Hs Hrow. pose proof (getItem_run name w Hv Hs) as Hget.
    unfold WhitelistDataService.deleteMerkleTree. rewrite Hv, (bind_inr _ _ _ _ _ Hget).
    destruct Hrow as [Hrow|[(root & Hrow)|(root & Hrow)]]; rewrite Hrow;
      eexists _, _; (split; [reflexivity|]); done.
  - intros w root status w1 e w2 Hs Hrow Hst H1 H2.
    pose proof (getItem_run name w Hv Hs) as Hget.
    assert (after_read name w
            = mkWorld (db w) (snd (next_outcome w))
                (log w ++ [mkLogEntry (GetCommandRoot name) (roots (db w)) (roots (db w))])
                (slept w)) as Hw0 by (unfold after_read; by rewrite Hget).
    rewrite Hw0 in H1. rewrite Hrow in Hget.
    assert (roots (db w1) !! name = Some (MerkleRootRecord.mk root Deleting)) as Hrow1.
    { refine (triple_run (fun _ => True) _
                (fun x r => x = inr tt -> r !! name = Some (MerkleRootRecord.mk root Deleting))
                _ (inr tt) w1 _ I H1 eq_refl).
      eapply triple_rethrowing;
        [apply triple_putItem_deleting|intros a r H; exact H|done]. }
    assert (roots (db w2) !! name = Some (MerkleRootRecord.mk root Deleting)) as Hrow2.
    { exact (triple_run _ _ _ w1 (inl e) w2
               (triple_delete_proofs_then_root_failure name root) Hrow1 H2 e eq_refl). }
    split; [exact Hrow1|]. split; [exact Hrow2|].
    destruct (putItem_status_run name root Deleting Failed w2 Hv Hrow2)
      as (x & w3 & Hput & Hlog & Hserved & Hraised).
    unfold WhitelistDataService.deleteMerkleTree. rewrite Hv, (bind_inr _ _ _ _ _ Hget).
    cbn [MerkleRootRecord.WhitelistStatus MerkleRootRecord.MerkleRoot].
    assert (negb (bool_decide (status = Completed)) && negb (bool_decide (status = Failed))
            = false) as ->
      by (destruct Hst as [-> | ->]; reflexivity).
    rewrite (bind_inr _ _ _ _ _ H1), (try_catch_inl _ _ _ _ _ H2).
    destruct x as [e'|[]].
    + exists (inl e'), w3. split; [by rewrite (bind_inl _ _ _ _ _ Hput)|].
      split; [exact Hlog|]. split.
      * intros Ho. by destruct (Hserved Ho).
      * intros kind message Ho. destruct (Hraised kind message Ho) as [-> Hdb].
        split; [reflexivity|]. by rewrite Hdb.
    + exists (inl (WhitelistDataService.rethrow e)), w3.
      split; [by rewrite (bind_inr _ _ _ _ _ Hput)|].
      split; [exact Hlog|]. split.
      * intros Ho. destruct (Hserved Ho) as [_ Hdb]. split; [reflexivity|].
        rewrite Hdb. apply lookup_insert_eq.
      * intros kind message Ho. by destruct (Hraised kind message Ho).
Qed.

(** C8 on the example: a DeleteTree of a tree that is being created is
    refused; a DeleteTree of the completed tree whose query of the proofs
    rows fails is compensated. *)
Lemma C8_deleteMerkleTree_refuses_or_compensates_witness :
  WhitelistDataService.invalid_name "presale" = false
  /\ (exists message w',
        WhitelistDataService.deleteMerkleTree "presale" (fresh_world (example_db Creating) [])
        = (inl (ValidationError message), w')
        /\ db w' = example_db Creating)
  /\ (exists w3,
        WhitelistDataService.deleteMerkleTree "presale"
          (fresh_world (example_db Completed) (Served :: bulk_fault))
        = (inl (NoSqlError "InternalServerError" "boom"), w3)
        /\ roots (db w3) !! "presale" = Some (MerkleRootRecord.mk example_root Failed)).
Proof.
  split; [reflexivity|].
  destruct (C8_deleteMerkleTree_refuses_or_compensates "presale" eq_refl) as [Hrefuse Hcomp].
  split.
  - destruct (Hrefuse (fresh_world (example_db Creating) []) eq_refl) as (message & w' & E & Hdb & _).
    + right. left. exists example_root. vm_compute. reflexivity.
    + exists message, w'. split; [exact E|exact Hdb].
  - destruct (Hcomp (fresh_world (example_db Completed) (Served :: bulk_fault))
                example_root Completed
                (after_flip "presale" example_root
                   (fresh_world (example_db Completed) (Served :: bulk_fault)))
                (DynamoDBServiceException InternalServerError "boom")
                (after_deletes "presale" example_root
                   (fresh_world (example_db Completed) (Served :: bulk_fault))))
      as (_ & _ & x & w3 & E & _ & Hserved & _);
      [reflexivity|vm_compute; reflexivity|left; reflexivity
      |apply run_eq; vm_compute; reflexivity|apply run_eq; vm_compute; reflexivity|].
    destruct Hserved as [-> Hrow]; [vm_compute; reflexivity|].
    exists w3. split; [exact E|exact Hrow].
Defined.

(** C8 as stated fails when the provider raises on the compensating put
    too: the query of the proofs rows fails with InternalServerError, and
    the caller receives the ProvisionedThroughputExceededException of the
    compensating put; the row stays DELETING. *)
Lemma C8_counterexample :
  fst (WhitelistDataService.delete_proofs_then_root "presale"
         (after_flip "presale" example_root
            (fresh_world (example_db Completed) (Served :: compensation_fault))))
  = inl (DynamoDBServiceException InternalServerError "boom")
  /\ fst (WhitelistDataService.deleteMerkleTree "presale"
            (fresh_world (example_db Completed) (Served :: compensation_fault)))
     = inl (DynamoDBServiceException ProvisionedThroughputExceededException "throttled")
  /\ roots (db (snd (WhitelistDataService.deleteMerkleTree "presale"
                       (fresh_world (example_db Completed) (Served :: compensation_fault)))))
       !! "presale"
     = Some (MerkleRootRecord.mk example_root Deleting).
Proof. repeat split; vm_compute; reflexivity. Qed.

(** ** Addresses at the boundary of the read path *)

Section AddressFacts.
Context (keccak256 : bytes -> Z).




(** What [getAddress] returns on an input of 42 characters: the body of
    the input behind "0x", checksummed. *)
Lemma getAddress_42 s a :
  String.length s = ValidEvmAddressLen ->
  Ethers.getAddress keccak256 s = Some a ->
  exists body,
    List.length body = 40%nat
    /\ forallb is_hex_digit body = true
    /\ chars s = "0"%char :: "x"%char :: body
    /\ a = Ethers.checksummed keccak256 body.
Proof.
  intros Hlen Hga.
  destruct (getAddress_Some keccak256 s a Hga) as (body & Hbl & Hbh & [Hcs|[_ Hcs]] & Ha).
  - by exists body.
  - exfalso. rewrite <- length_chars, Hcs, Hbl in Hlen. discriminate Hlen.
Qed.

(** The normalized address passes the checks of the data service. *)
Lemma normalized_valid s a :
  Ethers.getAddress keccak256 s = Some a ->
  String.length a = ValidEvmAddressLen /\ ValidEvmAddressRegex_test a = true.
Proof.
  intros Hga.
  destruct (getAddress_Some keccak256 s a Hga) as (body & Hbl & Hbh & _ & ->).
  destruct (checksummed_chars keccak256 body) as (ca & Hca & Hcal & _ & Hh).
  destruct (Hh Hbh) as [Hcah _]. split.
  - rewrite <- length_chars, Hca. cbn [List.length]. rewrite Hcal, Hbl. reflexivity.
  - unfold ValidEvmAddressRegex_test.
    assert (startsWith (Ethers.checksummed keccak256 body) "0x" = true) as ->
      by (apply startsWith_0x; eauto).
    rewrite Hca. cbn [drop orb andb]. rewrite drop_0, Hcal, Hbl, Hcah. reflexivity.
Qed.

Lemma account_checksummed body :
  forallb is_hex_digit body = true ->
  account (Ethers.checksummed keccak256 body) = Hex.value body.
Proof.
  intros Hbh. destruct (checksummed_chars keccak256 body) as (ca & Hca & _ & _ & Hh).
  destruct (Hh Hbh) as [_ Hv]. unfold account. rewrite Hca. cbn [drop]. rewrite drop_0.
  by apply Hex_value_ext.
Qed.

(** Among the strings that [getAddress] accepts, the zero address is the
    only one of account 0. *)
Lemma zero_account s a :
  String.length s = ValidEvmAddressLen ->
  Ethers.getAddress keccak256 s = Some a ->
  account s = 0 -> s = Ethers.ZeroAddress.
Proof.
  intros Hlen Hga Hz. destruct (getAddress_42 s a Hlen Hga) as (body & Hbl & Hbh & Hcs & _).
  unfold account in Hz. rewrite Hcs in Hz. cbn [drop] in Hz. rewrite drop_0 in Hz.
  apply chars_inj. rewrite Hcs, (Hex_value_zero body Hbh Hz), Hbl. reflexivity.
Qed.

Lemma normalized_not_zero s a :
  String.length s = ValidEvmAddressLen ->
  Ethers.getAddress keccak256 s = Some a ->
  s <> Ethers.ZeroAddress -> a <> Ethers.ZeroAddress.
Proof.
  intros Hlen Hga Hnz Ha. apply Hnz.
  destruct (getAddress_42 s a Hlen Hga) as (body & Hbl & Hbh & Hcs & Hab).
  apply (zero_account s a Hlen Hga).
  unfold account. rewrite Hcs. cbn [drop]. rewrite drop_0.
  rewrite <- (account_checksummed body Hbh), <- Hab, Ha. reflexivity.
Qed.

Lemma map_toLowerCase_digit_value b1 b2 :
  forallb is_hex_digit b1 = true -> forallb is_hex_digit b2 = true ->
  map Hex.digit_value b1 = map Hex.digit_value b2 ->
  map toLowerCase_char b1 = map toLowerCase_char b2.
Proof.
  revert b2. induction b1 as [|c1 b1 IH]; intros [|c2 b2] H1 H2 Hv; try done.
  cbn [forallb] in H1, H2. apply andb_true_iff in H1 as [Hc1 H1].
  apply andb_true_iff in H2 as [Hc2 H2]. injection Hv as Hc Hv. cbn [map].
  rewrite (toLowerCase_char_digit_value c1 c2 Hc1 Hc2 Hc), (IH b2 H1 H2 Hv). reflexivity.
Qed.

(** Two accepted spellings of one account have the same normalized
    address. *)
Lemma getAddress_same_account s1 s2 a1 a2 :
  String.length s1 = ValidEvmAddressLen -> String.length s2 = ValidEvmAddressLen ->
  Ethers.getAddress keccak256 s1 = Some a1 -> Ethers.getAddress keccak256 s2 = Some a2 ->
  account s1 = account s2 -> a1 = a2.
Proof.
  intros Hl1 Hl2 Hg1 Hg2 Hacc.
  destruct (getAddress_42 s1 a1 Hl1 Hg1) as (b1 & Hb1l & Hb1h & Hc1 & ->).
  destruct (getAddress_42 s2 a2 Hl2 Hg2) as (b2 & Hb2l & Hb2h & Hc2 & ->).
  unfold account in Hacc. rewrite Hc1, Hc2 in Hacc. cbn [drop] in Hacc.
  rewrite !drop_0 in Hacc.
  apply checksummed_ext, map_toLowerCase_digit_value; [done|done|].
  apply Hex_value_inj; [by rewrite Hb1l, Hb2l|done].
Qed.

End AddressFacts.

Section Acceptance.
Context (keccak256 : bytes -> Z).

(** The strings of 42 characters that [getAddress] accepts: the pattern
    of the services with the lower-case prefix, and letters of one case
    or the string's own checksum. *)
Lemma getAddress_accepts s :
  ValidEvmAddressRegex_test s = true ->
  startsWith s "0x" = true ->
  Ethers.matches_mixed_case s = false \/ Ethers.getChecksumAddress keccak256 s = s ->
  Ethers.getAddress keccak256 s = Some (Ethers.getChecksumAddress keccak256 s).
Proof.
  intros Hre H0x Hcase. unfold ValidEvmAddressRegex_test in Hre.
  apply andb_true_iff in Hre as [Hre Hh]. apply andb_true_iff in Hre as [_ Hl].
  unfold Ethers.getAddress, Ethers.matches_address. rewrite H0x, Hl, Hh. cbn [andb].
  destruct Hcase as [-> | ->]; [reflexivity|].
  by rewrite String.eqb_refl, orb_true_r.
Qed.

Lemma getAddress_accepted s a :
  String.length s = ValidEvmAddressLen ->
  Ethers.getAddress keccak256 s = Some a ->
  ValidEvmAddressRegex_test s = true
  /\ startsWith s "0x" = true
  /\ (Ethers.matches_mixed_case s = false \/ Ethers.getChecksumAddress keccak256 s = s)
  /\ a = Ethers.getChecksumAddress keccak256 s.
Proof.
  intros Hl Hg.
  destruct (getAddress_42 keccak256 s a Hl Hg) as (body & Hbl & Hbh & Hcs & _).
  assert (startsWith s "0x" = true) as H0x by (apply startsWith_0x; eauto).
  split.
  { unfold ValidEvmAddressRegex_test. rewrite H0x, Hcs. cbn [drop orb andb].
    rewrite drop_0, Hbl, Hbh. reflexivity. }
  split; [exact H0x|].
  unfold Ethers.getAddress in Hg. destruct (Ethers.matches_address s); [|done].
  rewrite H0x in Hg.
  destruct (Ethers.matches_mixed_case s); cbn [negb orb] in Hg.
  - destruct (String.eqb _ s) eqn:E; [|done]. apply String.eqb_eq in E.
    injection Hg as <-. split; [by right|done].
  - injection Hg as <-. split; [by left|done].
Qed.

End Acceptance.

Lemma invalid_whitelistName_invalid_name name :
  invalid_whitelistName name = false -> WhitelistDataService.invalid_name name = false.
Proof.
  unfold invalid_whitelistName, WhitelistDataService.invalid_name,
    DynamoDbService.invalid_length.
  intros H. apply orb_false_iff in H as [H _]. exact H.
Qed.



(** ** The read path *)

Lemma sends_ret {A} allowed (a : A) : sends allowed (ret a).
Proof. intros w. exists []. cbn. by rewrite app_nil_r. Qed.

Lemma sends_throw {A} allowed (e : Exception) : sends allowed (throw (A:=A) e).
Proof. intros w. exists []. cbn. by rewrite app_nil_r. Qed.

Lemma sends_bind {A B} allowed (m : M A) (k : A -> M B) :
  sends allowed m -> (forall a, sends allowed (k a)) -> sends allowed (bind m k).
Proof.
  intros Hm Hk w. destruct (Hm w) as (l & Hl & Ha). unfold bind.
  destruct (m w) as [[e|a] w1]; cbn [snd] in *; [by exists l|].
  destruct (Hk a w1) as (l2 & Hl2 & Ha2). exists (l ++ l2).
  rewrite Hl2, Hl, app_assoc, fmap_app. split; [done|]. by apply Forall_app.
Qed.

Lemma sends_try_catch {A} allowed (m : M A) (h : Exception -> M A) :
  sends allowed m -> (forall e, sends allowed (h e)) -> sends allowed (try_catch m h).
Proof.
  intros Hm Hh w. destruct (Hm w) as (l & Hl & Ha). unfold try_catch.
  destruct (m w) as [[e|a] w1]; cbn [snd] in *; [|by exists l].
  destruct (Hh e w1) as (l2 & Hl2 & Ha2). exists (l ++ l2).
  rewrite Hl2, Hl, app_assoc, fmap_app. split; [done|]. by apply Forall_app.
Qed.

Lemma sends_send {A} (allowed : Request -> Prop) (req : Request)
    (serve : Outcome -> Db -> (DynamoDBKind * string) + (A * Db)) :
  allowed req -> sends allowed (send req serve).
Proof.
  intros Hreq w. unfold send. destruct (next_outcome w) as [o rest].
  destruct o as [|k msg|u]; try destruct (serve _ (db w)) as [[k' msg']|[a d]];
    eexists [_]; (split; [reflexivity|]); by repeat constructor.
Qed.

Lemma sends_rethrowing {A} allowed (m : M A) :
  sends allowed m -> sends allowed (WhitelistDataService.rethrowing m).
Proof. intros Hm. apply sends_try_catch; [exact Hm|]. intros e. apply sends_throw. Qed.

Lemma sends_getItem (allowed : Request -> Prop) name :
  allowed (GetCommandRoot name) -> sends allowed (DynamoDbService.getItem name).
Proof.
  intros H. unfold DynamoDbService.getItem, DynamoDbService.check_partitionKeyValue.
  destruct (DynamoDbService.invalid_length _ _ _); [apply sends_throw|by apply sends_send].
Qed.

Lemma sends_getItem_sortKey (allowed : Request -> Prop) name address :
  allowed (GetCommandProof name address) ->
  sends allowed (DynamoDbService.getItem_sortKey name address).
Proof.
  intros H. unfold DynamoDbService.getItem_sortKey, DynamoDbService.check_partitionKeyValue.
  destruct (DynamoDbService.invalid_length _ _ name); [apply sends_throw|].
  destruct (String.eqb _ _); [apply sends_throw|].
  destruct (DynamoDbService.invalid_length _ _ _); [apply sends_throw|by apply sends_send].
Qed.

(** The read path sends reads of the roots row of the name, and reads of
    the proofs row of the name and the normalized address. *)
Lemma sends_getMerkleProof (keccak256 : bytes -> Z) name address :
  sends (fun req =>
           req = GetCommandRoot name
           \/ exists normalized,
                Ethers.getAddress keccak256 address = Some normalized
                /\ req = GetCommandProof name normalized)
    (WhitelistQueryService.getMerkleProof keccak256 name address).
Proof.
  unfold WhitelistQueryService.getMerkleProof.
  destruct (invalid_whitelistName name); [apply sends_throw|].
  destruct (_ || _); [apply sends_throw|].
  destruct (String.eqb _ _); [apply sends_throw|].
  destruct (Ethers.getAddress keccak256 address) as [normalized|]; [|apply sends_throw].
  apply sends_bind.
  { unfold WhitelistDataService.getMerkleRoot.
    destruct (WhitelistDataService.invalid_name name); [apply sends_throw|].
    apply sends_rethrowing, sends_getItem. by left. }
  intros [record|]; [|apply sends_throw].
  destruct (negb _); [apply sends_throw|].
  unfold WhitelistDataService.getMerkleProof.
  destruct (WhitelistDataService.invalid_name name); [apply sends_throw|].
  destruct (_ || _); [apply sends_throw|].
  destruct (String.eqb _ _); [apply sends_throw|].
  apply sends_bind; [apply sends_rethrowing, sends_getItem; by left|].
  intros [item|]; [|apply sends_throw].
  destruct (negb _); [apply sends_throw|].
  apply sends_rethrowing, sends_getItem_sortKey. right. by exists normalized.
Qed.

Lemma fault_free_next w :
  fault_free w ->
  is_served (fst (next_outcome w)) = true
  /\ forallb is_served (snd (next_outcome w)) = true.
Proof.
  unfold fault_free, next_outcome. destruct (schedule w) as [|o r]; cbn; [done|].
  intros H. by apply andb_true_iff in H.
Qed.

Lemma getItem_sortKey_run name address w :
  WhitelistDataService.invalid_name name = false ->
  String.length address = ValidEvmAddressLen ->
  is_served (fst (next_outcome w)) = true ->
  WhitelistDataService.rethrowing (DynamoDbService.getItem_sortKey name address) w
  = (inr (proofs (db w) !! (name, address)),
     mkWorld (db w) (snd (next_outcome w))
       (log w ++ [mkLogEntry (GetCommandProof name address) (roots (db w)) (roots (db w))])
       (slept w)).
Proof.
  intros Hv Hlen Hs.
  unfold WhitelistDataService.rethrowing, try_catch, DynamoDbService.getItem_sortKey.
  rewrite (check_partitionKeyValue_valid _ _ Hv).
  assert (String.eqb address "" = false) as ->.
  { apply String.eqb_neq. intros ->. discriminate Hlen. }
  assert (DynamoDbService.invalid_length DynamoDbService.ValidSortKeyValueMinLen
            DynamoDbService.ValidSortKeyValueMaxLen address = false) as ->.
  { unfold DynamoDbService.invalid_length. rewrite Hlen. vm_compute. reflexivity. }
  unfold send. destruct (next_outcome w) as [o rest]. cbn [fst snd] in *.
  by destruct o.
Qed.

Lemma requests_since_app w w' l :
  log w' = log w ++ l -> requests_since w w' = request <$> l.
Proof. intros H. unfold requests_since. by rewrite H, drop_app_length. Qed.

(** C7.  Let the name and the address pass the checks of
    [getMerkleProof], with [normalized] the checksummed address, and let
    the provider serve the requests.  When the roots row of the name is
    absent, the call raises the validation error "Merkle tree not found",
    and when the row is not COMPLETED it raises the validation error
    "Merkle tree not ready" with the status; in both cases the one request
    sent is the read of the roots row, so no proofs row is read.  When
    the row is COMPLETED the call returns the proofs row under the name
    and the normalized address, or absent when there is none, after the
    two reads of the roots row (of the query service and of the data
    service) and the read of the proofs row.  The tables are as before in
    every case. *)
Theorem C7_only_completed_trees_are_readable
    (name address normalized : string) (w : World) :
  invalid_whitelistName name = false ->
  String.length address = ValidEvmAddressLen ->
  ValidEvmAddressRegex_test address = true ->
  address <> Ethers.ZeroAddress ->
  Ethers.getAddress Keccak.keccak256 address = Some normalized ->
  fault_free w ->
  db (snd (WhitelistQueryService.getMerkleProof Keccak.keccak256 name address w)) = db w
  /\ (roots (db w) !! name = None ->
      fst (WhitelistQueryService.getMerkleProof Keccak.keccak256 name address w)
      = inl (ValidationError ("[ERR] Merkle tree not found: " +:+ name))
      /\ requests_since w
           (snd (WhitelistQueryService.getMerkleProof Keccak.keccak256 name address w))
         = [GetCommandRoot name])
  /\ (forall record,
        roots (db w) !! name = Some record ->
        MerkleRootRecord.WhitelistStatus record <> Completed ->
        fst (WhitelistQueryService.getMerkleProof Keccak.keccak256 name address w)
        = inl (ValidationError
                 ("[ERR] Merkle tree not ready: "
                  +:+ WhitelistStatus_toString (MerkleRootRecord.WhitelistStatus record)))
        /\ requests_since w
             (snd (WhitelistQueryService.getMerkleProof Keccak.keccak256 name address w))
           = [GetCommandRoot name])
  /\ (forall record,
        roots (db w) !! name = Some record ->
        MerkleRootRecord.WhitelistStatus record = Completed ->
        fst (WhitelistQueryService.getMerkleProof Keccak.keccak256 name address w)
        = inr (proofs (db w) !! (name, normalized))
        /\ requests_since w
             (snd (WhitelistQueryService.getMerkleProof Keccak.keccak256 name address w))
           = [GetCommandRoot name; GetCommandRoot name; GetCommandProof name normalized]).
Proof.
  intros Hname Hlen Hre Hnz Hga Hff.
  pose proof (invalid_whitelistName_invalid_name name Hname) as Hv.
  destruct (fault_free_next w Hff) as [Hs1 Hff1].
  pose proof (getItem_run name w Hv Hs1) as Hget1.
  set (w1 := mkWorld (db w) (snd (next_outcome w))
               (log w ++ [mkLogEntry (GetCommandRoot name) (roots (db w)) (roots (db w))])
               (slept w)) in *.
  destruct (fault_free_next w1 Hff1) as [Hs2 Hff2].
  pose proof (getItem_run name w1 Hv Hs2) as Hget2.
  set (w2 := mkWorld (db w1) (snd (next_outcome w1))
               (log w1 ++ [mkLogEntry (GetCommandRoot name) (roots (db w1)) (roots (db w1))])
               (slept w1)) in *.
  destruct (fault_free_next w2 Hff2) as [Hs3 _].
  destruct (normalized_valid Keccak.keccak256 address normalized Hga) as [Hnl Hnr].
  pose proof (normalized_not_zero Keccak.keccak256 address normalized Hlen Hga Hnz) as Hnnz.
  pose proof (getItem_sortKey_run name normalized w2 Hv Hnl Hs3) as Hget3.
  assert (WhitelistQueryService.getMerkleProof Keccak.keccak256 name address w
          = match roots (db w) !! name with
            | None => (inl (ValidationError ("[ERR] Merkle tree not found: " +:+ name)), w1)
            | Some record =>
                if bool_decide (MerkleRootRecord.WhitelistStatus record = Completed)
                then (inr (proofs (db w) !! (name, normalized)),
                      mkWorld (db w2) (snd (next_outcome w2))
                        (log w2 ++ [mkLogEntry (GetCommandProof name normalized)
                                      (roots (db w2)) (roots (db w2))])
                        (slept w2))
                else (inl (ValidationError
                             ("[ERR] Merkle tree not ready: "
                              +:+ WhitelistStatus_toString
                                    (MerkleRootRecord.WhitelistStatus record))), w1)
            end) as Hrun.
  { unfold WhitelistQueryService.getMerkleProof.
    rewrite Hname, Hlen, Nat.eqb_refl, Hre. cbn [negb orb].
    apply String.eqb_neq in Hnz. rewrite Hnz, Hga.
    unfold WhitelistDataService.getMerkleRoot. rewrite Hv.
    rewrite (bind_inr _ _ _ _ _ Hget1).
    destruct (roots (db w) !! name) as [record|] eqn:Erow; [|reflexivity].
    destruct (bool_decide (MerkleRootRecord.WhitelistStatus record = Completed)) eqn:Est;
      cbn [negb]; [|reflexivity].
    unfold WhitelistDataService.getMerkleProof.
    rewrite Hv, Hnl, Nat.eqb_refl, Hnr. cbn [negb orb].
    apply String.eqb_neq in Hnnz. rewrite Hnnz.
    rewrite (bind_inr _ _ _ _ _ Hget2).
    change (roots (db w1) !! name) with (roots (db w) !! name). rewrite Erow, Est.
    cbn [negb]. exact Hget3. }
  rewrite Hrun. split; [|split; [|split]].
  - destruct (roots (db w) !! name) as [record|]; [|reflexivity].
    by destruct (bool_decide _).
  - intros ->. split; [reflexivity|].
    cbn [snd]. unfold requests_since, w1. cbn [log]. by rewrite drop_app_length.
  - intros record -> Hst. rewrite bool_decide_false by done.
    split; [reflexivity|].
    cbn [snd]. unfold requests_since, w1. cbn [log]. by rewrite drop_app_length.
  - intros record -> Hst. rewrite bool_decide_true by done.
    split; [reflexivity|].
    cbn [snd]. unfold requests_since, w2. cbn [log]. unfold w1. cbn [log].
    by rewrite <- !app_assoc, drop_app_length.
Qed.

(** C7 on the example: the proofs row of an address of the fixture, asked
    for in lower case, of the completed tree. *)
Lemma C7_only_completed_trees_are_readable_witness :
  invalid_whitelistName "presale" = false
  /\ String.length example_address_lower = ValidEvmAddressLen
  /\ ValidEvmAddressRegex_test example_address_lower = true
  /\ example_address_lower <> Ethers.ZeroAddress
  /\ Ethers.getAddress Keccak.keccak256 example_address_lower = Some example_address
  /\ fault_free (fresh_world (example_db Completed) [])
  /\ fst (WhitelistQueryService.getMerkleProof Keccak.keccak256 "presale"
            example_address_lower (fresh_world (example_db Completed) []))
     = inr (proofs (db (fresh_world (example_db Completed) []))
              !! ("presale"%string, example_address)).
Proof.
  split; [vm_compute; reflexivity|]. split; [reflexivity|].
  split; [vm_compute; reflexivity|]. split; [discriminate|].
  split; [vm_compute; reflexivity|]. split; [reflexivity|].
  destruct (C7_only_completed_trees_are_readable "presale" example_address_lower
              example_address (fresh_world (example_db Completed) []))
    as (_ & _ & _ & Hcompleted);
    [vm_compute; reflexivity|reflexivity|vm_compute; reflexivity|discriminate
    |vm_compute; reflexivity|reflexivity|].
  destruct (Hcompleted (MerkleRootRecord.mk example_root Completed)) as [Hx _];
    [vm_compute; reflexivity|reflexivity|exact Hx].
Defined.

(** ** The batch writes *)

Lemma chunkArray_from_spec {A} (fuel : nat) (array : list A) (stride : nat) :
  (0 < stride)%nat -> (List.length array <= fuel)%nat ->
  concat (DynamoDbService.chunkArray_from fuel array stride) = array
  /\ Forall (fun chunk => (0 < List.length chunk <= stride)%nat)
       (DynamoDbService.chunkArray_from fuel array stride).
Proof.
  intros Hs. revert array. induction fuel as [|f IH]; intros array Hlen.
  - destruct array; [done|cbn in Hlen; lia].
  - cbn [DynamoDbService.chunkArray_from]. destruct array as [|x r]; [done|].
    destruct (IH (drop stride (x :: r))) as [Hc Hf].
    { rewrite length_drop. cbn [List.length] in *. lia. }
    split.
    + cbn [concat]. rewrite Hc. apply take_drop.
    + constructor; [|exact Hf]. rewrite length_take. cbn [List.length]. lia.
Qed.

(** The chunks are the input in order, each of 1 to 25 items. *)
Lemma chunkArray_spec {A} (array : list A) :
  concat (DynamoDbService.chunkArray array DynamoDbService.BatchWriteMaxItems) = array
  /\ Forall (fun chunk => (0 < List.length chunk <= 25)%nat)
       (DynamoDbService.chunkArray array DynamoDbService.BatchWriteMaxItems).
Proof. apply chunkArray_from_spec; [unfold DynamoDbService.BatchWriteMaxItems; lia|done]. Qed.

Lemma select_all {A} (l : list A) (rest : list bool) :
  select (replicate (List.length l) true ++ rest) l = l.
Proof.
  unfold select. rewrite <- app_assoc.
  generalize (rest ++ replicate (List.length l) false). clear rest.
  induction l as [|x l IH]; intros rest; [reflexivity|].
  cbn [List.length replicate app zip zip_with]. rewrite filter_cons_True by done.
  cbn [fmap list_fmap fst]. f_equal. apply IH.
Qed.

Lemma BatchWriteCommand_serve_all name requests o d :
  (o = Served \/ o = ServedLeaving NoTableEntry \/ o = ServedLeaving FieldAbsent) ->
  DynamoDbClient.BatchWriteCommand_serve name requests o d
  = inr (match o with ServedLeaving u => u | _ => NoTableEntry end,
         foldl (apply_write name) d requests).
Proof.
  intros Ho. unfold DynamoDbClient.BatchWriteCommand_serve.
  assert (select (negb <$> ([] ++ replicate (List.length requests) false)) requests = requests)
    as Hsel.
  { cbn [app]. rewrite fmap_replicate. cbn [negb].
    rewrite <- (app_nil_r (replicate _ _)). apply select_all. }
  destruct Ho as [->|[->| ->]]; by rewrite Hsel.
Qed.

(** C5 at the answer of the provider that leaves nothing unprocessed.
    When the first batch write of [batchPutWrite] is answered with an
    [UnprocessedItems] map that has no entry for the table, the writes of
    the first chunk (the first 25 records) are applied, and the call then
    raises a [TypeError], before any sleep and before any other chunk:
    [response.UnprocessedItems[tableName]] is [undefined], whose [length]
    is read.  [batchDeleteWrite] reads the same answer as an empty list. *)
Theorem C5_batchPutWrite_raises_when_nothing_is_unprocessed
    (name : string) (records : list MerkleProofRecord.t) (maxRetries : Z) (w : World) :
  WhitelistDataService.invalid_name name = false ->
  0 <= maxRetries ->
  records <> [] ->
  fst (next_outcome w) = Served \/ fst (next_outcome w) = ServedLeaving NoTableEntry ->
  (exists w',
     DynamoDbService.batchPutWrite name records maxRetries w
     = (inl (Error_ "TypeError" "Cannot read properties of undefined (reading 'length')"), w')
     /\ requests_since w w'
        = [BatchWriteCommand name
             (PutRequest <$> take DynamoDbService.BatchWriteMaxItems records)]
     /\ db w' = foldl (apply_write name) (db w)
                  (PutRequest <$> take DynamoDbService.BatchWriteMaxItems records)
     /\ slept w' = slept w)
  /\ forall command, DynamoDbService.unprocessed_of_delete NoTableEntry command = inr [].
Proof.
  intros Hv Hmax Hne Ho. split; [|reflexivity].
  unfold DynamoDbService.batchPutWrite. rewrite (check_partitionKeyValue_valid _ _ Hv).
  assert ((maxRetries <? 0) = false) as -> by lia.
  destruct records as [|r rs]; [done|].
  unfold DynamoDbService.chunkArray.
  cbn [List.length DynamoDbService.chunkArray_from DynamoDbService.for_of].
  set (chunk := take DynamoDbService.BatchWriteMaxItems (r :: rs)).
  assert (exists w',
    DynamoDbService.unprocessed_loop DynamoDbService.unprocessed_of_put name
      (Z.to_nat maxRetries) 0 (PutRequest <$> chunk) w
    = (inl (Error_ "TypeError" "Cannot read properties of undefined (reading 'length')"), w')
    /\ requests_since w w' = [BatchWriteCommand name (PutRequest <$> chunk)]
    /\ db w' = foldl (apply_write name) (db w) (PutRequest <$> chunk)
    /\ slept w' = slept w) as (w' & Hloop & H).
  { assert (forall retriesLeft,
      DynamoDbService.unprocessed_loop DynamoDbService.unprocessed_of_put name
        retriesLeft 0 (PutRequest <$> chunk)
      = bind (send (BatchWriteCommand name (PutRequest <$> chunk))
                (DynamoDbClient.BatchWriteCommand_serve name (PutRequest <$> chunk)))
          (fun response =>
             match DynamoDbService.unprocessed_of_put response (PutRequest <$> chunk) with
             | inl e => throw e
             | inr unprocessedItems =>
                 bind (waitMs (DynamoDbService.BatchWriteDefaultMinTimeoutMs
                               * DynamoDbService.BatchWriteDefaultExponentialFactor ^ 0))
                   (fun _ =>
                      if (0 <? List.length unprocessedItems)%nat then
                        match retriesLeft with
                        | S k =>
                            DynamoDbService.unprocessed_loop
                              DynamoDbService.unprocessed_of_put name k (0 + 1)
                              (if (0 <? List.length unprocessedItems)%nat
                               then unprocessedItems else PutRequest <$> chunk)
                        | O => ret tt
                        end
                      else ret tt)
             end)) as Hunfold by (intros [|k]; reflexivity).
    rewrite Hunfold. unfold bind, send.
    destruct (next_outcome w) as [o rest]. cbn [fst] in Ho.
    rewrite (BatchWriteCommand_serve_all name (PutRequest <$> chunk) o (db w))
      by (destruct Ho as [->| ->]; auto).
    destruct Ho as [->| ->]; eexists; (split; [reflexivity|]); cbn [db slept log];
      (split; [|done]); unfold requests_since; cbn [log]; by rewrite drop_app_length. }
  exists w'. split; [|exact H]. by apply bind_inl.
Qed.

(** C5 on the example: [batchPutWrite] of the two records of the example
    into empty tables, served by the provider. *)
Lemma C5_batchPutWrite_raises_when_nothing_is_unprocessed_witness :
  WhitelistDataService.invalid_name "presale" = false
  /\ 0 <= DynamoDbService.BatchWriteDefaultMaxRetries
  /\ example_records <> []
  /\ fst (next_outcome (fresh_world empty_db [])) = Served
  /\ exists w',
       DynamoDbService.batchPutWrite "presale" example_records
         DynamoDbService.BatchWriteDefaultMaxRetries (fresh_world empty_db [])
       = (inl (Error_ "TypeError" "Cannot read properties of undefined (reading 'length')"),
          w')
       /\ slept w' = [].
Proof.
  split; [reflexivity|]. split; [discriminate|]. split; [discriminate|].
  split; [reflexivity|].
  destruct (C5_batchPutWrite_raises_when_nothing_is_unprocessed "presale" example_records
              DynamoDbService.BatchWriteDefaultMaxRetries (fresh_world empty_db []))
    as [(w' & Hrun & _ & _ & Hslept) _];
    [reflexivity|discriminate|discriminate|left; reflexivity|].
  exists w'. split; [exact Hrun|exact Hslept].
Defined.

(** ** The input gate: duplicates, the first refused row, the outcomes *)

Section GateMore.
Import CommandServiceBuilder.
Context (keccak256 : bytes -> Z).

Lemma getAddresses_lookup es l k e :
  getAddresses keccak256 es = Some l -> es !! k = Some e ->
  exists a, Ethers.getAddress keccak256 (WhitelistEntry.WhitelistAddress e) = Some a
            /\ l !! k = Some a.
Proof.
  revert l k. induction es as [|e0 es IH]; intros l k Hl Hk; [done|].
  cbn [getAddresses] in Hl.
  destruct (Ethers.getAddress keccak256 (WhitelistEntry.WhitelistAddress e0)) as [a0|] eqn:E0;
    [|done].
  destruct (getAddresses keccak256 es) as [l0|] eqn:El; [|done].
  injection Hl as <-. destruct k as [|k]; cbn in Hk.
  - injection Hk as <-. by exists a0.
  - by apply (IH l0 k).
Qed.

Lemma size_list_to_set_le (l : list string) :
  (size (list_to_set l : gset string) <= List.length l)%nat.
Proof.
  induction l as [|x l IH]; [done|]. cbn [list_to_set foldr List.length].
  rewrite size_union_alt, size_singleton.
  pose proof (subseteq_size (list_to_set l ∖ {[x]} : gset string) (list_to_set l)) as H.
  assert (size (list_to_set l ∖ {[x]} : gset string) <= size (list_to_set l : gset string))%nat.
  { apply H. intros y Hy. apply elem_of_difference in Hy. tauto. }
  lia.
Qed.

Lemma size_list_to_set_lt (l : list string) :
  ~ NoDup l -> (size (list_to_set l : gset string) < List.length l)%nat.
Proof.
  induction l as [|x l IH]; intros Hnd; [destruct Hnd; constructor|].
  cbn [list_to_set foldr List.length].
  destruct (decide (x ∈ l)) as [Hin|Hnin].
  - assert (({[x]} ∪ list_to_set l : gset string) = list_to_set l) as ->.
    { apply leibniz_equiv. intros y. rewrite elem_of_union, elem_of_singleton, elem_of_list_to_set.
      split; [intros [->|H]; done|tauto]. }
    pose proof (size_list_to_set_le l). lia.
  - rewrite size_union, size_singleton.
    2:{ intros y Hy1 Hy2. apply elem_of_singleton in Hy1 as ->.
        by apply elem_of_list_to_set in Hy2. }
    assert (~ NoDup l) as Hl by (intros H; apply Hnd; by constructor).
    specialize (IH Hl). lia.
Qed.

Lemma duplicate_accounts_refused es i j ei ej :
  Z.of_nat (List.length es) <= ValidateWhitelistEntriesMaxCount ->
  (forall k e, es !! k = Some e -> exists a w, accepted keccak256 e a w) ->
  i <> j -> es !! i = Some ei -> es !! j = Some ej ->
  account (WhitelistEntry.WhitelistAddress ei) = account (WhitelistEntry.WhitelistAddress ej) ->
  validateEntries keccak256 es = inl (ValidationError "[ERR] Duplicate whitelist address").
Proof.
  intros Hcount Hacc Hij Hi Hj Hsame. unfold validateEntries.
  assert ((Z.of_nat (List.length es) >? ValidateWhitelistEntriesMaxCount) = false) as -> by lia.
  rewrite (proj2 (every_None keccak256 0 es) Hacc).
  unfold hasDuplicateAddresses.
  destruct (getAddresses_total keccak256 es Hacc) as [l Hl]. rewrite Hl.
  destruct (getAddresses_lookup es l i ei Hl Hi) as (ai & Hgi & Hli).
  destruct (getAddresses_lookup es l j ej Hl Hj) as (aj & Hgj & Hlj).
  destruct (Hacc i ei Hi) as (ai' & wi & Hai). destruct (Hacc j ej Hj) as (aj' & wj & Haj).
  destruct Hai as (Hleni & _). destruct Haj as (Hlenj & _).
  pose proof (getAddress_same_account keccak256 _ _ _ _ Hleni Hlenj Hgi Hgj Hsame) as <-.
  assert (~ NoDup l) as Hnd.
  { intros Hnd. apply Hij. by apply (NoDup_lookup l i j ai). }
  pose proof (size_list_to_set_lt l Hnd) as Hlt.
  rewrite <- (getAddresses_spec keccak256 es l Hl).
  destruct (Nat.eqb_spec (size (list_to_set l : gset string)) (List.length l)); [lia|].
  reflexivity.
Qed.


(** The message of the gate is that of the first refused row. *)
Lemma every_first_refused index es i e msg :
  (forall k e', (k < i)%nat -> es !! k = Some e' -> check_entry keccak256 (index + k) e' = None) ->
  es !! i = Some e -> check_entry keccak256 (index + i) e = Some msg ->
  every keccak256 index es = Some msg.
Proof.
  revert index i. induction es as [|e0 es IH]; intros index i Hbefore Hi Hmsg; [done|].
  cbn [every]. destruct i as [|i]; cbn in Hi.
  - injection Hi as ->. rewrite Nat.add_0_r in Hmsg. by rewrite Hmsg.
  - assert (check_entry keccak256 index e0 = None) as ->.
    { rewrite <- (Nat.add_0_r index). apply Hbefore; [lia|done]. }
    apply (IH (S index) i); [|done|by rewrite Nat.add_succ_comm].
    intros k e' Hk He'. rewrite Nat.add_succ_comm. apply Hbefore; [lia|done].
Qed.

Lemma first_refused_row es i e msg :
  Z.of_nat (List.length es) <= ValidateWhitelistEntriesMaxCount ->
  (forall k e', (k < i)%nat -> es !! k = Some e' -> check_entry keccak256 k e' = None) ->
  es !! i = Some e -> check_entry keccak256 i e = Some msg ->
  validateEntries keccak256 es = inl (ValidationError msg).
Proof.
  intros Hcount Hbefore Hi Hmsg. unfold validateEntries.
  assert ((Z.of_nat (List.length es) >? ValidateWhitelistEntriesMaxCount) = false) as -> by lia.
  by rewrite (every_first_refused 0 es i e msg).
Qed.

(** After [every] the unguarded calls of [getAddress] and [parseEther]
    cannot raise. *)
Lemma toValues_total es :
  (forall i e, es !! i = Some e -> exists a w, accepted keccak256 e a w) ->
  is_Some (toValues keccak256 es).
Proof.
  induction es as [|e es IH]; intros Hacc; [by eexists|]. cbn [toValues].
  destruct (Hacc 0%nat e eq_refl) as (a & w & Ha).
  pose proof Ha as (_ & _ & _ & -> & _ & -> & _).
  destruct IH as [vs ->]; [|by eexists]. intros i e' Hi. by apply (Hacc (S i)).
Qed.

Lemma validateEntries_outcomes es :
  validateEntries keccak256 es = inr tt
  \/ exists msg, validateEntries keccak256 es = inl (ValidationError msg).
Proof.
  unfold validateEntries. destruct (_ >? _); [eauto|].
  destruct (every keccak256 0 es) as [msg|] eqn:Ee; [eauto|].
  pose proof (proj1 (every_None keccak256 0 es) Ee) as Hacc.
  unfold hasDuplicateAddresses.
  destruct (getAddresses_total keccak256 es Hacc) as [l ->].
  destruct (negb _); eauto.
Qed.

End GateMore.

(** ** The gate on the records of the CSV parser *)

Section ParsedGateFacts.
Context (keccak256 : bytes -> Z).

(** On a row that has both columns the callback is the one on typed rows. *)
Lemma parsed_check_entry_of_entry index e :
  ParsedGate.check_entry keccak256 index (ParsedEntry.of_entry e)
  = inr (CommandServiceBuilder.check_entry keccak256 index e).
Proof.
  unfold ParsedGate.check_entry, CommandServiceBuilder.check_entry, ParsedEntry.of_entry.
  cbn [ParsedEntry.WhitelistAddress ParsedEntry.WhitelistAmount].
  destruct (_ || _); [reflexivity|]. destruct (String.eqb _ _); [reflexivity|].
  destruct (Ethers.getAddress _ _); [|reflexivity].
  destruct (_ || _); [reflexivity|].
  destruct (Ethers.parseEther _) as [v|]; [|reflexivity]. by destruct (v <? 0).
Qed.

Lemma parsed_every_of_entry index es :
  ParsedGate.every keccak256 index (ParsedEntry.of_entry <$> es)
  = inr (CommandServiceBuilder.every keccak256 index es).
Proof.
  revert index. induction es as [|e es IH]; intros index; [reflexivity|].
  cbn [fmap list_fmap ParsedGate.every CommandServiceBuilder.every].
  rewrite parsed_check_entry_of_entry.
  destruct (CommandServiceBuilder.check_entry keccak256 index e); [reflexivity|]. apply IH.
Qed.

Lemma parsed_getAddresses_of_entry es :
  ParsedGate.getAddresses keccak256 (ParsedEntry.of_entry <$> es)
  = CommandServiceBuilder.getAddresses keccak256 es.
Proof.
  induction es as [|e es IH]; [reflexivity|].
  cbn [fmap list_fmap ParsedGate.getAddresses CommandServiceBuilder.getAddresses
       ParsedEntry.of_entry ParsedEntry.WhitelistAddress].
  fold (list_fmap _ _ ParsedEntry.of_entry es). by rewrite IH.
Qed.

Lemma parsed_validateEntries_of_entry es :
  ParsedGate.validateEntries keccak256 (ParsedEntry.of_entry <$> es)
  = CommandServiceBuilder.validateEntries keccak256 es.
Proof.
  unfold ParsedGate.validateEntries, CommandServiceBuilder.validateEntries,
    ParsedGate.hasDuplicateAddresses, CommandServiceBuilder.hasDuplicateAddresses.
  rewrite length_fmap, parsed_every_of_entry, parsed_getAddresses_of_entry.
  destruct (_ >? _); [reflexivity|].
  by destruct (CommandServiceBuilder.every keccak256 0 es).
Qed.

(** The callback throws only the TypeError of a missing column, and
    only on a row that lacks a column; a row that it accepts has both. *)
Lemma parsed_check_entry_throws index e err :
  ParsedGate.check_entry keccak256 index e = inl err ->
  err = ParsedGate.undefined_length
  /\ (ParsedEntry.WhitelistAddress e = None \/ ParsedEntry.WhitelistAmount e = None).
Proof.
  unfold ParsedGate.check_entry.
  destruct (ParsedEntry.WhitelistAddress e) as [address|]; [|intros [= <-]; by split; [|left]].
  destruct (_ || _); [done|]. destruct (String.eqb _ _); [done|].
  destruct (Ethers.getAddress _ _); [|done].
  destruct (ParsedEntry.WhitelistAmount e) as [amount|]; [|intros [= <-]; by split; [|right]].
  destruct (_ || _); [done|].
  destruct (Ethers.parseEther _) as [v|]; [|done]. by destruct (v <? 0).
Qed.

Lemma parsed_check_entry_accepts index e :
  ParsedGate.check_entry keccak256 index e = inr None ->
  exists e', e = ParsedEntry.of_entry e'.
Proof.
  unfold ParsedGate.check_entry. destruct e as [[address|] [amount|]];
    cbn [ParsedEntry.WhitelistAddress ParsedEntry.WhitelistAmount]; try done.
  - intros _. by exists (WhitelistEntry.mk address amount).
  - destruct (_ || _); [done|]. destruct (String.eqb _ _); [done|].
    by destruct (Ethers.getAddress _ _).
Qed.

Lemma parsed_every_throws index es err :
  ParsedGate.every keccak256 index es = inl err ->
  err = ParsedGate.undefined_length
  /\ exists i e, es !! i = Some e
       /\ (ParsedEntry.WhitelistAddress e = None \/ ParsedEntry.WhitelistAmount e = None).
Proof.
  revert index. induction es as [|e es IH]; intros index; [done|]. cbn [ParsedGate.every].
  destruct (ParsedGate.check_entry keccak256 index e) as [err'|[msg|]] eqn:Ec; [|done|].
  - intros [= <-]. destruct (parsed_check_entry_throws index e err' Ec) as [-> Hcol].
    split; [done|]. by exists 0%nat, e.
  - intros H. destruct (IH _ H) as (-> & i & e' & Hi & Hcol).
    split; [done|]. by exists (S i), e'.
Qed.

Lemma parsed_every_accepts index es :
  ParsedGate.every keccak256 index es = inr None ->
  exists es', es = ParsedEntry.of_entry <$> es'.
Proof.
  revert index. induction es as [|e es IH]; intros index; [by exists []|].
  cbn [ParsedGate.every].
  destruct (ParsedGate.check_entry keccak256 index e) as [err'|[msg|]] eqn:Ec; [done|done|].
  intros H. destruct (IH _ H) as [es' ->].
  destruct (parsed_check_entry_accepts index e Ec) as [e' ->]. by exists (e' :: es').
Qed.

Lemma parsed_validateEntries_outcomes es :
  (ParsedGate.validateEntries keccak256 es = inr tt
   \/ (exists msg, ParsedGate.validateEntries keccak256 es = inl (ValidationError msg))
   \/ ParsedGate.validateEntries keccak256 es = inl ParsedGate.undefined_length)
  /\ (forall err, (forall msg, err <> ValidationError msg) ->
        ParsedGate.validateEntries keccak256 es = inl err ->
        err = ParsedGate.undefined_length
        /\ exists i e, es !! i = Some e
             /\ (ParsedEntry.WhitelistAddress e = None
                 \/ ParsedEntry.WhitelistAmount e = None)).
Proof.
  unfold ParsedGate.validateEntries. destruct (_ >? _) eqn:Ec.
  { split; [right; left; by eexists|]. intros err Hne [= <-]. by destruct (Hne _ eq_refl). }
  destruct (ParsedGate.every keccak256 0 es) as [err|[msg|]] eqn:Ee.
  - destruct (parsed_every_throws 0 es err Ee) as [-> Hrow].
    split; [by right; right|]. by intros err _ [= <-].
  - split; [right; left; by eexists|]. intros err Hne [= <-]. by destruct (Hne _ eq_refl).
  - destruct (parsed_every_accepts 0 es Ee) as [es' ->].
    pose proof (parsed_validateEntries_of_entry es') as Hv.
    unfold ParsedGate.validateEntries in Hv. rewrite Ec, Ee in Hv. rewrite Hv.
    destruct (validateEntries_outcomes keccak256 es') as [-> | [msg ->]].
    + split; [by left|]. by intros err _.
    + split; [right; left; by eexists|]. intros err Hne [= <-]. by destruct (Hne _ eq_refl).
Qed.

(** Within the bound, a first row without the address column makes the
    gate throw. *)
Lemma parsed_validateEntries_no_address e es :
  Z.of_nat (List.length (e :: es)) <= ValidateWhitelistEntriesMaxCount ->
  ParsedEntry.WhitelistAddress e = None ->
  ParsedGate.validateEntries keccak256 (e :: es) = inl ParsedGate.undefined_length.
Proof.
  intros Hcount He. unfold ParsedGate.validateEntries.
  assert ((Z.of_nat (List.length (e :: es)) >? ValidateWhitelistEntriesMaxCount) = false)
    as -> by lia.
  cbn [ParsedGate.every]. unfold ParsedGate.check_entry. by rewrite He.
Qed.

Lemma parsed_validateEntries_no_amount e es address a :
  Z.of_nat (List.length (e :: es)) <= ValidateWhitelistEntriesMaxCount ->
  ParsedEntry.WhitelistAddress e = Some address ->
  String.length address = ValidEvmAddressLen ->
  ValidEvmAddressRegex_test address = true ->
  address <> Ethers.ZeroAddress ->
  Ethers.getAddress keccak256 address = Some a ->
  ParsedEntry.WhitelistAmount e = None ->
  ParsedGate.validateEntries keccak256 (e :: es) = inl ParsedGate.undefined_length.
Proof.
  intros Hcount He Hlen Hre Hnz Hga Hamount. unfold ParsedGate.validateEntries.
  assert ((Z.of_nat (List.length (e :: es)) >? ValidateWhitelistEntriesMaxCount) = false)
    as -> by lia.
  cbn [ParsedGate.every]. unfold ParsedGate.check_entry.
  apply String.eqb_neq in Hnz.
  by rewrite He, Hlen, Hre, Nat.eqb_refl, Hnz, Hga, Hamount.
Qed.

End ParsedGateFacts.

(** ** The Merkle builder: one row, and the order of the rows *)

Section BuilderMore.
Import CommandServiceBuilder MerkleTreeLib.
Context (keccak256 : bytes -> Z).
Hypothesis keccak256_range : forall msg, 0 <= keccak256 msg < 2 ^ 256.

Lemma insert_sorted_hashes_HdRel a x l :
  a <= hv_hash x -> HdRel Z.le a (map hv_hash l) ->
  HdRel Z.le a (map hv_hash (insert_sorted x l)).
Proof.
  intros Hax Hl. destruct l as [|y r]; cbn [insert_sorted map]; [by constructor|].
  destruct (compare (hv_hash x) (hv_hash y) <? 0); cbn [map]; constructor; [done|].
  by inversion Hl.
Qed.

Lemma compare_neg a b : (compare a b <? 0) = (a <? b).
Proof.
  unfold compare. destruct (Z.gtb_spec (a - b) 0), (Z.ltb_spec (a - b) 0), (Z.ltb_spec a b);
    try lia; reflexivity.
Qed.

Lemma insert_sorted_hashes_Sorted x l :
  Sorted Z.le (map hv_hash l) -> Sorted Z.le (map hv_hash (insert_sorted x l)).
Proof.
  induction l as [|y r IH]; intros Hs; cbn [insert_sorted map].
  - repeat constructor.
  - rewrite compare_neg. apply Sorted_inv in Hs as [Hr Hy].
    destruct (Z.ltb_spec (hv_hash x) (hv_hash y)); cbn [map].
    + constructor; [by constructor|]. constructor. lia.
    + constructor; [by apply IH|]. by apply insert_sorted_hashes_HdRel.
Qed.

Lemma sort_hashes_Sorted l : Sorted Z.le (map hv_hash (sort l)).
Proof.
  unfold sort. assert (Sorted Z.le (map hv_hash [])) as H by constructor.
  revert H. generalize (@nil HashedValue). induction l as [|x l IH]; intros acc H; [done|].
  cbn [foldl]. apply IH. by apply insert_sorted_hashes_Sorted.
Qed.

(** The sorted leaves depend on the multiset of the hashes only. *)
Lemma sort_hashes_perm l1 l2 :
  map hv_hash l1 ≡ₚ map hv_hash l2 -> map hv_hash (sort l1) = map hv_hash (sort l2).
Proof.
  intros Hp. apply (Sorted_unique Z.le); try apply sort_hashes_Sorted.
  rewrite (sort_perm l1), (sort_perm l2). exact Hp.
Qed.

Lemma hashValues_hashes vs k hs :
  hashValues keccak256 k vs = Some hs ->
  map hv_hash hs = map (fun v => default 0 (standardLeafHash keccak256 v)) vs.
Proof.
  revert k hs. induction vs as [|v vs IH]; intros k hs H; cbn [hashValues] in H.
  - by injection H as <-.
  - destruct (standardLeafHash keccak256 v) as [h|] eqn:Eh; [|done].
    destruct (hashValues keccak256 (S k) vs) as [hs'|] eqn:Ehs; [|done].
    injection H as <-. cbn [map hv_hash]. rewrite Eh. cbn [default]. f_equal. by apply (IH (S k)).
Qed.

Lemma toValues_map es vs :
  toValues keccak256 es = Some vs ->
  vs = map (fun e => (default ""%string
                        (Ethers.getAddress keccak256 (WhitelistEntry.WhitelistAddress e)),
                      Ethers.toString
                        (default 0 (Ethers.parseEther (WhitelistEntry.WhitelistAmount e))))) es.
Proof.
  revert vs. induction es as [|e es IH]; intros vs H; cbn [toValues] in H.
  - by injection H as <-.
  - destruct (Ethers.getAddress keccak256 _) as [a|] eqn:Eg; [|done].
    destruct (Ethers.parseEther _) as [w|] eqn:Ep; [|done].
    destruct (toValues keccak256 es) as [vs'|]; [|done].
    injection H as <-. rewrite (IH vs' eq_refl) at 1. cbn [map]. rewrite Eg, Ep. reflexivity.
Qed.

Lemma getAddresses_map es l :
  getAddresses keccak256 es = Some l ->
  l = map (fun e => default ""%string
                      (Ethers.getAddress keccak256 (WhitelistEntry.WhitelistAddress e))) es.
Proof.
  revert l. induction es as [|e es IH]; intros l H; cbn [getAddresses] in H.
  - by injection H as <-.
  - destruct (Ethers.getAddress keccak256 _) as [a|] eqn:Eg; [|done].
    destruct (getAddresses keccak256 es) as [l'|]; [|done].
    injection H as <-. rewrite (IH l' eq_refl) at 1. cbn [map]. rewrite Eg. reflexivity.
Qed.

(** Two lists of rows that are permutations of each other and on which
    the builder succeeds give the same root. *)
Lemma buildMerkleTree_perm es es' root proofs root' proofs' :
  es ≡ₚ es' ->
  buildMerkleTree keccak256 es = inr (root, proofs) ->
  buildMerkleTree keccak256 es' = inr (root', proofs') ->
  root = root'.
Proof.
  intros Hp H H'. unfold buildMerkleTree in H, H'.
  destruct (toValues keccak256 es) as [vs|] eqn:Ev; [|done].
  destruct (toValues keccak256 es') as [vs'|] eqn:Ev'; [|done].
  unfold StandardMerkleTree_of in H, H'.
  destruct (hashValues keccak256 0 vs) as [hs|] eqn:Eh; [|done].
  destruct (hashValues keccak256 0 vs') as [hs'|] eqn:Eh'; [|done].
  assert (map hv_hash (sort hs) = map hv_hash (sort hs')) as Hsame.
  { apply sort_hashes_perm.
    rewrite (hashValues_hashes _ _ _ Eh), (hashValues_hashes _ _ _ Eh').
    rewrite (toValues_map _ _ Ev), (toValues_map _ _ Ev').
    by do 2 apply Permutation_map. }
  rewrite Hsame in H.
  destruct (makeMerkleTree (standardNodeHash keccak256) (map hv_hash (sort hs'))) as [e|t];
    [done|].
  destruct (collectProofs keccak256 _ _) as [e|ps] in H; [done|].
  destruct (collectProofs keccak256 _ _) as [e|ps'] in H'; [done|].
  injection H as <- _. injection H' as <- _. reflexivity.
Qed.

(** The verdict of the gate does not depend on the order of the rows. *)
Lemma validateEntries_perm es es' :
  es ≡ₚ es' -> validateEntries keccak256 es = inr tt ->
  validateEntries keccak256 es' = inr tt.
Proof.
  intros Hp H.
  destruct (validateEntries_inr keccak256 es H) as [Hcount Hacc].
  assert (forall i e, es' !! i = Some e -> exists a w, accepted keccak256 e a w) as Hacc'.
  { intros i e Hi. apply list_elem_of_lookup_2 in Hi. rewrite <- Hp in Hi.
    apply list_elem_of_lookup_1 in Hi as [k Hk]. by apply (Hacc k). }
  apply (validateEntries_accepts keccak256); [by rewrite <- Hp|exact Hacc'|].
  intros l' Hl'.
  destruct (getAddresses_total keccak256 es Hacc) as [l Hl].
  assert (NoDup l) as Hnd.
  { destruct (decide (NoDup l)) as [Hnd|Hnd]; [done|exfalso].
    unfold validateEntries in H.
    destruct (_ >? _); [done|]. rewrite (proj2 (every_None keccak256 0 es) Hacc) in H.
    unfold hasDuplicateAddresses in H. rewrite Hl in H.
    pose proof (size_list_to_set_lt l Hnd) as Hlt.
    rewrite <- (getAddresses_spec keccak256 es l Hl) in H.
    destruct (Nat.eqb_spec (size (list_to_set l : gset string)) (List.length l)); [lia|done]. }
  rewrite (getAddresses_map _ _ Hl'). rewrite (getAddresses_map _ _ Hl) in Hnd.
  by rewrite <- Hp.
Qed.

(** One row: the tree is the leaf, and the proof is empty. *)
Lemma buildMerkleTree_single e a w :
  accepted keccak256 e a w ->
  buildMerkleTree keccak256 [e]
  = inr (Hex.hexlify32
           (keccak256 (be_bytes 32 (keccak256 (MerkleTreeWhitelist.abi_encode (account a) w)))),
         [MerkleProofRecord.mk "" a (Ethers.toString w)]).
Proof.
  intros Ha. pose proof (accepted_leafHash keccak256 e a w Ha) as Hleaf.
  set (leaf := keccak256 (be_bytes 32 (keccak256
                 (MerkleTreeWhitelist.abi_encode (account a) w)))) in *.
  pose proof Ha as (_ & _ & _ & Hga & _ & Hpe & _).
  unfold buildMerkleTree. cbn [toValues]. rewrite Hga, Hpe.
  unfold StandardMerkleTree_of. cbn [hashValues]. rewrite Hleaf.
  cbn [sort foldl insert_sorted map hv_hash].
  assert (isValidMerkleNode leaf = true) as Hvalid
    by (apply (standardLeafHash_valid keccak256 keccak256_range _ _ Hleaf)).
  unfold makeMerkleTree. cbn [forallb]. rewrite Hvalid. cbn.
  unfold getProofAt. cbn. rewrite Hleaf.
  rewrite bool_decide_true by reflexivity. cbn.
  unfold getProof, isLeafNode, isInternalNode, isTreeNode. cbn.
  rewrite getProof_loop_equation_1. cbn.
  rewrite bool_decide_true by reflexivity. reflexivity.
Qed.

End BuilderMore.

(** ** Runs of the services: rules *)

Lemma send_step {A} (req : Request)
    (serve : Outcome -> Db -> (DynamoDBKind * string) + (A * Db)) (w : World) :
  send req serve w
  = match fst (next_outcome w) with
    | Raises k msg => (inl (DynamoDBServiceException k msg), step w req (db w))
    | o =>
        match serve o (db w) with
        | inl (k, msg) => (inl (DynamoDBServiceException k msg), step w req (db w))
        | inr (a, d) => (inr a, step w req d)
        end
    end.
Proof.
  unfold send, step. destruct (next_outcome w) as [o rest]. cbn [fst snd].
  destruct o; try reflexivity; destruct (serve _ (db w)) as [[k' msg']|[a d]]; reflexivity.
Qed.

Lemma hoare_consequence {A} (P P' : World -> Prop) (m : M A)
    (Q Q' : Exception + A -> World -> Prop) :
  hoare P' m Q' -> (forall w, P w -> P' w) -> (forall x w, Q' x w -> Q x w) -> hoare P m Q.
Proof. intros Hm HP HQ w Hw. apply HQ, Hm, HP, Hw. Qed.

Lemma hoare_ret {A} (P : World -> Prop) (a : A) (Q : Exception + A -> World -> Prop) :
  (forall w, P w -> Q (inr a) w) -> hoare P (ret a) Q.
Proof. intros H w Hw. by apply H. Qed.

Lemma hoare_throw {A} (P : World -> Prop) (e : Exception)
    (Q : Exception + A -> World -> Prop) :
  (forall w, P w -> Q (inl e) w) -> hoare P (throw e) Q.
Proof. intros H w Hw. by apply H. Qed.

Lemma hoare_bind {A B} (P : World -> Prop) (m : M A) (k : A -> M B)
    (R : Exception + A -> World -> Prop) (Q : Exception + B -> World -> Prop) :
  hoare P m R ->
  (forall e w, R (inl e) w -> Q (inl e) w) ->
  (forall a, hoare (R (inr a)) (k a) Q) ->
  hoare P (bind m k) Q.
Proof.
  intros Hm He Hk w Hw. specialize (Hm w Hw). unfold bind.
  destruct (m w) as [[e|a] w1]; cbn [fst snd] in *; [by apply He|by apply Hk].
Qed.

Lemma hoare_try_catch {A} (P : World -> Prop) (m : M A) (h : Exception -> M A)
    (R Q : Exception + A -> World -> Prop) :
  hoare P m R ->
  (forall a w, R (inr a) w -> Q (inr a) w) ->
  (forall e, hoare (R (inl e)) (h e) Q) ->
  hoare P (try_catch m h) Q.
Proof.
  intros Hm Ha Hh w Hw. specialize (Hm w Hw). unfold try_catch.
  destruct (m w) as [[e|a] w1]; cbn [fst snd] in *; [by apply Hh|by apply Ha].
Qed.

Lemma hoare_rethrowing {A} (P : World -> Prop) (m : M A)
    (R Q : Exception + A -> World -> Prop) :
  hoare P m R ->
  (forall a w, R (inr a) w -> Q (inr a) w) ->
  (forall e w, R (inl e) w -> Q (inl (WhitelistDataService.rethrow e)) w) ->
  hoare P (WhitelistDataService.rethrowing m) Q.
Proof.
  intros Hm Ha He. unfold WhitelistDataService.rethrowing.
  eapply hoare_try_catch; [exact Hm|exact Ha|].
  intros e. apply hoare_throw. apply He.
Qed.

Lemma hoare_check_partitionKeyValue {A} (P : World -> Prop) name (k : M A)
    (Q : Exception + A -> World -> Prop) :
  hoare P k Q -> (forall e w, P w -> Q (inl e) w) ->
  hoare P (DynamoDbService.check_partitionKeyValue name k) Q.
Proof.
  intros Hk He. unfold DynamoDbService.check_partitionKeyValue.
  destruct (DynamoDbService.invalid_length _ _ _); [|exact Hk].
  apply hoare_throw. intros w. apply He.
Qed.

(** One request.  When the provider raises, or refuses, the tables are
    as before; when it serves, they are as [serve] leaves them. *)
Lemma hoare_send {A} (P : World -> Prop) (req : Request)
    (serve : Outcome -> Db -> (DynamoDBKind * string) + (A * Db))
    (Q : Exception + A -> World -> Prop) :
  (forall w e, P w -> Q (inl e) (step w req (db w))) ->
  (forall w a d, P w -> serve (fst (next_outcome w)) (db w) = inr (a, d) ->
     Q (inr a) (step w req d)) ->
  hoare P (send req serve) Q.
Proof.
  intros He Hs w Hw. rewrite send_step.
  destruct (fst (next_outcome w)) as [|k msg|u] eqn:Eo; [|by apply He|];
    (destruct (serve _ (db w)) as [[k' msg']|[a d]] eqn:Es; [by apply He|]);
    cbn [fst snd]; apply Hs; [done|by rewrite Eo|done|by rewrite Eo].
Qed.

Lemma keeps_ret {A} (I : World -> Prop) (a : A) : keeps I (ret a).
Proof. by apply hoare_ret. Qed.

Lemma keeps_throw {A} (I : World -> Prop) (e : Exception) : keeps I (throw (A:=A) e).
Proof. by apply hoare_throw. Qed.

Lemma keeps_bind {A B} (I : World -> Prop) (m : M A) (k : A -> M B) :
  keeps I m -> (forall a, keeps I (k a)) -> keeps I (bind m k).
Proof. intros Hm Hk. by apply (hoare_bind I m k (fun _ => I)). Qed.

Lemma keeps_try_catch {A} (I : World -> Prop) (m : M A) (h : Exception -> M A) :
  keeps I m -> (forall e, keeps I (h e)) -> keeps I (try_catch m h).
Proof. intros Hm Hh. by apply (hoare_try_catch I m h (fun _ => I)). Qed.

Lemma keeps_rethrowing {A} (I : World -> Prop) (m : M A) :
  keeps I m -> keeps I (WhitelistDataService.rethrowing m).
Proof. intros Hm. apply keeps_try_catch; [exact Hm|]. intros e. apply keeps_throw. Qed.

Lemma keeps_check_partitionKeyValue {A} (I : World -> Prop) name (k : M A) :
  keeps I k -> keeps I (DynamoDbService.check_partitionKeyValue name k).
Proof. intros Hk. by apply hoare_check_partitionKeyValue. Qed.

Lemma keeps_for_of {A} (I : World -> Prop) (xs : list A) (body : A -> M unit) :
  (forall x, keeps I (body x)) -> keeps I (DynamoDbService.for_of xs body).
Proof.
  intros Hb. induction xs as [|x r IH]; cbn [DynamoDbService.for_of].
  - apply keeps_ret.
  - apply keeps_bind; [apply Hb|]. intros _. exact IH.
Qed.

(** An invariant of the tables is kept by a request whose [serve] keeps
    it. *)
Lemma keeps_send {A} (J : Db -> Prop) (req : Request)
    (serve : Outcome -> Db -> (DynamoDBKind * string) + (A * Db)) :
  (forall o d a d', J d -> serve o d = inr (a, d') -> J d') ->
  keeps (fun w => J (db w)) (send req serve).
Proof.
  intros Hs. apply hoare_send; [done|]. intros w a d Hw E. cbn [step db].
  by apply (Hs _ _ _ _ Hw E).
Qed.

Lemma keeps_waitMs (J : Db -> Prop) ms : keeps (fun w => J (db w)) (waitMs ms).
Proof. by intros w Hw. Qed.

Lemma keeps_unprocessed_loop (J : Db -> Prop) read name retriesLeft retryCount command :
  (forall d requests, J d -> J (foldl (apply_write name) d requests)) ->
  keeps (fun w => J (db w))
    (DynamoDbService.unprocessed_loop read name retriesLeft retryCount command).
Proof.
  intros Hw. revert retryCount command.
  induction retriesLeft as [|k IH]; intros retryCount command;
    cbn [DynamoDbService.unprocessed_loop];
    (apply keeps_bind;
     [apply keeps_send; intros o d a d' Hd E;
      unfold DynamoDbClient.BatchWriteCommand_serve in E; injection E as _ <-; by apply Hw|]);
    intros response; (destruct (read response command); [apply keeps_throw|]);
    (apply keeps_bind; [apply keeps_waitMs|]); intros _;
    destruct (0 <? _)%nat; try apply keeps_ret.
  apply IH.
Qed.

(** ** Runs with a provider that serves in full *)

Lemma serves_in_full_next w :
  serves_in_full w ->
  in_full (fst (next_outcome w)) = true
  /\ forallb in_full (snd (next_outcome w)) = true.
Proof.
  unfold serves_in_full, next_outcome. destruct (schedule w) as [|o r]; cbn; [done|].
  intros H. by apply andb_true_iff in H.
Qed.

Lemma succeeds_ret {A} (a : A) d : succeeds (ret a) d a d.
Proof. by intros w Hw Hd. Qed.

Lemma succeeds_bind {A B} (m : M A) (k : A -> M B) d a d1 b d2 :
  succeeds m d a d1 -> succeeds (k a) d1 b d2 -> succeeds (bind m k) d b d2.
Proof.
  intros Hm Hk w Hw Hd. destruct (Hm w Hw Hd) as (Ha & Hw1 & Hd1).
  rewrite (bind_inr m k w a (snd (m w)) (run_eq _ _ _ Ha)). by apply Hk.
Qed.

Lemma succeeds_try_catch {A} (m : M A) (h : Exception -> M A) d a d1 :
  succeeds m d a d1 -> succeeds (try_catch m h) d a d1.
Proof.
  intros Hm w Hw Hd. destruct (Hm w Hw Hd) as (Ha & Hw1 & Hd1).
  by rewrite (try_catch_inr m h w a (snd (m w)) (run_eq _ _ _ Ha)).
Qed.

Lemma succeeds_rethrowing {A} (m : M A) d a d1 :
  succeeds m d a d1 -> succeeds (WhitelistDataService.rethrowing m) d a d1.
Proof. apply succeeds_try_catch. Qed.

Lemma succeeds_send {A} (req : Request)
    (serve : Outcome -> Db -> (DynamoDBKind * string) + (A * Db)) d a d1 :
  (forall o, in_full o = true -> serve o d = inr (a, d1)) ->
  succeeds (send req serve) d a d1.
Proof.
  intros Hs w Hw Hd. destruct (serves_in_full_next w Hw) as [Ho Hr].
  rewrite send_step, Hd.
  destruct (fst (next_outcome w)) as [|k msg|u] eqn:Eo; [|done|];
    by rewrite (Hs _ Ho).
Qed.

Lemma succeeds_for_of {A} (body : A -> M unit) (f : Db -> A -> Db) (ok : Db -> list A -> Prop) :
  (forall d x r, ok d (x :: r) -> succeeds (body x) d tt (f d x) /\ ok (f d x) r) ->
  forall xs d, ok d xs -> succeeds (DynamoDbService.for_of xs body) d tt (foldl f d xs).
Proof.
  intros Hb xs. induction xs as [|x r IH]; intros d Hok; cbn [DynamoDbService.for_of foldl].
  - apply succeeds_ret.
  - destruct (Hb d x r Hok) as [Hx Hr].
    eapply succeeds_bind; [exact Hx|]. by apply IH.
Qed.

(** One chunk of a batch delete needs one request, and one sleep. *)
Lemma succeeds_unprocessed_loop name retriesLeft retryCount command d :
  succeeds
    (DynamoDbService.unprocessed_loop DynamoDbService.unprocessed_of_delete
       name retriesLeft retryCount command)
    d tt (foldl (apply_write name) d command).
Proof.
  intros w Hw Hd. subst d. destruct (serves_in_full_next w Hw) as [Ho Hr].
  assert (forall n, DynamoDbService.unprocessed_loop DynamoDbService.unprocessed_of_delete
            name n retryCount command w
          = (inr tt,
             mkWorld (foldl (apply_write name) (db w) command) (snd (next_outcome w))
               (log w ++ [mkLogEntry (BatchWriteCommand name command) (roots (db w))
                            (roots (foldl (apply_write name) (db w) command))])
               (slept w ++ [DynamoDbService.BatchWriteDefaultMinTimeoutMs
                            * DynamoDbService.BatchWriteDefaultExponentialFactor ^ retryCount])))
    as E.
  { intros n.
    assert (DynamoDbService.unprocessed_loop DynamoDbService.unprocessed_of_delete
              name n retryCount command
            = bind (send (BatchWriteCommand name command)
                      (DynamoDbClient.BatchWriteCommand_serve name command))
                (fun response =>
               match DynamoDbService.unprocessed_of_delete response command with
               | inl e => throw e
               | inr unprocessedItems =>
                   bind (waitMs (DynamoDbService.BatchWriteDefaultMinTimeoutMs
                           * DynamoDbService.BatchWriteDefaultExponentialFactor ^ retryCount))
                   (fun _ =>
                   if (0 <? List.length unprocessedItems)%nat then
                     match n with
                     | S k => DynamoDbService.unprocessed_loop
                                DynamoDbService.unprocessed_of_delete name k (retryCount + 1)
                                (if (0 <? List.length unprocessedItems)%nat
                                 then unprocessedItems else command)
                     | O => ret tt
                     end
                   else ret tt)
               end)) as -> by (by destruct n).
    unfold bind at 1. rewrite send_step.
    destruct (fst (next_outcome w)) as [|k msg|[| |mask]] eqn:Eo; try discriminate Ho;
      rewrite BatchWriteCommand_serve_all by tauto; reflexivity. }
  rewrite E. cbn [fst snd db]. done.
Qed.

(** ** A tree is created *)

Lemma insert_records_app name l1 l2 m :
  insert_records name (l1 ++ l2) m = insert_records name l2 (insert_records name l1 m).
Proof. unfold insert_records. apply foldl_app. Qed.

Lemma insert_records_cons name r l m :
  insert_records name (r :: l) m
  = insert_records name l (<[(name, MerkleProofRecord.WhitelistAddress r) := r]> m).
Proof. reflexivity. Qed.

Lemma insert_records_other name records m n a :
  n <> name -> insert_records name records m !! (n, a) = m !! (n, a).
Proof.
  intros Hn. revert m. induction records as [|r l IH]; intros m; [done|].
  rewrite insert_records_cons. rewrite IH.
  apply lookup_insert_ne. congruence.
Qed.

Lemma insert_records_absent name records m a :
  a ∉ MerkleProofRecord.WhitelistAddress <$> records ->
  insert_records name records m !! (name, a) = m !! (name, a).
Proof.
  revert m. induction records as [|r l IH]; intros m Ha; [done|].
  rewrite insert_records_cons.
  rewrite fmap_cons, not_elem_of_cons in Ha. destruct Ha as [Har Hal].
  rewrite IH by done. apply lookup_insert_ne. congruence.
Qed.

Lemma insert_records_lookup name records m i r :
  NoDup (MerkleProofRecord.WhitelistAddress <$> records) ->
  records !! i = Some r ->
  insert_records name records m !! (name, MerkleProofRecord.WhitelistAddress r) = Some r.
Proof.
  revert m i. induction records as [|r0 l IH]; intros m i Hnd Hi; [done|].
  rewrite insert_records_cons.
  rewrite fmap_cons in Hnd. apply NoDup_cons in Hnd as [Hr0 Hnd].
  destruct i as [|i]; cbn in Hi.
  - injection Hi as ->. rewrite insert_records_absent by done. apply lookup_insert_eq.
  - by apply (IH _ i).
Qed.

(** The records are new in the table: their addresses are pairwise
    distinct, and the table has no row of the name at any of them. *)
Lemma BatchExecuteStatementInsert_run_new name items d :
  NoDup (MerkleProofRecord.WhitelistAddress <$> items) ->
  Forall (fun r => proofs d !! (name, MerkleProofRecord.WhitelistAddress r) = None) items ->
  DynamoDbClient.BatchExecuteStatementInsert_run name items d
  = (replicate (List.length items) None,
     mkDb (roots d) (insert_records name items (proofs d))).
Proof.
  revert d. induction items as [|r l IH]; intros d Hnd Hnew.
  - by destruct d.
  - rewrite fmap_cons in Hnd. apply NoDup_cons in Hnd as [Hr Hnd].
    apply Forall_cons in Hnew as [Hr0 Hl].
    cbn [DynamoDbClient.BatchExecuteStatementInsert_run]. rewrite Hr0.
    rewrite IH; [reflexivity|exact Hnd|].
    apply Forall_forall. intros r' Hr'. cbn [proofs].
    rewrite lookup_insert_ne.
    + by apply (proj1 (Forall_forall _ _) Hl).
    + intros [= E]. apply Hr. rewrite E. apply list_elem_of_fmap. eauto.
Qed.

Lemma forallb_replicate_None n :
  forallb (fun response : option string =>
             match response with Some _ => false | None => true end)
    (replicate n None) = true.
Proof. by induction n. Qed.

Lemma succeeds_insert_chunks name chunks d :
  NoDup (MerkleProofRecord.WhitelistAddress <$> concat chunks) ->
  Forall (fun r => proofs d !! (name, MerkleProofRecord.WhitelistAddress r) = None)
    (concat chunks) ->
  succeeds
    (DynamoDbService.for_of chunks (fun chunk =>
       bind (send (BatchExecuteStatementInsert name chunk)
               (DynamoDbClient.BatchExecuteStatementInsert_serve name chunk))
         (fun responses =>
            let hasNoError := forallb (fun response : option string =>
                                         match response with
                                         | Some _ => false
                                         | None => true
                                         end) responses in
            if negb hasNoError
            then throw (Error_ "Error"
                          ("[ERR] batch execute statement command error: "
                           +:+ join ", " ((fun response : option string =>
                                             default ""%string response) <$> responses)))
            else ret tt)))
    d tt (mkDb (roots d) (insert_records name (concat chunks) (proofs d))).
Proof.
  revert d. induction chunks as [|c r IH]; intros d Hnd Hnew.
  - cbn. destruct d. apply succeeds_ret.
  - cbn [DynamoDbService.for_of concat] in *.
    rewrite fmap_app in Hnd. apply NoDup_app in Hnd as (Hndc & Hdisj & Hndr).
    apply Forall_app in Hnew as [Hnewc Hnewr].
    eapply succeeds_bind.
    + eapply succeeds_bind.
      * apply succeeds_send. intros o _.
        unfold DynamoDbClient.BatchExecuteStatementInsert_serve.
        by rewrite (BatchExecuteStatementInsert_run_new name c d Hndc Hnewc).
      * cbv zeta. rewrite forallb_replicate_None. cbn [negb]. apply succeeds_ret.
    + rewrite insert_records_app.
      apply (IH (mkDb (roots d) (insert_records name c (proofs d)))); [exact Hndr|].
      apply Forall_forall. intros r' Hr'. cbn [proofs].
      rewrite insert_records_absent.
      * by apply (proj1 (Forall_forall _ _) Hnewr).
      * intros Hin. apply (Hdisj _ Hin). apply list_elem_of_fmap. eauto.
Qed.

Lemma succeeds_batchInsertExecuteStatement name records d :
  WhitelistDataService.invalid_name name = false ->
  NoDup (MerkleProofRecord.WhitelistAddress <$> records) ->
  Forall (fun r => proofs d !! (name, MerkleProofRecord.WhitelistAddress r) = None) records ->
  succeeds (DynamoDbService.batchInsertExecuteStatement name records)
    d tt (mkDb (roots d) (insert_records name records (proofs d))).
Proof.
  intros Hv Hnd Hnew. unfold DynamoDbService.batchInsertExecuteStatement.
  rewrite (check_partitionKeyValue_valid _ _ Hv).
  pose proof (chunkArray_from_spec (List.length records) records
                DynamoDbService.BatchExecuteMaxItems) as [Hc _];
    [unfold DynamoDbService.BatchExecuteMaxItems; lia|done|].
  fold (DynamoDbService.chunkArray records DynamoDbService.BatchExecuteMaxItems) in Hc.
  pose proof (succeeds_insert_chunks name
                (DynamoDbService.chunkArray records DynamoDbService.BatchExecuteMaxItems) d)
    as H.
  rewrite Hc in H. by apply H.
Qed.

Lemma succeeds_executeInsertStatement name record d :
  WhitelistDataService.invalid_name name = false ->
  roots d !! name = None ->
  succeeds (DynamoDbService.executeInsertStatement name record)
    d tt (mkDb (<[name := record]> (roots d)) (proofs d)).
Proof.
  intros Hv Hnone. unfold DynamoDbService.executeInsertStatement.
  rewrite (check_partitionKeyValue_valid _ _ Hv). apply succeeds_send. intros o _.
  unfold DynamoDbClient.ExecuteStatementInsert_serve. by rewrite Hnone.
Qed.

Lemma succeeds_putItem name record condition d :
  WhitelistDataService.invalid_name name = false ->
  eval_condition condition (roots d !! name) = true ->
  succeeds (DynamoDbService.putItem name record (Some condition))
    d tt (mkDb (<[name := record]> (roots d)) (proofs d)).
Proof.
  intros Hv Hc. unfold DynamoDbService.putItem.
  rewrite (check_partitionKeyValue_valid _ _ Hv). apply succeeds_send. intros o _.
  unfold DynamoDbClient.PutCommand_serve. by rewrite Hc.
Qed.

Lemma succeeds_data_createMerkleTree name root records d :
  WhitelistDataService.invalid_name name = false ->
  roots d !! name = None ->
  NoDup (MerkleProofRecord.WhitelistAddress <$> records) ->
  Forall (fun r => proofs d !! (name, MerkleProofRecord.WhitelistAddress r) = None) records ->
  succeeds (WhitelistDataService.createMerkleTree name root records)
    d tt
    (mkDb (<[name := MerkleRootRecord.mk root Completed]> (roots d))
          (insert_records name records (proofs d))).
Proof.
  intros Hv Hnone Hnd Hnew. unfold WhitelistDataService.createMerkleTree. rewrite Hv.
  eapply succeeds_bind.
  { apply succeeds_rethrowing. by apply succeeds_executeInsertStatement. }
  eapply succeeds_bind.
  { apply succeeds_try_catch. by apply succeeds_batchInsertExecuteStatement. }
  cbn [roots proofs].
  replace (<[name := MerkleRootRecord.mk root Completed]> (roots d))
    with (<[name := MerkleRootRecord.mk root Completed]>
            (<[name := MerkleRootRecord.mk root Creating]> (roots d)))
    by apply insert_insert_eq.
  apply succeeds_rethrowing.
  pose proof (succeeds_putItem name (MerkleRootRecord.mk root Completed)
                (WhitelistDataService.root_and_status root Creating)
                (mkDb (<[name := MerkleRootRecord.mk root Creating]> (roots d))
                      (insert_records name records (proofs d))) Hv) as H.
  cbn [roots proofs] in H. apply H.
  rewrite lookup_insert_eq. cbn. rewrite String.eqb_refl.
  by rewrite bool_decide_eq_true_2.
Qed.

(** ** A created tree is read back *)

Lemma succeeds_getItem name d :
  WhitelistDataService.invalid_name name = false ->
  succeeds (DynamoDbService.getItem name) d (roots d !! name) d.
Proof.
  intros Hv. unfold DynamoDbService.getItem.
  rewrite (check_partitionKeyValue_valid _ _ Hv). by apply succeeds_send.
Qed.

Lemma succeeds_getItem_sortKey name address d :
  WhitelistDataService.invalid_name name = false ->
  String.length address = ValidEvmAddressLen ->
  succeeds (DynamoDbService.getItem_sortKey name address) d (proofs d !! (name, address)) d.
Proof.
  intros Hv Hlen. unfold DynamoDbService.getItem_sortKey.
  rewrite (check_partitionKeyValue_valid _ _ Hv).
  assert (String.eqb address "" = false) as ->.
  { apply String.eqb_neq. intros ->. discriminate Hlen. }
  assert (DynamoDbService.invalid_length DynamoDbService.ValidSortKeyValueMinLen
            DynamoDbService.ValidSortKeyValueMaxLen address = false) as ->.
  { unfold DynamoDbService.invalid_length. rewrite Hlen. vm_compute. reflexivity. }
  by apply succeeds_send.
Qed.

Lemma succeeds_data_getMerkleProof name address root d :
  WhitelistDataService.invalid_name name = false ->
  String.length address = ValidEvmAddressLen ->
  ValidEvmAddressRegex_test address = true ->
  address <> Ethers.ZeroAddress ->
  roots d !! name = Some (MerkleRootRecord.mk root Completed) ->
  succeeds (WhitelistDataService.getMerkleProof name address)
    d (proofs d !! (name, address)) d.
Proof.
  intros Hv Hlen Hre Hnz Hrow. unfold WhitelistDataService.getMerkleProof.
  rewrite Hv, Hlen, Hre, Nat.eqb_refl. cbn [negb orb].
  apply String.eqb_neq in Hnz. rewrite Hnz.
  eapply succeeds_bind.
  { apply succeeds_rethrowing. by apply succeeds_getItem. }
  rewrite Hrow. cbn [MerkleRootRecord.WhitelistStatus].
  rewrite bool_decide_eq_true_2 by done. cbn [negb].
  apply succeeds_rethrowing. by apply succeeds_getItem_sortKey.
Qed.

Section ReadBack.
Context (keccak256 : bytes -> Z).

Lemma succeeds_query_getMerkleProof name address a root d :
  invalid_whitelistName name = false ->
  String.length address = ValidEvmAddressLen ->
  ValidEvmAddressRegex_test address = true ->
  address <> Ethers.ZeroAddress ->
  Ethers.getAddress keccak256 address = Some a ->
  roots d !! name = Some (MerkleRootRecord.mk root Completed) ->
  succeeds (WhitelistQueryService.getMerkleProof keccak256 name address)
    d (proofs d !! (name, a)) d.
Proof.
  intros Hn Hlen Hre Hnz Hga Hrow. unfold WhitelistQueryService.getMerkleProof.
  rewrite Hn, Hlen, Hre, Nat.eqb_refl. cbn [negb orb].
  pose proof Hnz as Hnz'. apply String.eqb_neq in Hnz'. rewrite Hnz', Hga.
  pose proof (invalid_whitelistName_invalid_name name Hn) as Hv.
  eapply succeeds_bind.
  { unfold WhitelistDataService.getMerkleRoot. rewrite Hv.
    apply succeeds_rethrowing. by apply succeeds_getItem. }
  rewrite Hrow. cbn [MerkleRootRecord.WhitelistStatus].
  rewrite bool_decide_eq_true_2 by done. cbn [negb].
  destruct (normalized_valid keccak256 address a Hga) as [Hal Har].
  apply (succeeds_data_getMerkleProof name a root d Hv Hal Har); [|exact Hrow].
  by apply (normalized_not_zero keccak256 address a).
Qed.

Lemma validateEntries_NoDup es :
  CommandServiceBuilder.validateEntries keccak256 es = inr tt ->
  exists l, CommandServiceBuilder.getAddresses keccak256 es = Some l /\ NoDup l.
Proof.
  intros Hg. pose proof Hg as Hg'. apply validateEntries_inr in Hg' as [_ Hacc].
  unfold CommandServiceBuilder.validateEntries in Hg.
  destruct (_ >? _); [done|].
  destruct (CommandServiceBuilder.every keccak256 0 es); [done|].
  unfold CommandServiceBuilder.hasDuplicateAddresses in Hg.
  destruct (CommandServiceBuilder.getAddresses keccak256 es) as [l|] eqn:El; [|done].
  exists l. split; [done|].
  destruct (decide (NoDup l)) as [Hnd|Hnd]; [done|].
  pose proof (size_list_to_set_lt l Hnd) as Hlt.
  rewrite (getAddresses_spec keccak256 es l El) in Hlt.
  assert ((size (list_to_set l : gset string) =? List.length es)%nat = false) as E
    by (apply Nat.eqb_neq; lia).
  by rewrite E in Hg.
Qed.

End ReadBack.

(** ** One account under two spellings *)

(** C6.  Two address strings of 42 characters that match the address
    pattern, carry the lower-case prefix, hold letters of one case or
    their own checksum, and denote the same account: [getAddress]
    accepts both and returns one normalized address for them, which it
    returns unchanged; [getMerkleProof] gives the same result and the
    same world for both, and every read of the proofs table that it
    sends is keyed by the normalized address.  When the name is valid,
    the address is not the zero address, the tree is COMPLETED and the
    provider serves, the result for both is the proofs row under the
    name and the normalized address, or none when the table has no such
    row, and the tables stay as they are. *)
Theorem C6_same_account_same_proof (name address1 address2 : string) (w : World) :
  String.length address1 = ValidEvmAddressLen ->
  String.length address2 = ValidEvmAddressLen ->
  ValidEvmAddressRegex_test address1 = true ->
  ValidEvmAddressRegex_test address2 = true ->
  startsWith address1 "0x" = true ->
  startsWith address2 "0x" = true ->
  Ethers.matches_mixed_case address1 = false
  \/ Ethers.getChecksumAddress Keccak.keccak256 address1 = address1 ->
  Ethers.matches_mixed_case address2 = false
  \/ Ethers.getChecksumAddress Keccak.keccak256 address2 = address2 ->
  account address1 = account address2 ->
  exists normalized,
    Ethers.getAddress Keccak.keccak256 address1 = Some normalized
    /\ Ethers.getAddress Keccak.keccak256 address2 = Some normalized
    /\ Ethers.getAddress Keccak.keccak256 normalized = Some normalized
    /\ WhitelistQueryService.getMerkleProof Keccak.keccak256 name address1 w
       = WhitelistQueryService.getMerkleProof Keccak.keccak256 name address2 w
    /\ sends (fun req => forall name' address',
                req = GetCommandProof name' address' -> address' = normalized)
         (WhitelistQueryService.getMerkleProof Keccak.keccak256 name address1)
    /\ (forall d root,
          invalid_whitelistName name = false ->
          address1 <> Ethers.ZeroAddress ->
          roots d !! name = Some (MerkleRootRecord.mk root Completed) ->
          succeeds (WhitelistQueryService.getMerkleProof Keccak.keccak256 name address1)
            d (proofs d !! (name, normalized)) d
          /\ succeeds (WhitelistQueryService.getMerkleProof Keccak.keccak256 name address2)
               d (proofs d !! (name, normalized)) d).
Proof.
  intros Hl1 Hl2 Hr1 Hr2 Hx1 Hx2 Hc1 Hc2 Hacc.
  pose proof (getAddress_accepts Keccak.keccak256 address1 Hr1 Hx1 Hc1) as Hg1.
  pose proof (getAddress_accepts Keccak.keccak256 address2 Hr2 Hx2 Hc2) as Hg2.
  rewrite <- (getAddress_same_account Keccak.keccak256 _ _ _ _ Hl1 Hl2 Hg1 Hg2 Hacc) in Hg2.
  set (normalized := Ethers.getChecksumAddress Keccak.keccak256 address1) in *.
  assert (address1 = Ethers.ZeroAddress <-> address2 = Ethers.ZeroAddress) as Hz.
  { split; intros ->.
    - apply (zero_account Keccak.keccak256 _ _ Hl2 Hg2). rewrite <- Hacc. reflexivity.
    - apply (zero_account Keccak.keccak256 _ _ Hl1 Hg1). rewrite Hacc. reflexivity. }
  exists normalized. split; [exact Hg1|]. split; [exact Hg2|].
  split; [exact (getAddress_idem _ _ _ Hg1)|]. split; [|split].
  - unfold WhitelistQueryService.getMerkleProof.
    destruct (invalid_whitelistName name); [reflexivity|].
    rewrite Hl1, Hl2, Hr1, Hr2, Nat.eqb_refl. cbn [negb orb].
    destruct (String.eqb address1 Ethers.ZeroAddress) eqn:E1.
    + apply String.eqb_eq in E1. pose proof (proj1 Hz E1) as E2. subst address1 address2.
      reflexivity.
    + assert (String.eqb address2 Ethers.ZeroAddress = false) as ->.
      { apply String.eqb_neq. intros E2. apply String.eqb_neq in E1. apply E1, Hz, E2. }
      rewrite Hg1, Hg2. reflexivity.
  - intros w'. destruct (sends_getMerkleProof Keccak.keccak256 name address1 w')
      as (l & Hl & Hall).
    exists l. split; [exact Hl|]. eapply Forall_impl; [exact Hall|].
    intros req [-> | (n & Hn & ->)] name' address' E; [discriminate E|].
    injection E as _ <-. rewrite Hg1 in Hn. by injection Hn.
  - intros d root Hname Hnz Hrow. split.
    + by apply (succeeds_query_getMerkleProof Keccak.keccak256 name address1 normalized root d).
    + apply (succeeds_query_getMerkleProof Keccak.keccak256 name address2 normalized root d);
        try done.
      intros E2. apply Hnz, Hz, E2.
Qed.

(** C6 on the example: the lower-case and the checksummed spelling of an
    address of the fixture give the row of the address. *)
Lemma C6_same_account_same_proof_witness :
  account example_address_lower = account example_address
  /\ Ethers.matches_mixed_case example_address_lower = false
  /\ Ethers.getChecksumAddress Keccak.keccak256 example_address = example_address
  /\ Ethers.getAddress Keccak.keccak256 example_address_lower = Some example_address
  /\ Ethers.getAddress Keccak.keccak256 example_address = Some example_address
  /\ WhitelistQueryService.getMerkleProof Keccak.keccak256 "presale" example_address_lower
       (fresh_world (example_db Completed) [])
     = WhitelistQueryService.getMerkleProof Keccak.keccak256 "presale" example_address
         (fresh_world (example_db Completed) [])
  /\ proofs (example_db Completed) !! ("presale"%string, example_address)
     = Some example_record
  /\ succeeds (WhitelistQueryService.getMerkleProof Keccak.keccak256 "presale"
                 example_address_lower)
       (example_db Completed)
       (proofs (example_db Completed) !! ("presale"%string, example_address))
       (example_db Completed)
  /\ succeeds (WhitelistQueryService.getMerkleProof Keccak.keccak256 "presale" example_address)
       (example_db Completed)
       (proofs (example_db Completed) !! ("presale"%string, example_address))
       (example_db Completed).
Proof.
  assert (account example_address_lower = account example_address) as Hacc
    by (vm_compute; reflexivity).
  assert (Ethers.matches_mixed_case example_address_lower = false) as Hlow
    by (vm_compute; reflexivity).
  assert (Ethers.getChecksumAddress Keccak.keccak256 example_address = example_address) as Hsum
    by (vm_compute; reflexivity).
  destruct (C6_same_account_same_proof "presale" example_address_lower example_address
              (fresh_world (example_db Completed) [])
              eq_refl eq_refl ltac:(vm_compute; reflexivity) ltac:(vm_compute; reflexivity)
              eq_refl eq_refl (or_introl Hlow) (or_intror Hsum) Hacc)
    as (normalized & Hg1 & Hg2 & _ & Heq & _ & Hrow).
  assert (normalized = example_address) as ->.
  { rewrite (getAddress_accepts Keccak.keccak256 example_address) in Hg2.
    - rewrite Hsum in Hg2. by injection Hg2.
    - vm_compute. reflexivity.
    - reflexivity.
    - by right. }
  split; [exact Hacc|]. split; [exact Hlow|]. split; [exact Hsum|].
  split; [exact Hg1|]. split; [exact Hg2|]. split; [exact Heq|].
  split; [vm_compute; reflexivity|].
  apply (Hrow (example_db Completed) example_root); [vm_compute; reflexivity|discriminate|].
  vm_compute. reflexivity.
Defined.

(** The address pattern admits the upper-case prefix, which [getAddress]
    refuses: of the lower-case spelling of an address of the fixture
    behind "0x" and behind "0X", two strings of 42 characters that match
    the pattern, hold no upper-case letter among their digits and denote
    one account, the first is answered with the row of the address and
    the second with a validation error. *)
Lemma C6_counterexample :
  String.length example_address_lower = ValidEvmAddressLen
  /\ String.length example_address_0X = ValidEvmAddressLen
  /\ ValidEvmAddressRegex_test example_address_lower = true
  /\ ValidEvmAddressRegex_test example_address_0X = true
  /\ Ethers.matches_mixed_case example_address_lower = false
  /\ Ethers.matches_mixed_case example_address_0X = false
  /\ account example_address_lower = account example_address_0X
  /\ fst (WhitelistQueryService.getMerkleProof Keccak.keccak256 "presale" example_address_lower
            (fresh_world (example_db Completed) []))
     = inr (Some example_record)
  /\ fst (WhitelistQueryService.getMerkleProof Keccak.keccak256 "presale" example_address_0X
            (fresh_world (example_db Completed) []))
     = inl (ValidationError
              "[ERR] Whitelist address invalid: 0X9f2e3fc83077d042f9cb8ce8cd78f9ed031eba16").
Proof. repeat split; vm_compute; reflexivity. Qed.

Section EndToEnd.
Context (keccak256 : bytes -> Z).
Hypothesis keccak256_range : forall msg, 0 <= keccak256 msg < 2 ^ 256.

(** The records of the builder carry the checksummed addresses of the
    rows, in the order of the rows. *)
Lemma buildMerkleTree_addresses es l root records :
  (forall i e, es !! i = Some e -> exists a w, CommandServiceBuilder.accepted keccak256 e a w) ->
  es <> [] ->
  CommandServiceBuilder.getAddresses keccak256 es = Some l ->
  CommandServiceBuilder.buildMerkleTree keccak256 es = inr (root, records) ->
  MerkleProofRecord.WhitelistAddress <$> records = l.
Proof.
  intros Hacc Hne Hl Hb.
  destruct (buildMerkleTree_round_trip keccak256 keccak256_range es Hacc Hne)
    as (rootZ & records' & Hb' & _ & Hlen & Hall).
  rewrite Hb in Hb'. injection Hb' as _ <-.
  apply list_eq. intros i. rewrite list_lookup_fmap.
  destruct (es !! i) as [e|] eqn:Ei.
  - destruct (Hall i e Ei) as (a & w & siblings & Ha & Hr & _).
    destruct (getAddresses_lookup keccak256 es l i e Hl Ei) as (a' & Hga & Hli).
    destruct Ha as (_ & _ & _ & Hga' & _). rewrite Hga' in Hga. injection Hga as <-.
    by rewrite Hr, Hli.
  - apply lookup_ge_None in Ei.
    rewrite (proj2 (lookup_ge_None records i)) by lia.
    rewrite (proj2 (lookup_ge_None l i)); [done|].
    rewrite (getAddresses_spec keccak256 es l Hl). lia.
Qed.

(** From the upload to the contract: a tree created under a new name
    from rows that pass the gate is COMPLETED, and the proof read back
    for the address of any row, as the row writes it, is accepted by the
    contract that holds the root of the roots row. *)
Lemma createMerkleTree_then_getMerkleProof name es d :
  invalid_whitelistName name = false ->
  CommandServiceBuilder.validateEntries keccak256 es = inr tt ->
  es <> [] ->
  roots d !! name = None ->
  (forall a, proofs d !! (name, a) = None) ->
  exists rootZ d',
    succeeds (WhitelistCommandService.createMerkleTree keccak256 name es) d tt d'
    /\ 0 <= rootZ < 2 ^ 256
    /\ roots d' !! name = Some (MerkleRootRecord.mk (Hex.hexlify32 rootZ) Completed)
    /\ same_elsewhere name d d'
    /\ forall i e, es !! i = Some e ->
         exists a w siblings,
           succeeds
             (WhitelistQueryService.getMerkleProof keccak256 name
                (WhitelistEntry.WhitelistAddress e))
             d'
             (Some (MerkleProofRecord.mk (join "," (map Hex.hexlify32 siblings))
                      a (Ethers.toString w)))
             d'
           /\ Ethers.getAddress keccak256 (WhitelistEntry.WhitelistAddress e) = Some a
           /\ Ethers.parseEther (WhitelistEntry.WhitelistAmount e) = Some w
           /\ MerkleTreeWhitelist.isWhitelistedFor keccak256 rootZ (account a) w siblings
              = inr true.
Proof.
  intros Hn Hg Hne Hroot Hproofs.
  pose proof (invalid_whitelistName_invalid_name name Hn) as Hv.
  destruct (validateEntries_inr keccak256 es Hg) as [_ Hacc].
  destruct (validateEntries_NoDup keccak256 es Hg) as (l & Hl & Hnd).
  destruct (buildMerkleTree_round_trip keccak256 keccak256_range es Hacc Hne)
    as (rootZ & records & Hb & Hrange & Hlen & Hall).
  pose proof (buildMerkleTree_addresses es l _ records Hacc Hne Hl Hb) as Haddr.
  exists rootZ,
    (mkDb (<[name := MerkleRootRecord.mk (Hex.hexlify32 rootZ) Completed]> (roots d))
          (insert_records name records (proofs d))).
  split.
  { unfold WhitelistCommandService.createMerkleTree. rewrite Hn, Hg, Hb.
    apply succeeds_data_createMerkleTree; [done|done|by rewrite Haddr|].
    apply Forall_forall. intros r _. apply Hproofs. }
  split; [exact Hrange|].
  split; [cbn [roots]; apply lookup_insert_eq|].
  split.
  { split; cbn [roots proofs].
    - intros n Hne'. by apply lookup_insert_ne.
    - intros n a Hne'. by apply insert_records_other. }
  intros i e Hi. destruct (Hall i e Hi) as (a & w & siblings & Ha & Hr & _ & Hchain).
  exists a, w, siblings.
  pose proof Ha as (Hlen42 & Hre & Hnz & Hga & _ & Hpe & _).
  split; [|done].
  pose proof (succeeds_query_getMerkleProof keccak256 name
                (WhitelistEntry.WhitelistAddress e) a (Hex.hexlify32 rootZ)
                (mkDb (<[name := MerkleRootRecord.mk (Hex.hexlify32 rootZ) Completed]> (roots d))
                      (insert_records name records (proofs d)))
                Hn Hlen42 Hre Hnz Hga) as Hq.
  cbn [roots proofs] in Hq.
  pose proof (insert_records_lookup name records (proofs d) i
                (MerkleProofRecord.mk (join "," (map Hex.hexlify32 siblings))
                   a (Ethers.toString w))) as Hlook.
  cbn [MerkleProofRecord.WhitelistAddress] in Hlook.
  rewrite Hlook in Hq; [|by rewrite Haddr|exact Hr].
  apply Hq. apply lookup_insert_eq.
Qed.

End EndToEnd.

(** ** A tree is deleted *)

Lemma delete_keys_cons name a l m :
  delete_keys name (a :: l) m = delete_keys name l (delete (name, a) m).
Proof. reflexivity. Qed.

Lemma delete_keys_app name l1 l2 m :
  delete_keys name (l1 ++ l2) m = delete_keys name l2 (delete_keys name l1 m).
Proof. unfold delete_keys. apply foldl_app. Qed.

Lemma delete_keys_lookup name keys m n a :
  delete_keys name keys m !! (n, a)
  = if bool_decide (n = name /\ a ∈ keys) then None else m !! (n, a).
Proof.
  revert m. induction keys as [|k l IH]; intros m.
  - rewrite bool_decide_eq_false_2; [done|]. intros [_ H]. by apply elem_of_nil in H.
  - rewrite delete_keys_cons, IH.
    destruct (decide (n = name /\ a ∈ l)) as [H|H].
    + rewrite !bool_decide_eq_true_2; [done| |done].
      destruct H as [-> H]. split; [done|]. by apply list_elem_of_further.
    + rewrite (bool_decide_eq_false_2 _ H).
      destruct (decide ((n, a) = (name, k))) as [[= -> ->]|Hne].
      * rewrite lookup_delete_eq, bool_decide_eq_true_2; [done|].
        split; [done|apply list_elem_of_here].
      * rewrite lookup_delete_ne by done.
        rewrite bool_decide_eq_false_2; [done|].
        intros [-> Hin]. apply elem_of_cons in Hin as [->|Hin]; [done|]. apply H. done.
Qed.

Lemma foldl_apply_write_delete name d keys :
  foldl (apply_write name) d (DeleteRequest <$> keys)
  = mkDb (roots d) (delete_keys name keys (proofs d)).
Proof.
  revert d. induction keys as [|k l IH]; intros d; [by destruct d|].
  cbn [fmap list_fmap foldl]. fold (fmap DeleteRequest l).
  rewrite IH. reflexivity.
Qed.

Lemma succeeds_delete_chunks name n chunks d :
  succeeds
    (DynamoDbService.for_of chunks (fun chunk =>
       DynamoDbService.unprocessed_loop DynamoDbService.unprocessed_of_delete name
         n 0 (DeleteRequest <$> chunk)))
    d tt (mkDb (roots d) (delete_keys name (concat chunks) (proofs d))).
Proof.
  revert d. induction chunks as [|c r IH]; intros d.
  - cbn. destruct d. apply succeeds_ret.
  - cbn [DynamoDbService.for_of concat].
    eapply succeeds_bind; [apply succeeds_unprocessed_loop|].
    rewrite foldl_apply_write_delete, delete_keys_app. apply IH.
Qed.

Lemma every_sortKeyValue_None index keys :
  Forall (fun k => DynamoDbService.invalid_length DynamoDbService.ValidSortKeyValueMinLen
                     DynamoDbService.ValidSortKeyValueMaxLen k = false) keys ->
  DynamoDbService.every_sortKeyValue index keys = None.
Proof.
  intros H. revert index. induction H as [|k l Hk _ IH]; intros index; [done|].
  cbn [DynamoDbService.every_sortKeyValue]. by rewrite Hk.
Qed.

Lemma succeeds_batchDeleteWrite name keys maxRetries d :
  WhitelistDataService.invalid_name name = false ->
  0 <= maxRetries ->
  Forall (fun k => DynamoDbService.invalid_length DynamoDbService.ValidSortKeyValueMinLen
                     DynamoDbService.ValidSortKeyValueMaxLen k = false) keys ->
  succeeds (DynamoDbService.batchDeleteWrite name keys maxRetries)
    d tt (mkDb (roots d) (delete_keys name keys (proofs d))).
Proof.
  intros Hv Hm Hk. unfold DynamoDbService.batchDeleteWrite.
  rewrite (check_partitionKeyValue_valid _ _ Hv).
  assert ((maxRetries <? 0) = false) as -> by lia.
  rewrite (every_sortKeyValue_None 0 keys Hk).
  pose proof (chunkArray_spec keys) as [Hc _].
  pose proof (succeeds_delete_chunks name (Z.to_nat maxRetries)
                (DynamoDbService.chunkArray keys DynamoDbService.BatchWriteMaxItems) d) as H.
  by rewrite Hc in H.
Qed.

(** The rows of a partition, as the query returns them. *)
Lemma query_rows (name : string) (m : gmap (string * string) MerkleProofRecord.t)
    (r : MerkleProofRecord.t) :
  r ∈ (snd <$> filter (fun kv : string * string * MerkleProofRecord.t =>
                         fst (fst kv) = name) (map_to_list m))
  <-> exists a, m !! (name, a) = Some r.
Proof.
  rewrite list_elem_of_fmap. split.
  - intros ([[n a] r'] & -> & Hin). apply list_elem_of_filter in Hin as [Hn Hin].
    cbn in Hn. subst n. apply elem_of_map_to_list in Hin. by exists a.
  - intros [a Ha]. exists ((name, a), r). split; [done|].
    apply list_elem_of_filter. split; [done|]. by apply elem_of_map_to_list.
Qed.

Lemma succeeds_paginatedQuery name d :
  WhitelistDataService.invalid_name name = false ->
  succeeds (DynamoDbService.paginatedQuery name)
    d (snd <$> filter (fun kv : string * string * MerkleProofRecord.t =>
                         fst (fst kv) = name) (map_to_list (proofs d))) d.
Proof.
  intros Hv. unfold DynamoDbService.paginatedQuery.
  rewrite (check_partitionKeyValue_valid _ _ Hv). by apply succeeds_send.
Qed.

Lemma succeeds_deleteItem name d :
  WhitelistDataService.invalid_name name = false ->
  succeeds (DynamoDbService.deleteItem name) d tt (mkDb (delete name (roots d)) (proofs d)).
Proof.
  intros Hv. unfold DynamoDbService.deleteItem.
  rewrite (check_partitionKeyValue_valid _ _ Hv). by apply succeeds_send.
Qed.

(** A COMPLETED or FAILED tree is deleted: the roots row and every
    proofs row of the name are gone, the rows of the other names stay. *)
Lemma deleteMerkleTree_deletes name root s d :
  WhitelistDataService.invalid_name name = false ->
  roots d !! name = Some (MerkleRootRecord.mk root s) ->
  s = Completed \/ s = Failed ->
  well_keyed d ->
  exists d',
    succeeds (WhitelistDataService.deleteMerkleTree name) d tt d'
    /\ roots d' !! name = None
    /\ (forall a, proofs d' !! (name, a) = None)
    /\ same_elsewhere name d d'.
Proof.
  intros Hv Hrow Hs Hwk.
  set (items := snd <$> filter (fun kv : string * string * MerkleProofRecord.t =>
                                  fst (fst kv) = name) (map_to_list (proofs d))).
  set (keys := MerkleProofRecord.WhitelistAddress <$> items).
  set (d1 := mkDb (<[name := MerkleRootRecord.mk root Deleting]> (roots d)) (proofs d)).
  exists (mkDb (delete name (roots d1)) (delete_keys name keys (proofs d1))).
  split.
  { unfold WhitelistDataService.deleteMerkleTree. rewrite Hv.
    eapply succeeds_bind.
    { apply succeeds_rethrowing. by apply succeeds_getItem. }
    rewrite Hrow. cbn [MerkleRootRecord.WhitelistStatus MerkleRootRecord.MerkleRoot].
    assert (negb (bool_decide (s = Completed)) && negb (bool_decide (s = Failed)) = false)
      as ->.
    { destruct Hs as [-> | ->]; reflexivity. }
    eapply succeeds_bind.
    { apply succeeds_rethrowing. apply succeeds_putItem; [done|].
      rewrite Hrow. cbn. rewrite String.eqb_refl. by destruct Hs as [-> | ->]. }
    fold d1. apply succeeds_try_catch. unfold WhitelistDataService.delete_proofs_then_root.
    eapply succeeds_bind; [by apply succeeds_paginatedQuery|].
    eapply succeeds_bind.
    { apply succeeds_batchDeleteWrite; [done|done|].
      apply Forall_forall. intros k Hk. apply list_elem_of_fmap in Hk as (r & -> & Hr).
      apply query_rows in Hr as [a Ha]. destruct (Hwk name a r Ha) as [-> Hl]. exact Hl. }
    pose proof (succeeds_deleteItem name
                  (mkDb (roots d1) (delete_keys name keys (proofs d1))) Hv) as H.
    exact H. }
  subst d1. cbn [roots proofs].
  split; [apply lookup_delete_eq|].
  split.
  { intros a. rewrite delete_keys_lookup.
    destruct (proofs d !! (name, a)) as [r|] eqn:Er; [|by destruct (bool_decide _)].
    rewrite bool_decide_eq_true_2; [done|]. split; [done|].
    destruct (Hwk name a r Er) as [<- _].
    apply list_elem_of_fmap. exists r. split; [done|]. apply query_rows. eauto. }
  unfold same_elsewhere. cbn [roots proofs]. split.
  - intros n Hn. rewrite lookup_delete_ne, lookup_insert_ne; done.
  - intros n a Hn. rewrite delete_keys_lookup, bool_decide_eq_false_2; [done|]. tauto.
Qed.

(** ** What the operations leave alone *)

Lemma same_elsewhere_refl name d : same_elsewhere name d d.
Proof. by split. Qed.

Lemma same_elsewhere_roots name d0 d (r : gmap string MerkleRootRecord.t) :
  same_elsewhere name d0 d ->
  (forall n, n <> name -> r !! n = roots d !! n) ->
  same_elsewhere name d0 (mkDb r (proofs d)).
Proof.
  intros [Hr Hp] H. split; cbn [roots proofs]; [|done].
  intros n Hn. by rewrite H, Hr.
Qed.

Lemma same_elsewhere_apply_write name d0 d request :
  same_elsewhere name d0 d -> same_elsewhere name d0 (apply_write name d request).
Proof.
  intros [Hr Hp]. destruct request as [item|k]; split; cbn [apply_write roots proofs];
    try done; intros n a Hn.
  - rewrite lookup_insert_ne by congruence. by apply Hp.
  - rewrite lookup_delete_ne by congruence. by apply Hp.
Qed.

Lemma same_elsewhere_foldl name d0 d requests :
  same_elsewhere name d0 d -> same_elsewhere name d0 (foldl (apply_write name) d requests).
Proof.
  revert d. induction requests as [|r l IH]; intros d H; [done|].
  cbn [foldl]. by apply IH, same_elsewhere_apply_write.
Qed.

Lemma same_elsewhere_batch name d0 items d :
  same_elsewhere name d0 d ->
  same_elsewhere name d0 (snd (DynamoDbClient.BatchExecuteStatementInsert_run name items d)).
Proof.
  revert d. induction items as [|r l IH]; intros d H; [done|].
  cbn [DynamoDbClient.BatchExecuteStatementInsert_run].
  destruct (proofs d !! _).
  - specialize (IH d H).
    by destruct (DynamoDbClient.BatchExecuteStatementInsert_run name l d).
  - specialize (IH _ (same_elsewhere_apply_write name d0 d (PutRequest r) H)).
    cbn [apply_write] in IH.
    by destruct (DynamoDbClient.BatchExecuteStatementInsert_run name l _).
Qed.

Section Isolation.
Context (name : string) (d0 : Db).

Local Abbreviation J := (fun w : World => same_elsewhere name d0 (db w)).

Lemma isolated_executeInsertStatement record :
  keeps J (DynamoDbService.executeInsertStatement name record).
Proof.
  apply keeps_check_partitionKeyValue.
  apply (keeps_send (same_elsewhere name d0)). intros o d a d' H E.
  unfold DynamoDbClient.ExecuteStatementInsert_serve in E.
  destruct (roots d !! name); [done|]. injection E as _ <-.
  apply same_elsewhere_roots; [done|]. intros n Hn. by apply lookup_insert_ne.
Qed.

Lemma isolated_putItem record condition :
  keeps J (DynamoDbService.putItem name record condition).
Proof.
  apply keeps_check_partitionKeyValue.
  apply (keeps_send (same_elsewhere name d0)). intros o d a d' H E.
  unfold DynamoDbClient.PutCommand_serve in E.
  destruct (match condition with Some c => _ | None => _ end); [|done]. injection E as _ <-.
  apply same_elsewhere_roots; [done|]. intros n Hn. by apply lookup_insert_ne.
Qed.

Lemma isolated_deleteItem : keeps J (DynamoDbService.deleteItem name).
Proof.
  apply keeps_check_partitionKeyValue.
  apply (keeps_send (same_elsewhere name d0)). intros o d a d' H E.
  unfold DynamoDbClient.DeleteCommand_serve in E. injection E as _ <-.
  apply same_elsewhere_roots; [done|]. intros n Hn. by apply lookup_delete_ne.
Qed.

Lemma isolated_getItem n : keeps J (DynamoDbService.getItem n).
Proof.
  apply keeps_check_partitionKeyValue.
  apply (keeps_send (same_elsewhere name d0)). intros o d a d' H E.
  unfold DynamoDbClient.GetCommandRoot_serve in E. by injection E as _ <-.
Qed.

Lemma isolated_paginatedQuery n : keeps J (DynamoDbService.paginatedQuery n).
Proof.
  apply keeps_check_partitionKeyValue.
  apply (keeps_send (same_elsewhere name d0)). intros o d a d' H E.
  unfold DynamoDbClient.QueryCommand_serve in E. by injection E as _ <-.
Qed.

Lemma isolated_batchInsertExecuteStatement records :
  keeps J (DynamoDbService.batchInsertExecuteStatement name records).
Proof.
  apply keeps_check_partitionKeyValue. apply keeps_for_of. intros chunk.
  apply keeps_bind.
  - apply (keeps_send (same_elsewhere name d0)). intros o d a d' H E.
    unfold DynamoDbClient.BatchExecuteStatementInsert_serve in E.
    pose proof (same_elsewhere_batch name d0 chunk d H) as H'.
    destruct (DynamoDbClient.BatchExecuteStatementInsert_run name chunk d).
    by injection E as _ <-.
  - intros responses. cbv zeta. destruct (negb _); [apply keeps_throw|apply keeps_ret].
Qed.

Lemma isolated_batchDeleteWrite keys maxRetries :
  keeps J (DynamoDbService.batchDeleteWrite name keys maxRetries).
Proof.
  apply keeps_check_partitionKeyValue.
  destruct (maxRetries <? 0); [apply keeps_throw|].
  destruct (DynamoDbService.every_sortKeyValue 0 keys); [apply keeps_throw|].
  apply keeps_for_of. intros chunk.
  apply (keeps_unprocessed_loop (same_elsewhere name d0)).
  intros d requests. apply same_elsewhere_foldl.
Qed.

Lemma isolated_batchPutWrite records maxRetries :
  keeps J (DynamoDbService.batchPutWrite name records maxRetries).
Proof.
  apply keeps_check_partitionKeyValue.
  destruct (maxRetries <? 0); [apply keeps_throw|].
  apply keeps_for_of. intros chunk.
  apply (keeps_unprocessed_loop (same_elsewhere name d0)).
  intros d requests. apply same_elsewhere_foldl.
Qed.

Lemma isolated_data_createMerkleTree root records :
  keeps J (WhitelistDataService.createMerkleTree name root records).
Proof.
  unfold WhitelistDataService.createMerkleTree.
  destruct (WhitelistDataService.invalid_name name); [apply keeps_throw|].
  apply keeps_bind; [apply keeps_rethrowing, isolated_executeInsertStatement|]. intros _.
  apply keeps_bind.
  - apply keeps_try_catch; [apply isolated_batchInsertExecuteStatement|].
    intros e. apply keeps_bind; [apply isolated_putItem|]. intros _. apply keeps_throw.
  - intros _. apply keeps_rethrowing, isolated_putItem.
Qed.

Lemma isolated_data_deleteMerkleTree :
  keeps J (WhitelistDataService.deleteMerkleTree name).
Proof.
  unfold WhitelistDataService.deleteMerkleTree.
  destruct (WhitelistDataService.invalid_name name); [apply keeps_throw|].
  apply keeps_bind; [apply keeps_rethrowing, isolated_getItem|]. intros [item|];
    [|apply keeps_throw].
  destruct (_ && _); [apply keeps_throw|].
  apply keeps_bind; [apply keeps_rethrowing, isolated_putItem|]. intros _.
  apply keeps_try_catch.
  - unfold WhitelistDataService.delete_proofs_then_root.
    apply keeps_bind; [apply isolated_paginatedQuery|]. intros items.
    apply keeps_bind; [apply isolated_batchDeleteWrite|]. intros _.
    apply isolated_deleteItem.
  - intros e. apply keeps_bind; [apply isolated_putItem|]. intros _. apply keeps_throw.
Qed.

End Isolation.

(** Whatever the provider does, an operation on a name leaves the rows
    of every other name as they are. *)
Lemma run_operation_isolated op name w :
  name = match op with CreateTree n _ => n | DeleteTree n => n end ->
  same_elsewhere name (db w) (db (snd (run_operation op w))).
Proof.
  intros ->. destruct op as [n es|n]; cbn [run_operation].
  - unfold WhitelistCommandService.createMerkleTree.
    destruct (invalid_whitelistName n); [apply same_elsewhere_refl|].
    destruct (CommandServiceBuilder.validateEntries _ es); [apply same_elsewhere_refl|].
    destruct (CommandServiceBuilder.buildMerkleTree _ es) as [e|[root records]];
      [apply same_elsewhere_refl|].
    apply (isolated_data_createMerkleTree n (db w) root records w), same_elsewhere_refl.
  - unfold WhitelistCommandService.deleteMerkleTree.
    destruct (invalid_whitelistName n); [apply same_elsewhere_refl|].
    apply (isolated_data_deleteMerkleTree n (db w) w), same_elsewhere_refl.
Qed.

(** ** The reads write nothing *)

Section ReadOnly.
Context (d0 : Db).

Local Abbreviation R := (fun w : World => db w = d0).

Lemma readonly_getItem n : keeps R (DynamoDbService.getItem n).
Proof.
  apply keeps_check_partitionKeyValue.
  apply (keeps_send (fun d => d = d0)). intros o d a d' H E.
  unfold DynamoDbClient.GetCommandRoot_serve in E. by injection E as _ <-.
Qed.

Lemma readonly_getItem_sortKey n a : keeps R (DynamoDbService.getItem_sortKey n a).
Proof.
  apply keeps_check_partitionKeyValue.
  destruct (String.eqb a ""); [apply keeps_throw|].
  destruct (DynamoDbService.invalid_length _ _ a); [apply keeps_throw|].
  apply (keeps_send (fun d => d = d0)). intros o d x d' H E.
  unfold DynamoDbClient.GetCommandProof_serve in E. by injection E as _ <-.
Qed.

Lemma readonly_paginatedQuery n : keeps R (DynamoDbService.paginatedQuery n).
Proof.
  apply keeps_check_partitionKeyValue.
  apply (keeps_send (fun d => d = d0)). intros o d a d' H E.
  unfold DynamoDbClient.QueryCommand_serve in E. by injection E as _ <-.
Qed.

Lemma readonly_data_getMerkleRoot n : keeps R (WhitelistDataService.getMerkleRoot n).
Proof.
  unfold WhitelistDataService.getMerkleRoot.
  destruct (WhitelistDataService.invalid_name n); [apply keeps_throw|].
  apply keeps_rethrowing, readonly_getItem.
Qed.

Lemma readonly_data_getMerkleProof n a : keeps R (WhitelistDataService.getMerkleProof n a).
Proof.
  unfold WhitelistDataService.getMerkleProof.
  destruct (WhitelistDataService.invalid_name n); [apply keeps_throw|].
  destruct (_ || _); [apply keeps_throw|].
  destruct (String.eqb a Ethers.ZeroAddress); [apply keeps_throw|].
  apply keeps_bind; [apply keeps_rethrowing, readonly_getItem|]. intros [item|];
    [|apply keeps_throw].
  destruct (negb _); [apply keeps_throw|].
  apply keeps_rethrowing, readonly_getItem_sortKey.
Qed.

Lemma readonly_data_getMerkleProofs n : keeps R (WhitelistDataService.getMerkleProofs n).
Proof.
  unfold WhitelistDataService.getMerkleProofs.
  destruct (WhitelistDataService.invalid_name n); [apply keeps_throw|].
  apply keeps_bind; [apply keeps_rethrowing, readonly_getItem|]. intros [item|];
    [|apply keeps_throw].
  destruct (negb _); [apply keeps_throw|].
  apply keeps_rethrowing, readonly_paginatedQuery.
Qed.

Lemma readonly_query_getMerkleProof keccak256 n a :
  keeps R (WhitelistQueryService.getMerkleProof keccak256 n a).
Proof.
  unfold WhitelistQueryService.getMerkleProof.
  destruct (invalid_whitelistName n); [apply keeps_throw|].
  destruct (_ || _); [apply keeps_throw|].
  destruct (String.eqb a Ethers.ZeroAddress); [apply keeps_throw|].
  destruct (Ethers.getAddress keccak256 a) as [normalized|]; [|apply keeps_throw].
  apply keeps_bind; [apply readonly_data_getMerkleRoot|]. intros [record|];
    [|apply keeps_throw].
  destruct (negb _); [apply keeps_throw|].
  apply readonly_data_getMerkleProof.
Qed.

Lemma readonly_query_getMerkleProofs n : keeps R (WhitelistQueryService.getMerkleProofs n).
Proof.
  unfold WhitelistQueryService.getMerkleProofs.
  destruct (invalid_whitelistName n); [apply keeps_throw|].
  apply readonly_data_getMerkleProofs.
Qed.

Lemma readonly_query_getMerkleRoot n : keeps R (WhitelistQueryService.getMerkleRoot n).
Proof.
  unfold WhitelistQueryService.getMerkleRoot.
  destruct (invalid_whitelistName n); [apply keeps_throw|].
  apply readonly_data_getMerkleRoot.
Qed.

End ReadOnly.

(** ** Rows that are CREATING or DELETING *)

Section Pending.
Context (name root : string) (s : WhitelistStatus).
Hypothesis pending : s = Creating \/ s = Deleting.

Lemma pending_data_createMerkleTree root' records w :
  roots (db w) !! name = Some (MerkleRootRecord.mk root s) ->
  db (snd (WhitelistDataService.createMerkleTree name root' records w)) = db w.
Proof.
  intros Hrow. unfold WhitelistDataService.createMerkleTree.
  destruct (WhitelistDataService.invalid_name name); [done|].
  apply (hoare_bind (fun w' => w' = w) _ _
           (fun x w' => db w' = db w /\ exists e, x = inl e)
           (fun _ w' => db w' = db w)); [|by intros e w' [H _]|by intros a w' [_ [e H]]|done].
  apply (hoare_rethrowing _ _ (fun x w' => db w' = db w /\ exists e, x = inl e));
    [|done|intros e w' [H _]; eauto].
  apply hoare_check_partitionKeyValue; [|intros e w' ->; eauto].
  apply hoare_send.
  - intros w' e ->. eauto.
  - intros w' a d -> E. unfold DynamoDbClient.ExecuteStatementInsert_serve in E.
    by rewrite Hrow in E.
Qed.

Lemma pending_data_deleteMerkleTree w :
  roots (db w) !! name = Some (MerkleRootRecord.mk root s) ->
  db (snd (WhitelistDataService.deleteMerkleTree name w)) = db w.
Proof.
  intros Hrow. unfold WhitelistDataService.deleteMerkleTree.
  destruct (WhitelistDataService.invalid_name name); [done|].
  apply (hoare_bind (fun w' => w' = w) _ _
           (fun x w' => db w' = db w
                        /\ forall item, x = inr item
                             -> item = Some (MerkleRootRecord.mk root s))
           (fun _ w' => db w' = db w)); [|by intros e w' [H _]| |done].
  - apply (hoare_rethrowing _ _
             (fun x w' => db w' = db w
                          /\ forall item, x = inr item
                               -> item = Some (MerkleRootRecord.mk root s)));
      [|done|by intros e w' [H _]].
    apply hoare_check_partitionKeyValue; [|by intros e w' ->].
    apply hoare_send.
    + by intros w' e ->.
    + intros w' a d -> E. unfold DynamoDbClient.GetCommandRoot_serve in E.
      injection E as <- <-. split; [done|]. intros item [= <-]. exact Hrow.
  - intros item w' [Hdb Hitem]. rewrite (Hitem item eq_refl).
    cbn [MerkleRootRecord.WhitelistStatus].
    by destruct pending as [-> | ->].
Qed.

Lemma pending_run_operation op w :
  roots (db w) !! name = Some (MerkleRootRecord.mk root s) ->
  roots (db (snd (run_operation op w))) !! name = Some (MerkleRootRecord.mk root s)
  /\ forall a, proofs (db (snd (run_operation op w))) !! (name, a)
               = proofs (db w) !! (name, a).
Proof.
  intros Hrow.
  destruct (decide (name = match op with CreateTree n _ => n | DeleteTree n => n end))
    as [Hn|Hn].
  - assert (db (snd (run_operation op w)) = db w) as ->; [|done].
    destruct op as [n es|n]; subst n; cbn [run_operation].
    + unfold WhitelistCommandService.createMerkleTree.
      destruct (invalid_whitelistName name); [done|].
      destruct (CommandServiceBuilder.validateEntries _ es); [done|].
      destruct (CommandServiceBuilder.buildMerkleTree _ es) as [e|[root' records]]; [done|].
      by apply pending_data_createMerkleTree.
    + unfold WhitelistCommandService.deleteMerkleTree.
      destruct (invalid_whitelistName name); [done|].
      by apply pending_data_deleteMerkleTree.
  - destruct (run_operation_isolated op _ w eq_refl) as [Hr Hp].
    split; [by rewrite Hr|]. intros a. by apply Hp.
Qed.

Lemma pending_run_operations ops w :
  roots (db w) !! name = Some (MerkleRootRecord.mk root s) ->
  roots (db (run_operations ops w)) !! name = Some (MerkleRootRecord.mk root s)
  /\ forall a, proofs (db (run_operations ops w)) !! (name, a) = proofs (db w) !! (name, a).
Proof.
  revert w. induction ops as [|op ops IH]; intros w Hrow; [done|].
  unfold run_operations. cbn [foldl]. fold (run_operations ops).
  destruct (pending_run_operation op w Hrow) as [H1 H2].
  destruct (IH _ H1) as [H3 H4]. split; [done|]. intros a. by rewrite H4.
Qed.

End Pending.

(** ** All the records of a tree *)

(** Whatever the provider does, the records that [getMerkleProofs]
    returns are the proofs rows of a COMPLETED tree. *)
Lemma getMerkleProofs_sound name w records :
  fst (WhitelistQueryService.getMerkleProofs name w) = inr records ->
  (exists root, roots (db w) !! name = Some (MerkleRootRecord.mk root Completed))
  /\ (forall r, r ∈ records <-> exists a, proofs (db w) !! (name, a) = Some r)
  /\ db (snd (WhitelistQueryService.getMerkleProofs name w)) = db w.
Proof.
  intros Hres.
  split; [|split; [|by apply (readonly_query_getMerkleProofs (db w) name w)]];
    revert Hres; revert records;
    unfold WhitelistQueryService.getMerkleProofs, WhitelistDataService.getMerkleProofs;
    (destruct (invalid_whitelistName name); [done|]);
    (destruct (WhitelistDataService.invalid_name name); [done|]).
  - apply (hoare_bind (fun w' => w' = w) _ _
             (fun x w' => db w' = db w
                          /\ forall item, x = inr item -> item = roots (db w) !! name)
             (fun x _ => forall records, x = inr records ->
                exists root, roots (db w) !! name
                             = Some (MerkleRootRecord.mk root Completed)));
      [|done| |done].
    + apply (hoare_rethrowing _ _
               (fun x w' => db w' = db w
                            /\ forall item, x = inr item -> item = roots (db w) !! name));
        [|done|by intros e w' [H _]].
      apply hoare_check_partitionKeyValue; [|by intros e w' ->].
      apply hoare_send; [by intros w' e ->|].
      intros w' a d -> E. unfold DynamoDbClient.GetCommandRoot_serve in E.
      injection E as <- <-. split; [done|]. by intros item [= <-].
    + intros item w' [Hdb Hitem]. rewrite (Hitem item eq_refl).
      destruct (roots (db w) !! name) as [[root s]|]; [|done].
      cbn [MerkleRootRecord.WhitelistStatus].
      destruct (decide (s = Completed)) as [->|Hs].
      * intros records _. by exists root.
      * by rewrite bool_decide_eq_false_2.
  - apply (hoare_bind (fun w' => w' = w) _ _
             (fun _ w' => db w' = db w)
             (fun x _ => forall records, x = inr records ->
                forall r, r ∈ records <-> exists a, proofs (db w) !! (name, a) = Some r));
      [|done| |done].
    + apply (hoare_rethrowing _ _ (fun _ w' => db w' = db w)); [|done|done].
      apply (hoare_consequence _ (fun w' => db w' = db w) _ _ (fun _ w' => db w' = db w));
        [apply (readonly_getItem (db w) name)|by intros w' ->|done].
    + intros [item|]; [|done]. destruct (negb _); [done|].
      apply (hoare_rethrowing _ _
               (fun x w' => forall records, x = inr records ->
                  forall r, r ∈ records <-> exists a, proofs (db w) !! (name, a) = Some r));
        [|done|done].
      apply hoare_check_partitionKeyValue; [|done].
      apply hoare_send; [done|].
      intros w' a d Hdb E. unfold DynamoDbClient.QueryCommand_serve in E.
      injection E as <- <-. intros records [= <-] r. rewrite Hdb. apply query_rows.
Qed.

Lemma succeeds_getMerkleProofs name root d :
  invalid_whitelistName name = false ->
  roots d !! name = Some (MerkleRootRecord.mk root Completed) ->
  succeeds (WhitelistQueryService.getMerkleProofs name) d
    (snd <$> filter (fun kv : string * string * MerkleProofRecord.t =>
                       fst (fst kv) = name) (map_to_list (proofs d))) d.
Proof.
  intros Hn Hrow. pose proof (invalid_whitelistName_invalid_name name Hn) as Hv.
  unfold WhitelistQueryService.getMerkleProofs, WhitelistDataService.getMerkleProofs.
  rewrite Hn, Hv.
  eapply succeeds_bind.
  { apply succeeds_rethrowing. by apply succeeds_getItem. }
  rewrite Hrow. cbn [MerkleRootRecord.WhitelistStatus].
  rewrite bool_decide_eq_true_2 by done. cbn [negb].
  apply succeeds_rethrowing. by apply succeeds_paginatedQuery.
Qed.

(** ** The batches *)

Lemma chunkArray_from_lookup {A} (fuel : nat) (array : list A) (stride i : nat) :
  (0 < stride)%nat -> (List.length array <= fuel)%nat ->
  DynamoDbService.chunkArray_from fuel array stride !! i
  = if (i * stride <? List.length array)%nat
    then Some (take stride (drop (i * stride) array)) else None.
Proof.
  intros Hs. revert array i. induction fuel as [|f IH]; intros array i Hlen.
  - destruct array; [|cbn in Hlen; lia]. cbn [DynamoDbService.chunkArray_from].
    rewrite lookup_nil. by destruct (Nat.ltb_spec (i * stride) (List.length (@nil A)));
      [cbn [List.length] in *; lia|].
  - cbn [DynamoDbService.chunkArray_from]. destruct array as [|x r].
    { rewrite lookup_nil. by destruct (Nat.ltb_spec (i * stride) (List.length (@nil A)));
        [cbn [List.length] in *; lia|]. }
    destruct i as [|i].
    + cbn [lookup list_lookup Nat.mul]. rewrite drop_0.
      by assert ((0 <? List.length (x :: r))%nat = true) as ->
        by (apply Nat.ltb_lt; cbn; lia).
    + cbn [lookup list_lookup]. change (list_lookup i) with (lookup (M:=list (list A)) i).
      rewrite IH by (rewrite length_drop; cbn [List.length] in *; lia).
      rewrite length_drop, drop_drop.
      replace (stride + i * stride)%nat with (S i * stride)%nat by lia.
      destruct (i * stride <? _)%nat eqn:E1; destruct (S i * stride <? _)%nat eqn:E2;
        try reflexivity;
        [apply Nat.ltb_lt in E1; apply Nat.ltb_ge in E2|
         apply Nat.ltb_ge in E1; apply Nat.ltb_lt in E2]; lia.
Qed.

Lemma chunkArray_from_length {A} (fuel : nat) (array : list A) (stride : nat) :
  (0 < stride)%nat -> (List.length array <= fuel)%nat ->
  List.length (DynamoDbService.chunkArray_from fuel array stride)
  = ((List.length array + stride - 1) / stride)%nat.
Proof.
  intros Hs Hlen.
  set (n := ((List.length array + stride - 1) / stride)%nat).
  assert (forall i, (i * stride < List.length array)%nat <-> (i < n)%nat) as Hn.
  { intros i. unfold n. split; intros H.
    - apply Nat.div_le_lower_bound; [lia|]. nia.
    - destruct (Nat.lt_ge_cases (i * stride) (List.length array)) as [|Hge]; [done|].
      exfalso. assert ((List.length array + stride - 1) / stride < S i)%nat; [|lia].
      apply Nat.Div0.div_lt_upper_bound. nia. }
  destruct (Nat.lt_trichotomy
              (List.length (DynamoDbService.chunkArray_from fuel array stride)) n)
    as [Hlt|[Heq|Hgt]]; [|done|].
  - pose proof (chunkArray_from_lookup fuel array stride
                  (List.length (DynamoDbService.chunkArray_from fuel array stride)) Hs Hlen)
      as H.
    rewrite (proj2 (lookup_ge_None _ _)) in H by lia.
    apply Hn in Hlt. apply Nat.ltb_lt in Hlt. by rewrite Hlt in H.
  - pose proof (chunkArray_from_lookup fuel array stride n Hs Hlen) as H.
    destruct (lookup_lt_is_Some_2 _ _ Hgt) as [c Hc]. rewrite Hc in H.
    assert ((n * stride <? List.length array)%nat = false) as E.
    { apply Nat.ltb_ge. destruct (Nat.lt_ge_cases (n * stride) (List.length array)); [|done].
      exfalso. assert (n < n)%nat; [by apply Hn|lia]. }
    by rewrite E in H.
Qed.

Lemma select_length {A} mask (l : list A) : (List.length (select mask l) <= List.length l)%nat.
Proof.
  unfold select. rewrite length_fmap.
  etrans; [apply length_filter|]. rewrite length_zip. lia.
Qed.

Lemma select_true {A} n (l : list A) :
  (List.length l <= n)%nat -> select (replicate n true) l = l.
Proof.
  intros H. replace n with (List.length l + (n - List.length l))%nat by lia.
  rewrite replicate_add. apply select_all.
Qed.

Lemma select_false {A} n rest (l : list A) :
  (List.length l <= n)%nat -> select (replicate n false ++ rest) l = [].
Proof.
  unfold select. rewrite <- app_assoc.
  generalize (rest ++ replicate (List.length l) false). clear rest.
  revert n. induction l as [|x l IH]; intros n rest H; [done|].
  destruct n as [|n]; [cbn in H; lia|].
  cbn [replicate app zip zip_with]. rewrite filter_cons_False by (cbn; congruence).
  apply IH. cbn in H. lia.
Qed.

(** The answer [leaves_all] to a batch write of at most 25 members:
    nothing is written, and every member comes back. *)
Lemma BatchWriteCommand_serve_leaves_all name requests d :
  (List.length requests <= DynamoDbService.BatchWriteMaxItems)%nat ->
  DynamoDbClient.BatchWriteCommand_serve name requests leaves_all d
  = inr (TableEntry (replicate DynamoDbService.BatchWriteMaxItems true), d).
Proof.
  intros H. unfold DynamoDbClient.BatchWriteCommand_serve, leaves_all.
  rewrite fmap_app, !fmap_replicate. cbn [negb].
  by rewrite select_false.
Qed.

Section Batches.
Context (name : string).

Lemma sends_check_partitionKeyValue {A} allowed n (k : M A) :
  sends allowed k -> sends allowed (DynamoDbService.check_partitionKeyValue n k).
Proof.
  intros H. unfold DynamoDbService.check_partitionKeyValue.
  destruct (DynamoDbService.invalid_length _ _ _); [apply sends_throw|done].
Qed.

Lemma sends_for_of {A} allowed (xs : list A) (body : A -> M unit) :
  (forall x, x ∈ xs -> sends allowed (body x)) ->
  sends allowed (DynamoDbService.for_of xs body).
Proof.
  induction xs as [|x r IH]; intros H; cbn [DynamoDbService.for_of]; [apply sends_ret|].
  apply sends_bind; [apply H, list_elem_of_here|]. intros _. apply IH.
  intros y Hy. by apply H, list_elem_of_further.
Qed.

Lemma sends_waitMs allowed ms : sends allowed (waitMs ms).
Proof. intros w. exists []. cbn. by rewrite app_nil_r. Qed.

Lemma sends_unprocessed_loop read retriesLeft retryCount command :
  (forall u c, match read u c with
               | inr items => (List.length items <= List.length c)%nat
               | inl _ => True
               end) ->
  (1 <= List.length command <= DynamoDbService.BatchWriteMaxItems)%nat ->
  sends (bounded_batch name)
    (DynamoDbService.unprocessed_loop read name retriesLeft retryCount command).
Proof.
  intros Hread. revert retryCount command.
  induction retriesLeft as [|k IH]; intros retryCount command Hlen;
    cbn [DynamoDbService.unprocessed_loop];
    (apply sends_bind; [by apply sends_send|]); intros response;
    pose proof (Hread response command) as Hr;
    (destruct (read response command) as [e|items]; [apply sends_throw|]);
    (apply sends_bind; [apply sends_waitMs|]); intros _;
    destruct (0 <? List.length items)%nat eqn:E; try apply sends_ret.
  apply IH. apply Nat.ltb_lt in E. lia.
Qed.

Lemma unprocessed_of_delete_length u c :
  match DynamoDbService.unprocessed_of_delete u c with
  | inr items => (List.length items <= List.length c)%nat
  | inl _ => True
  end.
Proof. destruct u; cbn; try lia. apply select_length. Qed.

Lemma unprocessed_of_put_length u c :
  match DynamoDbService.unprocessed_of_put u c with
  | inr items => (List.length items <= List.length c)%nat
  | inl _ => True
  end.
Proof. destruct u; cbn; try lia; try done. apply select_length. Qed.

Lemma sends_batchDeleteWrite keys maxRetries :
  sends (bounded_batch name) (DynamoDbService.batchDeleteWrite name keys maxRetries).
Proof.
  apply sends_check_partitionKeyValue.
  destruct (maxRetries <? 0); [apply sends_throw|].
  destruct (DynamoDbService.every_sortKeyValue 0 keys); [apply sends_throw|].
  apply sends_for_of. intros chunk Hc.
  apply sends_unprocessed_loop; [apply unprocessed_of_delete_length|].
  rewrite length_fmap.
  destruct (chunkArray_spec keys) as [_ Hall].
  apply (proj1 (Forall_forall _ _) Hall) in Hc. unfold DynamoDbService.BatchWriteMaxItems. lia.
Qed.

Lemma sends_batchPutWrite records maxRetries :
  sends (bounded_batch name) (DynamoDbService.batchPutWrite name records maxRetries).
Proof.
  apply sends_check_partitionKeyValue.
  destruct (maxRetries <? 0); [apply sends_throw|].
  apply sends_for_of. intros chunk Hc.
  apply sends_unprocessed_loop; [apply unprocessed_of_put_length|].
  rewrite length_fmap.
  destruct (chunkArray_spec records) as [_ Hall].
  apply (proj1 (Forall_forall _ _) Hall) in Hc. unfold DynamoDbService.BatchWriteMaxItems. lia.
Qed.

Lemma sends_batchInsertExecuteStatement records :
  sends (bounded_batch name) (DynamoDbService.batchInsertExecuteStatement name records).
Proof.
  apply sends_check_partitionKeyValue.
  apply sends_for_of. intros chunk Hc.
  destruct (chunkArray_from_spec (List.length records) records
              DynamoDbService.BatchExecuteMaxItems) as [_ Hall];
    [unfold DynamoDbService.BatchExecuteMaxItems; lia|done|].
  apply (proj1 (Forall_forall _ _) Hall) in Hc.
  apply sends_bind; [apply sends_send; cbn; split; [done|lia]|].
  intros responses. cbv zeta. destruct (negb _); [apply sends_throw|apply sends_ret].
Qed.

End Batches.

(** ** The retries of a batch write *)

Lemma backoff_elem attempts ms :
  ms ∈ backoff attempts
  <-> exists i : nat, (i < attempts)%nat
        /\ ms = DynamoDbService.BatchWriteDefaultMinTimeoutMs
                * DynamoDbService.BatchWriteDefaultExponentialFactor ^ Z.of_nat i.
Proof.
  unfold backoff. rewrite list_elem_of_fmap. split.
  - intros (i & -> & Hi). apply elem_of_seq in Hi. exists i. split; [lia|done].
  - intros (i & Hi & ->). exists i. split; [done|]. apply elem_of_seq. lia.
Qed.

Lemma effort_weaken {A} r s t r' s' t' (m : M A) :
  bounded_effort r s t m -> (r <= r')%nat -> (s <= s')%nat -> (t <= t')%nat ->
  bounded_effort r' s' t' m.
Proof.
  intros Hm Hr Hs Ht w. destruct (Hm w) as (l & sl & Hl & Hsl & Hlr & Hls & Hall).
  exists l, sl. repeat split; try done; try lia.
  eapply Forall_impl; [exact Hall|]. intros ms Hms. apply backoff_elem in Hms as (i & Hi & ->).
  apply backoff_elem. exists i. split; [lia|done].
Qed.

Lemma effort_ret {A} t (a : A) : bounded_effort 0 0 t (ret a).
Proof. intros w. exists [], []. cbn. rewrite !app_nil_r. repeat split; try done. Qed.

Lemma effort_throw {A} t (e : Exception) : bounded_effort 0 0 t (throw (A:=A) e).
Proof. intros w. exists [], []. cbn. rewrite !app_nil_r. repeat split; try done. Qed.

Lemma effort_bind {A B} r1 s1 r2 s2 t (m : M A) (k : A -> M B) :
  bounded_effort r1 s1 t m -> (forall a, bounded_effort r2 s2 t (k a)) ->
  bounded_effort (r1 + r2) (s1 + s2) t (bind m k).
Proof.
  intros Hm Hk w. destruct (Hm w) as (l & sl & Hl & Hsl & Hlr & Hls & Hall). unfold bind.
  destruct (m w) as [[e|a] w1]; cbn [snd] in *.
  - exists l, sl. repeat split; try done; lia.
  - destruct (Hk a w1) as (l2 & sl2 & Hl2 & Hsl2 & Hlr2 & Hls2 & Hall2).
    exists (l ++ l2), (sl ++ sl2). rewrite Hl2, Hsl2, Hl, Hsl, !app_assoc, !length_app.
    repeat split; try done; try lia. by apply Forall_app.
Qed.

Lemma effort_send {A} t (req : Request)
    (serve : Outcome -> Db -> (DynamoDBKind * string) + (A * Db)) :
  bounded_effort 1 0 t (send req serve).
Proof.
  intros w. rewrite send_step.
  destruct (fst (next_outcome w)) as [|k msg|u];
    try destruct (serve _ (db w)) as [[k' msg']|[a d]];
    eexists [_], []; cbn; rewrite app_nil_r; repeat split; done.
Qed.

Lemma effort_waitMs t (i : nat) :
  (i < t)%nat ->
  bounded_effort 0 1 t
    (waitMs (DynamoDbService.BatchWriteDefaultMinTimeoutMs
             * DynamoDbService.BatchWriteDefaultExponentialFactor ^ Z.of_nat i)).
Proof.
  intros Hi w. eexists [], [_]. cbn. rewrite app_nil_r. repeat split; try done.
  constructor; [|constructor]. apply backoff_elem. eauto.
Qed.

Lemma effort_check_partitionKeyValue {A} r s t n (k : M A) :
  bounded_effort r s t k -> bounded_effort r s t (DynamoDbService.check_partitionKeyValue n k).
Proof.
  intros H. unfold DynamoDbService.check_partitionKeyValue.
  destruct (DynamoDbService.invalid_length _ _ _); [|done].
  apply (effort_weaken 0 0 t); [apply effort_throw|lia..].
Qed.

Lemma effort_for_of {A} r s t (xs : list A) (body : A -> M unit) :
  (forall x, bounded_effort r s t (body x)) ->
  bounded_effort (List.length xs * r) (List.length xs * s) t (DynamoDbService.for_of xs body).
Proof.
  intros H. induction xs as [|x xs IH]; cbn [DynamoDbService.for_of List.length Nat.mul].
  - apply effort_ret.
  - apply effort_bind; [apply H|]. intros _. exact IH.
Qed.

(** One chunk: at most [retriesLeft + 1] attempts. *)
Lemma effort_unprocessed_loop read name n (c : nat) command :
  bounded_effort (S n) (S n) (c + S n)
    (DynamoDbService.unprocessed_loop read name n (Z.of_nat c) command).
Proof.
  revert c command. induction n as [|k IH]; intros c command;
    cbn [DynamoDbService.unprocessed_loop].
  - apply (effort_bind 1 0 0 1); [apply effort_send|]. intros response.
    destruct (read response command) as [e|items];
      [apply (effort_weaken 0 0 (c + 1)); [apply effort_throw|lia..]|].
    apply (effort_bind 0 1 0 0); [apply effort_waitMs; lia|]. intros _.
    destruct (0 <? List.length items)%nat; apply effort_ret.
  - apply (effort_bind 1 0 (S k) (S (S k))); [apply effort_send|]. intros response.
    destruct (read response command) as [e|items];
      [apply (effort_weaken 0 0 (c + S (S k))); [apply effort_throw|lia..]|].
    apply (effort_bind 0 1 (S k) (S k)); [apply effort_waitMs; lia|]. intros _.
    destruct (0 <? List.length items)%nat;
      [|apply (effort_weaken 0 0 (c + S (S k))); [apply effort_ret|lia..]].
    replace (Z.of_nat c + 1) with (Z.of_nat (S c)) by lia.
    replace (c + S (S k))%nat with (S c + S k)%nat by lia. apply IH.
Qed.

Lemma effort_batchDeleteWrite name keys maxRetries :
  bounded_effort
    (List.length (DynamoDbService.chunkArray keys DynamoDbService.BatchWriteMaxItems)
     * S (Z.to_nat maxRetries))
    (List.length (DynamoDbService.chunkArray keys DynamoDbService.BatchWriteMaxItems)
     * S (Z.to_nat maxRetries))
    (S (Z.to_nat maxRetries))
    (DynamoDbService.batchDeleteWrite name keys maxRetries).
Proof.
  apply effort_check_partitionKeyValue.
  destruct (maxRetries <? 0); [apply (effort_weaken 0 0 0); [apply effort_throw|lia..]|].
  destruct (DynamoDbService.every_sortKeyValue 0 keys);
    [apply (effort_weaken 0 0 0); [apply effort_throw|lia..]|].
  apply effort_for_of. intros chunk.
  apply (effort_unprocessed_loop _ name (Z.to_nat maxRetries) 0).
Qed.

Lemma effort_batchPutWrite name records maxRetries :
  bounded_effort
    (List.length (DynamoDbService.chunkArray records DynamoDbService.BatchWriteMaxItems)
     * S (Z.to_nat maxRetries))
    (List.length (DynamoDbService.chunkArray records DynamoDbService.BatchWriteMaxItems)
     * S (Z.to_nat maxRetries))
    (S (Z.to_nat maxRetries))
    (DynamoDbService.batchPutWrite name records maxRetries).
Proof.
  apply effort_check_partitionKeyValue.
  destruct (maxRetries <? 0); [apply (effort_weaken 0 0 0); [apply effort_throw|lia..]|].
  apply effort_for_of. intros chunk.
  apply (effort_unprocessed_loop _ name (Z.to_nat maxRetries) 0).
Qed.

(** ** Retries that run out *)

Lemma next_outcome_cons w o rest :
  schedule w = o :: rest -> next_outcome w = (o, rest).
Proof. unfold next_outcome. by intros ->. Qed.

(** One chunk whose members all come back at each of the
    [retriesLeft + 1] attempts: the loop ends without an exception. *)
Lemma unprocessed_loop_gives_up read name n (c : nat) command w rest :
  (forall mask cmd, read (TableEntry mask) cmd = inr (select mask cmd)) ->
  (1 <= List.length command <= DynamoDbService.BatchWriteMaxItems)%nat ->
  schedule w = replicate (S n) leaves_all ++ rest ->
  DynamoDbService.unprocessed_loop read name n (Z.of_nat c) command w
  = (inr tt,
     mkWorld (db w) rest
       (log w ++ replicate (S n)
                   (mkLogEntry (BatchWriteCommand name command) (roots (db w)) (roots (db w))))
       (slept w ++ ((fun i : nat =>
                       DynamoDbService.BatchWriteDefaultMinTimeoutMs
                       * DynamoDbService.BatchWriteDefaultExponentialFactor ^ Z.of_nat i)
                      <$> seq c (S n)))).
Proof.
  intros Hread Hlen. revert c w.
  assert (forall w, schedule w = leaves_all :: snd (next_outcome w) ->
            send (BatchWriteCommand name command)
              (DynamoDbClient.BatchWriteCommand_serve name command) w
            = (inr (TableEntry (replicate DynamoDbService.BatchWriteMaxItems true)),
               step w (BatchWriteCommand name command) (db w))) as Hsend.
  { intros w Hw. rewrite send_step, (next_outcome_cons w _ _ Hw). cbn [fst].
    pose proof (BatchWriteCommand_serve_leaves_all name command (db w)) as E.
    unfold leaves_all in *. cbv iota. rewrite E by lia. reflexivity. }
  assert (select (replicate DynamoDbService.BatchWriteMaxItems true) command = command)
    as Hsel by (apply select_true; lia).
  assert ((0 <? List.length command)%nat = true) as Hpos by (apply Nat.ltb_lt; lia).
  induction n as [|k IH]; intros c w Hw; cbn [DynamoDbService.unprocessed_loop];
    cbn [replicate app] in Hw;
    (rewrite (bind_inr _ _ w _ _ (Hsend w ltac:(by rewrite Hw, (next_outcome_cons w _ _ Hw)))));
    rewrite Hread, Hsel, Hpos; unfold bind, waitMs, step; cbn [db schedule log slept];
    rewrite (next_outcome_cons w _ _ Hw); cbn [snd].
  - reflexivity.
  - replace (Z.of_nat c + 1) with (Z.of_nat (S c)) by lia.
    rewrite IH by reflexivity. cbn [db schedule log slept roots].
    f_equal. f_equal.
    + by rewrite <- app_assoc.
    + rewrite <- app_assoc. reflexivity.
Qed.

Lemma for_of_gives_up read name n chunks (body := fun chunk : list WriteRequest =>
    DynamoDbService.unprocessed_loop read name n 0 chunk) w :
  (forall mask cmd, read (TableEntry mask) cmd = inr (select mask cmd)) ->
  Forall (fun chunk => (1 <= List.length chunk <= DynamoDbService.BatchWriteMaxItems)%nat)
    chunks ->
  schedule w = replicate (List.length chunks * S n) leaves_all ->
  fst (DynamoDbService.for_of chunks body w) = inr tt
  /\ db (snd (DynamoDbService.for_of chunks body w)) = db w
  /\ schedule (snd (DynamoDbService.for_of chunks body w)) = []
  /\ slept (snd (DynamoDbService.for_of chunks body w))
     = slept w ++ concat (replicate (List.length chunks) (backoff (S n)))
  /\ List.length (log (snd (DynamoDbService.for_of chunks body w)))
     = (List.length (log w) + List.length chunks * S n)%nat.
Proof.
  intros Hread Hall. revert w. induction Hall as [|chunk chunks Hc _ IH]; intros w Hw.
  - cbn in *. rewrite app_nil_r. repeat split; [done|lia].
  - cbn [DynamoDbService.for_of List.length Nat.mul] in *.
    rewrite replicate_add in Hw.
    pose proof (unprocessed_loop_gives_up read name n 0 chunk w _ Hread Hc Hw) as E.
    change (Z.of_nat 0) with 0 in E. fold (body chunk) in E.
    rewrite (bind_inr _ _ w _ _ E).
    match goal with |- context [DynamoDbService.for_of chunks body ?w1] =>
      destruct (IH w1 eq_refl) as (H1 & H2 & H3 & H4 & H5)
    end.
    rewrite H1, H2, H3, H4, H5. cbn [db slept log].
    repeat split.
    + by rewrite <- app_assoc.
    + rewrite length_app, length_replicate. lia.
Qed.

Lemma batchDeleteWrite_gives_up name keys maxRetries w :
  WhitelistDataService.invalid_name name = false ->
  0 <= maxRetries ->
  Forall (fun k => DynamoDbService.invalid_length DynamoDbService.ValidSortKeyValueMinLen
                     DynamoDbService.ValidSortKeyValueMaxLen k = false) keys ->
  schedule w
  = replicate (List.length (DynamoDbService.chunkArray keys DynamoDbService.BatchWriteMaxItems)
               * S (Z.to_nat maxRetries)) leaves_all ->
  fst (DynamoDbService.batchDeleteWrite name keys maxRetries w) = inr tt
  /\ db (snd (DynamoDbService.batchDeleteWrite name keys maxRetries w)) = db w
  /\ schedule (snd (DynamoDbService.batchDeleteWrite name keys maxRetries w)) = []
  /\ slept (snd (DynamoDbService.batchDeleteWrite name keys maxRetries w))
     = slept w
       ++ concat (replicate
                    (List.length (DynamoDbService.chunkArray keys
                                    DynamoDbService.BatchWriteMaxItems))
                    (backoff (S (Z.to_nat maxRetries))))
  /\ List.length (log (snd (DynamoDbService.batchDeleteWrite name keys maxRetries w)))
     = (List.length (log w)
        + List.length (DynamoDbService.chunkArray keys DynamoDbService.BatchWriteMaxItems)
          * S (Z.to_nat maxRetries))%nat.
Proof.
  intros Hv Hm Hk Hw. unfold DynamoDbService.batchDeleteWrite.
  rewrite (check_partitionKeyValue_valid _ _ Hv).
  assert ((maxRetries <? 0) = false) as -> by lia.
  rewrite (every_sortKeyValue_None 0 keys Hk).
  destruct (chunkArray_spec keys) as [_ Hall].
  revert Hw Hall.
  generalize (DynamoDbService.chunkArray keys DynamoDbService.BatchWriteMaxItems).
  intros chunks Hw Hall.
  assert (forall (body : list string -> M unit) body',
            (forall c, body c = body' (DeleteRequest <$> c)) ->
            forall cs w, DynamoDbService.for_of cs body w
                         = DynamoDbService.for_of ((fun c : list string => DeleteRequest <$> c) <$> cs) body' w) as Hmap.
  { intros body body' Hb cs. induction cs as [|c cs IH]; intros w0; [done|].
    cbn [DynamoDbService.for_of fmap list_fmap]. unfold bind. rewrite Hb.
    destruct (body' _ w0) as [[e|[]] w1]; [done|]. apply IH. }
  rewrite (Hmap _ (fun chunk => DynamoDbService.unprocessed_loop
                                  DynamoDbService.unprocessed_of_delete name
                                  (Z.to_nat maxRetries) 0 chunk)) by done.
  pose proof (for_of_gives_up DynamoDbService.unprocessed_of_delete name
                (Z.to_nat maxRetries)
                ((fun c : list string => DeleteRequest <$> c) <$> chunks) w) as H.
  rewrite length_fmap in H. apply H; [done| |done].
  apply Forall_fmap. eapply Forall_impl; [exact Hall|]. intros c Hc. unfold compose.
  rewrite length_fmap. unfold DynamoDbService.BatchWriteMaxItems. cbv beta in Hc. lia.
Qed.

Lemma send_Served {A} (req : Request)
    (serve : Outcome -> Db -> (DynamoDBKind * string) + (A * Db)) w rest a d :
  schedule w = Served :: rest ->
  serve Served (db w) = inr (a, d) ->
  send req serve w
  = (inr a, mkWorld d rest (log w ++ [mkLogEntry req (roots (db w)) (roots d)]) (slept w)).
Proof.
  intros Hw Hs. rewrite send_step, (next_outcome_cons w _ _ Hw). cbn [fst].
  rewrite Hs. unfold step. by rewrite (next_outcome_cons w _ _ Hw).
Qed.

Lemma send_exhausted {A} (req : Request)
    (serve : Outcome -> Db -> (DynamoDBKind * string) + (A * Db)) w a d :
  schedule w = [] ->
  serve Served (db w) = inr (a, d) ->
  send req serve w
  = (inr a, mkWorld d [] (log w ++ [mkLogEntry req (roots (db w)) (roots d)]) (slept w)).
Proof.
  intros Hw Hs. rewrite send_step. unfold step, next_outcome. rewrite Hw. cbn [fst snd].
  by rewrite Hs.
Qed.

(** When the provider returns every key of every batch delete as
    unprocessed, [deleteMerkleTree] still returns normally: the roots row
    is deleted, and the proofs rows of the name stay. *)
Lemma deleteMerkleTree_leaves_proofs name root s w :
  WhitelistDataService.invalid_name name = false ->
  roots (db w) !! name = Some (MerkleRootRecord.mk root s) ->
  s = Completed \/ s = Failed ->
  well_keyed (db w) ->
  schedule w
  = Served :: Served :: Served
    :: replicate
         (List.length
            (DynamoDbService.chunkArray
               (snd <$> filter (fun kv : string * string * MerkleProofRecord.t =>
                                  fst (fst kv) = name) (map_to_list (proofs (db w))))
               DynamoDbService.BatchWriteMaxItems)
          * 4) leaves_all ->
  fst (WhitelistDataService.deleteMerkleTree name w) = inr tt
  /\ roots (db (snd (WhitelistDataService.deleteMerkleTree name w))) = delete name (roots (db w))
  /\ proofs (db (snd (WhitelistDataService.deleteMerkleTree name w))) = proofs (db w).
Proof.
  intros Hv Hrow Hs Hwk Hw.
  set (items := snd <$> filter (fun kv : string * string * MerkleProofRecord.t =>
                                  fst (fst kv) = name) (map_to_list (proofs (db w)))) in *.
  set (keys := MerkleProofRecord.WhitelistAddress <$> items).
  assert (List.length (DynamoDbService.chunkArray keys DynamoDbService.BatchWriteMaxItems)
          = List.length (DynamoDbService.chunkArray items DynamoDbService.BatchWriteMaxItems))
    as Hchunks.
  { unfold DynamoDbService.chunkArray, keys.
    rewrite !chunkArray_from_length, !length_fmap;
      unfold DynamoDbService.BatchWriteMaxItems; done || lia. }
  assert (exists w', WhitelistDataService.deleteMerkleTree name w = (inr tt, w')
                     /\ roots (db w') = delete name (roots (db w))
                     /\ proofs (db w') = proofs (db w)) as (w' & -> & Hr' & Hp'); [|done].
  unfold WhitelistDataService.deleteMerkleTree. rewrite Hv.
  unfold WhitelistDataService.rethrowing at 1, DynamoDbService.getItem.
  rewrite (check_partitionKeyValue_valid _ _ Hv).
  erewrite bind_inr; [|apply try_catch_inr; eapply send_Served; [exact Hw|reflexivity]].
  rewrite Hrow. cbn [MerkleRootRecord.WhitelistStatus MerkleRootRecord.MerkleRoot].
  assert (negb (bool_decide (s = Completed)) && negb (bool_decide (s = Failed)) = false)
    as ->.
  { destruct Hs as [-> | ->]; reflexivity. }
  unfold WhitelistDataService.rethrowing at 1, DynamoDbService.putItem.
  rewrite (check_partitionKeyValue_valid _ _ Hv).
  erewrite bind_inr;
    [|apply try_catch_inr; eapply send_Served; [reflexivity|];
      unfold DynamoDbClient.PutCommand_serve; cbn [db];
      rewrite Hrow; cbn; rewrite String.eqb_refl; destruct Hs as [-> | ->]; reflexivity].
  cbn [db roots proofs].
  unfold WhitelistDataService.delete_proofs_then_root, DynamoDbService.paginatedQuery,
    DynamoDbService.deleteItem.
  rewrite !(check_partitionKeyValue_valid _ _ Hv).
  match goal with |- context [try_catch ?m ?h ?w1] =>
    assert (exists w2, m w1 = (inr tt, w2)
                       /\ roots (db w2) = delete name (roots (db w))
                       /\ proofs (db w2) = proofs (db w)) as (w2 & E & Hr2 & Hp2)
  end.
  2:{ rewrite (try_catch_inr _ _ _ _ _ E). by exists w2. }
  erewrite bind_inr; [|eapply send_Served; [reflexivity|reflexivity]].
  cbn [db proofs roots]. fold items. fold keys.
  match goal with |- context [bind (DynamoDbService.batchDeleteWrite name keys ?n) ?k ?w1] =>
    destruct (batchDeleteWrite_gives_up name keys n w1) as (H1 & H2 & H3 & H4 & H5)
  end; [done|done| |by rewrite Hchunks|].
  { apply Forall_forall. intros k Hk. apply list_elem_of_fmap in Hk as (r & -> & Hr).
    apply query_rows in Hr as [a Ha]. destruct (Hwk name a r Ha) as [-> Hl]. exact Hl. }
  erewrite bind_inr; [|apply run_eq, H1].
  eexists. split; [eapply send_exhausted; [exact H3|reflexivity]|].
  cbn [db roots proofs]. rewrite H2. cbn [db roots proofs]. split; [|done].
  apply map_eq. intros n. destruct (decide (n = name)) as [->|Hn].
  - by rewrite !lookup_delete_eq.
  - by rewrite !lookup_delete_ne, lookup_insert_ne.
Qed.

(** ** The rendering of a bytes32 *)

Lemma Hex_digit_spec x :
  0 <= x < 16 ->
  is_hex_digit (Hex.digit x) = true /\ Hex.digit_value (Hex.digit x) = x.
Proof.
  intros H.
  assert (x = 0 \/ x = 1 \/ x = 2 \/ x = 3 \/ x = 4 \/ x = 5 \/ x = 6 \/ x = 7
          \/ x = 8 \/ x = 9 \/ x = 10 \/ x = 11 \/ x = 12 \/ x = 13 \/ x = 14 \/ x = 15)
    as Hx by lia.
  repeat (destruct Hx as [->|Hx]; [by vm_compute|]). subst x. by vm_compute.
Qed.

Lemma Hex_digits_length n v : List.length (Hex.digits n v) = n.
Proof. induction n as [|k IH]; [done|]. cbn [Hex.digits List.length]. by rewrite IH. Qed.

Lemma Hex_digits_hex n v : forallb is_hex_digit (Hex.digits n v) = true.
Proof.
  induction n as [|k IH]; [done|]. cbn [Hex.digits forallb]. rewrite IH, andb_true_r.
  apply Hex_digit_spec. change 15 with (Z.ones 4). rewrite Z.land_ones by lia.
  apply Z.mod_pos_bound. lia.
Qed.

Lemma Hex_value_digits n v :
  0 <= v -> Hex.value (Hex.digits n v) = v mod 16 ^ Z.of_nat n.
Proof.
  intros Hv. induction n as [|k IH].
  - cbn. by rewrite Z.mod_1_r.
  - cbn [Hex.digits]. rewrite Hex_value_cons, Hex_digits_length, IH.
    change 15 with (Z.ones 4). rewrite Z.land_ones by lia.
    rewrite Z.shiftr_div_pow2 by lia.
    replace (2 ^ (4 * Z.of_nat k)) with (16 ^ Z.of_nat k)
      by (rewrite Z.pow_mul_r by lia; reflexivity).
    rewrite (proj2 (Hex_digit_spec _ (Z.mod_pos_bound _ (2 ^ 4) ltac:(lia)))).
    rewrite Nat2Z.inj_succ, Z.pow_succ_r by lia.
    rewrite (Z.mul_comm 16), Z.rem_mul_r by lia.
    change (2 ^ 4) with 16. lia.
Qed.

(** Round trip: the string of a bytes32 is "0x" and 64 hex digits, and
    reads back as the bytes32. *)
Lemma parse32_hexlify32 h :
  0 <= h < 2 ^ 256 -> Hex.parse32 (Hex.hexlify32 h) = Some h.
Proof.
  intros Hh. unfold Hex.parse32, Hex.hexlify32. rewrite chars_str.
  assert (startsWith (str (chars "0x" ++ Hex.digits 64 h)) "0x" = true) as ->.
  { unfold startsWith. rewrite chars_str. by apply bool_decide_eq_true_2. }
  change (chars "0x") with ["0"%char; "x"%char].
  cbn [app drop List.length]. rewrite drop_0.
  rewrite Hex_digits_length, Hex_digits_hex. cbn [Nat.eqb andb].
  rewrite Hex_value_digits by lia. f_equal. apply Z.mod_small.
  change (16 ^ Z.of_nat 64) with (2 ^ 256). lia.
Qed.

(** ** The keys of the proofs rows *)

Lemma well_keyed_roots d (r : gmap string MerkleRootRecord.t) :
  well_keyed d -> well_keyed (mkDb r (proofs d)).
Proof. intros H n a x Hx. by apply (H n a x). Qed.

Lemma well_keyed_insert name item d :
  well_keyed d ->
  DynamoDbService.invalid_length DynamoDbService.ValidSortKeyValueMinLen
    DynamoDbService.ValidSortKeyValueMaxLen (MerkleProofRecord.WhitelistAddress item) = false ->
  well_keyed (mkDb (roots d)
                (<[(name, MerkleProofRecord.WhitelistAddress item) := item]> (proofs d))).
Proof.
  intros H Hitem n a x Hx. cbn [proofs] in Hx.
  destruct (decide ((name, MerkleProofRecord.WhitelistAddress item) = (n, a))) as [[= <- <-]|Hne].
  - rewrite lookup_insert_eq in Hx. by injection Hx as <-.
  - rewrite lookup_insert_ne in Hx by done. by apply (H n a x).
Qed.

Lemma well_keyed_delete name k d :
  well_keyed d -> well_keyed (mkDb (roots d) (delete (name, k) (proofs d))).
Proof.
  intros H n a x Hx. cbn [proofs] in Hx.
  destruct (decide ((name, k) = (n, a))) as [[= <- <-]|Hne].
  - by rewrite lookup_delete_eq in Hx.
  - rewrite lookup_delete_ne in Hx by done. by apply (H n a x).
Qed.

Lemma well_keyed_insert_records name records d :
  well_keyed d ->
  Forall (fun r => DynamoDbService.invalid_length DynamoDbService.ValidSortKeyValueMinLen
                     DynamoDbService.ValidSortKeyValueMaxLen
                     (MerkleProofRecord.WhitelistAddress r) = false) records ->
  well_keyed (mkDb (roots d) (insert_records name records (proofs d))).
Proof.
  intros Hd Hall. revert d Hd. induction Hall as [|r l Hr _ IH]; intros d Hd; [by destruct d|].
  rewrite insert_records_cons.
  pose proof (IH (mkDb (roots d)
                    (<[(name, MerkleProofRecord.WhitelistAddress r) := r]> (proofs d)))
                (well_keyed_insert name r d Hd Hr)) as H.
  exact H.
Qed.

Lemma well_keyed_list_to_map name records (r : gmap string MerkleRootRecord.t) :
  Forall (fun x => DynamoDbService.invalid_length DynamoDbService.ValidSortKeyValueMinLen
                     DynamoDbService.ValidSortKeyValueMaxLen
                     (MerkleProofRecord.WhitelistAddress x) = false) records ->
  well_keyed (mkDb r (list_to_map
                        ((fun x => ((name, MerkleProofRecord.WhitelistAddress x), x))
                           <$> records))).
Proof.
  intros Hall. induction Hall as [|x l Hx _ IH].
  - intros n a y Hy. cbn in Hy. by rewrite lookup_empty in Hy.
  - exact (well_keyed_insert name x _ IH Hx).
Qed.

Lemma well_keyed_batch name items d :
  well_keyed d ->
  Forall (fun r => DynamoDbService.invalid_length DynamoDbService.ValidSortKeyValueMinLen
                     DynamoDbService.ValidSortKeyValueMaxLen
                     (MerkleProofRecord.WhitelistAddress r) = false) items ->
  well_keyed (snd (DynamoDbClient.BatchExecuteStatementInsert_run name items d)).
Proof.
  intros Hd Hall. revert d Hd. induction Hall as [|r l Hr _ IH]; intros d Hd; [done|].
  cbn [DynamoDbClient.BatchExecuteStatementInsert_run].
  destruct (proofs d !! _).
  - specialize (IH d Hd).
    by destruct (DynamoDbClient.BatchExecuteStatementInsert_run name l d).
  - specialize (IH _ (well_keyed_insert name r d Hd Hr)).
    by destruct (DynamoDbClient.BatchExecuteStatementInsert_run name l _).
Qed.

Lemma select_elem {A} mask (l : list A) x : x ∈ select mask l -> x ∈ l.
Proof.
  unfold select. intros H. apply list_elem_of_fmap in H as ([y b] & -> & H).
  apply list_elem_of_filter in H as [_ H]. cbn [fst].
  apply list_elem_of_lookup in H as [i Hi]. apply lookup_zip_with_Some in Hi.
  destruct Hi as (y' & b' & [= <- <-] & Hy & _). by eapply list_elem_of_lookup_2.
Qed.

Lemma well_keyed_deletes name d requests :
  well_keyed d -> Forall (fun r => exists k, r = DeleteRequest k) requests ->
  well_keyed (foldl (apply_write name) d requests).
Proof.
  intros Hd Hall. revert d Hd. induction Hall as [|r l [k ->] _ IH]; intros d Hd; [done|].
  cbn [foldl apply_write]. by apply IH, well_keyed_delete.
Qed.

Lemma keeps_well_keyed_loop name retriesLeft retryCount command :
  Forall (fun r => exists k, r = DeleteRequest k) command ->
  keeps (fun w => well_keyed (db w))
    (DynamoDbService.unprocessed_loop DynamoDbService.unprocessed_of_delete
       name retriesLeft retryCount command).
Proof.
  revert retryCount command.
  assert (forall mask command,
            Forall (fun r : WriteRequest => exists k, r = DeleteRequest k) command ->
            Forall (fun r : WriteRequest => exists k, r = DeleteRequest k) (select mask command))
    as Hsel.
  { intros mask command H. apply Forall_forall. intros x Hx.
    apply select_elem in Hx. by apply (proj1 (Forall_forall _ _) H). }
  induction retriesLeft as [|k IH]; intros retryCount command Hc;
    cbn [DynamoDbService.unprocessed_loop];
    (apply keeps_bind;
     [apply (keeps_send well_keyed); intros o d a d' Hd E;
      unfold DynamoDbClient.BatchWriteCommand_serve in E; injection E as _ <-;
      by apply well_keyed_deletes, Hsel|]);
    intros response;
    (destruct (DynamoDbService.unprocessed_of_delete response command) as [e|items] eqn:Er;
     [apply keeps_throw|]);
    (apply keeps_bind; [apply (keeps_waitMs well_keyed)|]); intros _;
    destruct (0 <? _)%nat eqn:E; try apply keeps_ret.
  apply IH. destruct response; cbn in Er; injection Er as <-; try done. by apply Hsel.
Qed.

Lemma keeps_well_keyed_data_deleteMerkleTree name :
  keeps (fun w => well_keyed (db w)) (WhitelistDataService.deleteMerkleTree name).
Proof.
  assert (forall n record condition,
            keeps (fun w => well_keyed (db w)) (DynamoDbService.putItem n record condition))
    as Hput.
  { intros n record condition. apply keeps_check_partitionKeyValue.
    apply (keeps_send well_keyed). intros o d a d' H E.
    unfold DynamoDbClient.PutCommand_serve in E.
    destruct (match condition with Some c => _ | None => _ end); [|done]. injection E as _ <-.
    by apply well_keyed_roots. }
  unfold WhitelistDataService.deleteMerkleTree.
  destruct (WhitelistDataService.invalid_name name); [apply keeps_throw|].
  apply keeps_bind.
  { apply keeps_rethrowing, keeps_check_partitionKeyValue.
    apply (keeps_send well_keyed). intros o d a d' H E.
    unfold DynamoDbClient.GetCommandRoot_serve in E. by injection E as _ <-. }
  intros [item|]; [|apply keeps_throw].
  destruct (_ && _); [apply keeps_throw|].
  apply keeps_bind; [apply keeps_rethrowing, Hput|]. intros _.
  apply keeps_try_catch.
  - unfold WhitelistDataService.delete_proofs_then_root.
    apply keeps_bind.
    { apply keeps_check_partitionKeyValue.
      apply (keeps_send well_keyed). intros o d a d' H E.
      unfold DynamoDbClient.QueryCommand_serve in E. by injection E as _ <-. }
    intros items. apply keeps_bind.
    { apply keeps_check_partitionKeyValue.
      destruct (_ <? 0); [apply keeps_throw|].
      destruct (DynamoDbService.every_sortKeyValue 0 _); [apply keeps_throw|].
      apply keeps_for_of. intros chunk. apply keeps_well_keyed_loop.
      apply Forall_fmap, Forall_forall. intros k _. by exists k. }
    intros _. apply keeps_check_partitionKeyValue.
    apply (keeps_send well_keyed). intros o d a d' H E.
    unfold DynamoDbClient.DeleteCommand_serve in E. injection E as _ <-.
    by apply well_keyed_roots.
  - intros e. apply keeps_bind; [apply Hput|]. intros _. apply keeps_throw.
Qed.

Lemma keeps_well_keyed_data_createMerkleTree name root records :
  Forall (fun r => DynamoDbService.invalid_length DynamoDbService.ValidSortKeyValueMinLen
                     DynamoDbService.ValidSortKeyValueMaxLen
                     (MerkleProofRecord.WhitelistAddress r) = false) records ->
  keeps (fun w => well_keyed (db w)) (WhitelistDataService.createMerkleTree name root records).
Proof.
  intros Hall.
  assert (forall n record condition,
            keeps (fun w => well_keyed (db w)) (DynamoDbService.putItem n record condition))
    as Hput.
  { intros n record condition. apply keeps_check_partitionKeyValue.
    apply (keeps_send well_keyed). intros o d a d' H E.
    unfold DynamoDbClient.PutCommand_serve in E.
    destruct (match condition with Some c => _ | None => _ end); [|done]. injection E as _ <-.
    by apply well_keyed_roots. }
  unfold WhitelistDataService.createMerkleTree.
  destruct (WhitelistDataService.invalid_name name); [apply keeps_throw|].
  apply keeps_bind.
  { apply keeps_rethrowing, keeps_check_partitionKeyValue.
    apply (keeps_send well_keyed). intros o d a d' H E.
    unfold DynamoDbClient.ExecuteStatementInsert_serve in E.
    destruct (roots d !! name); [done|]. injection E as _ <-. by apply well_keyed_roots. }
  intros _. apply keeps_bind.
  - apply keeps_try_catch.
    + apply keeps_check_partitionKeyValue. 
      destruct (chunkArray_from_spec (List.length records) records
                  DynamoDbService.BatchExecuteMaxItems) as [Hc _];
        [unfold DynamoDbService.BatchExecuteMaxItems; lia|done|].
      fold (DynamoDbService.chunkArray records DynamoDbService.BatchExecuteMaxItems) in Hc.
      rewrite <- Hc in Hall. revert Hall.
      generalize (DynamoDbService.chunkArray records DynamoDbService.BatchExecuteMaxItems).
      intros chunks Hall. induction chunks as [|c cs IH]; cbn [DynamoDbService.for_of].
      * apply keeps_ret.
      * cbn [concat] in Hall. apply Forall_app in Hall as [Hc' Hcs].
        apply keeps_bind; [|intros _; by apply IH].
        apply keeps_bind.
        -- apply (keeps_send well_keyed). intros o d a d' H E.
           unfold DynamoDbClient.BatchExecuteStatementInsert_serve in E.
           pose proof (well_keyed_batch name c d H Hc') as H'.
           destruct (DynamoDbClient.BatchExecuteStatementInsert_run name c d).
           by injection E as _ <-.
        -- intros responses. cbv zeta. destruct (negb _); [apply keeps_throw|apply keeps_ret].
    + intros e. apply keeps_bind; [apply Hput|]. intros _. apply keeps_throw.
  - intros _. apply keeps_rethrowing, Hput.
Qed.

Section RoundTrip.
Context (keccak256 : bytes -> Z).
Hypothesis keccak256_range : forall msg, 0 <= keccak256 msg < 2 ^ 256.

(** The addresses of the records of the builder have 42 characters. *)
Lemma buildMerkleTree_keys es root records :
  CommandServiceBuilder.validateEntries keccak256 es = inr tt ->
  CommandServiceBuilder.buildMerkleTree keccak256 es = inr (root, records) ->
  Forall (fun r => DynamoDbService.invalid_length DynamoDbService.ValidSortKeyValueMinLen
                     DynamoDbService.ValidSortKeyValueMaxLen
                     (MerkleProofRecord.WhitelistAddress r) = false) records.
Proof.
  intros Hg Hb. destruct (validateEntries_inr keccak256 es Hg) as [_ Hacc].
  destruct es as [|e0 es0] eqn:Ees.
  { vm_compute in Hb. discriminate Hb. }
  rewrite <- Ees in *.
  destruct (buildMerkleTree_round_trip keccak256 keccak256_range es Hacc)
    as (rootZ & records' & Hb' & _ & Hlen & Hall); [by rewrite Ees|].
  rewrite Hb in Hb'. injection Hb' as _ <-.
  apply Forall_lookup. intros i r Hr.
  destruct (lookup_lt_is_Some_2 es i) as [e He].
  { rewrite <- Hlen. by eapply lookup_lt_Some. }
  destruct (Hall i e He) as (a & w & siblings & Ha & Hr' & _).
  rewrite Hr in Hr'. injection Hr' as ->. cbn [MerkleProofRecord.WhitelistAddress].
  destruct Ha as (_ & _ & _ & Hga & _).
  destruct (normalized_valid keccak256 _ a Hga) as [Hl _].
  unfold DynamoDbService.invalid_length. rewrite Hl. reflexivity.
Qed.

(** Whatever the provider does, the operations keep the proofs rows
    keyed by their own addresses. *)
Lemma well_keyed_createMerkleTree name es w :
  well_keyed (db w) ->
  well_keyed (db (snd (WhitelistCommandService.createMerkleTree keccak256 name es w))).
Proof.
  intros Hw. unfold WhitelistCommandService.createMerkleTree.
  destruct (invalid_whitelistName name); [done|].
  destruct (CommandServiceBuilder.validateEntries keccak256 es) as [e|[]] eqn:Hg; [done|].
  destruct (CommandServiceBuilder.buildMerkleTree keccak256 es) as [e|[root records]] eqn:Hb;
    [done|].
  apply (keeps_well_keyed_data_createMerkleTree name root records); [|done].
  by apply (buildMerkleTree_keys es root).
Qed.

(** Create, then delete: the tables are as before. *)
Lemma createMerkleTree_then_deleteMerkleTree name es d :
  invalid_whitelistName name = false ->
  CommandServiceBuilder.validateEntries keccak256 es = inr tt ->
  es <> [] ->
  roots d !! name = None ->
  (forall a, proofs d !! (name, a) = None) ->
  well_keyed d ->
  exists d',
    succeeds (WhitelistCommandService.createMerkleTree keccak256 name es) d tt d'
    /\ (exists root, roots d' !! name = Some (MerkleRootRecord.mk root Completed))
    /\ succeeds (WhitelistCommandService.deleteMerkleTree name) d' tt d.
Proof.
  intros Hn Hg Hne Hroot Hproofs Hwk.
  pose proof (invalid_whitelistName_invalid_name name Hn) as Hv.
  destruct (validateEntries_inr keccak256 es Hg) as [_ Hacc].
  destruct (validateEntries_NoDup keccak256 es Hg) as (l & Hl & Hnd).
  destruct (buildMerkleTree_round_trip keccak256 keccak256_range es Hacc Hne)
    as (rootZ & records & Hb & Hrange & Hlen & Hall).
  pose proof (buildMerkleTree_addresses keccak256 keccak256_range es l _ records
                Hacc Hne Hl Hb) as Haddr.
  pose proof (buildMerkleTree_keys es _ records Hg Hb) as Hkeys.
  set (d' := mkDb (<[name := MerkleRootRecord.mk (Hex.hexlify32 rootZ) Completed]> (roots d))
                  (insert_records name records (proofs d))).
  exists d'. split.
  { unfold WhitelistCommandService.createMerkleTree. rewrite Hn, Hg, Hb.
    apply succeeds_data_createMerkleTree; [done|done|by rewrite Haddr|].
    apply Forall_forall. intros r _. apply Hproofs. }
  split; [eexists; apply lookup_insert_eq|].
  destruct (deleteMerkleTree_deletes name (Hex.hexlify32 rootZ) Completed d' Hv)
    as (d2 & Hdel & Hr2 & Hp2 & Hr & Hp); [apply lookup_insert_eq|by left| |].
  { apply (well_keyed_roots (mkDb (roots d) (insert_records name records (proofs d)))).
    by apply well_keyed_insert_records. }
  unfold WhitelistCommandService.deleteMerkleTree. rewrite Hn.
  assert (d2 = d) as <-; [|exact Hdel].
  destruct d2 as [r2 p2], d as [r p]. cbn [roots proofs] in *. f_equal.
  - apply map_eq. intros n. destruct (decide (n = name)) as [->|Hnn].
    + by rewrite Hr2, Hroot.
    + rewrite (Hr n Hnn). subst d'. cbn [roots]. by apply lookup_insert_ne.
  - apply map_eq. intros [n a]. destruct (decide (n = name)) as [->|Hnn].
    + by rewrite Hp2, Hproofs.
    + rewrite (Hp n a Hnn). subst d'. cbn [proofs]. by apply insert_records_other.
Qed.

End RoundTrip.

Lemma well_keyed_run_operations ops w :
  well_keyed (db w) -> well_keyed (db (run_operations ops w)).
Proof.
  revert w. induction ops as [|op ops IH]; intros w Hw; [done|].
  unfold run_operations. cbn [foldl]. fold (run_operations ops). apply IH.
  destruct op as [n es|n]; cbn [run_operation].
  - by apply (well_keyed_createMerkleTree Keccak.keccak256 Keccak_keccak256_range).
  - unfold WhitelistCommandService.deleteMerkleTree.
    destruct (invalid_whitelistName n); [done|].
    by apply (keeps_well_keyed_data_deleteMerkleTree n).
Qed.

(** ** The contract *)

Lemma Contract_after_not_owner st tx :
  fst tx <> Contract.owner st -> Contract.after st tx = st.
Proof.
  intros H. unfold Contract.after, Contract.execute.
  assert (negb (Contract.owner st =? fst tx) = true) as E
    by (apply negb_true_iff, Z.eqb_neq; congruence).
  destruct (snd tx);
    unfold Contract.updateRoot, Contract.transferOwnership, Contract.renounceOwnership,
      Contract.onlyOwner; by rewrite E.
Qed.

Lemma Contract_run_not_owner txs st :
  Forall (fun tx => fst tx <> Contract.owner st) txs -> Contract.run txs st = st.
Proof.
  intros H. induction H as [|tx txs Htx _ IH]; [done|].
  unfold Contract.run. cbn [foldl]. rewrite (Contract_after_not_owner st tx Htx). exact IH.
Qed.

Lemma Contract_root_moves st tx :
  Contract.merkleRoot (Contract.after st tx) <> Contract.merkleRoot st ->
  fst tx = Contract.owner st
  /\ snd tx = Contract.UpdateRoot (Contract.merkleRoot (Contract.after st tx))
  /\ Contract.execute (fst tx) (snd tx) st
     = inr ([Contract.RootChange (Contract.merkleRoot st)
               (Contract.merkleRoot (Contract.after st tx))],
            Contract.after st tx).
Proof.
  destruct tx as [sender c]. cbn [fst snd].
  destruct (Z.eq_dec sender (Contract.owner st)) as [->|Hne].
  2:{ by rewrite (Contract_after_not_owner st (sender, c)). }
  unfold Contract.after, Contract.execute. cbn [fst snd].
  destruct c as [newRoot|newOwner|];
    unfold Contract.updateRoot, Contract.transferOwnership, Contract.renounceOwnership,
      Contract.onlyOwner; rewrite Z.eqb_refl; cbn [negb]; try done.
  destruct (newOwner =? 0); done.
Qed.

Section ContractProofs.
Context (keccak256 : bytes -> Z).

Lemma Contract_updateRoot_invalidates st newRoot whitelistAddress whitelistAmountWei proof :
  Contract.isWhitelistedFor keccak256 st whitelistAddress whitelistAmountWei proof = inr true ->
  newRoot <> Contract.merkleRoot st ->
  exists st',
    Contract.updateRoot (Contract.owner st) newRoot st
    = inr ([Contract.RootChange (Contract.merkleRoot st) newRoot], st')
    /\ Contract.owner st' = Contract.owner st
    /\ Contract.merkleRoot st' = newRoot
    /\ Contract.isWhitelistedFor keccak256 st' whitelistAddress whitelistAmountWei proof
       = inl "MTWL: invalid proof"%string.
Proof.
  intros Hok Hne. eexists. split.
  { unfold Contract.updateRoot, Contract.onlyOwner. rewrite Z.eqb_refl. reflexivity. }
  cbn [Contract.owner Contract.merkleRoot]. repeat split.
  unfold Contract.isWhitelistedFor, MerkleTreeWhitelist.isWhitelistedFor in *.
  cbn [Contract.merkleRoot].
  destruct (whitelistAddress =? 0); [done|].
  unfold MerkleTreeWhitelist.verify in *.
  destruct (Z.eqb_spec
              (MerkleTreeWhitelist.processProof keccak256 proof
                 (keccak256 (be_bytes 32 (keccak256
                    (MerkleTreeWhitelist.abi_encode whitelistAddress whitelistAmountWei)))))
              (Contract.merkleRoot st)) as [E|]; [|done].
  rewrite E. by rewrite (proj2 (Z.eqb_neq _ _)) by congruence.
Qed.

End ContractProofs.

(** ** The authorization of a route *)

Lemma includes_spec array element : Handler.includes array element = true <-> element ∈ array.
Proof.
  unfold Handler.includes. rewrite existsb_exists. split.
  - intros (x & Hx & E). apply String.eqb_eq in E as ->. by apply list_elem_of_In.
  - intros H. exists element. split; [by apply list_elem_of_In|apply String.eqb_refl].
Qed.

Lemma isUserAuthorized_spec authorizedGroups groupMemberships :
  Handler.isUserAuthorized authorizedGroups groupMemberships = true
  <-> authorizedGroups = []
      \/ exists group, group ∈ authorizedGroups /\ group ∈ groupMemberships.
Proof.
  unfold Handler.isUserAuthorized.
  destruct authorizedGroups as [|g gs]; [by split; [left|]|]. cbn [List.length Nat.eqb].
  destruct groupMemberships as [|m ms]; cbn [List.length Nat.eqb].
  - split; [done|]. intros [H|(group & _ & H)]; [done|]. by apply elem_of_nil in H.
  - rewrite existsb_exists. split.
    + intros (x & Hx & E). right. exists x. split; [by apply list_elem_of_In|].
      by apply includes_spec.
    + intros [H|(group & H1 & H2)]; [done|]. exists group.
      split; [by apply list_elem_of_In|by apply includes_spec].
Qed.

(** ** The root of a tree *)

Lemma getMerkleRoot_invalid name w :
  invalid_whitelistName name = true ->
  WhitelistQueryService.getMerkleRoot name w
  = (inl (ValidationError ("[ERR] Invalid whitelist name: " +:+ name)), w).
Proof. intros H. unfold WhitelistQueryService.getMerkleRoot. by rewrite H. Qed.

Lemma getMerkleRoot_served name w :
  invalid_whitelistName name = false ->
  is_served (fst (next_outcome w)) = true ->
  WhitelistQueryService.getMerkleRoot name w
  = (inr (roots (db w) !! name), step w (GetCommandRoot name) (db w)).
Proof.
  intros Hn Hs. pose proof (invalid_whitelistName_invalid_name name Hn) as Hv.
  unfold WhitelistQueryService.getMerkleRoot, WhitelistDataService.getMerkleRoot.
  rewrite Hn, Hv. exact (getItem_run name w Hv Hs).
Qed.

Lemma getMerkleRoot_raised name w kind message :
  invalid_whitelistName name = false ->
  fst (next_outcome w) = Raises kind message ->
  WhitelistQueryService.getMerkleRoot name w
  = (inl (WhitelistDataService.rethrow (DynamoDBServiceException kind message)),
     step w (GetCommandRoot name) (db w)).
Proof.
  intros Hn Ho. pose proof (invalid_whitelistName_invalid_name name Hn) as Hv.
  unfold WhitelistQueryService.getMerkleRoot, WhitelistDataService.getMerkleRoot.
  rewrite Hn, Hv.
  unfold WhitelistDataService.rethrowing, try_catch, DynamoDbService.getItem.
  rewrite (check_partitionKeyValue_valid _ _ Hv), send_step, Ho. reflexivity.
Qed.

(** ** Puts in batches, when the answer has no field of unprocessed items *)

Lemma foldl_apply_write_put name d records :
  foldl (apply_write name) d (PutRequest <$> records)
  = mkDb (roots d) (insert_records name records (proofs d)).
Proof.
  revert d. induction records as [|r l IH]; intros d; [by destruct d|].
  cbn [fmap list_fmap foldl]. fold (fmap PutRequest l).
  rewrite IH. reflexivity.
Qed.

Lemma unprocessed_loop_put_absent name n c command w rest :
  schedule w = ServedLeaving FieldAbsent :: rest ->
  DynamoDbService.unprocessed_loop DynamoDbService.unprocessed_of_put name n c command w
  = (inr tt,
     mkWorld (foldl (apply_write name) (db w) command) rest
       (log w ++ [mkLogEntry (BatchWriteCommand name command) (roots (db w))
                    (roots (foldl (apply_write name) (db w) command))])
       (slept w ++ [DynamoDbService.BatchWriteDefaultMinTimeoutMs
                    * DynamoDbService.BatchWriteDefaultExponentialFactor ^ c])).
Proof.
  intros Hw.
  assert (send (BatchWriteCommand name command)
            (DynamoDbClient.BatchWriteCommand_serve name command) w
          = (inr FieldAbsent,
             step w (BatchWriteCommand name command)
               (foldl (apply_write name) (db w) command))) as Hsend.
  { rewrite send_step, (next_outcome_cons w _ _ Hw). cbn [fst].
    by rewrite BatchWriteCommand_serve_all by tauto. }
  destruct n; cbn [DynamoDbService.unprocessed_loop];
    rewrite (bind_inr _ _ w _ _ Hsend); cbn [DynamoDbService.unprocessed_of_put List.length];
    unfold bind, waitMs, step; cbn; by rewrite (next_outcome_cons w _ _ Hw).
Qed.

Lemma put_chunks_absent name n (chunks : list (list MerkleProofRecord.t)) w rest :
  schedule w = replicate (List.length chunks) (ServedLeaving FieldAbsent) ++ rest ->
  let body := fun chunk : list MerkleProofRecord.t =>
    DynamoDbService.unprocessed_loop DynamoDbService.unprocessed_of_put name n 0
      (PutRequest <$> chunk) in
  fst (DynamoDbService.for_of chunks body w) = inr tt
  /\ db (snd (DynamoDbService.for_of chunks body w))
     = mkDb (roots (db w)) (insert_records name (concat chunks) (proofs (db w)))
  /\ schedule (snd (DynamoDbService.for_of chunks body w)) = rest
  /\ List.length (log (snd (DynamoDbService.for_of chunks body w)))
     = (List.length (log w) + List.length chunks)%nat.
Proof.
  intros Hw body. revert w Hw. induction chunks as [|c cs IH]; intros w Hw.
  - cbn in *. destruct (db w). rewrite Hw. repeat split; lia.
  - cbn [DynamoDbService.for_of List.length replicate app concat] in *.
    unfold body at 1 3 5 7.
    rewrite (bind_inr _ _ w _ _ (unprocessed_loop_put_absent name _ 0 _ w _ Hw)).
    fold body.
    match goal with |- context [DynamoDbService.for_of cs body ?w1] =>
      destruct (IH w1 eq_refl) as (H1 & H2 & H3 & H4)
    end.
    rewrite H1, H2, H3, H4. cbn [db log]. rewrite foldl_apply_write_put. cbn [roots proofs].
    rewrite insert_records_app, length_app. cbn [List.length]. repeat split; lia.
Qed.

Lemma batchPutWrite_absent name records maxRetries w rest :
  WhitelistDataService.invalid_name name = false ->
  0 <= maxRetries ->
  schedule w
  = replicate (List.length (DynamoDbService.chunkArray records
                              DynamoDbService.BatchWriteMaxItems))
      (ServedLeaving FieldAbsent) ++ rest ->
  fst (DynamoDbService.batchPutWrite name records maxRetries w) = inr tt
  /\ db (snd (DynamoDbService.batchPutWrite name records maxRetries w))
     = mkDb (roots (db w)) (insert_records name records (proofs (db w)))
  /\ schedule (snd (DynamoDbService.batchPutWrite name records maxRetries w)) = rest
  /\ List.length (log (snd (DynamoDbService.batchPutWrite name records maxRetries w)))
     = (List.length (log w)
        + List.length (DynamoDbService.chunkArray records DynamoDbService.BatchWriteMaxItems))%nat.
Proof.
  intros Hv Hm Hw. unfold DynamoDbService.batchPutWrite.
  rewrite (check_partitionKeyValue_valid _ _ Hv).
  assert ((maxRetries <? 0) = false) as -> by lia.
  destruct (chunkArray_spec records) as [Hc _].
  pose proof (put_chunks_absent name (Z.to_nat maxRetries)
                (DynamoDbService.chunkArray records DynamoDbService.BatchWriteMaxItems)
                w rest Hw) as H.
  cbv zeta in H. by rewrite Hc in H.
Qed.

(** ** A bulk insert that meets a row *)

Lemma BatchExecuteStatementInsert_run_facts name items d :
  roots (snd (DynamoDbClient.BatchExecuteStatementInsert_run name items d)) = roots d
  /\ (forall k r, proofs d !! k = Some r ->
        proofs (snd (DynamoDbClient.BatchExecuteStatementInsert_run name items d)) !! k
        = Some r)
  /\ (forallb (fun response : option string =>
                 match response with Some _ => false | None => true end)
        (fst (DynamoDbClient.BatchExecuteStatementInsert_run name items d)) = true ->
      NoDup (MerkleProofRecord.WhitelistAddress <$> items)
      /\ Forall (fun r => proofs d !! (name, MerkleProofRecord.WhitelistAddress r) = None)
           items).
Proof.
  revert d. induction items as [|x l IH]; intros d.
  - cbn. repeat split; try done. constructor.
  - cbn [DynamoDbClient.BatchExecuteStatementInsert_run].
    destruct (proofs d !! (name, MerkleProofRecord.WhitelistAddress x)) as [y|] eqn:Ex.
    + destruct (IH d) as (Hr & Hp & _).
      destruct (DynamoDbClient.BatchExecuteStatementInsert_run name l d) as [rs d'].
      cbn [fst snd forallb] in *. repeat split; try done.
    + destruct (IH (mkDb (roots d)
                      (<[(name, MerkleProofRecord.WhitelistAddress x) := x]> (proofs d))))
        as (Hr & Hp & Hall).
      destruct (DynamoDbClient.BatchExecuteStatementInsert_run name l _) as [rs d'].
      cbn [fst snd forallb roots proofs] in *. split; [done|]. split.
      * intros k r Hk. apply Hp. rewrite lookup_insert_ne; [done|]. congruence.
      * intros Hrs. destruct (Hall Hrs) as [Hnd Hnew]. split.
        -- rewrite fmap_cons. apply NoDup_cons. split; [|done].
           intros Hin. apply list_elem_of_fmap in Hin as (r & Er & Hin).
           pose proof (proj1 (Forall_forall _ _) Hnew r Hin) as Hnone. cbn beta in Hnone.
           by rewrite <- Er, lookup_insert_eq in Hnone.
        -- constructor; [done|]. apply Forall_forall. intros r Hin.
           pose proof (proj1 (Forall_forall _ _) Hnew r Hin) as Hnone. cbn beta in Hnone.
           destruct (decide ((name, MerkleProofRecord.WhitelistAddress x)
                             = (name, MerkleProofRecord.WhitelistAddress r))) as [E|Hne].
           ++ by rewrite <- E, lookup_insert_eq in Hnone.
           ++ by rewrite lookup_insert_ne in Hnone.
Qed.

Lemma insert_chunks_outcome name chunks w :
  serves_in_full w ->
  let body := fun chunk =>
    bind (send (BatchExecuteStatementInsert name chunk)
            (DynamoDbClient.BatchExecuteStatementInsert_serve name chunk))
      (fun responses =>
         let hasNoError := forallb (fun response : option string =>
                                      match response with
                                      | Some _ => false
                                      | None => true
                                      end) responses in
         if negb hasNoError
         then throw (Error_ "Error"
                       ("[ERR] batch execute statement command error: "
                        +:+ join ", " ((fun response : option string =>
                                          default ""%string response) <$> responses)))
         else ret tt) in
  serves_in_full (snd (DynamoDbService.for_of chunks body w))
  /\ roots (db (snd (DynamoDbService.for_of chunks body w))) = roots (db w)
  /\ (forall k r, proofs (db w) !! k = Some r ->
        proofs (db (snd (DynamoDbService.for_of chunks body w))) !! k = Some r)
  /\ (fst (DynamoDbService.for_of chunks body w) = inr tt
      /\ NoDup (MerkleProofRecord.WhitelistAddress <$> concat chunks)
      /\ Forall (fun r => proofs (db w) !! (name, MerkleProofRecord.WhitelistAddress r) = None)
           (concat chunks)
      \/ exists msg, fst (DynamoDbService.for_of chunks body w) = inl (Error_ "Error" msg)).
Proof.
  intros Hw body. revert w Hw. induction chunks as [|c cs IH]; intros w Hw.
  - cbn. repeat split; try done. left. repeat split; constructor.
  - cbn [DynamoDbService.for_of concat].
    destruct (serves_in_full_next w Hw) as [Ho Hrest].
    destruct (BatchExecuteStatementInsert_run_facts name c (db w)) as (Hr & Hp & Hall).
    assert (send (BatchExecuteStatementInsert name c)
              (DynamoDbClient.BatchExecuteStatementInsert_serve name c) w
            = (inr (fst (DynamoDbClient.BatchExecuteStatementInsert_run name c (db w))),
               step w (BatchExecuteStatementInsert name c)
                 (snd (DynamoDbClient.BatchExecuteStatementInsert_run name c (db w)))))
      as Hsend.
    { rewrite send_step. unfold DynamoDbClient.BatchExecuteStatementInsert_serve.
      destruct (DynamoDbClient.BatchExecuteStatementInsert_run name c (db w)).
      by destruct (fst (next_outcome w)) as [| |[]]. }
    assert (body c w
            = if forallb (fun response : option string =>
                            match response with Some _ => false | None => true end)
                   (fst (DynamoDbClient.BatchExecuteStatementInsert_run name c (db w)))
              then (inr tt,
                    step w (BatchExecuteStatementInsert name c)
                      (snd (DynamoDbClient.BatchExecuteStatementInsert_run name c (db w))))
              else (inl (Error_ "Error"
                           ("[ERR] batch execute statement command error: "
                            +:+ join ", "
                                  ((fun response : option string => default ""%string response)
                                     <$> fst (DynamoDbClient.BatchExecuteStatementInsert_run
                                                name c (db w))))),
                    step w (BatchExecuteStatementInsert name c)
                      (snd (DynamoDbClient.BatchExecuteStatementInsert_run name c (db w)))))
      as Ebody.
    { unfold body. rewrite (bind_inr _ _ w _ _ Hsend). cbv zeta.
      destruct (forallb _ (fst (DynamoDbClient.BatchExecuteStatementInsert_run name c (db w))));
        reflexivity. }
    destruct (forallb _ (fst (DynamoDbClient.BatchExecuteStatementInsert_run name c (db w))))
      eqn:Eall.
    2:{ rewrite (bind_inl _ _ w _ _ Ebody). cbn [fst snd step db].
        split; [exact Hrest|]. split; [exact Hr|]. split; [exact Hp|]. right. eauto. }
    rewrite (bind_inr _ _ w _ _ Ebody).
    specialize (IH (step w (BatchExecuteStatementInsert name c)
                      (snd (DynamoDbClient.BatchExecuteStatementInsert_run name c (db w))))
                  Hrest).
    cbn [step db] in IH. destruct IH as (H1 & H2 & H3 & H4).
    split; [exact H1|]. split; [by rewrite H2|].
    split; [intros k r Hk; by apply H3, Hp|].
    destruct H4 as [(Hok & Hnd & Hnew)|Hfail]; [left|by right].
    split; [exact Hok|]. destruct (Hall eq_refl) as [Hndc Hnewc].
    split.
    * rewrite fmap_app. apply NoDup_app. split; [done|]. split; [|done].
      intros a Hac Hal. apply list_elem_of_fmap in Hac as (x & -> & Hx).
      apply list_elem_of_fmap in Hal as (y & Ey & Hy).
      pose proof (proj1 (Forall_forall _ _) Hnew y Hy) as Hnone. cbn beta in Hnone.
      rewrite <- Ey in Hnone.
      rewrite (BatchExecuteStatementInsert_run_new name c (db w) Hndc Hnewc) in Hnone.
      cbn [snd proofs] in Hnone.
      destruct (list_elem_of_lookup_1 _ _ Hx) as [i Hi].
      by rewrite (insert_records_lookup name c _ i x Hndc Hi) in Hnone.
    * apply Forall_app. split; [done|]. apply Forall_forall. intros y Hy.
      pose proof (proj1 (Forall_forall _ _) Hnew y Hy) as Hnone. cbn beta in Hnone.
      destruct (proofs (db w) !! (name, MerkleProofRecord.WhitelistAddress y)) as [z|] eqn:Ez;
        [|done].
      by rewrite (Hp _ _ Ez) in Hnone.
Qed.

Lemma createMerkleTree_meets_a_row name root records w :
  WhitelistDataService.invalid_name name = false ->
  roots (db w) !! name = None ->
  serves_in_full w ->
  ~ (NoDup (MerkleProofRecord.WhitelistAddress <$> records)
     /\ Forall (fun r => proofs (db w) !! (name, MerkleProofRecord.WhitelistAddress r) = None)
          records) ->
  (exists msg,
     fst (WhitelistDataService.createMerkleTree name root records w)
     = inl (Error_ "Error" msg))
  /\ roots (db (snd (WhitelistDataService.createMerkleTree name root records w))) !! name
     = Some (MerkleRootRecord.mk root Failed)
  /\ (forall n, n <> name ->
        roots (db (snd (WhitelistDataService.createMerkleTree name root records w))) !! n
        = roots (db w) !! n)
  /\ (forall k r, proofs (db w) !! k = Some r ->
        proofs (db (snd (WhitelistDataService.createMerkleTree name root records w))) !! k
        = Some r).
Proof.
  intros Hv Hnone Hw Hnot.
  destruct (succeeds_executeInsertStatement name (MerkleRootRecord.mk root Creating)
              (db w) Hv Hnone w Hw eq_refl) as (E1 & Hw1 & Hd1).
  apply run_eq in E1.
  set (w1 := snd (DynamoDbService.executeInsertStatement name
                    (MerkleRootRecord.mk root Creating) w)) in *.
  pose proof (insert_chunks_outcome name
                (DynamoDbService.chunkArray records DynamoDbService.BatchExecuteMaxItems)
                w1 Hw1) as Hout.
  cbv zeta in Hout.
  destruct (chunkArray_from_spec (List.length records) records
              DynamoDbService.BatchExecuteMaxItems) as [Hc _];
    [unfold DynamoDbService.BatchExecuteMaxItems; lia|done|].
  fold (DynamoDbService.chunkArray records DynamoDbService.BatchExecuteMaxItems) in Hc.
  rewrite Hc in Hout. destruct Hout as (Hw2 & Hr2 & Hp2 & [(_ & Hnd & Hnew)|[msg Hfail]]).
  { exfalso. apply Hnot. split; [exact Hnd|]. rewrite Hd1 in Hnew. exact Hnew. }
  assert (exists w2, DynamoDbService.batchInsertExecuteStatement name records w1
                     = (inl (Error_ "Error" msg), w2)
                     /\ serves_in_full w2 /\ roots (db w2) = roots (db w1)
                     /\ (forall k r, proofs (db w1) !! k = Some r ->
                           proofs (db w2) !! k = Some r)) as (w2 & E2 & Hw2' & Hr2' & Hp2').
  { unfold DynamoDbService.batchInsertExecuteStatement.
    rewrite (check_partitionKeyValue_valid _ _ Hv).
    eexists. split; [apply run_eq, Hfail|]. done. }
  clear Hfail Hw2 Hr2 Hp2.
  assert (roots (db w2) !! name = Some (MerkleRootRecord.mk root Creating)) as Hrow2.
  { rewrite Hr2', Hd1. cbn [roots]. apply lookup_insert_eq. }
  destruct (succeeds_putItem name (MerkleRootRecord.mk root Failed)
              (WhitelistDataService.root_and_status root Creating) (db w2) Hv) with (w := w2)
    as (E3 & Hw3 & Hd3); [|done|done|].
  { rewrite Hrow2. cbn. rewrite String.eqb_refl. by rewrite bool_decide_eq_true_2. }
  apply run_eq in E3.
  set (w3 := snd (DynamoDbService.putItem name (MerkleRootRecord.mk root Failed)
                    (Some (WhitelistDataService.root_and_status root Creating)) w2)) in *.
  assert (WhitelistDataService.createMerkleTree name root records w
          = (inl (Error_ "Error" msg), w3)) as ->.
  { unfold WhitelistDataService.createMerkleTree, WhitelistDataService.rethrowing. rewrite Hv.
    rewrite (bind_inr _ _ w tt w1 (try_catch_inr _ _ w tt w1 E1)).
    apply bind_inl. rewrite (try_catch_inl _ _ w1 _ w2 E2).
    by rewrite (bind_inr _ _ w2 tt w3 E3). }
  cbn [fst snd]. split; [eauto|]. rewrite Hd3. cbn [roots proofs].
  split; [apply lookup_insert_eq|].
  split.
  - intros n Hn. rewrite lookup_insert_ne, Hr2', Hd1 by done. cbn [roots].
    by rewrite lookup_insert_ne.
  - intros k r Hk. apply Hp2'. by rewrite Hd1.
Qed.

(** ** The strings of the stored roots *)

Lemma well_rooted_same d d' : roots d' = roots d -> well_rooted d -> well_rooted d'.
Proof. intros E H n r Hr. rewrite E in Hr. by apply (H n r). Qed.

Lemma well_rooted_insert (d : Db) (n : string) (r : MerkleRootRecord.t)
    (p : gmap (string * string) MerkleProofRecord.t) :
  (exists rootZ, 0 <= rootZ < 2 ^ 256
                 /\ MerkleRootRecord.MerkleRoot r = Hex.hexlify32 rootZ) ->
  well_rooted d -> well_rooted (mkDb (<[n := r]> (roots d)) p).
Proof.
  intros Hr H n' r' Hr'. cbn [roots] in Hr'. destruct (decide (n = n')) as [->|Hne].
  - rewrite lookup_insert_eq in Hr'. by injection Hr' as <-.
  - rewrite lookup_insert_ne in Hr' by done. by apply (H n' r').
Qed.

Lemma well_rooted_delete (d : Db) (n : string)
    (p : gmap (string * string) MerkleProofRecord.t) :
  well_rooted d -> well_rooted (mkDb (delete n (roots d)) p).
Proof.
  intros H n' r' Hr'. cbn [roots] in Hr'. destruct (decide (n = n')) as [->|Hne].
  - by rewrite lookup_delete_eq in Hr'.
  - rewrite lookup_delete_ne in Hr' by done. by apply (H n' r').
Qed.

Lemma keeps_well_rooted_putItem name root s condition :
  (exists rootZ, 0 <= rootZ < 2 ^ 256 /\ root = Hex.hexlify32 rootZ) ->
  keeps (fun w => well_rooted (db w))
    (DynamoDbService.putItem name (MerkleRootRecord.mk root s) condition).
Proof.
  intros Hroot. apply keeps_check_partitionKeyValue.
  apply (keeps_send well_rooted). intros o d a d' H E.
  unfold DynamoDbClient.PutCommand_serve in E.
  destruct (match condition with Some c => _ | None => _ end); [|done]. injection E as _ <-.
  by apply well_rooted_insert.
Qed.

Lemma keeps_well_rooted_data_createMerkleTree name root records :
  (exists rootZ, 0 <= rootZ < 2 ^ 256 /\ root = Hex.hexlify32 rootZ) ->
  keeps (fun w => well_rooted (db w)) (WhitelistDataService.createMerkleTree name root records).
Proof.
  intros Hroot. unfold WhitelistDataService.createMerkleTree.
  destruct (WhitelistDataService.invalid_name name); [apply keeps_throw|].
  apply keeps_bind.
  { apply keeps_rethrowing, keeps_check_partitionKeyValue.
    apply (keeps_send well_rooted). intros o d a d' H E.
    unfold DynamoDbClient.ExecuteStatementInsert_serve in E.
    destruct (roots d !! name); [done|]. injection E as _ <-. by apply well_rooted_insert. }
  intros _. apply keeps_bind.
  - apply keeps_try_catch.
    + apply keeps_check_partitionKeyValue, keeps_for_of. intros chunk. apply keeps_bind.
      * apply (keeps_send well_rooted). intros o d a d' H E.
        unfold DynamoDbClient.BatchExecuteStatementInsert_serve in E. injection E as E.
        apply (well_rooted_same d); [|done].
        rewrite <- (BatchExecuteStatementInsert_run_roots name chunk d). by rewrite E.
      * intros responses. cbv zeta. destruct (negb _); [apply keeps_throw|apply keeps_ret].
    + intros e. apply keeps_bind; [by apply keeps_well_rooted_putItem|]. intros _.
      apply keeps_throw.
  - intros _. by apply keeps_rethrowing, keeps_well_rooted_putItem.
Qed.

Lemma keeps_well_rooted_data_deleteMerkleTree name :
  keeps (fun w => well_rooted (db w)) (WhitelistDataService.deleteMerkleTree name).
Proof.
  unfold WhitelistDataService.deleteMerkleTree.
  destruct (WhitelistDataService.invalid_name name); [apply keeps_throw|].
  apply (hoare_bind _ _ _
           (fun x w => well_rooted (db w)
                       /\ forall item, x = inr (Some item) ->
                            exists rootZ, 0 <= rootZ < 2 ^ 256
                              /\ MerkleRootRecord.MerkleRoot item = Hex.hexlify32 rootZ)).
  - apply (hoare_rethrowing _ _
             (fun x w => well_rooted (db w)
                         /\ forall item, x = inr (Some item) ->
                              exists rootZ, 0 <= rootZ < 2 ^ 256
                                /\ MerkleRootRecord.MerkleRoot item = Hex.hexlify32 rootZ)).
    + apply hoare_check_partitionKeyValue; [|done].
      apply hoare_send; [done|]. intros w a d Hw E.
      unfold DynamoDbClient.GetCommandRoot_serve in E. injection E as <- <-.
      cbn [step db]. split; [done|]. intros item [= E]. by apply (Hw name item).
    + done.
    + intros e w [H _]. split; [done|]. intros item E. discriminate E.
  - by intros e w [H _].
  - intros [item|]; [|apply hoare_throw; by intros w [H _]].
    destruct (_ && _); [apply hoare_throw; by intros w [H _]|].
    intros w [Hw Hitem]. specialize (Hitem item eq_refl). revert w Hw.
    change (keeps (fun w => well_rooted (db w))
              (bind (WhitelistDataService.rethrowing
                       (DynamoDbService.putItem name
                          (MerkleRootRecord.mk (MerkleRootRecord.MerkleRoot item) Deleting)
                          (Some (WhitelistDataService.root_and_completed_or_failed
                                   (MerkleRootRecord.MerkleRoot item)))))
                 (fun _ =>
                    try_catch (WhitelistDataService.delete_proofs_then_root name)
                      (fun err =>
                         bind (DynamoDbService.putItem name
                                 (MerkleRootRecord.mk (MerkleRootRecord.MerkleRoot item) Failed)
                                 (Some (WhitelistDataService.root_and_status
                                          (MerkleRootRecord.MerkleRoot item) Deleting)))
                           (fun _ => throw (WhitelistDataService.rethrow err)))))).
    apply keeps_bind; [by apply keeps_rethrowing, keeps_well_rooted_putItem|]. intros _.
    apply keeps_try_catch.
    + unfold WhitelistDataService.delete_proofs_then_root.
      apply keeps_bind.
      { apply keeps_check_partitionKeyValue.
        apply (keeps_send well_rooted). intros o d a d' H E.
        unfold DynamoDbClient.QueryCommand_serve in E. by injection E as _ <-. }
      intros items. apply keeps_bind.
      { apply keeps_check_partitionKeyValue.
        destruct (_ <? 0); [apply keeps_throw|].
        destruct (DynamoDbService.every_sortKeyValue 0 _); [apply keeps_throw|].
        apply keeps_for_of. intros chunk. apply (keeps_unprocessed_loop well_rooted).
        intros d requests H. apply (well_rooted_same d); [|done].
        apply foldl_apply_write_roots. }
      intros _. apply keeps_check_partitionKeyValue.
      apply (keeps_send well_rooted). intros o d a d' H E.
      unfold DynamoDbClient.DeleteCommand_serve in E. injection E as _ <-.
      by apply well_rooted_delete.
    + intros e. apply keeps_bind; [by apply keeps_well_rooted_putItem|]. intros _.
      apply keeps_throw.
Qed.

Lemma well_rooted_run_operations ops w :
  well_rooted (db w) -> well_rooted (db (run_operations ops w)).
Proof.
  revert w. induction ops as [|op ops IH]; intros w Hw; [done|].
  unfold run_operations. cbn [foldl]. fold (run_operations ops). apply IH.
  destruct op as [n es|n]; cbn [run_operation].
  - unfold WhitelistCommandService.createMerkleTree.
    destruct (invalid_whitelistName n); [done|].
    destruct (CommandServiceBuilder.validateEntries Keccak.keccak256 es) as [e|[]] eqn:Hg;
      [done|].
    destruct (CommandServiceBuilder.buildMerkleTree Keccak.keccak256 es)
      as [e|[root records]] eqn:Hb; [done|].
    apply (keeps_well_rooted_data_createMerkleTree n root records); [|done].
    destruct (validateEntries_inr Keccak.keccak256 es Hg) as [_ Hacc].
    destruct es as [|e0 es0] eqn:Ees; [vm_compute in Hb; discriminate Hb|].
    rewrite <- Ees in *.
    destruct (buildMerkleTree_round_trip Keccak.keccak256 Keccak_keccak256_range es Hacc)
      as (rootZ & records' & Hb' & Hrange & _); [by rewrite Ees|].
    rewrite Hb in Hb'. injection Hb' as -> _. by exists rootZ.
  - unfold WhitelistCommandService.deleteMerkleTree.
    destruct (invalid_whitelistName n); [done|].
    by apply (keeps_well_rooted_data_deleteMerkleTree n).
Qed.

(** ** The two verifiers *)

Section Verifiers.
Context (keccak256 : bytes -> Z).

Lemma verifiers_agree e a w rootZ proof :
  CommandServiceBuilder.accepted keccak256 e a w ->
  (MerkleTreeLib.verify keccak256 rootZ (a, Ethers.toString w) proof = Some true
   <-> MerkleTreeWhitelist.isWhitelistedFor keccak256 rootZ (account a) w proof = inr true)
  /\ (MerkleTreeLib.verify keccak256 rootZ (a, Ethers.toString w) proof = Some false
      <-> MerkleTreeWhitelist.isWhitelistedFor keccak256 rootZ (account a) w proof
          = inl "MTWL: invalid proof"%string).
Proof.
  intros Ha. unfold MerkleTreeLib.verify, MerkleTreeWhitelist.isWhitelistedFor.
  rewrite (accepted_leafHash keccak256 e a w Ha).
  destruct (accepted_account keccak256 e a w Ha) as [Hpos _].
  assert ((account a =? 0) = false) as -> by lia.
  unfold MerkleTreeWhitelist.verify. rewrite <- (processProof_onchain keccak256).
  rewrite (Z.eqb_sym rootZ).
  destruct (_ =? rootZ); split; split; intros H; done.
Qed.

End Verifiers.

(** * Further properties of the code *)

(** ** The input gate and the builder *)

(** X1.  Two rows that name the same account, in whatever letter case
    each of them writes it, make the gate refuse the list with the
    validation error "Duplicate whitelist address", when the list is
    within the bound and every row passes the checks of its own. *)
Theorem X1_same_account_twice_is_refused
    (es : list WhitelistEntry.t) (i j : nat) (ei ej : WhitelistEntry.t) :
  Z.of_nat (List.length es) <= ValidateWhitelistEntriesMaxCount ->
  (forall k e, es !! k = Some e ->
     exists a w, CommandServiceBuilder.accepted Keccak.keccak256 e a w) ->
  i <> j -> es !! i = Some ei -> es !! j = Some ej ->
  account (WhitelistEntry.WhitelistAddress ei) = account (WhitelistEntry.WhitelistAddress ej) ->
  CommandServiceBuilder.validateEntries Keccak.keccak256 es
  = inl (ValidationError "[ERR] Duplicate whitelist address").
Proof. apply duplicate_accounts_refused. Qed.

(** X1 at the checksummed and the lower-case spelling of one address. *)
Lemma X1_same_account_twice_is_refused_witness :
  account example_address = account example_address_lower
  /\ CommandServiceBuilder.validateEntries Keccak.keccak256 same_account_entries
     = inl (ValidationError "[ERR] Duplicate whitelist address").
Proof.
  split; [vm_compute; reflexivity|].
  apply (X1_same_account_twice_is_refused same_account_entries 0 1
           (WhitelistEntry.mk example_address "1250")
           (WhitelistEntry.mk example_address_lower "1")).
  - vm_compute. discriminate.
  - apply (every_None Keccak.keccak256 0). vm_compute. reflexivity.
  - lia.
  - reflexivity.
  - reflexivity.
  - vm_compute. reflexivity.
Defined.

(** X2.  Within the bound, the gate raises the validation error of the
    first row that the callback of [every] refuses, with the message of
    that row: the rows after it, and the search for duplicates, are not
    looked at. *)
Theorem X2_first_refused_row_is_reported
    (es : list WhitelistEntry.t) (i : nat) (e : WhitelistEntry.t) (msg : string) :
  Z.of_nat (List.length es) <= ValidateWhitelistEntriesMaxCount ->
  (forall k e', (k < i)%nat -> es !! k = Some e' ->
     CommandServiceBuilder.check_entry Keccak.keccak256 k e' = None) ->
  es !! i = Some e ->
  CommandServiceBuilder.check_entry Keccak.keccak256 i e = Some msg ->
  CommandServiceBuilder.validateEntries Keccak.keccak256 es = inl (ValidationError msg).
Proof. apply first_refused_row. Qed.

(** X2 at a list whose second row has a negative amount and whose third
    row repeats the first. *)
Lemma X2_first_refused_row_is_reported_witness :
  CommandServiceBuilder.validateEntries Keccak.keccak256
    [ WhitelistEntry.mk example_address "1250";
      WhitelistEntry.mk example_address_lower "-1";
      WhitelistEntry.mk example_address "1250" ]
  = inl (ValidationError
           "[ERR] Invalid whitelist amount value at line 1: -1").
Proof.
  apply (X2_first_refused_row_is_reported _ 1 (WhitelistEntry.mk example_address_lower "-1")).
  - vm_compute. discriminate.
  - intros k e' Hk He'. destruct k as [|k]; [|lia]. injection He' as <-.
    vm_compute. reflexivity.
  - reflexivity.
  - vm_compute. reflexivity.
Defined.

(** X3.  The gate on the records of the CSV parser returns, raises a
    validation error, or raises the TypeError of a missing column.  An
    error that is no validation error is that TypeError, and some row
    lacks a column then; within the bound, a first row without the
    address column raises it, and so does a first row whose address
    passes and which has no amount column.  On rows that have both
    columns the gate is the gate on typed rows, which returns or raises
    a validation error: the calls of [getAddress] in the search for
    duplicates, which no [try] guards, never raise, because every row
    has passed the same call before. *)
Theorem X3_gate_outcomes_on_parsed_rows (es : list ParsedEntry.t) :
  (ParsedGate.validateEntries Keccak.keccak256 es = inr tt
   \/ (exists msg,
         ParsedGate.validateEntries Keccak.keccak256 es = inl (ValidationError msg))
   \/ ParsedGate.validateEntries Keccak.keccak256 es = inl ParsedGate.undefined_length)
  /\ (forall err,
        (forall msg, err <> ValidationError msg) ->
        ParsedGate.validateEntries Keccak.keccak256 es = inl err ->
        err = ParsedGate.undefined_length
        /\ exists i e, es !! i = Some e
             /\ (ParsedEntry.WhitelistAddress e = None
                 \/ ParsedEntry.WhitelistAmount e = None))
  /\ (forall e r,
        es = e :: r ->
        Z.of_nat (List.length es) <= ValidateWhitelistEntriesMaxCount ->
        ParsedEntry.WhitelistAddress e = None ->
        ParsedGate.validateEntries Keccak.keccak256 es = inl ParsedGate.undefined_length)
  /\ (forall e r address a,
        es = e :: r ->
        Z.of_nat (List.length es) <= ValidateWhitelistEntriesMaxCount ->
        ParsedEntry.WhitelistAddress e = Some address ->
        String.length address = ValidEvmAddressLen ->
        ValidEvmAddressRegex_test address = true ->
        address <> Ethers.ZeroAddress ->
        Ethers.getAddress Keccak.keccak256 address = Some a ->
        ParsedEntry.WhitelistAmount e = None ->
        ParsedGate.validateEntries Keccak.keccak256 es = inl ParsedGate.undefined_length)
  /\ (forall typed,
        es = ParsedEntry.of_entry <$> typed ->
        ParsedGate.validateEntries Keccak.keccak256 es
        = CommandServiceBuilder.validateEntries Keccak.keccak256 typed
        /\ (CommandServiceBuilder.validateEntries Keccak.keccak256 typed = inr tt
            \/ exists msg,
                 CommandServiceBuilder.validateEntries Keccak.keccak256 typed
                 = inl (ValidationError msg))).
Proof.
  destruct (parsed_validateEntries_outcomes Keccak.keccak256 es) as [Hout Herr].
  split; [exact Hout|]. split; [exact Herr|]. split; [|split].
  - intros e r ->. apply parsed_validateEntries_no_address.
  - intros e r address a ->. apply parsed_validateEntries_no_amount.
  - intros typed ->. split; [apply parsed_validateEntries_of_entry|].
    apply validateEntries_outcomes.
Qed.

(** X3 at a CSV whose header does not name the address column, at one
    whose header does not name the amount column, and at the fixture. *)
Lemma X3_gate_outcomes_on_parsed_rows_witness :
  ParsedGate.validateEntries Keccak.keccak256 [ParsedEntry.mk None (Some "1250")]
  = inl ParsedGate.undefined_length
  /\ ParsedGate.validateEntries Keccak.keccak256 [ParsedEntry.mk (Some example_address) None]
     = inl ParsedGate.undefined_length
  /\ ParsedGate.validateEntries Keccak.keccak256 (ParsedEntry.of_entry <$> fixture_entries)
     = CommandServiceBuilder.validateEntries Keccak.keccak256 fixture_entries.
Proof.
  split; [|split].
  - destruct (X3_gate_outcomes_on_parsed_rows [ParsedEntry.mk None (Some "1250")])
      as (_ & _ & H & _).
    apply (H _ [] eq_refl); [vm_compute; discriminate|reflexivity].
  - destruct (X3_gate_outcomes_on_parsed_rows [ParsedEntry.mk (Some example_address) None])
      as (_ & _ & _ & H & _).
    apply (H _ [] example_address example_address eq_refl);
      [vm_compute; discriminate|reflexivity|reflexivity|vm_compute; reflexivity|
       discriminate|vm_compute; reflexivity|reflexivity].
  - destruct (X3_gate_outcomes_on_parsed_rows (ParsedEntry.of_entry <$> fixture_entries))
      as (_ & _ & _ & _ & H).
    exact (proj1 (H fixture_entries eq_refl)).
Defined.

(** X4.  The order of the rows does not matter to the gate nor to the
    root: when a list of at least one row passes the gate, every
    permutation of it passes the gate, and the builder emits the same
    root for both. *)
Theorem X4_root_does_not_depend_on_row_order (es es' : list WhitelistEntry.t) :
  CommandServiceBuilder.validateEntries Keccak.keccak256 es = inr tt ->
  es <> [] ->
  es ≡ₚ es' ->
  CommandServiceBuilder.validateEntries Keccak.keccak256 es' = inr tt
  /\ exists root proofs proofs',
       CommandServiceBuilder.buildMerkleTree Keccak.keccak256 es = inr (root, proofs)
       /\ CommandServiceBuilder.buildMerkleTree Keccak.keccak256 es' = inr (root, proofs').
Proof.
  intros Hg Hne Hp.
  pose proof (validateEntries_perm Keccak.keccak256 es es' Hp Hg) as Hg'.
  split; [exact Hg'|].
  destruct (validateEntries_inr Keccak.keccak256 es Hg) as [_ Hacc].
  destruct (validateEntries_inr Keccak.keccak256 es' Hg') as [_ Hacc'].
  destruct (buildMerkleTree_round_trip Keccak.keccak256 Keccak_keccak256_range es Hacc Hne)
    as (rootZ & proofs & Hb & _).
  assert (es' <> []) as Hne'.
  { intros ->. by apply Permutation_nil_r in Hp. }
  destruct (buildMerkleTree_round_trip Keccak.keccak256 Keccak_keccak256_range es' Hacc' Hne')
    as (rootZ' & proofs' & Hb' & _).
  exists (Hex.hexlify32 rootZ), proofs, proofs'. split; [exact Hb|].
  by rewrite (buildMerkleTree_perm Keccak.keccak256 es es' _ _ _ _ Hp Hb Hb').
Qed.

(** X4 at the rows of the fixture and the same rows from the last to
    the first. *)
Lemma X4_root_does_not_depend_on_row_order_witness :
  CommandServiceBuilder.validateEntries Keccak.keccak256 (reverse fixture_entries) = inr tt
  /\ exists root proofs proofs',
       CommandServiceBuilder.buildMerkleTree Keccak.keccak256 fixture_entries
       = inr (root, proofs)
       /\ CommandServiceBuilder.buildMerkleTree Keccak.keccak256 (reverse fixture_entries)
          = inr (root, proofs').
Proof.
  apply (X4_root_does_not_depend_on_row_order fixture_entries (reverse fixture_entries)).
  - vm_compute. reflexivity.
  - discriminate.
  - symmetry. apply reverse_Permutation.
Defined.

(** X5.  A list of one accepted row: the root is the leaf of the row,
    the double keccak of the ABI encoding of its account and its amount
    in wei, and the one record carries the empty proof. *)
Theorem X5_one_row_tree (e : WhitelistEntry.t) (a : string) (w : Z) :
  CommandServiceBuilder.accepted Keccak.keccak256 e a w ->
  CommandServiceBuilder.buildMerkleTree Keccak.keccak256 [e]
  = inr (Hex.hexlify32
           (Keccak.keccak256
              (be_bytes 32 (Keccak.keccak256 (MerkleTreeWhitelist.abi_encode (account a) w)))),
         [MerkleProofRecord.mk "" a (Ethers.toString w)]).
Proof. apply buildMerkleTree_single, Keccak_keccak256_range. Qed.

(** X5 at the second row of the fixture. *)
Lemma X5_one_row_tree_witness :
  exists a w,
    CommandServiceBuilder.accepted Keccak.keccak256
      (WhitelistEntry.mk example_address "1250") a w
    /\ CommandServiceBuilder.buildMerkleTree Keccak.keccak256
         [WhitelistEntry.mk example_address "1250"]
       = inr (Hex.hexlify32
                (Keccak.keccak256
                   (be_bytes 32
                      (Keccak.keccak256 (MerkleTreeWhitelist.abi_encode (account a) w)))),
              [MerkleProofRecord.mk "" a (Ethers.toString w)]).
Proof.
  destruct (proj1 (every_None Keccak.keccak256 0 [WhitelistEntry.mk example_address "1250"])
              ltac:(vm_compute; reflexivity) 0%nat _ eq_refl) as (a & w & Ha).
  exists a, w. split; [exact Ha|]. exact (X5_one_row_tree _ a w Ha).
Defined.

(** ** The adapter of the key-value store *)

(** X6.  For a positive stride, [chunkArray] yields the slices
    [array.slice(i * stride, i * stride + stride)] for the [i] below the
    length divided by the stride, rounded up: chunk [i] exists exactly
    when [i * stride] is below the length; the chunks joined are the
    array, and each has between 1 and [stride] elements. *)
Theorem X6_chunkArray_slices {A} (array : list A) (stride : nat) :
  (0 < stride)%nat ->
  List.length (DynamoDbService.chunkArray array stride)
  = ((List.length array + stride - 1) / stride)%nat
  /\ (forall i,
        DynamoDbService.chunkArray array stride !! i
        = if (i * stride <? List.length array)%nat
          then Some (take stride (drop (i * stride) array)) else None)
  /\ concat (DynamoDbService.chunkArray array stride) = array
  /\ Forall (fun chunk => (0 < List.length chunk <= stride)%nat)
       (DynamoDbService.chunkArray array stride).
Proof.
  intros Hs. unfold DynamoDbService.chunkArray.
  split; [by apply chunkArray_from_length|].
  split; [intros i; by apply chunkArray_from_lookup|].
  by apply chunkArray_from_spec.
Qed.

(** X6 at seven elements in chunks of three. *)
Lemma X6_chunkArray_slices_witness :
  DynamoDbService.chunkArray [1; 2; 3; 4; 5; 6; 7] 3 !! 2%nat = Some [7]
  /\ List.length (DynamoDbService.chunkArray [1; 2; 3; 4; 5; 6; 7] 3) = 3%nat.
Proof.
  destruct (X6_chunkArray_slices [1; 2; 3; 4; 5; 6; 7] 3 ltac:(lia)) as (Hlen & Hi & _).
  split; [exact (Hi 2%nat)|exact Hlen].
Defined.

(** X7.  Whatever the provider answers, every request that
    [batchDeleteWrite], [batchPutWrite] and [batchInsertExecuteStatement]
    send is a batch on the partition of the call with at least 1 and at
    most 25 members, the retries included. *)
Theorem X7_batches_have_1_to_25_members
    (name : string) (keys : list string) (records : list MerkleProofRecord.t)
    (maxRetries : Z) :
  sends (bounded_batch name) (DynamoDbService.batchDeleteWrite name keys maxRetries)
  /\ sends (bounded_batch name) (DynamoDbService.batchPutWrite name records maxRetries)
  /\ sends (bounded_batch name) (DynamoDbService.batchInsertExecuteStatement name records).
Proof.
  split; [apply sends_batchDeleteWrite|].
  split; [apply sends_batchPutWrite|apply sends_batchInsertExecuteStatement].
Qed.

(** X8.  Whatever the provider answers, [batchDeleteWrite] and
    [batchPutWrite] send at most [maxRetries + 1] requests for each chunk
    of 25, sleep at most as often, and each sleep is of 10 times 2 to the
    [i] milliseconds for an [i] from 0 to [maxRetries]. *)
Theorem X8_retries_are_bounded
    (name : string) (keys : list string) (records : list MerkleProofRecord.t)
    (maxRetries : Z) :
  bounded_effort
    (List.length (DynamoDbService.chunkArray keys DynamoDbService.BatchWriteMaxItems)
     * S (Z.to_nat maxRetries))
    (List.length (DynamoDbService.chunkArray keys DynamoDbService.BatchWriteMaxItems)
     * S (Z.to_nat maxRetries))
    (S (Z.to_nat maxRetries))
    (DynamoDbService.batchDeleteWrite name keys maxRetries)
  /\ bounded_effort
       (List.length (DynamoDbService.chunkArray records DynamoDbService.BatchWriteMaxItems)
        * S (Z.to_nat maxRetries))
       (List.length (DynamoDbService.chunkArray records DynamoDbService.BatchWriteMaxItems)
        * S (Z.to_nat maxRetries))
       (S (Z.to_nat maxRetries))
       (DynamoDbService.batchPutWrite name records maxRetries).
Proof. split; [apply effort_batchDeleteWrite|apply effort_batchPutWrite]. Qed.

(** X9.  When the provider returns every key of every batch as
    unprocessed, [batchDeleteWrite] makes [maxRetries + 1] attempts on
    each chunk, sleeping 10, 20, 40, ... milliseconds after them, and
    then returns normally: no exception tells the caller that no row was
    deleted. *)
Theorem X9_batchDeleteWrite_gives_up_in_silence
    (name : string) (keys : list string) (maxRetries : Z) (w : World) :
  WhitelistDataService.invalid_name name = false ->
  0 <= maxRetries ->
  Forall (fun k => DynamoDbService.invalid_length DynamoDbService.ValidSortKeyValueMinLen
                     DynamoDbService.ValidSortKeyValueMaxLen k = false) keys ->
  schedule w
  = replicate (List.length (DynamoDbService.chunkArray keys DynamoDbService.BatchWriteMaxItems)
               * S (Z.to_nat maxRetries)) leaves_all ->
  fst (DynamoDbService.batchDeleteWrite name keys maxRetries w) = inr tt
  /\ db (snd (DynamoDbService.batchDeleteWrite name keys maxRetries w)) = db w
  /\ schedule (snd (DynamoDbService.batchDeleteWrite name keys maxRetries w)) = []
  /\ slept (snd (DynamoDbService.batchDeleteWrite name keys maxRetries w))
     = slept w
       ++ concat (replicate
                    (List.length (DynamoDbService.chunkArray keys
                                    DynamoDbService.BatchWriteMaxItems))
                    (backoff (S (Z.to_nat maxRetries))))
  /\ List.length (log (snd (DynamoDbService.batchDeleteWrite name keys maxRetries w)))
     = (List.length (log w)
        + List.length (DynamoDbService.chunkArray keys DynamoDbService.BatchWriteMaxItems)
          * S (Z.to_nat maxRetries))%nat.
Proof. apply batchDeleteWrite_gives_up. Qed.

(** X9 at the two addresses of the example and the default of 3
    retries: four attempts, and the sleeps 10, 20, 40 and 80. *)
Lemma X9_batchDeleteWrite_gives_up_in_silence_witness :
  fst (DynamoDbService.batchDeleteWrite "presale"
         (MerkleProofRecord.WhitelistAddress <$> example_records) 3
         (fresh_world (example_db Completed) (replicate 4 leaves_all)))
  = inr tt
  /\ slept (snd (DynamoDbService.batchDeleteWrite "presale"
                   (MerkleProofRecord.WhitelistAddress <$> example_records) 3
                   (fresh_world (example_db Completed) (replicate 4 leaves_all))))
     = [] ++ concat (replicate 1 (backoff 4)).
Proof.
  destruct (X9_batchDeleteWrite_gives_up_in_silence "presale"
              (MerkleProofRecord.WhitelistAddress <$> example_records) 3
              (fresh_world (example_db Completed) (replicate 4 leaves_all)))
    as (H1 & _ & _ & H4 & _).
  - vm_compute. reflexivity.
  - lia.
  - repeat constructor.
  - reflexivity.
  - split; [exact H1|exact H4].
Defined.

(** ** The services on the tables *)

(** X10.  [createMerkleTree] of the data service, served in full by the
    provider, under a name that has no roots row and for records with
    pairwise distinct addresses none of which has a proofs row under the
    name: the call returns, the roots row of the name holds the root and
    COMPLETED, each record is the proofs row of the name at its address,
    and every other row of the two tables is as before. *)
Theorem X10_createMerkleTree_writes_the_tree
    (name root : string) (records : list MerkleProofRecord.t) (d : Db) :
  WhitelistDataService.invalid_name name = false ->
  roots d !! name = None ->
  NoDup (MerkleProofRecord.WhitelistAddress <$> records) ->
  Forall (fun r => proofs d !! (name, MerkleProofRecord.WhitelistAddress r) = None) records ->
  exists d',
    succeeds (WhitelistDataService.createMerkleTree name root records) d tt d'
    /\ roots d' !! name = Some (MerkleRootRecord.mk root Completed)
    /\ (forall i r, records !! i = Some r ->
          proofs d' !! (name, MerkleProofRecord.WhitelistAddress r) = Some r)
    /\ (forall a, a ∉ MerkleProofRecord.WhitelistAddress <$> records ->
          proofs d' !! (name, a) = proofs d !! (name, a))
    /\ same_elsewhere name d d'.
Proof.
  intros Hv Hnone Hnd Hnew.
  exists (mkDb (<[name := MerkleRootRecord.mk root Completed]> (roots d))
               (insert_records name records (proofs d))).
  split; [by apply succeeds_data_createMerkleTree|].
  cbn [roots proofs].
  split; [apply lookup_insert_eq|].
  split; [intros i r Hi; by apply (insert_records_lookup name records _ i)|].
  split; [intros a Ha; by apply insert_records_absent|].
  split; cbn [roots proofs].
  - intros n Hn. by apply lookup_insert_ne.
  - intros n a Hn. by apply insert_records_other.
Qed.

(** X10 at the two records of the example, on empty tables. *)
Lemma X10_createMerkleTree_writes_the_tree_witness :
  exists d',
    succeeds (WhitelistDataService.createMerkleTree "presale" example_root example_records)
      empty_db tt d'
    /\ roots d' !! "presale"%string = Some (MerkleRootRecord.mk example_root Completed)
    /\ (forall i r, example_records !! i = Some r ->
          proofs d' !! ("presale"%string, MerkleProofRecord.WhitelistAddress r) = Some r)
    /\ (forall a, a ∉ MerkleProofRecord.WhitelistAddress <$> example_records ->
          proofs d' !! ("presale"%string, a) = proofs empty_db !! ("presale"%string, a))
    /\ same_elsewhere "presale" empty_db d'.
Proof.
  apply (X10_createMerkleTree_writes_the_tree "presale" example_root example_records empty_db).
  - vm_compute. reflexivity.
  - reflexivity.
  - apply (bool_decide_unpack _). vm_compute. reflexivity.
  - repeat constructor.
Defined.

(** X11.  From the upload to the contract.  A tree created by the
    command service under a new name, from at least one row that passes
    the gate, with the provider serving in full: the roots row of the
    name is COMPLETED and holds the "0x" string of a root; and for every
    row, [getMerkleProof] of the query service on the address as the row
    writes it returns the record of the row, whose siblings the contract
    accepts for the account and the amount in wei of the row against
    that root. *)
Theorem X11_created_tree_is_served_and_verifies
    (name : string) (es : list WhitelistEntry.t) (d : Db) :
  invalid_whitelistName name = false ->
  CommandServiceBuilder.validateEntries Keccak.keccak256 es = inr tt ->
  es <> [] ->
  roots d !! name = None ->
  (forall a, proofs d !! (name, a) = None) ->
  exists rootZ d',
    succeeds (WhitelistCommandService.createMerkleTree Keccak.keccak256 name es) d tt d'
    /\ 0 <= rootZ < 2 ^ 256
    /\ roots d' !! name = Some (MerkleRootRecord.mk (Hex.hexlify32 rootZ) Completed)
    /\ same_elsewhere name d d'
    /\ forall i e, es !! i = Some e ->
         exists a w siblings,
           succeeds
             (WhitelistQueryService.getMerkleProof Keccak.keccak256 name
                (WhitelistEntry.WhitelistAddress e))
             d'
             (Some (MerkleProofRecord.mk (join "," (map Hex.hexlify32 siblings))
                      a (Ethers.toString w)))
             d'
           /\ Ethers.getAddress Keccak.keccak256 (WhitelistEntry.WhitelistAddress e) = Some a
           /\ Ethers.parseEther (WhitelistEntry.WhitelistAmount e) = Some w
           /\ MerkleTreeWhitelist.isWhitelistedFor Keccak.keccak256 rootZ (account a) w siblings
              = inr true.
Proof.
  apply (createMerkleTree_then_getMerkleProof Keccak.keccak256 Keccak_keccak256_range).
Qed.

(** X11 at the five rows of the fixture, on empty tables. *)
Lemma X11_created_tree_is_served_and_verifies_witness :
  exists rootZ d',
    succeeds (WhitelistCommandService.createMerkleTree Keccak.keccak256 "presale"
                fixture_entries) empty_db tt d'
    /\ 0 <= rootZ < 2 ^ 256
    /\ roots d' !! "presale"%string
       = Some (MerkleRootRecord.mk (Hex.hexlify32 rootZ) Completed)
    /\ same_elsewhere "presale" empty_db d'
    /\ forall i e, fixture_entries !! i = Some e ->
         exists a w siblings,
           succeeds
             (WhitelistQueryService.getMerkleProof Keccak.keccak256 "presale"
                (WhitelistEntry.WhitelistAddress e))
             d'
             (Some (MerkleProofRecord.mk (join "," (map Hex.hexlify32 siblings))
                      a (Ethers.toString w)))
             d'
           /\ Ethers.getAddress Keccak.keccak256 (WhitelistEntry.WhitelistAddress e) = Some a
           /\ Ethers.parseEther (WhitelistEntry.WhitelistAmount e) = Some w
           /\ MerkleTreeWhitelist.isWhitelistedFor Keccak.keccak256 rootZ (account a) w siblings
              = inr true.
Proof.
  apply (X11_created_tree_is_served_and_verifies "presale" fixture_entries empty_db).
  - vm_compute. reflexivity.
  - vm_compute. reflexivity.
  - discriminate.
  - reflexivity.
  - intros a. apply lookup_empty.
Defined.

(** X12.  [deleteMerkleTree], served in full by the provider, on a tree
    that is COMPLETED or FAILED: the call returns, the roots row and
    every proofs row of the name are gone, and the rows of the other
    names are as before. *)
Theorem X12_deleteMerkleTree_deletes_the_tree
    (name root : string) (s : WhitelistStatus) (d : Db) :
  WhitelistDataService.invalid_name name = false ->
  roots d !! name = Some (MerkleRootRecord.mk root s) ->
  s = Completed \/ s = Failed ->
  well_keyed d ->
  exists d',
    succeeds (WhitelistDataService.deleteMerkleTree name) d tt d'
    /\ roots d' !! name = None
    /\ (forall a, proofs d' !! (name, a) = None)
    /\ same_elsewhere name d d'.
Proof. apply deleteMerkleTree_deletes. Qed.

(** X12 at the example, after a bulk insert that failed. *)
Lemma X12_deleteMerkleTree_deletes_the_tree_witness :
  well_keyed (example_db Failed)
  /\ exists d',
       succeeds (WhitelistDataService.deleteMerkleTree "presale") (example_db Failed) tt d'
       /\ roots d' !! "presale"%string = None
       /\ (forall a, proofs d' !! ("presale"%string, a) = None)
       /\ same_elsewhere "presale" (example_db Failed) d'.
Proof.
  assert (well_keyed (example_db Failed)) as Hwk.
  { apply (well_keyed_list_to_map "presale" example_records). repeat constructor. }
  split; [exact Hwk|].
  apply (X12_deleteMerkleTree_deletes_the_tree "presale" example_root Failed).
  - vm_compute. reflexivity.
  - reflexivity.
  - by right.
  - exact Hwk.
Defined.

(** X13.  When the provider returns every key of every batch delete as
    unprocessed, and serves the other requests, [deleteMerkleTree] on a
    COMPLETED or FAILED tree returns normally all the same: the roots
    row is deleted, and every proofs row is still in the table, where no
    read of the service finds it any more. *)
Theorem X13_deleteMerkleTree_may_leave_the_proofs
    (name root : string) (s : WhitelistStatus) (w : World) :
  WhitelistDataService.invalid_name name = false ->
  roots (db w) !! name = Some (MerkleRootRecord.mk root s) ->
  s = Completed \/ s = Failed ->
  well_keyed (db w) ->
  schedule w
  = Served :: Served :: Served
    :: replicate
         (List.length
            (DynamoDbService.chunkArray (partition name (db w))
               DynamoDbService.BatchWriteMaxItems)
          * 4) leaves_all ->
  fst (WhitelistDataService.deleteMerkleTree name w) = inr tt
  /\ roots (db (snd (WhitelistDataService.deleteMerkleTree name w))) = delete name (roots (db w))
  /\ proofs (db (snd (WhitelistDataService.deleteMerkleTree name w))) = proofs (db w).
Proof. apply deleteMerkleTree_leaves_proofs. Qed.

(** X13 at the example. *)
Lemma X13_deleteMerkleTree_may_leave_the_proofs_witness :
  fst (WhitelistDataService.deleteMerkleTree "presale"
         (fresh_world (example_db Completed)
            (Served :: Served :: Served :: replicate 4 leaves_all)))
  = inr tt
  /\ roots (db (snd (WhitelistDataService.deleteMerkleTree "presale"
                       (fresh_world (example_db Completed)
                          (Served :: Served :: Served :: replicate 4 leaves_all)))))
     = delete "presale"%string (roots (example_db Completed))
  /\ proofs (db (snd (WhitelistDataService.deleteMerkleTree "presale"
                        (fresh_world (example_db Completed)
                           (Served :: Served :: Served :: replicate 4 leaves_all)))))
     = proofs (example_db Completed).
Proof.
  apply (X13_deleteMerkleTree_may_leave_the_proofs "presale" example_root Completed
           (fresh_world (example_db Completed)
              (Served :: Served :: Served :: replicate 4 leaves_all))).
  - vm_compute. reflexivity.
  - reflexivity.
  - by left.
  - apply (well_keyed_list_to_map "presale" example_records). repeat constructor.
  - vm_compute. reflexivity.
Defined.

(** X14.  Create, then delete.  A tree created by the command service
    under a new name is COMPLETED, and [deleteMerkleTree] of the command
    service on it gives back the tables as they were before the
    creation, when the provider serves both in full. *)
Theorem X14_create_then_delete_restores_the_tables
    (name : string) (es : list WhitelistEntry.t) (d : Db) :
  invalid_whitelistName name = false ->
  CommandServiceBuilder.validateEntries Keccak.keccak256 es = inr tt ->
  es <> [] ->
  roots d !! name = None ->
  (forall a, proofs d !! (name, a) = None) ->
  well_keyed d ->
  exists d',
    succeeds (WhitelistCommandService.createMerkleTree Keccak.keccak256 name es) d tt d'
    /\ (exists root, roots d' !! name = Some (MerkleRootRecord.mk root Completed))
    /\ succeeds (WhitelistCommandService.deleteMerkleTree name) d' tt d.
Proof.
  apply (createMerkleTree_then_deleteMerkleTree Keccak.keccak256 Keccak_keccak256_range).
Qed.

(** X14 at the five rows of the fixture, on empty tables. *)
Lemma X14_create_then_delete_restores_the_tables_witness :
  exists d',
    succeeds (WhitelistCommandService.createMerkleTree Keccak.keccak256 "presale"
                fixture_entries) empty_db tt d'
    /\ (exists root, roots d' !! "presale"%string = Some (MerkleRootRecord.mk root Completed))
    /\ succeeds (WhitelistCommandService.deleteMerkleTree "presale") d' tt empty_db.
Proof.
  apply (X14_create_then_delete_restores_the_tables "presale" fixture_entries empty_db).
  - vm_compute. reflexivity.
  - vm_compute. reflexivity.
  - discriminate.
  - reflexivity.
  - intros a. apply lookup_empty.
  - intros n a r Hr. cbn in Hr. by rewrite lookup_empty in Hr.
Defined.

(** X15.  Whatever the provider does, a CreateTree or a DeleteTree on a
    name leaves every roots row and every proofs row of the other names
    as it is. *)
Theorem X15_operations_touch_one_name_only (op : Operation) (w : World) :
  same_elsewhere (Operation_name op) (db w) (db (snd (run_operation op w))).
Proof. by apply run_operation_isolated. Qed.

(** X16.  A roots row that is CREATING or DELETING stays as it is, with
    the proofs rows of its name, through every sequence of CreateTree and
    DeleteTree operations, whatever their names and rows and whatever the
    provider does: no operation of the service takes a tree out of these
    two states. *)
Theorem X16_pending_trees_are_stuck
    (name root : string) (s : WhitelistStatus) (ops : list Operation) (w : World) :
  s = Creating \/ s = Deleting ->
  roots (db w) !! name = Some (MerkleRootRecord.mk root s) ->
  roots (db (run_operations ops w)) !! name = Some (MerkleRootRecord.mk root s)
  /\ forall a, proofs (db (run_operations ops w)) !! (name, a) = proofs (db w) !! (name, a).
Proof. intros Hs. by apply pending_run_operations. Qed.

(** X16 at the example left CREATING, for a DeleteTree and a CreateTree
    of its name. *)
Lemma X16_pending_trees_are_stuck_witness :
  roots (db (run_operations [DeleteTree "presale"; CreateTree "presale" fixture_entries]
               (fresh_world (example_db Creating) [])))
    !! "presale"%string
  = Some (MerkleRootRecord.mk example_root Creating)
  /\ forall a,
       proofs (db (run_operations [DeleteTree "presale"; CreateTree "presale" fixture_entries]
                     (fresh_world (example_db Creating) [])))
         !! ("presale"%string, a)
       = proofs (db (fresh_world (example_db Creating) [])) !! ("presale"%string, a).
Proof.
  apply (X16_pending_trees_are_stuck "presale" example_root Creating); [by left|reflexivity].
Defined.

(** X17.  [getMerkleProofs] of the query service.  Whatever the provider
    does, a list that the call returns is the list of the proofs rows of
    the name, and the roots row of the name is COMPLETED; the tables are
    as before.  And when the roots row is COMPLETED and the provider
    serves in full, the call returns that list. *)
Theorem X17_getMerkleProofs_returns_the_rows_of_a_completed_tree (name : string) :
  (forall w records,
     fst (WhitelistQueryService.getMerkleProofs name w) = inr records ->
     (exists root, roots (db w) !! name = Some (MerkleRootRecord.mk root Completed))
     /\ (forall r, r ∈ records <-> exists a, proofs (db w) !! (name, a) = Some r)
     /\ db (snd (WhitelistQueryService.getMerkleProofs name w)) = db w)
  /\ (forall d root,
        invalid_whitelistName name = false ->
        roots d !! name = Some (MerkleRootRecord.mk root Completed) ->
        succeeds (WhitelistQueryService.getMerkleProofs name) d (partition name d) d).
Proof.
  split.
  - intros w records. apply getMerkleProofs_sound.
  - intros d root. apply succeeds_getMerkleProofs.
Qed.

(** X17 at the example: the two records are returned. *)
Lemma X17_getMerkleProofs_returns_the_rows_of_a_completed_tree_witness :
  succeeds (WhitelistQueryService.getMerkleProofs "presale")
    (example_db Completed) (partition "presale" (example_db Completed)) (example_db Completed)
  /\ List.length (partition "presale" (example_db Completed)) = 2%nat.
Proof.
  split; [|vm_compute; reflexivity].
  apply (proj2 (X17_getMerkleProofs_returns_the_rows_of_a_completed_tree "presale")
           (example_db Completed) example_root); [vm_compute; reflexivity|reflexivity].
Defined.

(** X18.  The reads write nothing: whatever the provider does and
    whatever they return or raise, [getMerkleProof], [getMerkleProofs]
    and [getMerkleRoot] of the query service leave the two tables as they
    are. *)
Theorem X18_reads_write_nothing (name address : string) (w : World) :
  db (snd (WhitelistQueryService.getMerkleProof Keccak.keccak256 name address w)) = db w
  /\ db (snd (WhitelistQueryService.getMerkleProofs name w)) = db w
  /\ db (snd (WhitelistQueryService.getMerkleRoot name w)) = db w.
Proof.
  split; [by apply (readonly_query_getMerkleProof (db w) Keccak.keccak256 name address w)|].
  split; [by apply (readonly_query_getMerkleProofs (db w) name w)|].
  by apply (readonly_query_getMerkleRoot (db w) name w).
Qed.

(** X19.  Whatever the provider does, the operations keep the proofs
    table keyed by the addresses of its rows, each of 1 to 1024
    characters: the keys that [deleteMerkleTree] reads back from the
    table pass the check of [batchDeleteWrite] on its sort keys. *)
Theorem X19_proofs_rows_stay_keyed_by_their_address (ops : list Operation) (w : World) :
  well_keyed (db w) -> well_keyed (db (run_operations ops w)).
Proof. apply well_keyed_run_operations. Qed.

(** X19 at tables that hold the rows of a tree: a CreateTree of the
    fixture under another name and a DeleteTree of the first tree, both
    served, after which the rows of the new tree are there and those of
    the first are gone. *)
Lemma X19_proofs_rows_stay_keyed_by_their_address_witness :
  well_keyed (example_db Completed)
  /\ proofs (example_db Completed) !! ("presale"%string, example_address) = Some example_record
  /\ proofs (db (run_operations
                   [CreateTree "airdrop" fixture_entries; DeleteTree "presale"]
                   (fresh_world (example_db Completed) [])))
       !! ("airdrop"%string, example_address) = Some example_record
  /\ proofs (db (run_operations
                   [CreateTree "airdrop" fixture_entries; DeleteTree "presale"]
                   (fresh_world (example_db Completed) [])))
       !! ("presale"%string, example_address) = None
  /\ well_keyed (db (run_operations
                       [CreateTree "airdrop" fixture_entries; DeleteTree "presale"]
                       (fresh_world (example_db Completed) []))).
Proof.
  assert (well_keyed (example_db Completed)) as Hwk.
  { apply (well_keyed_list_to_map "presale" example_records). repeat constructor. }
  split; [exact Hwk|]. split; [vm_compute; reflexivity|].
  split; [vm_compute; reflexivity|]. split; [vm_compute; reflexivity|].
  apply (X19_proofs_rows_stay_keyed_by_their_address
           [CreateTree "airdrop" fixture_entries; DeleteTree "presale"]
           (fresh_world (example_db Completed) [])).
  exact Hwk.
Defined.

(** ** The contract *)

(** X20.  Only the owner changes the contract: after any sequence of
    [updateRoot], [transferOwnership] and [renounceOwnership]
    transactions none of which the owner sends, the owner and the root
    are as before, every one of them having reverted. *)
Theorem X20_only_the_owner_changes_the_contract
    (txs : list (Z * Contract.Call)) (st : Contract.State) :
  Forall (fun tx => fst tx <> Contract.owner st) txs ->
  Contract.run txs st = st
  /\ Forall (fun tx => Contract.execute (fst tx) (snd tx) st
                       = inl (Contract.OwnableUnauthorizedAccount (fst tx))) txs.
Proof.
  intros H. split; [by apply Contract_run_not_owner|].
  eapply Forall_impl; [exact H|]. intros [sender c] Hne. cbn [fst snd] in *.
  assert (negb (Contract.owner st =? sender) = true) as E
    by (apply negb_true_iff, Z.eqb_neq; congruence).
  destruct c;
    unfold Contract.execute, Contract.updateRoot, Contract.transferOwnership,
      Contract.renounceOwnership, Contract.onlyOwner; by rewrite E.
Qed.

(** X20 at the contract of the example and two transactions of another
    account. *)
Lemma X20_only_the_owner_changes_the_contract_witness :
  Contract.run [(2, Contract.UpdateRoot fixture_new_root); (2, Contract.TransferOwnership 2)]
    example_state
  = example_state.
Proof.
  apply (X20_only_the_owner_changes_the_contract
           [(2, Contract.UpdateRoot fixture_new_root); (2, Contract.TransferOwnership 2)]
           example_state).
  repeat constructor; cbn; discriminate.
Defined.

(** X21.  A transaction after which the root is another one is an
    [updateRoot] of the owner to that root, and it emits
    [RootChange(oldRoot, newRoot)]. *)
Theorem X21_the_root_moves_by_updateRoot_of_the_owner
    (st : Contract.State) (tx : Z * Contract.Call) :
  Contract.merkleRoot (Contract.after st tx) <> Contract.merkleRoot st ->
  fst tx = Contract.owner st
  /\ snd tx = Contract.UpdateRoot (Contract.merkleRoot (Contract.after st tx))
  /\ Contract.execute (fst tx) (snd tx) st
     = inr ([Contract.RootChange (Contract.merkleRoot st)
               (Contract.merkleRoot (Contract.after st tx))],
            Contract.after st tx).
Proof. apply Contract_root_moves. Qed.

(** X21 at the update of the root of the test. *)
Lemma X21_the_root_moves_by_updateRoot_of_the_owner_witness :
  Contract.execute example_owner (Contract.UpdateRoot fixture_new_root) example_state
  = inr ([Contract.RootChange (Contract.merkleRoot example_state) fixture_new_root],
         Contract.mkState example_owner fixture_new_root).
Proof.
  destruct (X21_the_root_moves_by_updateRoot_of_the_owner example_state
              (example_owner, Contract.UpdateRoot fixture_new_root))
    as (_ & _ & H); [cbn; discriminate|exact H].
Defined.

(** X22.  An update of the root to another value by the owner puts the
    proofs of the former tree out of use: the update emits
    [RootChange(oldRoot, newRoot)], and a call of [isWhitelistedFor]
    that returned true before it reverts with "MTWL: invalid proof"
    after it. *)
Theorem X22_updateRoot_puts_former_proofs_out_of_use
    (st : Contract.State) (newRoot whitelistAddress whitelistAmountWei : Z) (proof : list Z) :
  Contract.isWhitelistedFor Keccak.keccak256 st whitelistAddress whitelistAmountWei proof
  = inr true ->
  newRoot <> Contract.merkleRoot st ->
  exists st',
    Contract.updateRoot (Contract.owner st) newRoot st
    = inr ([Contract.RootChange (Contract.merkleRoot st) newRoot], st')
    /\ Contract.owner st' = Contract.owner st
    /\ Contract.merkleRoot st' = newRoot
    /\ Contract.isWhitelistedFor Keccak.keccak256 st' whitelistAddress whitelistAmountWei proof
       = inl "MTWL: invalid proof"%string.
Proof. apply Contract_updateRoot_invalidates. Qed.

(** X22 at the first row of the fixture and the update of the test. *)
Lemma X22_updateRoot_puts_former_proofs_out_of_use_witness :
  Contract.isWhitelistedFor Keccak.keccak256 example_state
    (account "0xd31FE45F219963F58A7B380dA710646858F48031") 6666670000000000000000
    fixture_proof
  = inr true
  /\ exists st',
       Contract.updateRoot (Contract.owner example_state) fixture_new_root example_state
       = inr ([Contract.RootChange (Contract.merkleRoot example_state) fixture_new_root], st')
       /\ Contract.owner st' = Contract.owner example_state
       /\ Contract.merkleRoot st' = fixture_new_root
       /\ Contract.isWhitelistedFor Keccak.keccak256 st'
            (account "0xd31FE45F219963F58A7B380dA710646858F48031") 6666670000000000000000
            fixture_proof
          = inl "MTWL: invalid proof"%string.
Proof.
  split; [vm_compute; reflexivity|].
  apply (X22_updateRoot_puts_former_proofs_out_of_use example_state fixture_new_root);
    [vm_compute; reflexivity|cbn; discriminate].
Defined.

(** ** The handler *)

(** X23.  [isUserAuthorized] accepts a caller exactly when the route has
    no authorized group, or the caller is a member of an authorized
    group; so a route without a configured group is open to every caller,
    as are GetMerkleProof and GetMerkleTrees under every configuration,
    and a caller without a group passes on these routes only. *)
Theorem X23_isUserAuthorized_characterised
    (cfg : Handler.Configuration) (authorizedGroups groupMemberships : list string) :
  (Handler.isUserAuthorized authorizedGroups groupMemberships = true
   <-> authorizedGroups = []
       \/ exists group, group ∈ authorizedGroups /\ group ∈ groupMemberships)
  /\ Handler.isUserAuthorized
       (Handler.AuthorizedGroups cfg Handler.GetMerkleProof) groupMemberships = true
  /\ Handler.isUserAuthorized
       (Handler.AuthorizedGroups cfg Handler.GetMerkleTrees) groupMemberships = true
  /\ (Handler.isUserAuthorized authorizedGroups [] = true <-> authorizedGroups = []).
Proof.
  split; [apply isUserAuthorized_spec|].
  split; [reflexivity|]. split; [reflexivity|].
  rewrite isUserAuthorized_spec. split; [|by left].
  intros [H|(group & _ & H)]; [done|]. by apply elem_of_nil in H.
Qed.

(** ** The strings of the roots *)

(** X24.  Round trip of the "0x" string of a bytes32, as the builder
    writes the root and the siblings: the string has 66 characters and
    reads back as the value, so that two values with the same string are
    equal. *)
Theorem X24_hexlify32_round_trip (h1 h2 : Z) :
  0 <= h1 < 2 ^ 256 -> 0 <= h2 < 2 ^ 256 ->
  String.length (Hex.hexlify32 h1) = 66%nat
  /\ Hex.parse32 (Hex.hexlify32 h1) = Some h1
  /\ (Hex.hexlify32 h1 = Hex.hexlify32 h2 -> h1 = h2).
Proof.
  intros H1 H2. split.
  { unfold Hex.hexlify32. rewrite <- length_chars, chars_str, length_app, Hex_digits_length.
    reflexivity. }
  split; [by apply parse32_hexlify32|].
  intros E. apply (f_equal Hex.parse32) in E.
  rewrite !parse32_hexlify32 in E by done. by injection E.
Qed.

(** X24 at the root of the fixture. *)
Lemma X24_hexlify32_round_trip_witness :
  Hex.parse32 (Hex.hexlify32 (Contract.merkleRoot example_state))
  = Some (Contract.merkleRoot example_state)
  /\ Hex.hexlify32 (Contract.merkleRoot example_state) = example_root.
Proof.
  split; [|vm_compute; reflexivity].
  apply (X24_hexlify32_round_trip (Contract.merkleRoot example_state) 0);
    vm_compute; split; congruence.
Defined.

(** ** More of the adapter and of the services *)

(** X25.  [getMerkleRoot] of the query service.  A name that fails the
    checks raises a validation error and no request is sent.  Otherwise
    one request is sent, the read of the roots row: served, the call
    returns the row, of a tree in any status, or absent; raised by the
    provider, the exception comes back as a [NoSqlError] of the same
    name, with the message of the provider, or "Access denied" instead
    of it for an [AccessDeniedException]. *)
Theorem X25_getMerkleRoot_outcomes (name : string) (w : World) :
  (invalid_whitelistName name = true ->
   WhitelistQueryService.getMerkleRoot name w
   = (inl (ValidationError ("[ERR] Invalid whitelist name: " +:+ name)), w))
  /\ (invalid_whitelistName name = false ->
      requests_since w (snd (WhitelistQueryService.getMerkleRoot name w))
      = [GetCommandRoot name]
      /\ (is_served (fst (next_outcome w)) = true ->
          fst (WhitelistQueryService.getMerkleRoot name w) = inr (roots (db w) !! name))
      /\ (forall kind message,
            fst (next_outcome w) = Raises kind message ->
            fst (WhitelistQueryService.getMerkleRoot name w)
            = inl (NoSqlError (DynamoDBKind_name kind)
                     (if bool_decide (kind = OtherServiceException "AccessDeniedException")
                      then "Access denied" else message)))).
Proof.
  split; [apply getMerkleRoot_invalid|]. intros Hn.
  assert (forall x, WhitelistQueryService.getMerkleRoot name w
                    = (x, step w (GetCommandRoot name) (db w)) ->
          requests_since w (snd (WhitelistQueryService.getMerkleRoot name w))
          = [GetCommandRoot name]) as Hreq.
  { intros x ->. cbn [snd]. unfold requests_since, step. cbn [log].
    by rewrite drop_app_length. }
  split.
  - destruct (fst (next_outcome w)) as [|kind message|u] eqn:Eo.
    + by apply (Hreq _ (getMerkleRoot_served name w Hn ltac:(by rewrite Eo))).
    + by apply (Hreq _ (getMerkleRoot_raised name w kind message Hn Eo)).
    + by apply (Hreq _ (getMerkleRoot_served name w Hn ltac:(by rewrite Eo))).
  - split.
    + intros Hs. by rewrite (getMerkleRoot_served name w Hn Hs).
    + intros kind message Ho. rewrite (getMerkleRoot_raised name w kind message Hn Ho).
      cbn [fst WhitelistDataService.rethrow]. do 2 f_equal.
      destruct kind as [| | | | | | | | | |n]; try reflexivity.
      destruct (String.eqb_spec n "AccessDeniedException") as [->|Hne].
      * by rewrite bool_decide_eq_true_2.
      * rewrite bool_decide_eq_false_2; [done|]. congruence.
Qed.

(** X26.  [batchPutWrite] writes every record, one request for each
    chunk of 25, when each answer of the provider comes without the field
    [UnprocessedItems]: a record replaces the row that the table has
    under its address, where an INSERT would be refused. *)
Theorem X26_batchPutWrite_puts_every_record
    (name : string) (records : list MerkleProofRecord.t) (maxRetries : Z) (w : World)
    (rest : list Outcome) :
  WhitelistDataService.invalid_name name = false ->
  0 <= maxRetries ->
  schedule w
  = replicate (List.length (DynamoDbService.chunkArray records
                              DynamoDbService.BatchWriteMaxItems))
      (ServedLeaving FieldAbsent) ++ rest ->
  fst (DynamoDbService.batchPutWrite name records maxRetries w) = inr tt
  /\ db (snd (DynamoDbService.batchPutWrite name records maxRetries w))
     = mkDb (roots (db w)) (insert_records name records (proofs (db w)))
  /\ schedule (snd (DynamoDbService.batchPutWrite name records maxRetries w)) = rest
  /\ List.length (log (snd (DynamoDbService.batchPutWrite name records maxRetries w)))
     = (List.length (log w)
        + List.length (DynamoDbService.chunkArray records DynamoDbService.BatchWriteMaxItems))%nat.
Proof. apply batchPutWrite_absent. Qed.

(** X26 at the two records of the example, put over themselves. *)
Lemma X26_batchPutWrite_puts_every_record_witness :
  fst (DynamoDbService.batchPutWrite "presale" example_records 3
         (fresh_world (example_db Completed) [ServedLeaving FieldAbsent]))
  = inr tt
  /\ List.length
       (log (snd (DynamoDbService.batchPutWrite "presale" example_records 3
                    (fresh_world (example_db Completed) [ServedLeaving FieldAbsent]))))
     = 1%nat.
Proof.
  destruct (X26_batchPutWrite_puts_every_record "presale" example_records 3
              (fresh_world (example_db Completed) [ServedLeaving FieldAbsent]) [])
    as (H1 & _ & _ & H4).
  - vm_compute. reflexivity.
  - lia.
  - reflexivity.
  - split; [exact H1|exact H4].
Defined.

(** X27.  [createMerkleTree] of the data service under a name without a
    roots row, served in full by the provider, for records that are not
    all new: two of them have the same address, or the table has a proofs
    row of the name at the address of one of them.  The call raises the
    plain [Error] of the bulk insert, which is neither a validation error
    nor a [NoSqlError]; the roots row of the name is left FAILED with the
    root; the roots rows of the other names are as before; and no proofs
    row that was in the table is changed. *)
Theorem X27_createMerkleTree_fails_on_a_row_that_exists
    (name root : string) (records : list MerkleProofRecord.t) (w : World) :
  WhitelistDataService.invalid_name name = false ->
  roots (db w) !! name = None ->
  serves_in_full w ->
  ~ (NoDup (MerkleProofRecord.WhitelistAddress <$> records)
     /\ Forall (fun r => proofs (db w) !! (name, MerkleProofRecord.WhitelistAddress r) = None)
          records) ->
  (exists msg,
     fst (WhitelistDataService.createMerkleTree name root records w)
     = inl (Error_ "Error" msg))
  /\ roots (db (snd (WhitelistDataService.createMerkleTree name root records w))) !! name
     = Some (MerkleRootRecord.mk root Failed)
  /\ (forall n, n <> name ->
        roots (db (snd (WhitelistDataService.createMerkleTree name root records w))) !! n
        = roots (db w) !! n)
  /\ (forall k r, proofs (db w) !! k = Some r ->
        proofs (db (snd (WhitelistDataService.createMerkleTree name root records w))) !! k
        = Some r).
Proof. apply createMerkleTree_meets_a_row. Qed.

(** X27 at the proofs rows of the example without their roots row, as
    a [deleteMerkleTree] that gave up on them leaves them. *)
Lemma X27_createMerkleTree_fails_on_a_row_that_exists_witness :
  (exists msg,
     fst (WhitelistDataService.createMerkleTree "presale" example_root example_records
            (fresh_world (mkDb ∅ (proofs (example_db Completed))) []))
     = inl (Error_ "Error" msg))
  /\ roots (db (snd (WhitelistDataService.createMerkleTree "presale" example_root
                       example_records
                       (fresh_world (mkDb ∅ (proofs (example_db Completed))) []))))
       !! "presale"%string
     = Some (MerkleRootRecord.mk example_root Failed).
Proof.
  destruct (X27_createMerkleTree_fails_on_a_row_that_exists "presale" example_root
              example_records (fresh_world (mkDb ∅ (proofs (example_db Completed))) []))
    as (H1 & H2 & _).
  - vm_compute. reflexivity.
  - reflexivity.
  - reflexivity.
  - intros [_ Hnew]. apply Forall_cons in Hnew as [Hnew _]. vm_compute in Hnew.
    discriminate Hnew.
  - split; [exact H1|exact H2].
Defined.

Lemma every_sortKeyValue_first index keys i k :
  (forall j k', (j < i)%nat -> keys !! j = Some k' ->
     DynamoDbService.invalid_length DynamoDbService.ValidSortKeyValueMinLen
       DynamoDbService.ValidSortKeyValueMaxLen k' = false) ->
  keys !! i = Some k ->
  DynamoDbService.invalid_length DynamoDbService.ValidSortKeyValueMinLen
    DynamoDbService.ValidSortKeyValueMaxLen k = true ->
  DynamoDbService.every_sortKeyValue index keys
  = Some ("[ERR] Invalid sort key value at " +:+ nat_toString (index + i) +:+ ": " +:+ k).
Proof.
  revert index i. induction keys as [|k0 keys IH]; intros index i Hbefore Hi Hk; [done|].
  cbn [DynamoDbService.every_sortKeyValue]. destruct i as [|i]; cbn in Hi.
  - injection Hi as ->. by rewrite Hk, Nat.add_0_r.
  - rewrite (Hbefore 0%nat k0) by (done || lia).
    rewrite (IH (S index) i); [by rewrite Nat.add_succ_comm| |done|done].
    intros j k' Hj Hk'. apply (Hbefore (S j)); [lia|done].
Qed.

(** X28.  [batchDeleteWrite] checks all of its input before it sends a
    request: a negative [maxRetries], or a key of no character or of more
    than 1024, raises a validation error (for the key, with the index and
    the key of the first such one) and no request is sent, so that no key
    is deleted, not even those before it; and an empty list of keys
    returns without a request. *)
Theorem X28_batchDeleteWrite_checks_before_it_sends
    (name : string) (keys : list string) (maxRetries : Z) (w : World) :
  WhitelistDataService.invalid_name name = false ->
  (maxRetries < 0 ->
   DynamoDbService.batchDeleteWrite name keys maxRetries w
   = (inl (ValidationError ("[ERR] Max retries must be greater or equal to zero: "
                            +:+ Ethers.toString maxRetries)), w))
  /\ (0 <= maxRetries ->
      forall i k,
        (forall j k', (j < i)%nat -> keys !! j = Some k' ->
           DynamoDbService.invalid_length DynamoDbService.ValidSortKeyValueMinLen
             DynamoDbService.ValidSortKeyValueMaxLen k' = false) ->
        keys !! i = Some k ->
        DynamoDbService.invalid_length DynamoDbService.ValidSortKeyValueMinLen
          DynamoDbService.ValidSortKeyValueMaxLen k = true ->
        DynamoDbService.batchDeleteWrite name keys maxRetries w
        = (inl (ValidationError ("[ERR] Invalid sort key value at " +:+ nat_toString i
                                 +:+ ": " +:+ k)), w))
  /\ (0 <= maxRetries -> keys = [] ->
      DynamoDbService.batchDeleteWrite name keys maxRetries w = (inr tt, w)).
Proof.
  intros Hv. unfold DynamoDbService.batchDeleteWrite.
  rewrite (check_partitionKeyValue_valid _ _ Hv).
  split; [|split].
  - intros Hm. by assert ((maxRetries <? 0) = true) as -> by lia.
  - intros Hm i k Hbefore Hi Hk. assert ((maxRetries <? 0) = false) as -> by lia.
    by rewrite (every_sortKeyValue_first 0 keys i k Hbefore Hi Hk).
  - intros Hm ->. by assert ((maxRetries <? 0) = false) as -> by lia.
Qed.

(** X28 at a list whose second key is empty. *)
Lemma X28_batchDeleteWrite_checks_before_it_sends_witness :
  DynamoDbService.batchDeleteWrite "presale" [example_address; ""%string] 3
    (fresh_world (example_db Completed) [])
  = (inl (ValidationError "[ERR] Invalid sort key value at 1: "),
     fresh_world (example_db Completed) []).
Proof.
  destruct (X28_batchDeleteWrite_checks_before_it_sends "presale"
              [example_address; ""%string] 3 (fresh_world (example_db Completed) []))
    as (_ & H & _); [vm_compute; reflexivity|].
  apply (H ltac:(lia) 1%nat ""%string).
  - intros j k' Hj Hk'. destruct j as [|j]; [|lia]. injection Hk' as <-.
    vm_compute. reflexivity.
  - reflexivity.
  - reflexivity.
Defined.

(** X29.  The verifier of the contract and the verifier of the tree
    library agree on every root and every proof, not on the emitted ones
    only: for the checksummed address and the amount in wei of a row that
    the gate accepts, [isWhitelistedFor] returns true exactly when the
    library verifies the proof, and reverts with "MTWL: invalid proof"
    exactly when the library refuses it. *)
Theorem X29_contract_and_library_verify_alike
    (e : WhitelistEntry.t) (a : string) (w rootZ : Z) (proof : list Z) :
  CommandServiceBuilder.accepted Keccak.keccak256 e a w ->
  (MerkleTreeLib.verify Keccak.keccak256 rootZ (a, Ethers.toString w) proof = Some true
   <-> MerkleTreeWhitelist.isWhitelistedFor Keccak.keccak256 rootZ (account a) w proof
       = inr true)
  /\ (MerkleTreeLib.verify Keccak.keccak256 rootZ (a, Ethers.toString w) proof = Some false
      <-> MerkleTreeWhitelist.isWhitelistedFor Keccak.keccak256 rootZ (account a) w proof
          = inl "MTWL: invalid proof"%string).
Proof. apply verifiers_agree. Qed.

(** X29 at the second row of the fixture, the root of the fixture and
    the proof of the first row: the contract refuses it, as the library
    does. *)
Lemma X29_contract_and_library_verify_alike_witness :
  exists a w,
    CommandServiceBuilder.accepted Keccak.keccak256
      (WhitelistEntry.mk example_address "1250") a w
    /\ MerkleTreeWhitelist.isWhitelistedFor Keccak.keccak256
         (Contract.merkleRoot example_state) (account a) w fixture_proof
       = inl "MTWL: invalid proof"%string.
Proof.
  destruct (proj1 (every_None Keccak.keccak256 0 [WhitelistEntry.mk example_address "1250"])
              ltac:(vm_compute; reflexivity) 0%nat _ eq_refl) as (a & w & Ha).
  exists a, w. split; [exact Ha|].
  apply (X29_contract_and_library_verify_alike _ a w
           (Contract.merkleRoot example_state) fixture_proof Ha).
  pose proof Ha as (_ & _ & _ & Hga & _ & Hpe & _).
  vm_compute in Hga. injection Hga as <-. vm_compute in Hpe. injection Hpe as <-.
  vm_compute. reflexivity.
Defined.

(** X30.  Whatever the provider does, the operations keep every roots
    row holding the "0x" string of a bytes32: a root that a consumer
    reads from the table is one that the contract can be given. *)
Theorem X30_stored_roots_are_bytes32_strings (ops : list Operation) (w : World) :
  well_rooted (db w) -> well_rooted (db (run_operations ops w)).
Proof. apply well_rooted_run_operations. Qed.

(** X30 at a CreateTree of the fixture on empty tables, the bulk insert
    of which the provider refuses. *)
Lemma X30_stored_roots_are_bytes32_strings_witness :
  well_rooted (db (run_operations [CreateTree "presale" fixture_entries]
                     (fresh_world empty_db bulk_fault))).
Proof.
  apply (X30_stored_roots_are_bytes32_strings
           [CreateTree "presale" fixture_entries] (fresh_world empty_db bulk_fault)).
  intros n r Hr. cbn in Hr. by rewrite lookup_empty in Hr.
Defined.

(** * Examples on the fixture *)

Example keccak256_empty :
  Keccak.keccak256 [] = 0xc5d2460186f7233c927e7db2dcc703c0e500b653ca82273b7bfad8045d85a470.
Proof. vm_compute. reflexivity. Qed.

Example getAddress_fixture :
  Ethers.getAddress Keccak.keccak256 "0xd31fe45f219963f58a7b380da710646858f48031"
  = Some "0xd31FE45F219963F58A7B380dA710646858F48031"%string.
Proof. vm_compute. reflexivity. Qed.

Example parseEther_fixture :
  Ethers.parseEther "53228.051486152399030389" = Some 53228051486152399030389
  /\ Ethers.parseEther "1250.00" = Some 1250000000000000000000
  /\ Ethers.parseEther ".5" = Some 500000000000000000
  /\ Ethers.parseEther "-1" = Some (-1000000000000000000)
  /\ Ethers.parseEther "1.0000000000000000001" = None
  /\ Ethers.parseEther "." = None.
Proof. vm_compute. repeat split; reflexivity. Qed.

(** The five rows of the on-chain test fixture pass the gate and give the
    root and the five proofs of test/MerkleTreeWhitelist.ts. *)
Example validateEntries_fixture :
  CommandServiceBuilder.validateEntries Keccak.keccak256 fixture_entries = inr tt.
Proof. vm_compute. reflexivity. Qed.

Example buildMerkleTree_fixture :
  CommandServiceBuilder.buildMerkleTree Keccak.keccak256 fixture_entries =
  inr ("0x67063f96b1592f043a1e7998ffec6a4b984a6511566585f51bb418d9ead0578b"%string,
       [ MerkleProofRecord.mk
           "0x079f6dbc66bf225bbf74af970ec855b0bc1d0717b98f7ccc49429523230c0f3a,0x8fca9c4aa56f15a12b252f1bafbbb3b0f6f47c446f50afcd7821b7bd4a103054,0x49e29e71bc8db42b06dd633099c6caa1b492f8d53326ee5d625a14c9ef2d557c"
           "0xd31FE45F219963F58A7B380dA710646858F48031" "6666670000000000000000";
         MerkleProofRecord.mk
           "0x44141ee35027f7b42644315ea4da336bf201261911260880fbe8eba6784a333a,0x17f2865fdf204ab017540cdd07d851c46fa0aa1618fe00b5ed8cebf31fa0fe0b"
           "0x9F2e3fc83077d042f9CB8Ce8cd78f9eD031eBa16" "1250000000000000000000";
         MerkleProofRecord.mk
           "0x8a39ecb656b1701d0e580b977ed99d7f5d218044f1d69703bbb107686dca535e,0x17f2865fdf204ab017540cdd07d851c46fa0aa1618fe00b5ed8cebf31fa0fe0b"
           "0x9833B846628D174921D81255d6be016157447cAE" "53228051486152399030389";
         MerkleProofRecord.mk
           "0xcb6b03562e508d3c50e99dcf241bdb843227569858cf082b080e7e3c1ee985cf,0x49e29e71bc8db42b06dd633099c6caa1b492f8d53326ee5d625a14c9ef2d557c"
           "0xE1F3Ef67355d81885A55C22f3ECfa2826a1C1B3d" "1250000000000000000000";
         MerkleProofRecord.mk
           "0x09a88bdaa0460494395062b1da833775fab1c78839c4c6d05b89e30b96ec2986,0x8fca9c4aa56f15a12b252f1bafbbb3b0f6f47c446f50afcd7821b7bd4a103054,0x49e29e71bc8db42b06dd633099c6caa1b492f8d53326ee5d625a14c9ef2d557c"
           "0xbB08678DF8e0808ba17b880978C4Af6e6eEe6722" "16023916666666666666667" ]).
Proof. vm_compute. reflexivity. Qed.

(** [batchDeleteWrite] with the default [maxRetries] of 3, when the
    provider returns every item as unprocessed: four batch writes of the
    same two items, a sleep of 10, 20, 40 and 80 ms after them, and a
    normal return, with the rows still in the table. *)
Example batchDeleteWrite_retries_exhausted :
  fst (DynamoDbService.batchDeleteWrite "presale"
         (MerkleProofRecord.WhitelistAddress <$> example_records)
         DynamoDbService.BatchWriteDefaultMaxRetries
         (fresh_world (example_db Completed) nothing_processed))
  = inr tt
  /\ slept (snd (DynamoDbService.batchDeleteWrite "presale"
                   (MerkleProofRecord.WhitelistAddress <$> example_records)
                   DynamoDbService.BatchWriteDefaultMaxRetries
                   (fresh_world (example_db Completed) nothing_processed)))
     = [10; 20; 40; 80]
  /\ requests_since (fresh_world (example_db Completed) nothing_processed)
       (snd (DynamoDbService.batchDeleteWrite "presale"
               (MerkleProofRecord.WhitelistAddress <$> example_records)
               DynamoDbService.BatchWriteDefaultMaxRetries
               (fresh_world (example_db Completed) nothing_processed)))
     = replicate 4
         (BatchWriteCommand "presale"
            (DeleteRequest <$> (MerkleProofRecord.WhitelistAddress <$> example_records)))
  /\ proofs (db (snd (DynamoDbService.batchDeleteWrite "presale"
                        (MerkleProofRecord.WhitelistAddress <$> example_records)
                        DynamoDbService.BatchWriteDefaultMaxRetries
                        (fresh_world (example_db Completed) nothing_processed))))
       !! ("presale"%string, example_address)
     = example_records !! 0%nat.
Proof. repeat split; vm_compute; reflexivity. Qed.

(** The statuses of the roots row after each request of a CreateTree of
    the fixture and a DeleteTree, served by the provider. *)
Example run_operations_fixture :
  (fun e => MerkleRootRecord.WhitelistStatus <$> (roots_after e !! "presale"%string))
    <$> log (run_operations [CreateTree "presale" fixture_entries; DeleteTree "presale"]
               (fresh_world empty_db []))
  = [Some Creating; Some Creating; Some Completed;
     Some Completed; Some Deleting; Some Deleting; Some Deleting; None].
Proof. vm_compute. reflexivity. Qed.
